(** * Polysat: forbidden intervals, viable domains and the search trail

    A shallow embedding of the parts of [math/polysat] that the
    specification's testable properties talk about:

    - [interval.h]   : half-open intervals over Z/2^w (module [Interval]);
    - [viable.cpp]   : per-variable forbidden-interval lists, their
                       refinement and the bounded query loop (module [Viable]);
    - [solver.cpp]   : the trail, backjumping, user scopes, variable
                       watches and restarts (module [Solver]).

    Conventions.  A C++ [rational] holding an integer is a [Z]; an
    [unsigned] is a [Z] together with an explicit reduction modulo 2^32
    where the code can wrap.  A [vector] is a [list] in index order, so
    [push_back x] is [l ++ [x]] and [back] is the last element. *)

From Stdlib Require Import ZArith List Bool Lia Arith Sorted Zcong.
Import ListNotations.
Open Scope Z_scope.

Set Implicit Arguments.

(** ** util: three-valued booleans and vectors *)

Inductive lbool := l_false | l_undef | l_true.

Definition lbool_eqb (a b : lbool) : bool :=
  match a, b with
  | l_false, l_false | l_undef, l_undef | l_true, l_true => true
  | _, _ => false
  end.

Lemma lbool_eqb_eq a b : lbool_eqb a b = true <-> a = b.
Proof. destruct a, b; simpl; split; congruence. Qed.

Definition to_lbool (b : bool) : lbool := if b then l_true else l_false.

(** [unsnoc l] splits a non-empty vector into [pop_back] and [back]. *)
Fixpoint unsnoc {A} (l : list A) : option (list A * A) :=
  match l with
  | [] => None
  | x :: l' =>
      match unsnoc l' with
      | None => Some ([], x)
      | Some (r, y) => Some (x :: r, y)
      end
  end.

Lemma unsnoc_app {A} (l : list A) x : unsnoc (l ++ [x]) = Some (l, x).
Proof. induction l as [|a l IH]; simpl; [reflexivity|]. now rewrite IH. Qed.

Lemma unsnoc_None {A} (l : list A) : unsnoc l = None <-> l = [].
Proof.
  destruct l as [|a l]; simpl; [tauto|].
  destruct (unsnoc l) as [[r y]|]; split; congruence.
Qed.

Lemma unsnoc_Some {A} (l r : list A) x : unsnoc l = Some (r, x) <-> l = r ++ [x].
Proof.
  split.
  - revert r. induction l as [|a l IH]; simpl; intros r H; [discriminate|].
    destruct (unsnoc l) as [[r' y]|] eqn:E.
    + inversion H; subst. simpl. f_equal. now apply IH.
    + inversion H; subst. apply unsnoc_None in E. now subst.
  - intros ->. apply unsnoc_app.
Qed.

Lemma mod_sub_case (M a b : Z) : 0 <= a < M -> 0 <= b < M ->
  (a - b) mod M = if a <? b then a - b + M else a - b.
Proof.
  intros Ha Hb. destruct (Z.ltb_spec a b).
  - replace (a - b + M) with (a - b + 1 * M) by lia.
    rewrite <- (Z_mod_plus_full (a - b) 1 M). apply Z.mod_small. lia.
  - apply Z.mod_small. lia.
Qed.

(** ** math/polysat/interval.h *)

Module Interval.

(** A [pdd] is a polynomial of the external arithmetic engine.  The code
    modelled here only builds constants ([mk_val]) and reads the value of a
    constant ([val]); every other polynomial is opaque. *)
Inductive pdd :=
| mk_val (z : Z)
| pdd_term (n : nat).

Definition is_val (p : pdd) : bool :=
  match p with mk_val _ => true | pdd_term _ => false end.

Definition val (p : pdd) : Z :=
  match p with mk_val z => z | pdd_term _ => 0 end.

Record pdd_bounds := { lo : pdd; hi : pdd }.

(** [class interval]: [m_bounds] is [std::nullopt] for the full domain. *)
Module interval.
Definition t := option pdd_bounds.
Definition full : t := None.
Definition proper (l h : pdd) : t := Some {| lo := l; hi := h |}.
Definition empty : t := proper (mk_val 0) (mk_val 0).
Definition is_full (i : t) : bool :=
  match i with None => true | Some _ => false end.
Definition is_proper (i : t) : bool := negb (is_full i).
End interval.

(** [class eval_interval]: the symbolic interval with the values of its
    bounds under the current assignment. *)
Module eval_interval.
Record t := mk
  { m_symbolic : interval.t;
    m_concrete_lo : Z;
    m_concrete_hi : Z }.

Definition empty : t := mk interval.empty 0 0.
Definition full : t := mk interval.full 0 0.
Definition proper (l : pdd) (lo_val : Z) (h : pdd) (hi_val : Z) : t :=
  mk (interval.proper l h) lo_val hi_val.

Definition is_full (i : t) : bool := interval.is_full (m_symbolic i).
Definition is_proper (i : t) : bool := interval.is_proper (m_symbolic i).
Definition lo_val (i : t) : Z := m_concrete_lo i.
Definition hi_val (i : t) : Z := m_concrete_hi i.
Definition is_currently_empty (i : t) : bool :=
  is_proper i && (lo_val i =? hi_val i).

Definition sym_lo (i : t) : pdd :=
  match m_symbolic i with Some b => lo b | None => mk_val 0 end.
Definition sym_hi (i : t) : pdd :=
  match m_symbolic i with Some b => hi b | None => mk_val 0 end.

(** [current_len]; [two_to_N] is the modulus of the bounds' manager. *)
Definition current_len (two_to_N : Z) (i : t) : Z :=
  (hi_val i - lo_val i) mod two_to_N.

(** [bool currently_contains(rational const& val) const] *)
Definition currently_contains (i : t) (v : Z) : bool :=
  if is_full i then true
  else if lo_val i <=? hi_val i then (lo_val i <=? v) && (v <? hi_val i)
  else (v <? hi_val i) || (v >=? lo_val i).

(** [bool currently_contains(eval_interval const& other) const] *)
Definition currently_contains_interval (i other : t) : bool :=
  if is_full i then true
  else if is_full other then false
  else if (lo_val i <=? lo_val other) && (lo_val other <=? hi_val other)
          && (hi_val other <=? hi_val i) then true
  else if lo_val i <=? hi_val i then false
  else if (lo_val i <=? lo_val other) && (lo_val other <=? hi_val other) then true
  else if (lo_val other <=? hi_val other) && (hi_val other <=? hi_val i) then true
  else if (hi_val other <=? hi_val i) && (lo_val i <=? lo_val other) then true
  else false.
End eval_interval.

End Interval.

Import Interval.

(** *** Membership in an evaluated interval *)

Section Membership.
Import eval_interval.

Lemma contains_full v : currently_contains full v = true.
Proof. reflexivity. Qed.

Lemma contains_proper l lv h hv v :
  currently_contains (proper l lv h hv) v =
  if lv <=? hv then (lv <=? v) && (v <? hv) else (v <? hv) || (v >=? lv).
Proof. reflexivity. Qed.

(** Membership of a value, as a proposition over the integers: a bound
    pair with [lo <= hi] is the segment, one with [lo > hi] is the
    complement of [hi, lo). *)
Definition In_interval (i : t) (v : Z) : Prop :=
  is_full i = true \/
  (lo_val i <= hi_val i /\ lo_val i <= v < hi_val i) \/
  (hi_val i < lo_val i /\ (v < hi_val i \/ lo_val i <= v)).

Lemma currently_contains_spec i v :
  currently_contains i v = true <-> In_interval i v.
Proof.
  unfold currently_contains, In_interval.
  destruct (is_full i); [intuition|].
  destruct (Z.leb_spec (lo_val i) (hi_val i)).
  - rewrite andb_true_iff, Z.leb_le, Z.ltb_lt. intuition (try discriminate; lia).
  - rewrite orb_true_iff, Z.ltb_lt, Z.geb_le. intuition (try discriminate; lia).
Qed.
End Membership.

(** C4.  For a proper evaluated interval whose bounds [lo], [hi] and a value
    [t] all lie in [0, 2^w): [currently_contains t] holds exactly when
    [(t - lo) mod 2^w < (hi - lo) mod 2^w]; when [lo > hi] the interval is
    the union of [lo, 2^w) and [0, hi); when [lo = hi] it contains nothing. *)
Theorem currently_contains_mod_test (w : Z) (l h : pdd) (lo_v hi_v t : Z) :
  0 <= lo_v < 2 ^ w -> 0 <= hi_v < 2 ^ w -> 0 <= t < 2 ^ w ->
  let i := eval_interval.proper l lo_v h hi_v in
  (eval_interval.currently_contains i t = true <->
     (t - lo_v) mod 2 ^ w < (hi_v - lo_v) mod 2 ^ w) /\
  (hi_v < lo_v ->
     (eval_interval.currently_contains i t = true <->
        (lo_v <= t < 2 ^ w \/ 0 <= t < hi_v))) /\
  (lo_v = hi_v -> eval_interval.currently_contains i t = false).
Proof.
  intros Hl Hh Ht i. subst i. rewrite contains_proper.
  rewrite (mod_sub_case (M := 2 ^ w)) by lia.
  rewrite (mod_sub_case (M := 2 ^ w) (a := hi_v)) by lia.
  repeat split.
  - destruct (Z.leb_spec lo_v hi_v), (Z.ltb_spec t lo_v), (Z.ltb_spec hi_v lo_v);
      rewrite ?andb_true_iff, ?orb_true_iff, ?Z.leb_le, ?Z.ltb_lt, ?Z.geb_le; lia.
  - destruct (Z.leb_spec lo_v hi_v), (Z.ltb_spec t lo_v), (Z.ltb_spec hi_v lo_v);
      rewrite ?andb_true_iff, ?orb_true_iff, ?Z.leb_le, ?Z.ltb_lt, ?Z.geb_le; lia.
  - destruct (Z.leb_spec lo_v hi_v);
      rewrite ?andb_true_iff, ?orb_true_iff, ?Z.leb_le, ?Z.ltb_lt, ?Z.geb_le; lia.
  - destruct (Z.leb_spec lo_v hi_v);
      rewrite ?andb_true_iff, ?orb_true_iff, ?Z.leb_le, ?Z.ltb_lt, ?Z.geb_le; lia.
  - intros ->. rewrite Z.leb_refl. apply andb_false_iff.
    rewrite Z.leb_gt, Z.ltb_ge. lia.
Qed.

(** The membership test at width 4 on the wrapping interval [12, 3). *)
Lemma currently_contains_mod_test_witness :
  (eval_interval.currently_contains
     (eval_interval.proper (mk_val 12) 12 (mk_val 3) 3) 14 = true <->
     (14 - 12) mod 2 ^ 4 < (3 - 12) mod 2 ^ 4) /\
  (3 < 12 ->
     (eval_interval.currently_contains
        (eval_interval.proper (mk_val 12) 12 (mk_val 3) 3) 14 = true <->
        (12 <= 14 < 2 ^ 4 \/ 0 <= 14 < 3))) /\
  (12 = 3 ->
     eval_interval.currently_contains
       (eval_interval.proper (mk_val 12) 12 (mk_val 3) 3) 14 = false).
Proof.
  apply (@currently_contains_mod_test 4 (mk_val 12) (mk_val 3) 12 3 14);
    simpl; lia.
Defined.

(** ** Data of the viable-domain engine and of the solver

    [types.h], [viable.h], [search_state.h] and [solver.h] declare the data;
    [trail.h], [boolean.h], [constraint.h], [justification.h] and
    [forbidden_intervals.h] are not among the sources, their types are read
    off the way [solver.cpp] and [viable.cpp] use them. *)

Definition pvar := nat.

(** A [signed_constraint] is a constraint of the constraint store with a
    polarity; [blit] is its boolean literal.  The solver looks constraints
    up by literal ([lit2cnstr]), so the two are the same data here. *)
Record signed_constraint := mk_sc { bvar : nat; is_positive : bool }.

Definition literal := signed_constraint.
Definition blit (c : signed_constraint) : literal := c.
Definition lit2cnstr (l : literal) : signed_constraint := l.
Definition is_negative (c : signed_constraint) : bool := negb (is_positive c).
Definition negate (c : signed_constraint) : signed_constraint :=
  mk_sc (bvar c) (negb (is_positive c)).
Definition sc_eqb (a b : signed_constraint) : bool :=
  Nat.eqb (bvar a) (bvar b) && Bool.eqb (is_positive a) (is_positive b).

Lemma sc_eqb_eq a b : sc_eqb a b = true <-> a = b.
Proof.
  destruct a as [x p], b as [y q]. unfold sc_eqb. simpl.
  rewrite andb_true_iff, Nat.eqb_eq, Bool.eqb_true_iff.
  split; [intros [-> ->]; reflexivity | intros H; inversion H; auto].
Qed.

Lemma sc_eqb_refl a : sc_eqb a a = true.
Proof. now apply sc_eqb_eq. Qed.

(** [fixed_bits_info]: per bit of a variable, the value the bit is fixed to
    (or [l_undef]) and the literals that justify it.  The struct is not
    among the sources; its fields are read off [viable::extend_by_bits]. *)
Record fixed_bits_info := mk_fbi
  { fixed : list lbool;
    just_src : list (list literal);
    just_side_cond : list (list literal) }.

(** [trail_instr_t], as dispatched on by [solver::pop_levels]. *)
Inductive trail_instr_t :=
| qhead_i | add_var_i | inc_level_i | viable_add_i | viable_rem_i
| assign_i | assign_bool_i.

Inductive entry_kind := unit_e | equal_e | diseq_e.

(** [struct entry : dll_base<entry>, fi_record].  [eid] is the address of
    the node.  [m_prev] is the back link of [dll_base]; the model keeps it
    up to date only where the code reads it, namely on a node that has been
    unlinked ([remove_from] leaves the links of the removed node as they
    were, and [push_viable] follows them). *)
Record entry := mk_entry
  { eid : nat;
    src : list signed_constraint;
    side_cond : list signed_constraint;
    coeff : Z;
    interval : eval_interval.t;
    bit_width : nat;
    refined : bool;
    m_prev : nat }.

Definition set_m_prev (p : nat) (e : entry) : entry :=
  mk_entry (eid e) (src e) (side_cond e) (coeff e) (interval e)
    (bit_width e) (refined e) p.

Definition e_lo (e : entry) : Z := eval_interval.lo_val (interval e).
Definition e_hi (e : entry) : Z := eval_interval.hi_val (interval e).

(** A circular list is the list of its nodes in [next] order, starting at
    the node the list pointer designates; [[]] is [nullptr]. *)
Definition ring := list entry.

Module layer.
Record t := mk { bit_width : nat; entries : ring }.
End layer.

Definition layers := list layer.t.

Module viable.
(** [m_alloc] is the pool of recycled nodes and [m_heap] the next address
    [alloc(entry)] hands out. *)
Record t := mk
  { m_alloc : list nat;
    m_heap : nat;
    m_units : list layers;
    m_equal_lin : list ring;
    m_diseq_lin : list ring;
    m_trail : list (pvar * entry_kind * entry) }.
End viable.

Module viable_fallback.
Record t := mk { m_constraints : list (list signed_constraint) }.
End viable_fallback.

(** [class conflict] ([conflict.h]): empty, or initialised from one of the
    sources the solver names. *)
Inductive conflict :=
| conflict_empty
| conflict_constraint (c : signed_constraint)
| conflict_clause (lits : list literal)
| conflict_var (v : pvar)
| conflict_by_viable_interval (v : pvar)
| conflict_by_viable_fallback (v : pvar).

Inductive justification :=
| unassigned
| decision (level : Z)
| propagation (level : Z).

Inductive search_item :=
| assignment (v : pvar)
| boolean (lit : literal).

(** The state [bool_var_manager] keeps per boolean variable. *)
Inductive bool_kind := b_unassigned | b_asserted | b_decision | b_propagation | b_eval.
Record bool_info := mk_bool_info
  { b_value : lbool; b_level : Z; b_kind : bool_kind }.

(** A constraint of the store: its variables and its [is_active] flag. *)
Record constraint := mk_constraint { vars : list pvar; m_is_active : bool }.

Record solver := mk_solver
  { m_viable : viable.t;
    m_viable_fallback : viable_fallback.t;
    m_conflict : conflict;
    m_bvars : list bool_info;
    m_constraints : list constraint;
    m_free_pvars : list pvar;
    m_value : list Z;
    m_justification : list justification;
    m_pwatch : list (list signed_constraint);
    m_size : list nat;
    m_search : list search_item;
    m_qhead : nat;
    m_level : Z;
    m_trail : list trail_instr_t;
    m_qhead_trail : list nat;
    m_base_levels : list Z;
    m_num_conflicts : Z;
    m_num_restarts : Z;
    m_conflicts_at_restart : Z;
    m_restart_threshold : Z;
    m_restart_init : Z;
    m_luby_idx : Z }.

(** Assignments to one member ([m_x = v] in the source). *)
Definition set_m_viable (x : viable.t) (s : solver) : solver :=
  mk_solver x (m_viable_fallback s) (m_conflict s) (m_bvars s)
    (m_constraints s) (m_free_pvars s) (m_value s) (m_justification s)
    (m_pwatch s) (m_size s) (m_search s) (m_qhead s) (m_level s) (m_trail s)
    (m_qhead_trail s) (m_base_levels s) (m_num_conflicts s) (m_num_restarts s)
    (m_conflicts_at_restart s) (m_restart_threshold s) (m_restart_init s)
    (m_luby_idx s).
Definition set_m_viable_fallback (x : viable_fallback.t) (s : solver) : solver :=
  mk_solver (m_viable s) x (m_conflict s) (m_bvars s) (m_constraints s)
    (m_free_pvars s) (m_value s) (m_justification s) (m_pwatch s) (m_size s)
    (m_search s) (m_qhead s) (m_level s) (m_trail s) (m_qhead_trail s)
    (m_base_levels s) (m_num_conflicts s) (m_num_restarts s)
    (m_conflicts_at_restart s) (m_restart_threshold s) (m_restart_init s)
    (m_luby_idx s).
Definition set_m_conflict (x : conflict) (s : solver) : solver :=
  mk_solver (m_viable s) (m_viable_fallback s) x (m_bvars s) (m_constraints s)
    (m_free_pvars s) (m_value s) (m_justification s) (m_pwatch s) (m_size s)
    (m_search s) (m_qhead s) (m_level s) (m_trail s) (m_qhead_trail s)
    (m_base_levels s) (m_num_conflicts s) (m_num_restarts s)
    (m_conflicts_at_restart s) (m_restart_threshold s) (m_restart_init s)
    (m_luby_idx s).
Definition set_m_bvars (x : list bool_info) (s : solver) : solver :=
  mk_solver (m_viable s) (m_viable_fallback s) (m_conflict s) x
    (m_constraints s) (m_free_pvars s) (m_value s) (m_justification s)
    (m_pwatch s) (m_size s) (m_search s) (m_qhead s) (m_level s) (m_trail s)
    (m_qhead_trail s) (m_base_levels s) (m_num_conflicts s) (m_num_restarts s)
    (m_conflicts_at_restart s) (m_restart_threshold s) (m_restart_init s)
    (m_luby_idx s).
Definition set_m_constraints (x : list constraint) (s : solver) : solver :=
  mk_solver (m_viable s) (m_viable_fallback s) (m_conflict s) (m_bvars s) x
    (m_free_pvars s) (m_value s) (m_justification s) (m_pwatch s) (m_size s)
    (m_search s) (m_qhead s) (m_level s) (m_trail s) (m_qhead_trail s)
    (m_base_levels s) (m_num_conflicts s) (m_num_restarts s)
    (m_conflicts_at_restart s) (m_restart_threshold s) (m_restart_init s)
    (m_luby_idx s).
Definition set_m_free_pvars (x : list pvar) (s : solver) : solver :=
  mk_solver (m_viable s) (m_viable_fallback s) (m_conflict s) (m_bvars s)
    (m_constraints s) x (m_value s) (m_justification s) (m_pwatch s)
    (m_size s) (m_search s) (m_qhead s) (m_level s) (m_trail s)
    (m_qhead_trail s) (m_base_levels s) (m_num_conflicts s) (m_num_restarts s)
    (m_conflicts_at_restart s) (m_restart_threshold s) (m_restart_init s)
    (m_luby_idx s).
Definition set_m_value (x : list Z) (s : solver) : solver :=
  mk_solver (m_viable s) (m_viable_fallback s) (m_conflict s) (m_bvars s)
    (m_constraints s) (m_free_pvars s) x (m_justification s) (m_pwatch s)
    (m_size s) (m_search s) (m_qhead s) (m_level s) (m_trail s)
    (m_qhead_trail s) (m_base_levels s) (m_num_conflicts s) (m_num_restarts s)
    (m_conflicts_at_restart s) (m_restart_threshold s) (m_restart_init s)
    (m_luby_idx s).
Definition set_m_justification (x : list justification) (s : solver) : solver :=
  mk_solver (m_viable s) (m_viable_fallback s) (m_conflict s) (m_bvars s)
    (m_constraints s) (m_free_pvars s) (m_value s) x (m_pwatch s) (m_size s)
    (m_search s) (m_qhead s) (m_level s) (m_trail s) (m_qhead_trail s)
    (m_base_levels s) (m_num_conflicts s) (m_num_restarts s)
    (m_conflicts_at_restart s) (m_restart_threshold s) (m_restart_init s)
    (m_luby_idx s).
Definition set_m_pwatch (x : list (list signed_constraint)) (s : solver) : solver :=
  mk_solver (m_viable s) (m_viable_fallback s) (m_conflict s) (m_bvars s)
    (m_constraints s) (m_free_pvars s) (m_value s) (m_justification s) x
    (m_size s) (m_search s) (m_qhead s) (m_level s) (m_trail s)
    (m_qhead_trail s) (m_base_levels s) (m_num_conflicts s) (m_num_restarts s)
    (m_conflicts_at_restart s) (m_restart_threshold s) (m_restart_init s)
    (m_luby_idx s).
Definition set_m_size (x : list nat) (s : solver) : solver :=
  mk_solver (m_viable s) (m_viable_fallback s) (m_conflict s) (m_bvars s)
    (m_constraints s) (m_free_pvars s) (m_value s) (m_justification s)
    (m_pwatch s) x (m_search s) (m_qhead s) (m_level s) (m_trail s)
    (m_qhead_trail s) (m_base_levels s) (m_num_conflicts s) (m_num_restarts s)
    (m_conflicts_at_restart s) (m_restart_threshold s) (m_restart_init s)
    (m_luby_idx s).
Definition set_m_search (x : list search_item) (s : solver) : solver :=
  mk_solver (m_viable s) (m_viable_fallback s) (m_conflict s) (m_bvars s)
    (m_constraints s) (m_free_pvars s) (m_value s) (m_justification s)
    (m_pwatch s) (m_size s) x (m_qhead s) (m_level s) (m_trail s)
    (m_qhead_trail s) (m_base_levels s) (m_num_conflicts s) (m_num_restarts s)
    (m_conflicts_at_restart s) (m_restart_threshold s) (m_restart_init s)
    (m_luby_idx s).
Definition set_m_qhead (x : nat) (s : solver) : solver :=
  mk_solver (m_viable s) (m_viable_fallback s) (m_conflict s) (m_bvars s)
    (m_constraints s) (m_free_pvars s) (m_value s) (m_justification s)
    (m_pwatch s) (m_size s) (m_search s) x (m_level s) (m_trail s)
    (m_qhead_trail s) (m_base_levels s) (m_num_conflicts s) (m_num_restarts s)
    (m_conflicts_at_restart s) (m_restart_threshold s) (m_restart_init s)
    (m_luby_idx s).
Definition set_m_level (x : Z) (s : solver) : solver :=
  mk_solver (m_viable s) (m_viable_fallback s) (m_conflict s) (m_bvars s)
    (m_constraints s) (m_free_pvars s) (m_value s) (m_justification s)
    (m_pwatch s) (m_size s) (m_search s) (m_qhead s) x (m_trail s)
    (m_qhead_trail s) (m_base_levels s) (m_num_conflicts s) (m_num_restarts s)
    (m_conflicts_at_restart s) (m_restart_threshold s) (m_restart_init s)
    (m_luby_idx s).
Definition set_m_trail (x : list trail_instr_t) (s : solver) : solver :=
  mk_solver (m_viable s) (m_viable_fallback s) (m_conflict s) (m_bvars s)
    (m_constraints s) (m_free_pvars s) (m_value s) (m_justification s)
    (m_pwatch s) (m_size s) (m_search s) (m_qhead s) (m_level s) x
    (m_qhead_trail s) (m_base_levels s) (m_num_conflicts s) (m_num_restarts s)
    (m_conflicts_at_restart s) (m_restart_threshold s) (m_restart_init s)
    (m_luby_idx s).
Definition set_m_qhead_trail (x : list nat) (s : solver) : solver :=
  mk_solver (m_viable s) (m_viable_fallback s) (m_conflict s) (m_bvars s)
    (m_constraints s) (m_free_pvars s) (m_value s) (m_justification s)
    (m_pwatch s) (m_size s) (m_search s) (m_qhead s) (m_level s) (m_trail s) x
    (m_base_levels s) (m_num_conflicts s) (m_num_restarts s)
    (m_conflicts_at_restart s) (m_restart_threshold s) (m_restart_init s)
    (m_luby_idx s).
Definition set_m_base_levels (x : list Z) (s : solver) : solver :=
  mk_solver (m_viable s) (m_viable_fallback s) (m_conflict s) (m_bvars s)
    (m_constraints s) (m_free_pvars s) (m_value s) (m_justification s)
    (m_pwatch s) (m_size s) (m_search s) (m_qhead s) (m_level s) (m_trail s)
    (m_qhead_trail s) x (m_num_conflicts s) (m_num_restarts s)
    (m_conflicts_at_restart s) (m_restart_threshold s) (m_restart_init s)
    (m_luby_idx s).
Definition set_m_num_conflicts (x : Z) (s : solver) : solver :=
  mk_solver (m_viable s) (m_viable_fallback s) (m_conflict s) (m_bvars s)
    (m_constraints s) (m_free_pvars s) (m_value s) (m_justification s)
    (m_pwatch s) (m_size s) (m_search s) (m_qhead s) (m_level s) (m_trail s)
    (m_qhead_trail s) (m_base_levels s) x (m_num_restarts s)
    (m_conflicts_at_restart s) (m_restart_threshold s) (m_restart_init s)
    (m_luby_idx s).
Definition set_m_num_restarts (x : Z) (s : solver) : solver :=
  mk_solver (m_viable s) (m_viable_fallback s) (m_conflict s) (m_bvars s)
    (m_constraints s) (m_free_pvars s) (m_value s) (m_justification s)
    (m_pwatch s) (m_size s) (m_search s) (m_qhead s) (m_level s) (m_trail s)
    (m_qhead_trail s) (m_base_levels s) (m_num_conflicts s) x
    (m_conflicts_at_restart s) (m_restart_threshold s) (m_restart_init s)
    (m_luby_idx s).
Definition set_m_conflicts_at_restart (x : Z) (s : solver) : solver :=
  mk_solver (m_viable s) (m_viable_fallback s) (m_conflict s) (m_bvars s)
    (m_constraints s) (m_free_pvars s) (m_value s) (m_justification s)
    (m_pwatch s) (m_size s) (m_search s) (m_qhead s) (m_level s) (m_trail s)
    (m_qhead_trail s) (m_base_levels s) (m_num_conflicts s) (m_num_restarts s)
    x (m_restart_threshold s) (m_restart_init s) (m_luby_idx s).
Definition set_m_restart_threshold (x : Z) (s : solver) : solver :=
  mk_solver (m_viable s) (m_viable_fallback s) (m_conflict s) (m_bvars s)
    (m_constraints s) (m_free_pvars s) (m_value s) (m_justification s)
    (m_pwatch s) (m_size s) (m_search s) (m_qhead s) (m_level s) (m_trail s)
    (m_qhead_trail s) (m_base_levels s) (m_num_conflicts s) (m_num_restarts s)
    (m_conflicts_at_restart s) x (m_restart_init s) (m_luby_idx s).
Definition set_m_restart_init (x : Z) (s : solver) : solver :=
  mk_solver (m_viable s) (m_viable_fallback s) (m_conflict s) (m_bvars s)
    (m_constraints s) (m_free_pvars s) (m_value s) (m_justification s)
    (m_pwatch s) (m_size s) (m_search s) (m_qhead s) (m_level s) (m_trail s)
    (m_qhead_trail s) (m_base_levels s) (m_num_conflicts s) (m_num_restarts s)
    (m_conflicts_at_restart s) (m_restart_threshold s) x (m_luby_idx s).
Definition set_m_luby_idx (x : Z) (s : solver) : solver :=
  mk_solver (m_viable s) (m_viable_fallback s) (m_conflict s) (m_bvars s)
    (m_constraints s) (m_free_pvars s) (m_value s) (m_justification s)
    (m_pwatch s) (m_size s) (m_search s) (m_qhead s) (m_level s) (m_trail s)
    (m_qhead_trail s) (m_base_levels s) (m_num_conflicts s) (m_num_restarts s)
    (m_conflicts_at_restart s) (m_restart_threshold s) (m_restart_init s) x.

(** ** util/dlist.h: circular doubly-linked lists *)

Module dll_base.

(** Modelled from the spec: [util/dlist.h] is not among the sources; the
    design notes ask for pooled circular lists with O(1) insertion and
    removal that is reversible on backjump.  The operations are the ones
    [viable.cpp] calls, on the list of nodes in [next] order. *)

Fixpoint contains (l : ring) (id : nat) : bool :=
  match l with
  | [] => false
  | x :: r => (eid x =? id)%nat || contains r id
  end.

(** [e->init(e)]: the node becomes a ring of its own. *)
Definition init (e : entry) : entry := set_m_prev (eid e) e.

Fixpoint remove (l : ring) (id : nat) : ring :=
  match l with
  | [] => []
  | x :: r => if (eid x =? id)%nat then r else x :: remove r id
  end.

(** [remove_from(list, elem)]: a ring of one node becomes [nullptr];
    otherwise [elem] is unlinked, and the list pointer moves to the next
    node when it designated [elem]. *)
Definition remove_from (list : ring) (elem : entry) : ring :=
  match list with
  | [_] => []
  | _ => remove list (eid elem)
  end.

(** The back link of node [id] in ring [l]; [p] is the node before the
    first node of [l]. *)
Fixpoint prev_from (p : nat) (l : ring) (id : nat) : nat :=
  match l with
  | [] => p
  | x :: r => if (eid x =? id)%nat then p else prev_from (eid x) r id
  end.

Definition prev (l : ring) (id : nat) : nat :=
  match l with
  | [] => id
  | x :: _ => prev_from (eid (last l x)) l id
  end.

(** The node as [remove_from] leaves it: still pointing at its neighbour. *)
Definition unlinked (l : ring) (e : entry) : entry :=
  set_m_prev (prev l (eid e)) e.

(** [pos->insert_after(other)] for a single node [other]. *)
Fixpoint insert_after (l : ring) (pos : nat) (other : entry) : ring :=
  match l with
  | [] => []
  | x :: r =>
      if (eid x =? pos)%nat then x :: other :: r
      else x :: insert_after r pos other
  end.

(** [list = e] for a node [e] of the ring: the same ring, read from [e]. *)
Fixpoint set_head_from (acc : ring) (l : ring) (id : nat) : ring :=
  match l with
  | [] => rev acc
  | x :: r =>
      if (eid x =? id)%nat then l ++ rev acc
      else set_head_from (x :: acc) r id
  end.

Definition set_head (l : ring) (id : nat) : ring := set_head_from [] l id.

End dll_base.

(** ** viable.cpp: layers of unit intervals *)

Module Layers.

(** [layers::ensure_layer]: layers are kept in descending bit-width. *)
Fixpoint ensure_layer (ls : layers) (bw : nat) : layers :=
  match ls with
  | [] => [layer.mk bw []]
  | l :: rest =>
      if (layer.bit_width l =? bw)%nat then ls
      else if (layer.bit_width l <? bw)%nat then layer.mk bw [] :: ls
      else l :: ensure_layer rest bw
  end.

(** [layers::get_layer] *)
Fixpoint get_layer (ls : layers) (bw : nat) : option layer.t :=
  match ls with
  | [] => None
  | l :: rest =>
      if (layer.bit_width l =? bw)%nat then Some l else get_layer rest bw
  end.

(** [layers::get_entries]: the list pointer of the layer, [nullptr] when
    there is no such layer. *)
Definition get_entries (ls : layers) (bw : nat) : ring :=
  match get_layer ls bw with
  | Some l => layer.entries l
  | None => []
  end.

(** Assignment through the reference [get_layer(bw)->entries].  The source
    dereferences the layer, which exists wherever the code assigns to it;
    where it does not, the model creates it in place, as [ensure_layer]
    would. *)
Fixpoint set_entries (ls : layers) (bw : nat) (r : ring) : layers :=
  match ls with
  | [] => [layer.mk bw r]
  | l :: rest =>
      if (layer.bit_width l =? bw)%nat then layer.mk bw r :: rest
      else if (layer.bit_width l <? bw)%nat then layer.mk bw r :: ls
      else l :: set_entries rest bw r
  end.

End Layers.

(** Vectors indexed by variable.  Reading or writing past the end is
    undefined in the source; here a read gives the default and a write does
    nothing. *)
Fixpoint set_nth {A} (n : nat) (x : A) (l : list A) : list A :=
  match l, n with
  | [], _ => []
  | _ :: r, O => x :: r
  | y :: r, S n' => y :: set_nth n' x r
  end.

Lemma nth_set_nth_same {A} (n : nat) (x d : A) l :
  (n < length l)%nat -> nth n (set_nth n x l) d = x.
Proof.
  revert n. induction l as [|y l IH]; intros [|n] H; simpl in *; try lia; auto.
  apply IH. lia.
Qed.

Lemma nth_set_nth_other {A} (n m : nat) (x d : A) l :
  n <> m -> nth m (set_nth n x l) d = nth m l d.
Proof.
  revert n m. induction l as [|y l IH]; intros [|n] [|m] H; simpl; auto; try lia.
Qed.

Lemma length_set_nth {A} (n : nat) (x : A) l : length (set_nth n x l) = length l.
Proof. revert n. induction l as [|y l IH]; intros [|n]; simpl; auto. Qed.

(** ** util/rational.h, math/polysat/number.h: arithmetic on numerals *)

Module Numeral.

(** Modelled from the spec: the numeral helpers [viable.cpp] calls are not
    among the sources.  The glossary defines parity as the number of
    trailing zero bits of a modular value (the bit-width for zero); the
    others are what their names say on non-negative integers. *)

Definition power_of_two (n : nat) : Z := 2 ^ Z.of_nat n.

Fixpoint trailing_zeros (p : positive) : nat :=
  match p with
  | xO p' => S (trailing_zeros p')
  | _ => O
  end.

Definition get_parity (val : Z) (num_bits : nat) : nat :=
  match val with
  | Z0 => num_bits
  | Zpos p | Zneg p => trailing_zeros p
  end.

Definition machine_div2k (b : Z) (k : nat) : Z := b / power_of_two k.

Definition clear_lower_bits (x : Z) (n : nat) : Z := x - x mod power_of_two n.

(** [a.mult_inverse(N, a_inv)]: the inverse of an odd [a] modulo 2^N. *)
Definition mult_inverse (a : Z) (N : nat) : Z := Z.invmod a (power_of_two N).

(** [a.pseudo_inverse(N)]: the inverse of the odd part of [a] modulo
    2^(N - parity a). *)
Definition pseudo_inverse (a : Z) (N : nat) : Z :=
  let k := get_parity a N in
  mult_inverse (machine_div2k a k) (N - k).

(** [floor(a / b)] and [ceil(a / b)] of rationals with integer [a], [b]. *)
Definition div_floor (a b : Z) : Z := a / b.
Definition div_ceil (a b : Z) : Z := - ((- a) / b).

End Numeral.

(** ** viable.cpp: the forbidden-interval lists of a variable *)

Module Viable.
Import eval_interval.

Definition iv_contains (a b : entry) : bool :=
  currently_contains_interval (interval a) (interval b).

(** *** [viable::well_formed] on one list *)

Fixpoint well_formed_from (first : entry) (single : bool) (l : ring) : bool :=
  match l with
  | [] => true
  | e :: rest =>
      if is_full (interval e) then single               (* e->next() == e *)
      else if is_currently_empty (interval e) then false
      else
        let n := match rest with [] => first | n :: _ => n end in
        if negb single && iv_contains e n then false
        else
          match rest with
          | [] => true                                  (* n == first *)
          | _ :: _ =>
              if e_lo e >=? e_lo n then false
              else well_formed_from first single rest
          end
  end.

Definition well_formed (l : ring) : bool :=
  match l with
  | [] => true
  | e :: rest => well_formed_from e (match rest with [] => true | _ => false end) l
  end.

(** [viable::well_formed] on the layers of a variable *)
Fixpoint well_formed_layers_from (prev_width : option nat) (ls : layers) : bool :=
  match ls with
  | [] => true
  | l :: rest =>
      if negb (well_formed (layer.entries l)) then false
      else if negb (forallb (fun e => (bit_width e =? layer.bit_width l)%nat)
                            (layer.entries l)) then false
      else if match prev_width with
              | Some p => (p <=? layer.bit_width l)%nat
              | None => false                     (* UINT_MAX <= bit_width *)
              end then false
      else well_formed_layers_from (Some (layer.bit_width l)) rest
  end.

Definition well_formed_layers (ls : layers) : bool :=
  well_formed_layers_from None ls.

(** *** [viable::intersect] of a unit entry, on one list *)

Inductive intersect_result :=
| i_dropped (l : ring) (removed : list entry)     (* returns false *)
| i_inserted (l : ring) (removed : list entry)    (* returns true *)
| i_fuel.

(** The [do ... while (e != first)] loop.  The ring is [rev rb ++ rest] and
    the cursor [e] is the first node of [rest]; [first] is always the first
    node of the ring, because [remove_from] moves the list pointer together
    with [first].  [top] tells whether control is at the top of the loop
    body or inside the inner [while] (after a removal).  [removed] collects
    the nodes given to [remove_entry], as unlinked. *)
Fixpoint intersect_loop (fuel : nat) (ne : entry) (rb rest : ring)
    (removed : list entry) (top : bool) : intersect_result :=
  match fuel with
  | O => i_fuel
  | S fuel' =>
      match rest with
      | [] => i_fuel
      | e :: rest' =>
          if top && iv_contains e ne then
            i_dropped (rev_append rb rest) removed
          else if iv_contains ne e then
            (* n = e->next(); remove_entry(e); *)
            let p := match rb with
                     | x :: _ => eid x
                     | [] => eid (last rest' e)
                     end in
            let removed' := removed ++ [set_m_prev p e] in
            match rb, rest' with
            | [], [] => i_inserted [dll_base.init ne] removed'   (* !entries *)
            | _, _ :: _ => intersect_loop fuel' ne rb rest' removed' false
            | _ :: _, [] => intersect_loop fuel' ne [] (rev rb) removed' false
            end
          else if e_lo e >? e_lo ne then
            if iv_contains (last rest' e) ne then      (* first->prev() *)
              i_dropped (rev_append rb rest) removed
            else
              (* e->insert_before(create_entry());
                 if (e == first) entries = e->prev(); *)
              i_inserted (rev_append rb (dll_base.init ne :: rest)) removed
          else
            match rest' with
            | [] =>                                    (* e->next() == first *)
                i_inserted (rev_append rb [e; dll_base.init ne]) removed
            | _ :: _ => intersect_loop fuel' ne (e :: rb) rest' removed true
            end
      end
  end.

(** [while (entries) remove_entry(entries);] *)
Fixpoint remove_all (l : ring) : list entry :=
  match l with
  | [] => []
  | e :: r => set_m_prev (eid (last r e)) e :: remove_all r
  end.

Definition intersect_ring (l : ring) (ne : entry) : intersect_result :=
  match l with
  | e :: _ =>
      if is_full (interval e) then i_dropped l []
      else if is_currently_empty (interval ne) then i_dropped l []
      else if is_full (interval ne) then i_inserted [dll_base.init ne] (remove_all l)
      else intersect_loop (2 * length l + 1) ne [] l [] true
  | [] =>
      if is_currently_empty (interval ne) then i_dropped l []
      else i_inserted [dll_base.init ne] []
  end.

(** *** State updates *)

Definition units_of (vb : viable.t) (v : pvar) : layers :=
  nth v (viable.m_units vb) [].

Definition set_alloc (x : list nat) (vb : viable.t) : viable.t :=
  viable.mk x (viable.m_heap vb) (viable.m_units vb) (viable.m_equal_lin vb)
    (viable.m_diseq_lin vb) (viable.m_trail vb).
Definition set_heap (x : nat) (vb : viable.t) : viable.t :=
  viable.mk (viable.m_alloc vb) x (viable.m_units vb) (viable.m_equal_lin vb)
    (viable.m_diseq_lin vb) (viable.m_trail vb).
Definition set_units (x : list layers) (vb : viable.t) : viable.t :=
  viable.mk (viable.m_alloc vb) (viable.m_heap vb) x (viable.m_equal_lin vb)
    (viable.m_diseq_lin vb) (viable.m_trail vb).
Definition set_equal_lin (x : list ring) (vb : viable.t) : viable.t :=
  viable.mk (viable.m_alloc vb) (viable.m_heap vb) (viable.m_units vb) x
    (viable.m_diseq_lin vb) (viable.m_trail vb).
Definition set_diseq_lin (x : list ring) (vb : viable.t) : viable.t :=
  viable.mk (viable.m_alloc vb) (viable.m_heap vb) (viable.m_units vb)
    (viable.m_equal_lin vb) x (viable.m_trail vb).
Definition set_trail (x : list (pvar * entry_kind * entry)) (vb : viable.t)
  : viable.t :=
  viable.mk (viable.m_alloc vb) (viable.m_heap vb) (viable.m_units vb)
    (viable.m_equal_lin vb) (viable.m_diseq_lin vb) x.

Definition set_layers (v : pvar) (ls : layers) (vb : viable.t) : viable.t :=
  set_units (set_nth v ls (viable.m_units vb)) vb.

(** [m_alloc.push_back(e)] *)
Definition release (id : nat) (vb : viable.t) : viable.t :=
  set_alloc (viable.m_alloc vb ++ [id]) vb.

(** [viable::push_var], [viable::pop_var] *)
Definition push_var (vb : viable.t) : viable.t :=
  set_diseq_lin (viable.m_diseq_lin vb ++ [[]])
    (set_equal_lin (viable.m_equal_lin vb ++ [[]])
       (set_units (viable.m_units vb ++ [[]]) vb)).

Definition pop_var (vb : viable.t) : viable.t :=
  set_diseq_lin (removelast (viable.m_diseq_lin vb))
    (set_equal_lin (removelast (viable.m_equal_lin vb))
       (set_units (removelast (viable.m_units vb)) vb)).

(** [viable::alloc_entry]: the address of a reset node. *)
Definition alloc_entry (vb : viable.t) : nat * viable.t :=
  match unsnoc (viable.m_alloc vb) with
  | None => (viable.m_heap vb, set_heap (S (viable.m_heap vb)) vb)
  | Some (r, id) => (id, set_alloc r vb)
  end.

Definition push_trail (i : trail_instr_t) (s : solver) : solver :=
  set_m_trail (m_trail s ++ [i]) s.

(** [viable::intersect] of the unit entry [ne] into the lists of [v] *)
Definition intersect (v : pvar) (ne : entry) (s : solver) : bool * solver :=
  let vb := m_viable s in
  let ls := Layers.ensure_layer (units_of vb v) (bit_width ne) in
  let vb1 := set_layers v ls vb in
  match intersect_ring (Layers.get_entries ls (bit_width ne)) ne with
  | i_inserted l removed =>
      let tr := map (fun e => (v, unit_e, e)) removed
                ++ [(v, unit_e, dll_base.init ne)] in
      let vb2 := set_trail (viable.m_trail vb ++ tr)
                   (set_layers v (Layers.set_entries ls (bit_width ne) l) vb1) in
      (true,
       set_m_trail (m_trail s ++ map (fun _ => viable_rem_i) removed ++ [viable_add_i])
         (set_m_viable vb2 s))
  | i_dropped l removed =>
      let tr := map (fun e => (v, unit_e, e)) removed in
      let vb2 := release (eid ne)
                   (set_trail (viable.m_trail vb ++ tr)
                      (set_layers v (Layers.set_entries ls (bit_width ne) l) vb1)) in
      (false,
       set_m_trail (m_trail s ++ map (fun _ => viable_rem_i) removed)
         (set_m_viable vb2 s))
  | i_fuel => (false, s)
  end.

(** [viable::insert]: a non-unit entry joins its list before the node the
    list pointer designates. *)
Definition insert (e : entry) (v : pvar) (k : entry_kind) (s : solver) : solver :=
  let vb := m_viable s in
  let vb1 := set_trail (viable.m_trail vb ++ [(v, k, dll_base.init e)]) vb in
  let vb2 :=
    match k with
    | equal_e =>
        set_equal_lin (set_nth v (nth v (viable.m_equal_lin vb) [] ++ [dll_base.init e])
                         (viable.m_equal_lin vb)) vb1
    | diseq_e =>
        set_diseq_lin (set_nth v (nth v (viable.m_diseq_lin vb) [] ++ [dll_base.init e])
                         (viable.m_diseq_lin vb)) vb1
    | unit_e => vb1
    end in
  push_trail viable_add_i (set_m_viable vb2 s).

(** [viable::pop_viable] *)
Definition pop_viable (vb : viable.t) : viable.t :=
  match unsnoc (viable.m_trail vb) with
  | None => vb
  | Some (tr, (v, k, e)) =>
      let vb1 :=
        match k with
        | unit_e =>
            let ls := units_of vb v in
            set_layers v
              (Layers.set_entries ls (bit_width e)
                 (dll_base.remove_from (Layers.get_entries ls (bit_width e)) e)) vb
        | equal_e =>
            set_equal_lin
              (set_nth v (dll_base.remove_from (nth v (viable.m_equal_lin vb) []) e)
                 (viable.m_equal_lin vb)) vb
        | diseq_e =>
            set_diseq_lin
              (set_nth v (dll_base.remove_from (nth v (viable.m_diseq_lin vb) []) e)
                 (viable.m_diseq_lin vb)) vb
        end in
      set_trail tr (release (eid e) vb1)
  end.

(** [viable::push_viable] *)
Definition push_viable_ring (entries : ring) (e : entry) : ring :=
  if (m_prev e =? eid e)%nat then [dll_base.init e]
  else
    let r := dll_base.insert_after entries (m_prev e) (dll_base.init e) in
    match r with
    | h :: _ => if e_lo e <? e_lo h then dll_base.set_head r (eid e) else r
    | [] => r
    end.

Definition push_viable (vb : viable.t) : viable.t :=
  match unsnoc (viable.m_trail vb) with
  | None => vb
  | Some (tr, (v, k, e)) =>
      let ls := units_of vb v in
      set_trail tr
        (set_layers v
           (Layers.set_entries ls (bit_width e)
              (push_viable_ring (Layers.get_entries ls (bit_width e)) e)) vb)
  end.

Import Numeral.

(** *** Refinement of a candidate value ([viable.cpp], lines 376-973) *)

Definition size (s : solver) (v : pvar) : nat := nth v (m_size s) O.

(** [compute_y_max]: the largest [y_max >= y0] such that [a*y mod M] stays
    in [[lo0; hi]] on [[y0; y_max]] (bounds inclusive). *)
Definition compute_y_max (y0 a lo0 hi M : Z) : Z :=
  let lo := if lo0 >? hi then lo0 - M else lo0 in
  let contained := fun a_y => (lo <=? a_y) && (a_y <=? hi) in
  let delta_h := fun a_y => div_floor (hi - a_y) a in
  let k := div_ceil (lo - a * y0) M in
  let kM := k * M in
  let a_y0 := a * y0 + kM in
  let delta0 := delta_h a_y0 in
  let y0h := y0 + delta0 in
  let a_y0h := a_y0 + a * delta0 in
  let y1l := y0h + 1 in
  let a_y1l := a_y0h + a - M in
  if negb (contained a_y1l) then y0h
  else
    let delta1 := delta_h a_y1l in
    let y1h := y1l + delta1 in
    let a_y1h := a_y1l + a * delta1 in
    let a_y2l := a_y1h + a - M in
    if negb (contained a_y2l) then y1h
    else
      let step := y1h - y0h in
      let alpha := a * step - M in
      if alpha =? 0 then y0 + M
      else
        let i := if alpha <? 0 then div_floor (lo - a_y1l) alpha
                 else div_floor (hi - a_y1h) alpha in
        let yih := y1h + i * step in
        let a_yih := a_y1h + i * alpha in
        let y_next := yih + 1 in
        let a_y_next := a_yih + a - M in
        if contained a_y_next then y_next + delta_h a_y_next else yih.

(** [compute_y_min].  The loop [while (y_min > y0) y_min -= M] is written in
    closed form: it subtracts [M] the least number of times that brings
    [y_min] to [y0] or below. *)
Definition compute_y_min (y0 a lo hi M : Z) : Z :=
  let negateM := fun x => if x =? 0 then x else M - x in
  let y_min := - compute_y_max (- y0) a (negateM hi) (negateM lo) M in
  if y_min >? y0 then y_min - M * div_ceil (y_min - y0) M else y_min.

Definition is_valid (a lo hi M y : Z) : bool :=
  let a_y := (a * y) mod M in
  if lo <=? hi then (lo <=? a_y) && (a_y <=? hi)
  else (a_y <=? hi) || (lo <=? a_y).

(** The two loops of [compute_y_bounds]; the fuel is [max_refinements]. *)
Fixpoint y_max_loop (fuel : nat) (a lo hi M y_max_max y_max : Z) : Z :=
  match fuel with
  | O => y_max
  | S fuel' =>
      if (y_max <? y_max_max) && is_valid a lo hi M (y_max + 1) then
        y_max_loop fuel' a lo hi M y_max_max (compute_y_max (y_max + 1) a lo hi M)
      else y_max
  end.

Fixpoint y_min_loop (fuel : nat) (a lo hi M y_min_min y_min : Z) : Z :=
  match fuel with
  | O => y_min
  | S fuel' =>
      if (y_min >? y_min_min) && is_valid a lo hi M (y_min - 1) then
        y_min_loop fuel' a lo hi M y_min_min (compute_y_min (y_min - 1) a lo hi M)
      else y_min
  end.

Definition max_refinements : nat := 100.

Definition compute_y_bounds (y0 a lo hi M : Z) : Z * Z :=
  let y_max_max := y0 + M - 1 in
  let y_max :=
    y_max_loop max_refinements a lo hi M y_max_max (compute_y_max y0 a lo hi M) in
  let y_min_min := y_max - M + 1 in
  let y_min := y_min_loop max_refinements a lo hi M y_min_min y0 in
  let len := y_max - y_min + 1 in
  if len >=? M then (0, M - 1) else (y_min mod M, y_max mod M).

(** [fixed_bits_info::is_empty] *)
Definition fbi_is_empty (fbi : fixed_bits_info) : bool :=
  match fixed fbi with [] => true | _ => false end.

(** The accumulators of [extend_by_bits]: the local sets [added_src] and
    [added_side_cond], and the vectors [src] and [side_cond] of the entry
    under construction. *)
Record just_acc := mk_acc
  { added_src : list literal;
    acc_src : list signed_constraint;
    added_side_cond : list literal;
    acc_side_cond : list signed_constraint }.

Definition add_lits (lits : list literal)
    (st : list literal * list signed_constraint)
  : list literal * list signed_constraint :=
  fold_left
    (fun st lit =>
       if existsb (sc_eqb lit) (fst st) then st
       else (lit :: fst st, snd st ++ [lit2cnstr lit]))
    lits st.

(** [add_justification(i)].  The explanations of [just_slicing] come from
    the slicing e-graph and are left out. *)
Definition add_justification (fbi : fixed_bits_info) (i : nat) (j : just_acc)
  : just_acc :=
  let s1 := add_lits (nth i (just_src fbi) []) (added_src j, acc_src j) in
  let s2 := add_lits (nth i (just_side_cond fbi) [])
              (added_side_cond j, acc_side_cond j) in
  mk_acc (fst s1) (snd s1) (fst s2) (snd s2).

Definition get_bit (x : Z) (i : nat) : bool := Z.testbit x (Z.of_nat i).

Definition fixed_at (fbi : fixed_bits_info) (i : nat) : lbool :=
  nth i (fixed fbi) l_undef.

(** [for (firstFail = k; firstFail > 0; firstFail--)] *)
Fixpoint first_fail (fbi : fixed_bits_info) (bound : Z) (firstFail : nat) : nat :=
  match firstFail with
  | O => O
  | S i =>
      if negb (lbool_eqb (fixed_at fbi i) l_undef)
         && negb (lbool_eqb (to_lbool (get_bit bound i)) (fixed_at fbi i))
      then firstFail
      else first_fail fbi bound i
  end.

(** [for (unsigned i = 0; i < firstFail; i++)] *)
Definition low_step (FORWARD : bool) (fbi : fixed_bits_info) (firstFail : nat)
    (st : list lbool * just_acc) (i : nat) : list lbool * just_acc :=
  let f := fixed_at fbi i in
  if negb (lbool_eqb f l_undef) then
    (fst st ++ [f],
     if (i =? firstFail - 1)%nat
        || negb (Bool.eqb FORWARD (lbool_eqb f l_false))
     then add_justification fbi i (snd st) else snd st)
  else (fst st ++ [if FORWARD then l_false else l_true], snd st).

(** [for (unsigned i = firstFail; i < new_bound.size(); i++)] *)
Definition high_step (FORWARD : bool) (fbi : fixed_bits_info) (bound : Z)
    (st : list lbool * bool * just_acc) (i : nat) : list lbool * bool * just_acc :=
  let '(nb, carry, j) := st in
  let f := fixed_at fbi i in
  if lbool_eqb f l_undef then
    let current := get_bit bound i in
    if carry then
      if FORWARD then
        if negb current then (nb ++ [l_true], false, j)
        else (nb ++ [l_false], carry, j)
      else
        if current then (nb ++ [l_false], false, j)
        else (nb ++ [l_true], carry, j)
    else (nb ++ [to_lbool current], carry, j)
  else (nb ++ [f], carry, if carry then add_justification fbi i j else j).

Definition bits_value (new_bound : list lbool) : Z :=
  fold_right (fun b ret => ret * 2 + (if lbool_eqb b l_true then 1 else 0))
    0 new_bound.

(** [viable::extend_by_bits<FORWARD>]: the returned bound, and the vectors
    [src] and [side_cond] after the call. *)
Definition extend_by_bits (FORWARD : bool) (k : nat) (bound : Z)
    (fbi : fixed_bits_info) (src0 side_cond0 : list signed_constraint)
  : Z * list signed_constraint * list signed_constraint :=
  if fbi_is_empty fbi then (bound, src0, side_cond0)
  else
    let firstFail := first_fail fbi bound k in
    if (firstFail =? 0)%nat then (bound, src0, side_cond0)
    else
      let st1 := fold_left (low_step FORWARD fbi firstFail) (seq 0 firstFail)
                   ([], mk_acc [] src0 [] side_cond0) in
      let carry0 := lbool_eqb (fixed_at fbi (firstFail - 1))
                      (if FORWARD then l_false else l_true) in
      let '(nb, carry, j) :=
        fold_left (high_step FORWARD fbi bound) (seq firstFail (k - firstFail))
          (fst st1, carry0, snd st1) in
      if carry then (0, acc_src j, acc_side_cond j)
      else
        let ret := bits_value nb in
        (if FORWARD then ret else ret + 1, acc_src j, acc_side_cond j).

(** [viable::refine_bits<FORWARD>] *)
Definition refine_bits (FORWARD : bool) (v : pvar) (val : Z)
    (fbi : fixed_bits_info) (s : solver) : bool * solver :=
  let '(id, vb) := alloc_entry (m_viable s) in
  let '(new_val, src1, side1) := extend_by_bits FORWARD (size s v) val fbi [] [] in
  if new_val =? val then (true, set_m_viable (release id vb) s)
  else
    let '(new_val2, src2, side2) :=
      extend_by_bits (negb FORWARD) (size s v) val fbi src1 side1 in
    let iv :=
      if FORWARD then
        eval_interval.proper (mk_val new_val2) new_val2 (mk_val new_val) new_val
      else
        eval_interval.proper (mk_val new_val) new_val (mk_val new_val2) new_val2 in
    let ne := mk_entry id src2 side2 1 iv (size s v) true id in
    (false, snd (intersect v ne (set_m_viable vb s))).

(** The interval [refine_equal_lin] derives from the entry [e], whose
    interval currently contains [coeff e * val]. *)
Definition equal_lin_interval (N : nat) (val : Z) (e : entry) : eval_interval.t :=
  let mod_value := power_of_two N in
  let max_value := mod_value - 1 in
  if (e_hi e + 1) mod mod_value =? e_lo e then
    (* We have an equation:  a * v == b *)
    let a := coeff e in
    let b := e_hi e in
    let parity_a := get_parity a N in
    let parity_b := get_parity b N in
    if (parity_b <? parity_a)%nat then eval_interval.full
    else if (parity_a =? 0)%nat then
      let a_inv := mult_inverse a N in
      let hi := (a_inv * b) mod mod_value in
      let lo := (hi + 1) mod mod_value in
      eval_interval.proper (mk_val lo) lo (mk_val hi) hi
    else
      let k := parity_a in
      let a_inv := pseudo_inverse a N in
      let N_minus_k := (N - k)%nat in
      let two_to_N_minus_k := power_of_two N_minus_k in
      let v0 := (a_inv * machine_div2k b k) mod two_to_N_minus_k in
      let vi := v0 + clear_lower_bits ((val - v0) mod mod_value) N_minus_k in
      let lo := (vi + 1) mod mod_value in
      let hi := (vi + two_to_N_minus_k) mod mod_value in
      eval_interval.proper (mk_val lo) lo (mk_val hi) hi
  else
    let hi_val_incl := if e_hi e =? 0 then max_value else e_hi e - 1 in
    let '(lo, hi0) := compute_y_bounds val (coeff e) (e_lo e) hi_val_incl mod_value in
    let hi1 := hi0 + 1 in
    let full := (lo =? 0) && (hi1 =? mod_value) in
    let hi := if hi1 =? mod_value then 0 else hi1 in
    if full then eval_interval.full
    else eval_interval.proper (mk_val lo) lo (mk_val hi) hi.

(** [m_equal_lin[v] = m_equal_lin[v]->next()] *)
Definition rotate (l : ring) : ring :=
  match l with
  | [] => []
  | e :: r => r ++ [e]
  end.

(** The entry built after [alloc_entry] from the sources of [e]. *)
Definition refined_entry (id : nat) (e : entry) (iv : eval_interval.t) : entry :=
  mk_entry id (src e) (side_cond e) 1 iv (bit_width e) true id.

Definition equal_lin_hit (N : nat) (val : Z) (e : entry) : bool :=
  eval_interval.currently_contains (interval e) ((coeff e * val) mod power_of_two N).

(** [viable::refine_equal_lin] *)
Definition refine_equal_lin (v : pvar) (val : Z) (s : solver) : bool * solver :=
  let vb := m_viable s in
  match nth v (viable.m_equal_lin vb) [] with
  | [] => (true, s)
  | first :: r =>
      let N := size s v in
      let s1 := set_m_viable
                  (set_equal_lin
                     (set_nth v (rotate (first :: r)) (viable.m_equal_lin vb)) vb) s in
      match find (equal_lin_hit N val) (first :: r) with
      | None => (true, s1)
      | Some e =>
          let '(id, vb1) := alloc_entry (m_viable s1) in
          let ne := refined_entry id e (equal_lin_interval N val e) in
          (false, snd (intersect v ne (set_m_viable vb1 s1)))
      end
  end.

(** The values [p, q, r, s] a disequal-linear entry transports, and whether
    [val] violates it. *)
Definition diseq_neg (e : entry) : bool :=
  match src e with
  | c :: _ => is_negative c
  | [] => false
  end.

Definition diseq_a (M val : Z) (e : entry) : Z :=
  (e_lo e * val + Interval.val (eval_interval.sym_lo (interval e))) mod M.
Definition diseq_b (M val : Z) (e : entry) : Z :=
  (e_hi e * val + Interval.val (eval_interval.sym_hi (interval e))) mod M.

Definition diseq_lin_hit (M val : Z) (e : entry) : bool :=
  (diseq_a M val e >? diseq_b M val e)
  || (diseq_neg e && (diseq_a M val e =? diseq_b M val e)).

Definition diseq_lin_interval (M val : Z) (e : entry) : eval_interval.t :=
  let max_value := M - 1 in
  let p := e_lo e in
  let r := e_hi e in
  let a := diseq_a M val e in
  let b := diseq_b M val e in
  let np := M - p in
  let nr := M - r in
  let corr := if diseq_neg e then 1 else 0 in
  let num := a - b + corr in
  let delta_l :=
    let l1 := div_floor b r in
    let l2 := if p >? r then div_ceil num (p - r) - 1 else val in
    let l3 := div_ceil num (p + nr) - 1 in
    let l4 := div_ceil (M - a) np - 1 in
    let d1 := l3 in
    let d2 := Z.min l1 l2 in
    let d3 := Z.min l1 l4 in
    let d4 := Z.min l2 l4 in
    let dmax := Z.max (Z.max d1 d2) (Z.max d3 d4) in
    Z.min val dmax in
  let delta_u :=
    let h1 := div_floor b nr in
    let h2 := if r >? p then div_ceil num (r - p) - 1 else max_value - val in
    let h3 := div_ceil num (np + r) - 1 in
    let h4 := div_ceil (M - a) p - 1 in
    let d1 := h3 in
    let d2 := Z.min h1 h2 in
    let d3 := Z.min h1 h4 in
    let d4 := Z.min h2 h4 in
    let dmax := Z.max (Z.max d1 d2) (Z.max d3 d4) in
    Z.min (max_value - val) dmax in
  let lo := val - delta_l in
  let hi0 := val + delta_u + 1 in
  let hi := if hi0 =? M then 0 else hi0 in
  eval_interval.proper (mk_val lo) lo (mk_val hi) hi.

(** [viable::refine_disequal_lin] *)
Definition refine_disequal_lin (v : pvar) (val : Z) (s : solver) : bool * solver :=
  let vb := m_viable s in
  match nth v (viable.m_diseq_lin vb) [] with
  | [] => (true, s)
  | first :: r =>
      let M := power_of_two (size s v) in
      let s1 := set_m_viable
                  (set_diseq_lin
                     (set_nth v (rotate (first :: r)) (viable.m_diseq_lin vb)) vb) s in
      match find (diseq_lin_hit M val) (first :: r) with
      | None => (true, s1)
      | Some e =>
          let '(id, vb1) := alloc_entry (m_viable s1) in
          let ne := refined_entry id e (diseq_lin_interval M val e) in
          (false, snd (intersect v ne (set_m_viable vb1 s1)))
      end
  end.

(** [viable::refine_viable<FORWARD>] *)
Definition refine_viable (FORWARD : bool) (v : pvar) (val : Z)
    (fbi : fixed_bits_info) (s : solver) : bool * solver :=
  let r1 := refine_bits FORWARD v val fbi s in
  if negb (fst r1) then (false, snd r1)
  else
    let r2 := refine_equal_lin v val (snd r1) in
    if negb (fst r2) then (false, snd r2)
    else refine_disequal_lin v val (snd r2).

(** *** Queries ([viable.cpp], lines 1405-1948) *)

Inductive find_t := empty | singleton | multiple | resource_out.

Inductive query_t := find_viable_q | min_viable_q | max_viable_q.

Section Queries.

(** The components the queries call that are outside the sources: the
    univariate solver behind [viable_fallback::usolver] (queried with the
    constraints added to it, in the order of addition), and the part of
    [collect_bit_information] that reads fixed bits off constraints and the
    slicing e-graph (it yields the bit information, or the literals of the
    conflict clause ["bit check"]). *)
Variable us_check : solver -> pvar -> list signed_constraint -> lbool.
Variable us_model : solver -> pvar -> list signed_constraint -> Z.
Variable us_find_min : solver -> pvar -> list signed_constraint -> option Z.
Variable us_find_max : solver -> pvar -> list signed_constraint -> option Z.
Variable collect_bits : pvar -> solver -> fixed_bits_info + list literal.

Definition collect_bit_information (v : pvar) (add_conflict : bool) (s : solver)
  : bool * fixed_bits_info * solver :=
  match collect_bits v s with
  | inl fbi => (true, fbi, s)
  | inr lits =>
      (false, mk_fbi [] [] [],
       if add_conflict then set_m_conflict (conflict_clause lits) s else s)
  end.

Definition unit_entries (s : solver) (v : pvar) : ring :=
  Layers.get_entries (units_of (m_viable s) v) (size s v).

Definition max_value (s : solver) (v : pvar) : Z := power_of_two (size s v) - 1.

Definition contains_val (e : entry) (x : Z) : bool :=
  eval_interval.currently_contains (interval e) x.

(** [do { if (!e->interval.currently_contains(lo)) break;
         lo = e->interval.hi_val(); e = e->next(); } while (e != first);]
    The result is the final [lo] and the node the loop broke at, if any. *)
Fixpoint walk_lo (rest : ring) (lo : Z) : Z * option entry :=
  match rest with
  | [] => (lo, None)
  | e :: r =>
      if negb (contains_val e lo) then (lo, Some e) else walk_lo r (e_hi e)
  end.

(** [do { if (!e->interval.currently_contains(hi)) break;
         hi = e->interval.lo_val() - 1; e = e->prev(); } while (e != last);]
    on the nodes in [prev] order from [last]. *)
Fixpoint walk_hi (rest : ring) (hi : Z) : Z :=
  match rest with
  | [] => hi
  | e :: r =>
      if negb (contains_val e hi) then hi else walk_hi r (e_lo e - 1)
  end.

(** [viable::query_find] *)
Definition query_find (v : pvar) (fbi : fixed_bits_info) (s : solver)
  : lbool * (Z * Z) * solver :=
  let refined := l_undef in
  let lo := 0 in
  let hi := max_value s v in
  match unit_entries s v with
  | [] =>
      let r1 := refine_viable true v lo fbi s in
      if negb (fst r1) then (refined, (lo, hi), snd r1)
      else
        let r2 := refine_viable false v hi fbi (snd r1) in
        if negb (fst r2) then (refined, (lo, hi), snd r2)
        else (l_true, (lo, hi), snd r2)
  | first :: r =>
      if eval_interval.is_full (interval first) then
        (l_false, (lo, hi), set_m_conflict (conflict_by_viable_interval v) s)
      else
        let last := last r first in
        if (e_lo last <? e_hi last) && (e_hi last <? max_value s v) then
          let lo := e_hi last in
          let r1 := refine_viable true v lo fbi s in
          if negb (fst r1) then (refined, (lo, hi), snd r1)
          else
            let r2 := refine_viable false v (max_value s v) fbi (snd r1) in
            if negb (fst r2) then (refined, (lo, hi), snd r2)
            else (l_true, (lo, hi), snd r2)
        else
          let lo := if contains_val last lo then e_hi last else lo in
          let '(lo, brk) := walk_lo (first :: r) lo in
          let e := match brk with Some e => e | None => first end in
          if contains_val e lo then
            (l_false, (lo, hi), set_m_conflict (conflict_by_viable_interval v) s)
          else
            let hi := walk_hi (rev (first :: r)) (max_value s v) in
            let r1 := refine_viable true v lo fbi s in
            if negb (fst r1) then (refined, (lo, hi), snd r1)
            else
              let r2 := refine_viable false v hi fbi (snd r1) in
              if negb (fst r2) then (refined, (lo, hi), snd r2)
              else (l_true, (lo, hi), snd r2)
  end.

(** [viable::query_min] *)
Definition query_min (v : pvar) (fbi : fixed_bits_info) (s : solver)
  : lbool * Z * solver :=
  let lo := 0 in
  match unit_entries s v with
  | [] =>
      let r1 := refine_viable true v lo fbi s in
      if negb (fst r1) then (l_undef, lo, snd r1) else (l_true, lo, snd r1)
  | first :: r =>
      let last := last r first in
      let lo := if contains_val last lo then e_hi last else lo in
      let lo := fst (walk_lo (first :: r) lo) in
      let r1 := refine_viable true v lo fbi s in
      if negb (fst r1) then (l_undef, lo, snd r1) else (l_true, lo, snd r1)
  end.

(** [viable::query_max] *)
Definition query_max (v : pvar) (fbi : fixed_bits_info) (s : solver)
  : lbool * Z * solver :=
  let hi := max_value s v in
  match unit_entries s v with
  | [] =>
      let r1 := refine_viable false v hi fbi s in
      if negb (fst r1) then (l_undef, hi, snd r1) else (l_true, hi, snd r1)
  | first :: r =>
      let hi := walk_hi (rev (first :: r)) hi in
      let r1 := refine_viable false v hi fbi s in
      if negb (fst r1) then (l_undef, hi, snd r1) else (l_true, hi, snd r1)
  end.

(** The result of a query, by mode ([query_result<mode>::result_t]). *)
Definition result_t (mode : query_t) : Type :=
  match mode with
  | find_viable_q => (Z * Z)%type
  | min_viable_q => Z
  | max_viable_q => Z
  end.

(** One round of the loop of [viable::query]; [result] is the reference
    the round writes to. *)
Definition query_round (mode : query_t) (v : pvar) (fbi : fixed_bits_info)
    (s : solver) : lbool * result_t mode * solver :=
  match mode with
  | find_viable_q => query_find v fbi s
  | min_viable_q => query_min v fbi s
  | max_viable_q => query_max v fbi s
  end.

(** The first loop of [query_fallback]: the sources of the refined unit
    entries, each literal once. *)
Definition add_entry_srcs (st : list literal * list signed_constraint) (e : entry)
  : list literal * list signed_constraint :=
  if refined e then
    fold_left
      (fun st c =>
         if existsb (sc_eqb (blit c)) (fst st) then st
         else (blit c :: fst st, snd st ++ [c]))
      (src e) st
  else st.

Definition looping_constraints (s : solver) (v : pvar)
  : list literal * list signed_constraint :=
  fold_left add_entry_srcs (unit_entries s v) ([], []).

(** The second loop: [for (unsigned i = cs.size(); i-- > 0; )] over
    [m_viable_fallback.m_constraints[v]]. *)
Definition all_constraints (s : solver) (v : pvar)
    (st : list literal * list signed_constraint)
  : list literal * list signed_constraint :=
  fold_left
    (fun st c =>
       if existsb (sc_eqb (blit c)) (fst st) then st
       else (blit c :: fst st, snd st ++ [c]))
    (rev (nth v (viable_fallback.m_constraints (m_viable_fallback s)) [])) st.

(** [query_find_fallback], [query_min_fallback], [query_max_fallback] *)
Definition query_mode_fallback (mode : query_t) (v : pvar) (s : solver)
    (us : list signed_constraint) (result : result_t mode)
  : lbool * result_t mode :=
  match mode return result_t mode -> lbool * result_t mode with
  | find_viable_q => fun _ => (l_true, (us_model s v us, -1))
  | min_viable_q => fun result =>
      match us_find_min s v us with
      | Some lo => (l_true, lo)
      | None => (l_undef, result)
      end
  | max_viable_q => fun result =>
      match us_find_max s v us with
      | Some hi => (l_true, hi)
      | None => (l_undef, result)
      end
  end result.

(** [viable::query_fallback<mode>] *)
Definition query_fallback (mode : query_t) (v : pvar) (result : result_t mode)
    (s : solver) : lbool * result_t mode * solver :=
  let st1 := looping_constraints s v in
  match us_check s v (snd st1) with
  | l_false => (l_false, result, set_m_conflict (conflict_by_viable_fallback v) s)
  | l_undef => (l_undef, result, s)
  | l_true =>
      let st2 := all_constraints s v st1 in
      match us_check s v (snd st2) with
      | l_false =>
          (l_false, result, set_m_conflict (conflict_by_viable_fallback v) s)
      | l_undef => (l_undef, result, s)
      | l_true =>
          (query_mode_fallback mode v s (snd st2) result, s)
      end
  end.

(** [unsigned const refinement_budget = 1000;] *)
Definition refinement_budget : nat := 1000.

(** [while (refinements--) { ... if (res != l_undef) return res; }
     return query_fallback<mode>(v, result);] *)
Fixpoint query_loop (refinements : nat) (mode : query_t) (v : pvar)
    (fbi : fixed_bits_info) (result : result_t mode) (s : solver)
  : lbool * result_t mode * solver :=
  match refinements with
  | O => query_fallback mode v result s
  | S refinements' =>
      let '(res, result', s') := query_round mode v fbi s in
      if negb (lbool_eqb res l_undef) then (res, result', s')
      else query_loop refinements' mode v fbi result' s'
  end.

(** [viable::query<mode>] *)
Definition query (mode : query_t) (v : pvar) (result : result_t mode) (s : solver)
  : lbool * result_t mode * solver :=
  let '(ok, fbi, s1) := collect_bit_information v true s in
  if negb ok then (l_false, result, s1)
  else query_loop refinement_budget mode v fbi result s1.

Definition find_viable2 (v : pvar) (lo hi : Z) (s : solver)
  : lbool * (Z * Z) * solver :=
  query find_viable_q v (lo, hi) s.

Definition min_viable (v : pvar) (lo : Z) (s : solver) : lbool * Z * solver :=
  query min_viable_q v lo s.

Definition max_viable (v : pvar) (hi : Z) (s : solver) : lbool * Z * solver :=
  query max_viable_q v hi s.

(** [viable::find_viable]; [lo] is the caller's variable, [hi] a fresh
    [rational]. *)
Definition find_viable (v : pvar) (lo : Z) (s : solver) : find_t * Z * solver :=
  let '(res, (lo', hi), s') := find_viable2 v lo 0 s in
  (match res with
   | l_true =>
       if hi <? 0 then multiple
       else if lo' =? hi then singleton else multiple
   | l_false => empty
   | l_undef => resource_out
   end, lo', s').

(** [for (; e != last; e = e->next())] of [is_viable]: [false] when a node
    before [last] contains [val], [true] when the loop is left for
    [refine_viable]. *)
Fixpoint is_viable_walk (l : ring) (val : Z) : bool :=
  match l with
  | [] => true
  | e :: r =>
      if contains_val e val then false
      else if val <? e_lo e then true
      else is_viable_walk r val
  end.

(** [viable::is_viable] *)
Definition is_viable (v : pvar) (val : Z) (s : solver) : bool * solver :=
  let '(ok, fbi, s1) := collect_bit_information v false s in
  if negb ok then (false, s1)
  else
    match unit_entries s1 v with
    | [] => refine_viable true v val fbi s1
    | first :: r =>
        let last := last r first in
        if contains_val last val then (false, s1)
        else if is_viable_walk (removelast (first :: r)) val then
          refine_viable true v val fbi s1
        else (false, s1)
    end.

End Queries.

End Viable.

(** ** solver.cpp: levels, the trail, watches, restarts *)

Module Solver.

(** Arithmetic on [unsigned]. *)
Definition u32 (x : Z) : Z := x mod 2 ^ 32.

(** Modelled from the spec: [boolean.h] ([bool_var_manager]) is not among
    the sources.  Per boolean variable it keeps the value of the positive
    literal, the level of the assignment and its kind; [unassign] clears
    them. *)
Definition bvar_info (s : solver) (b : nat) : bool_info :=
  nth b (m_bvars s) (mk_bool_info l_undef 0 b_unassigned).

Definition lneg (x : lbool) : lbool :=
  match x with l_true => l_false | l_false => l_true | l_undef => l_undef end.

Definition bvars_value (s : solver) (lit : literal) : lbool :=
  let x := b_value (bvar_info s (bvar lit)) in
  if is_positive lit then x else lneg x.

Definition bvars_level (s : solver) (lit : literal) : Z :=
  b_level (bvar_info s (bvar lit)).

Definition bvars_unassign (lit : literal) (s : solver) : solver :=
  set_m_bvars (set_nth (bvar lit) (mk_bool_info l_undef 0 b_unassigned) (m_bvars s)) s.

Definition bvars_assign (k : bool_kind) (lit : literal) (lvl : Z) (s : solver)
  : solver :=
  set_m_bvars
    (set_nth (bvar lit) (mk_bool_info (to_lbool (is_positive lit)) lvl k) (m_bvars s))
    s.

(** [m_free_pvars] ([var_queue]), as the set of the variables in it. *)
Definition unassign_var_eh (v : pvar) (s : solver) : solver :=
  if existsb (Nat.eqb v) (m_free_pvars s) then s
  else set_m_free_pvars (m_free_pvars s ++ [v]) s.

Definition del_var_eh (v : pvar) (s : solver) : solver :=
  set_m_free_pvars (filter (fun x => negb (x =? v)%nat) (m_free_pvars s)) s.

(** The constraint a signed constraint points to. *)
Definition cnstr (s : solver) (c : signed_constraint) : constraint :=
  nth (bvar c) (m_constraints s) (mk_constraint [] false).

Definition is_active (s : solver) (c : signed_constraint) : bool :=
  m_is_active (cnstr s c).

Definition set_active (b : bool) (c : signed_constraint) (s : solver) : solver :=
  set_m_constraints
    (set_nth (bvar c) (mk_constraint (vars (cnstr s c)) b) (m_constraints s)) s.

Definition is_conflict (s : solver) : bool :=
  match m_conflict s with
  | conflict_empty => false
  | _ => true
  end.

Definition set_conflict (c : signed_constraint) (s : solver) : solver :=
  set_m_conflict (conflict_constraint c) s.

Definition is_assigned (s : solver) (v : pvar) : bool :=
  match nth v (m_justification s) unassigned with
  | unassigned => false
  | _ => true
  end.

(** [solver::base_level], [solver::at_base_level] *)
Definition base_level (s : solver) : Z :=
  match m_base_levels s with
  | [] => 0
  | x :: r => last r x
  end.

Definition at_base_level (s : solver) : bool := m_level s =? base_level s.

Definition can_propagate (s : solver) : bool :=
  (m_qhead s <? length (m_search s))%nat && negb (is_conflict s).

(** [solver::push_level] *)
Definition push_level (s : solver) : solver :=
  set_m_trail (m_trail s ++ [inc_level_i]) (set_m_level (u32 (m_level s + 1)) s).

(** [solver::push_qhead], [solver::pop_qhead] ([solver.h]) *)
Definition push_qhead (s : solver) : solver :=
  set_m_qhead_trail (m_qhead_trail s ++ [m_qhead s])
    (set_m_trail (m_trail s ++ [qhead_i]) s).

Definition pop_qhead (s : solver) : solver :=
  match unsnoc (m_qhead_trail s) with
  | None => s
  | Some (r, q) => set_m_qhead_trail r (set_m_qhead q s)
  end.

(** [solver::add_var], [solver::del_var] *)
Definition add_var (sz : nat) (s : solver) : solver :=
  let v := length (m_value s) in
  let s1 := set_m_value (m_value s ++ [0]) s in
  let s2 := set_m_justification (m_justification s1 ++ [unassigned]) s1 in
  let s3 := set_m_viable (Viable.push_var (m_viable s2)) s2 in
  let s4 := set_m_pwatch (m_pwatch s3 ++ [[]]) s3 in
  let s5 := set_m_size (m_size s4 ++ [sz]) s4 in
  let s6 := set_m_trail (m_trail s5 ++ [add_var_i]) s5 in
  unassign_var_eh v s6.

Definition del_var (s : solver) : solver :=
  let v := (length (m_value s) - 1)%nat in
  let s1 := set_m_viable (Viable.pop_var (m_viable s)) s in
  let s2 := set_m_value (removelast (m_value s1)) s1 in
  let s3 := set_m_justification (removelast (m_justification s2)) s2 in
  let s4 := set_m_pwatch (removelast (m_pwatch s3)) s3 in
  let s5 := set_m_size (removelast (m_size s4)) s4 in
  del_var_eh v s5.

(** [solver::add_watch] *)
Definition add_watch_var (c : signed_constraint) (v : pvar) (s : solver) : solver :=
  set_m_pwatch (set_nth v (nth v (m_pwatch s) [] ++ [c]) (m_pwatch s)) s.

Definition add_watch (c : signed_constraint) (s : solver) : solver :=
  let vs := vars (cnstr s c) in
  let s1 := match vs with
            | v0 :: _ => add_watch_var c v0 s
            | [] => s
            end in
  match vs with
  | _ :: v1 :: _ => add_watch_var c v1 s1
  | _ => s1
  end.

(** [solver::erase_watch]: the first occurrence is overwritten with the
    last element, which is popped. *)
Fixpoint erase_from (c : signed_constraint) (wlist : list signed_constraint)
  : list signed_constraint :=
  match wlist with
  | [] => []
  | x :: r =>
      if sc_eqb c x then
        match unsnoc r with
        | None => []
        | Some (r', b) => b :: r'
        end
      else x :: erase_from c r
  end.

Definition erase_watch_var (v : pvar) (c : signed_constraint) (s : solver) : solver :=
  set_m_pwatch (set_nth v (erase_from c (nth v (m_pwatch s) [])) (m_pwatch s)) s.

Definition erase_watch (c : signed_constraint) (s : solver) : solver :=
  let vs := vars (cnstr s c) in
  let s1 := match vs with
            | v0 :: _ => erase_watch_var v0 c s
            | [] => s
            end in
  match vs with
  | _ :: v1 :: _ => erase_watch_var v1 c s1
  | _ => s1
  end.

(** [solver::deactivate_constraint] *)
Definition deactivate_constraint (c : signed_constraint) (s : solver) : solver :=
  erase_watch c (set_active false c s).

(** The body of [switch (m_trail.back())] in [pop_levels]: the state, the
    remaining number of levels and the [replay] vector after it.  An item
    of [m_search] of the wrong kind (undefined in the source) is left
    alone. *)
Definition undo_instr (i : trail_instr_t) (target_level : Z)
    (st : solver * Z * list literal) : solver * Z * list literal :=
  let '(s, num_levels, replay) := st in
  match i with
  | qhead_i => (pop_qhead s, num_levels, replay)
  | add_var_i => (del_var s, num_levels, replay)
  | inc_level_i => (set_m_level (u32 (m_level s - 1)) s, num_levels - 1, replay)
  | viable_add_i =>
      (set_m_viable (Viable.pop_viable (m_viable s)) s, num_levels, replay)
  | viable_rem_i =>
      (set_m_viable (Viable.push_viable (m_viable s)) s, num_levels, replay)
  | assign_i =>
      match unsnoc (m_search s) with
      | Some (items, assignment v) =>
          let s1 := unassign_var_eh v s in
          let s2 := set_m_justification
                      (set_nth v unassigned (m_justification s1)) s1 in
          (set_m_search items s2, num_levels, replay)
      | _ => (s, num_levels, replay)
      end
  | assign_bool_i =>
      match unsnoc (m_search s) with
      | Some (items, boolean lit) =>
          let c := lit2cnstr lit in
          let active_level := bvars_level s lit in
          let s1 := if is_active s c then deactivate_constraint c s else s in
          if active_level <=? target_level then
            (set_m_search items s1, num_levels, replay ++ [lit])
          else
            (set_m_search items (bvars_unassign lit s1), num_levels, replay)
      | _ => (s, num_levels, replay)
      end
  end.

(** [while (num_levels > 0) { switch ... ; m_trail.pop_back(); }].  Every
    round pops the trail, whose length is the fuel; on an empty trail
    ([m_trail.back()] is undefined) the loop stops. *)
Fixpoint pop_levels_loop (fuel : nat) (target_level : Z)
    (st : solver * Z * list literal) : solver * Z * list literal :=
  match fuel with
  | O => st
  | S fuel' =>
      let '(s, num_levels, replay) := st in
      if num_levels >? 0 then
        match unsnoc (m_trail s) with
        | None => st
        | Some (tr, i) =>
            let '(s1, num_levels1, replay1) := undo_instr i target_level st in
            pop_levels_loop fuel' target_level
              (set_m_trail tr s1, num_levels1, replay1)
        end
      else st
  end.

(** [for (unsigned j = replay.size(); j-- > 0; )] *)
Definition replay_lit (s : solver) (lit : literal) : solver :=
  set_m_search (m_search s ++ [boolean lit])
    (set_m_trail (m_trail s ++ [assign_bool_i]) s).

(** [solver::pop_levels].  [m_constraints.release_level] belongs to the
    constraint store and touches nothing of the state kept here. *)
Definition pop_levels (num_levels : Z) (s : solver) : solver :=
  if num_levels =? 0 then s
  else
    let target_level := u32 (m_level s - num_levels) in
    let '(s1, _, replay) :=
      pop_levels_loop (length (m_trail s)) target_level (s, num_levels, []) in
    fold_left replay_lit (rev replay) s1.

(** [solver::backjump] *)
Definition backjump (new_level : Z) (s : solver) : solver :=
  pop_levels (u32 (m_level s - new_level)) s.

(** [solver::push], [solver::pop] *)
Definition push (s : solver) : solver :=
  let s1 := push_level s in
  set_m_base_levels (m_base_levels s1 ++ [m_level s1]) s1.

Definition pop (num_scopes : nat) (s : solver) : solver :=
  let base_level :=
    nth (length (m_base_levels s) - num_scopes) (m_base_levels s) 0 in
  set_m_conflict conflict_empty
    (pop_levels (u32 (m_level s - base_level + 1)) s).

Section Restart.

(** [get_luby] is [util/luby.h]. *)
Variable get_luby : Z -> Z.

(** [solver::should_restart] *)
Definition should_restart (s : solver) : bool :=
  if u32 (m_num_conflicts s - m_conflicts_at_restart s) <? m_restart_threshold s
  then false
  else if u32 (base_level s + 2) >? m_level s then false
  else true.

(** [solver::restart] *)
Definition restart (s : solver) : solver :=
  let s1 := set_m_num_restarts (u32 (m_num_restarts s + 1)) s in
  let s2 := pop_levels (u32 (m_level s1 - base_level s1)) s1 in
  let s3 := set_m_conflicts_at_restart (m_num_conflicts s2) s2 in
  let s4 := set_m_luby_idx (u32 (m_luby_idx s3 + 1)) s3 in
  set_m_restart_threshold
    (u32 (m_restart_init s4 * get_luby (m_luby_idx s4))) s4.

(** What one iteration of the loop of [solver::check_sat] does.  The tests
    the sources do not define ([can_decide], [should_gc]) are arguments;
    [should_simplify] is [false]. *)
Inductive action :=
| a_unsat | a_resolve_conflict | a_propagate | a_sat | a_gc | a_simplify
| a_restart | a_decide.

Definition should_simplify (s : solver) : bool := false.

Definition check_sat_action (can_decide should_gc : bool) (s : solver) : action :=
  if is_conflict s && at_base_level s then a_unsat
  else if is_conflict s then a_resolve_conflict
  else if can_propagate s then a_propagate
  else if negb can_decide then a_sat
  else if should_gc then a_gc
  else if should_simplify s then a_simplify
  else if should_restart s then a_restart
  else a_decide.

End Restart.

Section Constraints.

(** What the constraint classes and [forbidden_intervals] do is outside the
    sources: [get_interval] yields the entry a constraint forbids for a
    variable, if any; [narrow] is [signed_constraint::narrow];
    [propagate_watch] is [signed_constraint::propagate], which answers
    whether the constraint left the watch list of the variable;
    [is_currently_false] evaluates a constraint under the assignment. *)
Variable get_interval : signed_constraint -> pvar -> solver -> option entry.
Variable narrow : signed_constraint -> solver -> solver.
Variable propagate_watch : signed_constraint -> pvar -> solver -> bool * solver.
Variable is_currently_false : signed_constraint -> solver -> bool.

(** [solver::assign_eval], at the current level. *)
Definition assign_eval (lit : literal) (s : solver) : solver :=
  let s1 := bvars_assign b_eval lit (m_level s) s in
  set_m_search (m_search s1 ++ [boolean lit])
    (set_m_trail (m_trail s1 ++ [assign_bool_i]) s1).

(** The loop of [viable::intersect] over the side conditions: [inl] when it
    returns from the function with a conflict. *)
Fixpoint side_conditions (scs : list signed_constraint) (s : solver)
  : solver + solver :=
  match scs with
  | [] => inr s
  | sc :: r =>
      match bvars_value s (blit sc) with
      | l_false => inl (set_conflict (negate sc) s)
      | l_undef => side_conditions r (assign_eval (blit sc) s)
      | l_true => side_conditions r s
      end
  end.

(** [viable::intersect(pvar v, signed_constraint const& c)] *)
Definition viable_intersect (v : pvar) (c : signed_constraint) (s : solver)
  : bool * solver :=
  if is_assigned s v then (false, s)
  else
    let '(id, vb) := Viable.alloc_entry (m_viable s) in
    match get_interval c v s with
    | None => (false, set_m_viable (Viable.release id vb) s)
    | Some fi =>
        let ne := mk_entry id (src fi) (side_cond fi) (coeff fi) (interval fi)
                    (bit_width fi) (refined fi) id in
        if eval_interval.is_currently_empty (interval ne) then
          (false, set_m_viable (Viable.release id vb) s)
        else
          match side_conditions (side_cond ne) (set_m_viable vb s) with
          | inl s1 => (true, s1)
          | inr s1 =>
              if coeff ne =? 1 then Viable.intersect v ne s1
              else if coeff ne =? -1 then (true, Viable.insert ne v diseq_e s1)
              else (true, Viable.insert ne v equal_e s1)
          end
    end.

(** [solver::assign_eh] *)
Definition assign_eh (c : signed_constraint) (s : solver) : solver :=
  if is_conflict s then s
  else
    let lit := blit c in
    match bvars_value s lit with
    | l_false => set_conflict c s
    | _ =>
        let s1 := bvars_assign b_asserted lit (m_level s) s in
        let s2 := set_m_trail (m_trail s1 ++ [assign_bool_i]) s1 in
        let s3 := set_m_search (m_search s2 ++ [boolean lit]) s2 in
        if is_currently_false c s3 then set_conflict c s3 else s3
    end.

(** [solver::activate_constraint] *)
Definition activate_constraint (c : signed_constraint) (s : solver) : solver :=
  narrow c (add_watch c (set_active true c s)).

(** [solver::propagate(sat::literal)].  There are no clauses in the state
    kept here, so the watch list of the negated literal is empty. *)
Definition propagate_lit (lit : literal) (s : solver) : solver :=
  let c := lit2cnstr lit in
  if is_active s c then s else activate_constraint c s.

(** [solver::propagate(pvar)]: the constraints that answer [false] stay on
    the watch list; after a conflict the rest stays as it is. *)
Fixpoint propagate_wlist (v : pvar) (wlist : list signed_constraint) (s : solver)
  : list signed_constraint * solver :=
  match wlist with
  | [] => ([], s)
  | c :: r =>
      if is_conflict s then (wlist, s)
      else
        let '(moved, s1) := propagate_watch c v s in
        let '(kept, s2) := propagate_wlist v r s1 in
        (if moved then kept else c :: kept, s2)
  end.

Definition propagate_var (v : pvar) (s : solver) : solver :=
  let '(kept, s1) := propagate_wlist v (nth v (m_pwatch s) []) s in
  set_m_pwatch (set_nth v kept (m_pwatch s1)) s1.

(** [while (can_propagate()) { ... m_search[m_qhead++] ... }]; the loop
    need not end, [fuel] bounds its rounds. *)
Fixpoint propagate_loop (fuel : nat) (s : solver) : solver :=
  match fuel with
  | O => s
  | S fuel' =>
      if can_propagate s then
        let item := nth (m_qhead s) (m_search s) (assignment O) in
        let s1 := set_m_qhead (S (m_qhead s)) s in
        propagate_loop fuel'
          (match item with
           | assignment v => propagate_var v s1
           | boolean lit => propagate_lit lit s1
           end)
      else s
  end.

(** [solver::propagate] *)
Definition propagate (fuel : nat) (s : solver) : solver :=
  if negb (can_propagate s) then s
  else propagate_loop fuel (push_qhead s).

End Constraints.

(** [solver::assign_core]; the counters of [m_stats] other than conflicts
    and restarts are not kept. *)
Definition assign_core (v : pvar) (val : Z) (j : justification) (s : solver)
  : solver :=
  let s1 := set_m_value (set_nth v val (m_value s)) s in
  let s2 := set_m_search (m_search s1 ++ [assignment v]) s1 in
  let s3 := set_m_trail (m_trail s2 ++ [assign_i]) s2 in
  set_m_justification (set_nth v j (m_justification s3)) s3.

Section Decide.

Variable us_check : solver -> pvar -> list signed_constraint -> lbool.
Variable us_model : solver -> pvar -> list signed_constraint -> Z.
Variable us_find_min : solver -> pvar -> list signed_constraint -> option Z.
Variable us_find_max : solver -> pvar -> list signed_constraint -> option Z.
Variable collect_bits : pvar -> solver -> fixed_bits_info + list literal.

(** [solver::pdecide], on the variable [m_free_pvars.next_var()] took out
    of the queue. *)
Definition pdecide (v : pvar) (s : solver) : solver :=
  let '(res, val, s1) :=
    Viable.find_viable us_check us_model us_find_min us_find_max collect_bits
      v 0 (del_var_eh v s) in
  match res with
  | Viable.empty => set_m_conflict (conflict_var v) (unassign_var_eh v s1)
  | Viable.singleton => assign_core v val (propagation (m_level s1)) s1
  | Viable.multiple =>
      let s2 := push_level s1 in
      assign_core v val (decision (m_level s2)) s2
  | Viable.resource_out => s1
  end.

End Decide.

(** [solver::wlist_invariant]; [false] where a [VERIFY] or [SASSERT] of the
    source fails. *)
Definition skip_set (s : solver) : list nat :=
  flat_map (fun item => match item with
                        | boolean lit => [bvar lit]
                        | assignment _ => []
                        end)
    (skipn (m_qhead s) (m_search s)).

Definition count_watch (sc : signed_constraint) (wlist : list signed_constraint)
  : nat :=
  length (filter (sc_eqb sc) wlist).

Definition num_watches (s : solver) (sc : signed_constraint) : nat :=
  fold_left (fun n wlist => (n + count_watch sc wlist)%nat) (m_pwatch s) O.

Definition expected_watches (c : constraint) : nat := Nat.min 2 (length (vars c)).

Definition wlist_ok (s : solver) (b : nat) (c : constraint) : bool :=
  if existsb (Nat.eqb b) (skip_set s) then true
  else
    match b_value (bvar_info s b) with
    | l_undef => true
    | value =>
        let sc := mk_sc b (lbool_eqb value l_true) in
        forallb (fun wlist => (count_watch sc wlist <=? 1)%nat) (m_pwatch s)
        && (num_watches s sc =? expected_watches c)%nat
    end.

Fixpoint wlist_invariant_from (s : solver) (b : nat) (cs : list constraint) : bool :=
  match cs with
  | [] => true
  | c :: r => wlist_ok s b c && wlist_invariant_from s (S b) r
  end.

Definition wlist_invariant (s : solver) : bool :=
  wlist_invariant_from s O (m_constraints s).

End Solver.

(** ** Well-formed rings *)

Section RingOrder.
Import eval_interval Viable.

Definition proper_nonempty (e : entry) : Prop :=
  is_full (interval e) = false /\ e_lo e <> e_hi e.

(** Containment of proper intervals as a linear condition on the bounds. *)
Definition Contains (a b : entry) : Prop :=
  (e_lo a <= e_lo b /\ e_lo b <= e_hi b /\ e_hi b <= e_hi a) \/
  (e_hi a < e_lo a /\
   ((e_lo a <= e_lo b /\ e_lo b <= e_hi b) \/
    (e_lo b <= e_hi b /\ e_hi b <= e_hi a) \/
    (e_hi b <= e_hi a /\ e_lo a <= e_lo b))).

Lemma iv_contains_iff a b :
  is_full (interval a) = false -> is_full (interval b) = false ->
  (iv_contains a b = true <-> Contains a b).
Proof.
  intros Ha Hb. unfold iv_contains, currently_contains_interval, Contains, e_lo, e_hi.
  rewrite Ha, Hb.
  destruct (Z.leb_spec (lo_val (interval a)) (lo_val (interval b)));
  destruct (Z.leb_spec (lo_val (interval b)) (hi_val (interval b)));
  destruct (Z.leb_spec (hi_val (interval b)) (hi_val (interval a)));
  destruct (Z.leb_spec (lo_val (interval a)) (hi_val (interval a)));
  simpl; split; intros; try discriminate; try reflexivity; lia.
Qed.

Lemma iv_contains_false_iff a b :
  is_full (interval a) = false -> is_full (interval b) = false ->
  (iv_contains a b = false <-> ~ Contains a b).
Proof.
  intros Ha Hb. rewrite <- (iv_contains_iff a b Ha Hb).
  destruct (iv_contains a b); split; intros; congruence.
Qed.

(** The value-level reading: a proper interval contains another non-empty
    one exactly when it contains each of its values. *)
Lemma Contains_values a b :
  proper_nonempty b -> is_full (interval a) = false ->
  (Contains a b <->
   forall v, In_interval (interval b) v -> In_interval (interval a) v).
Proof.
  intros [Hb Hne] Ha. unfold Contains, In_interval, e_lo, e_hi in *.
  rewrite Ha, Hb. split.
  - intros H v Hv. right. lia.
  - intros H.
    assert (H1 := H (lo_val (interval b))).
    assert (H2 := H (hi_val (interval b) - 1)).
    assert (H3 := H (hi_val (interval a))).
    assert (H4 := H (lo_val (interval a) - 1)).
    assert (H5 := H (Z.max (lo_val (interval b)) (hi_val (interval a) + 1))).
    lia.
Qed.

(** Two entries in list order, as [well_formed] wants them. *)
Definition ok_pair (a b : entry) : Prop :=
  e_lo a < e_lo b /\ ~ Contains a b /\ ~ Contains b a.

Lemma Contains_trans a b c :
  e_lo b <> e_hi b -> Contains a b -> Contains b c -> Contains a c.
Proof. unfold Contains. lia. Qed.

Lemma same_lo_Contains a b :
  e_lo a <> e_hi a -> e_lo b <> e_hi b -> e_lo a = e_lo b ->
  Contains a b \/ Contains b a.
Proof. unfold Contains. lia. Qed.

(** Later entries of a well-formed list are not contained in an entry that
    does not contain an earlier one. *)
Lemma tail_not_contained a e x :
  e_lo e <> e_hi e -> e_lo x <> e_hi x ->
  e_lo a < e_lo e -> e_lo e < e_lo x ->
  ~ Contains a e -> ~ Contains e x -> ~ Contains a x.
Proof. unfold Contains. lia. Qed.

(** An entry before the last one does not contain what the last one does
    not contain, when that starts before both. *)
Lemma tail_not_containing a x z :
  e_lo a <> e_hi a -> e_lo x <> e_hi x -> e_lo z <> e_hi z ->
  e_lo a < e_lo x -> e_lo x < e_lo z ->
  ~ Contains z a -> ~ Contains x z -> ~ Contains x a.
Proof. unfold Contains. lia. Qed.

(** The last entry closes the circle: between the first and the last entry
    nobody contains an earlier entry. *)
Lemma circle_not_containing f a c z :
  e_lo f <> e_hi f -> e_lo a <> e_hi a -> e_lo c <> e_hi c -> e_lo z <> e_hi z ->
  e_lo f <= e_lo a -> e_lo a < e_lo c -> e_lo c <= e_lo z ->
  (e_lo f = e_lo a -> e_hi f = e_hi a) -> (e_lo c = e_lo z -> e_hi c = e_hi z) ->
  (e_lo f < e_lo a -> ~ Contains f a) -> ~ Contains a c ->
  (e_lo c < e_lo z -> ~ Contains c z) -> ~ Contains z f ->
  ~ Contains c a.
Proof. unfold Contains. lia. Qed.

End RingOrder.

Section WellFormed.
Import eval_interval Viable.

(** What the specification asks of a unit-interval list: a full interval is
    the only entry; otherwise no entry is full or currently empty, lower
    bounds ascend strictly from the head, and no entry contains another. *)
Definition ring_ok (l : ring) : Prop :=
  (exists e, l = [e] /\ is_full (interval e) = true) \/
  (Forall proper_nonempty l /\ StronglySorted ok_pair l).

(** What the loop of [well_formed] looks at: neighbours only. *)
Definition adj (a b : entry) : Prop :=
  proper_nonempty a /\ proper_nonempty b /\ e_lo a < e_lo b /\ ~ Contains a b.

Lemma adj_trans a b c : adj a b -> adj b c -> adj a c.
Proof.
  intros (Ha & Hb & Hab & Cab) (_ & Hc & Hbc & Cbc).
  split; [assumption|]. split; [assumption|]. split; [lia|].
  apply (@tail_not_contained a b c); unfold proper_nonempty in *; try tauto; lia.
Qed.

Lemma last_in {A} (l : list A) (d : A) : l <> [] -> In (last l d) l.
Proof.
  intros H. destruct (exists_last H) as (q & y & ->).
  rewrite last_last. apply in_or_app. right. now left.
Qed.

Lemma StronglySorted_last {A} (R : A -> A -> Prop) (l : list A) (d x : A) :
  StronglySorted R l -> In x l -> x = last l d \/ R x (last l d).
Proof.
  induction 1 as [|a l Hs IH Hf]; intros Hin; [destruct Hin|].
  destruct l as [|b l'].
  - destruct Hin as [->|[]]. now left.
  - change (last (a :: b :: l') d) with (last (b :: l') d).
    destruct Hin as [->|Hin]; [|auto].
    right. rewrite Forall_forall in Hf. apply Hf.
    apply last_in. discriminate.
Qed.

Lemma StronglySorted_app_inv {A} (R : A -> A -> Prop) (l1 l2 : list A) :
  StronglySorted R (l1 ++ l2) ->
  StronglySorted R l1 /\ StronglySorted R l2 /\
  (forall x y, In x l1 -> In y l2 -> R x y).
Proof.
  induction l1 as [|a l1 IH]; simpl; intros H.
  - repeat split; [constructor | assumption | intros x y []].
  - inversion H as [|? ? Hs Hf]; subst.
    destruct (IH Hs) as (H1 & H2 & H3).
    rewrite Forall_app in Hf. destruct Hf as [Hf1 Hf2].
    repeat split; [constructor; assumption | assumption |].
    intros x y [->|Hx] Hy; [|auto].
    rewrite Forall_forall in Hf2. auto.
Qed.

Lemma StronglySorted_app {A} (R : A -> A -> Prop) (l1 l2 : list A) :
  StronglySorted R l1 -> StronglySorted R l2 ->
  (forall x y, In x l1 -> In y l2 -> R x y) ->
  StronglySorted R (l1 ++ l2).
Proof.
  induction l1 as [|a l1 IH]; simpl; intros H1 H2 H3; [assumption|].
  inversion H1 as [|? ? Hs Hf]; subst.
  constructor.
  - apply IH; auto.
  - rewrite Forall_app. split; [assumption|].
    rewrite Forall_forall. intros y Hy. apply H3; auto.
Qed.

(** Neighbour conditions around the circle give all pairs. *)
Lemma adj_circle_ok_pair (f z : entry) (l : ring) :
  proper_nonempty f -> proper_nonempty z -> ~ Contains z f ->
  StronglySorted adj l ->
  Forall (fun x => (x = f \/ adj f x) /\ (x = z \/ adj x z)) l ->
  StronglySorted ok_pair l.
Proof.
  intros Hf Hz Hzf Hs. induction Hs as [|a l Hs IH Ha]; intros Hall; [constructor|].
  inversion Hall as [|? ? [Hfa Haz] Hall']; subst.
  constructor; [auto|].
  rewrite Forall_forall in *. intros c Hc.
  destruct (Ha c Hc) as (Pa & Pc & Hac & Cac).
  destruct (Hall' c Hc) as [Hfc Hcz].
  repeat split; [assumption | assumption |].
  unfold proper_nonempty in *.
  apply (@circle_not_containing f a c z); try tauto.
  - destruct Hfa as [->|(_ & _ & ? & _)]; lia.
  - destruct Hcz as [->|(_ & _ & ? & _)]; lia.
  - destruct Hfa as [->|(_ & _ & ? & _)]; lia.
  - destruct Hcz as [->|(_ & _ & ? & _)]; lia.
  - destruct Hfa as [->|(_ & _ & ? & ?)]; [lia|tauto].
  - destruct Hcz as [->|(_ & _ & ? & ?)]; [lia|tauto].
Qed.

Lemma ok_pair_adj a b :
  proper_nonempty a -> proper_nonempty b -> ok_pair a b -> adj a b.
Proof. unfold ok_pair, adj. tauto. Qed.

(** The loop of [well_formed] from an inner node on. *)
Lemma is_currently_empty_false e :
  is_full (interval e) = false ->
  is_currently_empty (interval e) = false -> proper_nonempty e.
Proof.
  intros He Eemp. split; [assumption|].
  unfold is_currently_empty, is_proper, interval.is_proper in Eemp.
  unfold is_full in He. rewrite He in Eemp. simpl in Eemp.
  apply Z.eqb_neq in Eemp. exact Eemp.
Qed.

Lemma proper_nonempty_not_empty e :
  proper_nonempty e -> is_currently_empty (interval e) = false.
Proof.
  intros [He Hne]. unfold is_currently_empty, is_proper, interval.is_proper.
  unfold is_full in He. rewrite He. simpl. now apply Z.eqb_neq.
Qed.

Lemma well_formed_from_inv first l :
  is_full (interval first) = false ->
  well_formed_from first false l = true -> l <> [] ->
  Forall (fun e => is_full (interval e) = false) l ->
  Forall proper_nonempty l /\ Sorted adj l /\ ~ Contains (last l first) first.
Proof.
  intros Ff. induction l as [|e rest IH]; intros H Hne Hfull; [congruence|].
  inversion Hfull as [|? ? He Hrest]; subst.
  simpl in H. rewrite He in H.
  destruct (is_currently_empty (interval e)) eqn:Eemp; [discriminate|].
  assert (Pe : proper_nonempty e) by (now apply is_currently_empty_false).
  destruct rest as [|n rest'].
  - simpl in H. destruct (iv_contains e first) eqn:Ec; [discriminate|].
    split; [constructor; auto|]. split; [constructor; constructor|].
    simpl. apply (iv_contains_false_iff e first He Ff). exact Ec.
  - simpl in H.
    destruct (iv_contains e n) eqn:Ec; [discriminate|].
    destruct (Z.geb_spec (e_lo e) (e_lo n)) as [|Hlt]; [discriminate|].
    inversion Hrest as [|? ? Hn _]; subst.
    destruct (IH H ltac:(discriminate) Hrest) as (HP & HS & HL).
    split; [constructor; assumption|].
    split; [|exact HL].
    constructor; [assumption|]. constructor.
    inversion HP; subst.
    split; [assumption|]. split; [assumption|]. split; [assumption|].
    apply (iv_contains_false_iff e n He Hn). exact Ec.
Qed.

Lemma well_formed_from_not_full first l :
  well_formed_from first false l = true ->
  Forall (fun e => is_full (interval e) = false) l.
Proof.
  induction l as [|e rest IH]; intros H; [constructor|].
  simpl in H. destruct (is_full (interval e)) eqn:He; [discriminate|].
  constructor; [assumption|].
  destruct (is_currently_empty (interval e)); [discriminate|].
  destruct rest as [|n rest']; [constructor|].
  simpl in H. destruct (iv_contains e n); [discriminate|].
  destruct (e_lo e >=? e_lo n); [discriminate|]. auto.
Qed.

Lemma well_formed_from_build first l :
  proper_nonempty first -> l <> [] ->
  Forall proper_nonempty l -> StronglySorted ok_pair l ->
  ~ Contains (last l first) first ->
  well_formed_from first false l = true.
Proof.
  intros Pf. induction l as [|e rest IH]; intros Hne HP HS HL; [congruence|].
  inversion HP as [|? ? Pe HP']; subst. inversion HS as [|? ? HS' Hall]; subst.
  simpl. destruct Pe as [He Hnee]. rewrite He.
  rewrite (proper_nonempty_not_empty (conj He Hnee)).
  destruct rest as [|n rest'].
  - simpl in *. destruct Pf as [Ff _].
    apply (iv_contains_false_iff e first He Ff) in HL. now rewrite HL.
  - simpl. inversion Hall as [|? ? (Hlt & C1 & C2) _]; subst.
    inversion HP' as [|? ? [Hn _] _]; subst.
    apply (iv_contains_false_iff e n He Hn) in C1. rewrite C1.
    destruct (Z.geb_spec (e_lo e) (e_lo n)); [lia|].
    apply IH; auto. discriminate.
Qed.

(** [well_formed] accepts exactly the lists the specification describes. *)
Lemma well_formed_iff_ring_ok l : well_formed l = true <-> ring_ok l.
Proof.
  split.
  - destruct l as [|e rest]; intros H.
    { right. split; constructor. }
    unfold well_formed in H.
    destruct (is_full (interval e)) eqn:He.
    + simpl in H. rewrite He in H. left. exists e.
      destruct rest; [auto|discriminate].
    + right. destruct rest as [|n rest'].
      * simpl in H. rewrite He in H.
        destruct (is_currently_empty (interval e)) eqn:Ee; [discriminate|].
        split; constructor; auto using is_currently_empty_false; constructor.
      * assert (Hnf := well_formed_from_not_full _ _ H).
        destruct (well_formed_from_inv e He H ltac:(discriminate) Hnf)
          as (HP & HS & HL).
        split; [assumption|].
        assert (HSS : StronglySorted adj (e :: n :: rest')).
        { apply Sorted_StronglySorted; [|assumption].
          intros a b c. apply adj_trans. }
        inversion HP as [|? ? Pe _]; subst.
        apply (@adj_circle_ok_pair e (last (e :: n :: rest') e)); auto.
        -- assert (Hin := @last_in _ (e :: n :: rest') e ltac:(discriminate)).
           rewrite Forall_forall in HP. auto.
        -- rewrite Forall_forall. intros x Hx. split.
           ++ inversion HSS as [|? ? _ Hall]; subst.
              destruct Hx as [->|Hx]; [now left|].
              right. rewrite Forall_forall in Hall. auto.
           ++ apply StronglySorted_last; assumption.
  - intros [(e & -> & He)|[HP HS]].
    + simpl. now rewrite He.
    + destruct l as [|e rest]; [reflexivity|].
      unfold well_formed. inversion HP as [|? ? Pe HP']; subst.
      destruct rest as [|n rest'].
      * simpl. destruct Pe as [He Hne]. rewrite He.
        now rewrite (proper_nonempty_not_empty (conj He Hne)).
      * apply well_formed_from_build; auto; [discriminate|].
        inversion HS as [|? ? _ Hall]; subst.
        rewrite Forall_forall in Hall.
        assert (Hin : In (last (e :: n :: rest') e) (n :: rest')).
        { change (last (e :: n :: rest') e) with (last (n :: rest') e).
          apply last_in. discriminate. }
        destruct (Hall _ Hin) as (_ & _ & C). exact C.
Qed.

(** *** [intersect] keeps the list well-formed *)

Definition proper_ok (l : ring) : Prop :=
  Forall proper_nonempty l /\ StronglySorted ok_pair l.

Lemma proper_ok_remove a e b : proper_ok (a ++ e :: b) -> proper_ok (a ++ b).
Proof.
  intros [HP HS]. split.
  - rewrite Forall_app in *. destruct HP as [H1 H2]. inversion H2; auto.
  - apply StronglySorted_app_inv in HS. destruct HS as (H1 & H2 & H3).
    inversion H2; subst. apply StronglySorted_app; auto.
    intros x y Hx Hy. apply H3; [assumption|now right].
Qed.

Lemma proper_ok_insert a ne b :
  proper_ok (a ++ b) -> proper_nonempty ne ->
  (forall x, In x a -> ok_pair x ne) -> (forall y, In y b -> ok_pair ne y) ->
  proper_ok (a ++ ne :: b).
Proof.
  intros [HP HS] Pn Ha Hb. split.
  - rewrite Forall_app in *. destruct HP. split; auto.
  - apply StronglySorted_app_inv in HS. destruct HS as (H1 & H2 & H3).
    apply StronglySorted_app; auto.
    + constructor; [assumption|]. rewrite Forall_forall. exact Hb.
    + intros x y Hx [<-|Hy]; auto.
Qed.

Lemma proper_ok_single e : proper_nonempty e -> proper_ok [e].
Proof. intros H. split; constructor; auto; constructor. Qed.

Lemma proper_ok_ring_ok l : proper_ok l -> ring_ok l.
Proof. intros H. right. exact H. Qed.

Lemma proper_nonempty_init e : proper_nonempty e -> proper_nonempty (dll_base.init e).
Proof. exact (fun H => H). Qed.

(** Where the new entry goes in front of [e]: every entry from [e] on is
    in order with it, once [e] is not swallowed and the last entry does not
    swallow the new one. *)
Lemma insert_point_ok ne e rest :
  proper_ok (e :: rest) -> proper_nonempty ne ->
  e_lo ne < e_lo e -> ~ Contains ne e -> ~ Contains (last rest e) ne ->
  forall y, In y (e :: rest) -> ok_pair ne y.
Proof.
  intros [HP HS] [_ Nne] Hlt Cne Clast y Hy.
  assert (Py : proper_nonempty y) by (rewrite Forall_forall in HP; auto).
  assert (Pe : proper_nonempty e) by (inversion HP; auto).
  assert (Hey : y = e \/ ok_pair e y).
  { inversion HS as [|? ? _ Hall]; subst. destruct Hy as [->|Hy]; [now left|].
    right. rewrite Forall_forall in Hall. auto. }
  assert (Hyz : y = last (e :: rest) e \/ ok_pair y (last (e :: rest) e))
    by (apply StronglySorted_last; assumption).
  assert (El : last (e :: rest) e = last rest e) by (destruct rest; reflexivity).
  rewrite El in Hyz.
  assert (Pz : proper_nonempty (last rest e)).
  { rewrite <- El. rewrite Forall_forall in HP. apply HP. apply last_in. discriminate. }
  unfold proper_nonempty in *.
  split; [|split].
  - destruct Hey as [->|(? & _)]; lia.
  - destruct Hey as [->|(? & ? & _)]; [assumption|].
    apply (@tail_not_contained ne e y); tauto.
  - destruct Hyz as [->|(? & ? & _)]; [assumption|].
    apply (@tail_not_containing ne y (last rest e)); try tauto.
    destruct Hey as [->|(? & _)]; lia.
Qed.

Definition passed (ne x : entry) : Prop :=
  ~ Contains ne x /\ e_lo x <= e_lo ne /\ ~ Contains x ne.

Lemma passed_ok_pair ne x :
  proper_nonempty ne -> proper_nonempty x -> passed ne x -> ok_pair x ne.
Proof.
  intros [_ Hn] [_ Hx] (C1 & Hle & C2). split; [|tauto].
  destruct (Z.eq_dec (e_lo x) (e_lo ne)) as [E|]; [|lia].
  destruct (@same_lo_Contains x ne Hx Hn E); tauto.
Qed.

Lemma intersect_loop_ok fuel ne : proper_nonempty ne ->
  forall rb rest removed top,
  proper_ok (rev rb ++ rest) ->
  Forall (passed ne) rb ->
  (top = false -> match rest with e :: _ => ~ Contains e ne | [] => True end) ->
  match intersect_loop fuel ne rb rest removed top with
  | i_dropped l _ | i_inserted l _ => proper_ok l
  | i_fuel => True
  end.
Proof.
  intros Pn. induction fuel as [|fuel IH]; intros rb rest removed top Hok Hrb Htop;
    [exact I|].
  simpl. destruct rest as [|e rest']; [exact I|].
  assert (Pe : proper_nonempty e).
  { destruct Hok as [HP _]. rewrite Forall_app in HP. destruct HP as [_ HP].
    inversion HP; auto. }
  assert (Fe := proj1 Pe). assert (Fn := proj1 Pn).
  destruct (top && iv_contains e ne) eqn:EA.
  { rewrite rev_append_rev. exact Hok. }
  assert (CA : ~ Contains e ne).
  { destruct top; simpl in EA.
    - now apply (iv_contains_false_iff e ne Fe Fn).
    - now apply Htop. }
  destruct (iv_contains ne e) eqn:EB.
  { apply (iv_contains_iff ne e Fn Fe) in EB.
    destruct rest' as [|x r].
    - destruct rb as [|p rb'].
      + now apply proper_ok_single.
      + apply IH.
        * change (rev [] ++ rev (p :: rb')) with (rev (p :: rb')).
          apply (@proper_ok_remove (rev (p :: rb')) e []) in Hok.
          now rewrite app_nil_r in Hok.
        * constructor.
        * intros _. destruct (rev (p :: rb')) as [|h t] eqn:Er; [exact I|].
          assert (Hin : In h (p :: rb')).
          { apply in_rev. rewrite Er. now left. }
          rewrite Forall_forall in Hrb. destruct (Hrb h Hin) as (_ & _ & C). exact C.
    - assert (Hok' := proper_ok_remove _ _ _ Hok).
      destruct rb as [|p rb']; apply IH; auto; intros _;
        (intros Cx;
         assert (Cxe : Contains x e)
           by (apply (@Contains_trans x ne e); [apply Pn|assumption|assumption]);
         destruct Hok as [_ HS]; apply StronglySorted_app_inv in HS;
         destruct HS as (_ & HS & _); inversion HS as [|? ? _ Hall]; subst;
         inversion Hall as [|? ? (_ & _ & C) _]; subst; tauto). }
  apply (iv_contains_false_iff ne e Fn Fe) in EB.
  destruct (Z.gtb_spec (e_lo e) (e_lo ne)) as [Hgt|Hle].
  { destruct (iv_contains (last rest' e) ne) eqn:EL.
    { rewrite rev_append_rev. exact Hok. }
    rewrite rev_append_rev.
    assert (Hok2 : proper_ok (e :: rest')).
    { destruct Hok as [HP HS]. rewrite Forall_app in HP.
      apply StronglySorted_app_inv in HS. split; tauto. }
    assert (Pz : proper_nonempty (last rest' e)).
    { destruct Hok2 as [HP _]. rewrite Forall_forall in HP. apply HP.
      destruct rest'; [now left|]. right. apply last_in. discriminate. }
    apply (iv_contains_false_iff _ ne (proj1 Pz) Fn) in EL.
    apply proper_ok_insert; auto.
    - intros x Hx. apply passed_ok_pair; auto.
      + destruct Hok as [HP _]. rewrite Forall_forall in HP. apply HP.
        apply in_or_app. now left.
      + rewrite Forall_forall in Hrb. apply Hrb. now apply in_rev.
    - apply insert_point_ok; auto; lia. }
  assert (Pass : passed ne e) by (unfold passed; tauto).
  destruct rest' as [|x r].
  - rewrite rev_append_rev.
    replace (rev rb ++ [e; dll_base.init ne]) with ((rev rb ++ [e]) ++ dll_base.init ne :: [])
      by (now rewrite <- app_assoc).
    apply proper_ok_insert; auto.
    + now rewrite app_nil_r.
    + intros y Hy. apply passed_ok_pair; auto.
      * destruct Hok as [HP _]. rewrite Forall_forall in HP. auto.
      * apply in_app_or in Hy. destruct Hy as [Hy|[<-|[]]]; [|assumption].
        rewrite Forall_forall in Hrb. apply Hrb. now apply in_rev.
    + intros y [].
  - apply IH.
    + simpl. now rewrite <- app_assoc.
    + constructor; assumption.
    + discriminate.
Qed.

Lemma ring_ok_proper e l :
  ring_ok (e :: l) -> is_full (interval e) = false -> proper_ok (e :: l).
Proof.
  intros [(e' & E & F)|H] He; [|exact H].
  inversion E; subst. congruence.
Qed.

Lemma ring_ok_single e : is_currently_empty (interval e) = false -> ring_ok [e].
Proof.
  intros H. destruct (is_full (interval e)) eqn:F.
  - left. now exists e.
  - right. apply proper_ok_single. now apply is_currently_empty_false.
Qed.

Lemma ring_ok_nil : ring_ok [].
Proof. right. split; constructor. Qed.

Lemma intersect_ring_ok l ne :
  ring_ok l ->
  match intersect_ring l ne with
  | i_dropped l' _ | i_inserted l' _ => ring_ok l'
  | i_fuel => True
  end.
Proof.
  intros Hok. unfold intersect_ring. destruct l as [|e l'].
  - destruct (is_currently_empty (interval ne)) eqn:E; [exact Hok|].
    now apply ring_ok_single.
  - destruct (is_full (interval e)) eqn:Fe; [exact Hok|].
    destruct (is_currently_empty (interval ne)) eqn:E; [exact Hok|].
    destruct (is_full (interval ne)) eqn:Fn.
    { left. now exists (dll_base.init ne). }
    assert (Pn : proper_nonempty ne) by (now apply is_currently_empty_false).
    assert (H := @intersect_loop_ok (2 * length (e :: l') + 1) ne Pn [] (e :: l') [] true
                   (ring_ok_proper Hok Fe) (Forall_nil _) ltac:(discriminate)).
    destruct (intersect_loop _ ne [] (e :: l') [] true); auto using proper_ok_ring_ok.
Qed.

(** The loop always ends within the fuel it is given: a second pass over the
    nodes already visited removes nothing. *)
Definition visited (ne x : entry) : Prop :=
  iv_contains ne x = false /\ (e_lo x >? e_lo ne) = false.

Lemma intersect_loop_second_pass ne fuel :
  forall rb rest removed top,
  Forall (visited ne) rest -> rest <> [] -> (length rest <= fuel)%nat ->
  intersect_loop fuel ne rb rest removed top <> i_fuel.
Proof.
  induction fuel as [|fuel IH]; intros rb rest removed top Hv Hne Hlen.
  - destruct rest; simpl in *; [congruence|lia].
  - destruct rest as [|e rest']; [congruence|].
    inversion Hv as [|? ? [H1 H2] Hv']; subst. simpl.
    destruct (top && iv_contains e ne); [discriminate|].
    rewrite H1, H2.
    destruct rest' as [|x r]; [discriminate|].
    apply IH; auto; [discriminate|simpl in *; lia].
Qed.

Lemma intersect_loop_total ne fuel :
  forall rb rest removed top,
  Forall (visited ne) rb -> rest <> [] ->
  (2 * length rest + length rb <= fuel)%nat ->
  intersect_loop fuel ne rb rest removed top <> i_fuel.
Proof.
  induction fuel as [|fuel IH]; intros rb rest removed top Hv Hne Hlen.
  - destruct rest; simpl in *; [congruence|lia].
  - destruct rest as [|e rest']; [congruence|]. simpl.
    destruct (top && iv_contains e ne); [discriminate|].
    destruct (iv_contains ne e) eqn:EB.
    + destruct rb as [|p rb'], rest' as [|x r]; try discriminate.
      * apply IH; auto; [discriminate|simpl in *; lia].
      * apply intersect_loop_second_pass.
        -- apply Forall_rev. exact Hv.
        -- intros E. apply (f_equal (@length _)) in E.
           rewrite length_rev in E. discriminate.
        -- rewrite length_rev. simpl in *. lia.
      * apply IH; auto; [discriminate|simpl in *; lia].
    + destruct (e_lo e >? e_lo ne) eqn:EC.
      * destruct (iv_contains (last rest' e) ne); discriminate.
      * destruct rest' as [|x r]; [discriminate|].
        apply IH; [constructor; [split|]; assumption|discriminate|simpl in *; lia].
Qed.

Lemma intersect_ring_total l ne : intersect_ring l ne <> i_fuel.
Proof.
  unfold intersect_ring. destruct l as [|e l'].
  - destruct (is_currently_empty (interval ne)); discriminate.
  - destruct (is_full (interval e)); [discriminate|].
    destruct (is_currently_empty (interval ne)); [discriminate|].
    destruct (is_full (interval ne)); [discriminate|].
    apply intersect_loop_total; [constructor|discriminate|simpl; lia].
Qed.

(** *** Undoing a removal *)

Definition ids (l : ring) : list nat := map eid l.

(** The representation invariant of a ring: nodes are distinct, and a
    linked node carries the back link [init] gave it (see [entry]). *)
Definition ring_inv (l : ring) : Prop :=
  NoDup (ids l) /\ Forall (fun e => m_prev e = eid e) l.

Lemma init_unlinked p e : m_prev e = eid e -> dll_base.init (set_m_prev p e) = e.
Proof. destruct e; simpl; intros ->; reflexivity. Qed.

Lemma remove_middle a e b :
  ~ In (eid e) (ids a) -> dll_base.remove (a ++ e :: b) (eid e) = a ++ b.
Proof.
  induction a as [|x a IH]; simpl; intros H.
  - now rewrite Nat.eqb_refl.
  - destruct (Nat.eqb_spec (eid x) (eid e)) as [E|_]; [tauto|].
    rewrite IH; tauto.
Qed.

Lemma remove_absent l id : ~ In id (ids l) -> dll_base.remove l id = l.
Proof.
  induction l as [|x l IH]; simpl; intros H; [reflexivity|].
  destruct (Nat.eqb_spec (eid x) id) as [E|_]; [tauto|].
  rewrite IH; tauto.
Qed.

Lemma insert_after_middle a p x b :
  ~ In (eid p) (ids a) ->
  dll_base.insert_after (a ++ p :: b) (eid p) x = a ++ p :: x :: b.
Proof.
  induction a as [|y a IH]; simpl; intros H.
  - now rewrite Nat.eqb_refl.
  - destruct (Nat.eqb_spec (eid y) (eid p)) as [E|_]; [tauto|].
    rewrite IH; tauto.
Qed.

Lemma set_head_from_middle acc a e b :
  ~ In (eid e) (ids a) ->
  dll_base.set_head_from acc (a ++ e :: b) (eid e) = e :: b ++ rev acc ++ a.
Proof.
  revert acc. induction a as [|y a IH]; simpl; intros acc H.
  - rewrite Nat.eqb_refl. now rewrite app_nil_r.
  - destruct (Nat.eqb_spec (eid y) (eid e)) as [E|_]; [tauto|].
    rewrite IH by tauto. simpl. now rewrite <- !app_assoc.
Qed.

Lemma set_head_middle a e b :
  ~ In (eid e) (ids a) -> dll_base.set_head (a ++ e :: b) (eid e) = e :: b ++ a.
Proof. intros H. unfold dll_base.set_head. now rewrite set_head_from_middle. Qed.

Lemma NoDup_ids_app a b :
  NoDup (ids (a ++ b)) ->
  NoDup (ids a) /\ NoDup (ids b) /\ (forall x, In x (ids a) -> ~ In x (ids b)).
Proof.
  unfold ids. rewrite map_app. intros H.
  split; [eapply NoDup_app_remove_r; eauto|].
  split; [eapply NoDup_app_remove_l; eauto|].
  intros x Ha Hb. revert H Ha. generalize (map eid a). intros l.
  induction l as [|y l IH]; simpl; intros H Ha; [tauto|].
  inversion H; subst. destruct Ha as [->|Ha]; [|auto].
  apply H2. apply in_or_app. now right.
Qed.

Lemma ring_inv_remove a e b : ring_inv (a ++ e :: b) -> ring_inv (a ++ b).
Proof.
  intros [Hn Hf]. split.
  - unfold ids in *. rewrite map_app in *. simpl in Hn.
    eapply NoDup_remove_1; eauto.
  - rewrite Forall_app in *. destruct Hf as [H1 H2]. inversion H2; auto.
Qed.

(** The back link [remove_entry] leaves in node [e] of the ring
    [a ++ e :: b]. *)
Definition back_link (a : ring) (e : entry) (b : ring) : nat :=
  match rev a with
  | x :: _ => eid x
  | [] => eid (last b e)
  end.

(** [push_viable] puts a removed node back where [remove_entry] took it. *)
Lemma push_viable_ring_restores a e b :
  ring_inv (a ++ e :: b) -> proper_ok (a ++ e :: b) ->
  push_viable_ring (a ++ b) (set_m_prev (back_link a e b) e) = a ++ e :: b.
Proof.
  intros [Hn Hf] [_ HS]. unfold push_viable_ring, back_link.
  assert (He : m_prev e = eid e).
  { rewrite Forall_app in Hf. destruct Hf as [_ Hf]. inversion Hf; auto. }
  change (eid (set_m_prev ?p e)) with (eid e).
  change (m_prev (set_m_prev ?p e)) with p.
  rewrite (@init_unlinked _ e He).
  change (e_lo (set_m_prev ?p e)) with (e_lo e).
  destruct (NoDup_ids_app _ _ Hn) as (Na & Neb & Hab).
  simpl in Neb. inversion Neb as [|? ? Heb Nb]; subst.
  destruct (rev a) as [|q ra] eqn:Era.
  - assert (a = []) as -> by (apply (f_equal (@rev _)) in Era; rewrite rev_involutive in Era; exact Era).
    simpl in *. destruct b as [|x r].
    + simpl. now rewrite Nat.eqb_refl.
    + assert (Hz : In (last (x :: r) e) (x :: r)) by (apply last_in; discriminate).
      destruct (Nat.eqb_spec (eid (last (x :: r) e)) (eid e)) as [E|_].
      { exfalso. apply Heb. rewrite <- E. now apply in_map. }
      assert (Hlt : e_lo e < e_lo x).
      { inversion HS as [|? ? _ Hall]; subst. inversion Hall as [|? ? (? & _) _]; subst.
        assumption. }
      destruct (@exists_last _ (x :: r) ltac:(discriminate)) as (b0 & z & Eb).
      rewrite Eb in Nb |- *. rewrite last_last.
      rewrite insert_after_middle.
      2:{ destruct (NoDup_ids_app _ _ Nb) as (_ & _ & H). intros Hin.
          apply (H _ Hin). now left. }
      replace (b0 ++ [z; e]) with ((b0 ++ [z]) ++ [e]) by (now rewrite <- app_assoc).
      rewrite <- Eb. simpl.
      destruct (Z.ltb_spec (e_lo e) (e_lo x)); [|lia].
      change (x :: r ++ [e]) with ((x :: r) ++ e :: []).
      rewrite set_head_middle by exact Heb. reflexivity.
  - assert (Ea : a = rev ra ++ [q]).
    { apply (f_equal (@rev _)) in Era. rewrite rev_involutive in Era. exact Era. }
    subst a.
    assert (Hq : eid q <> eid e).
    { intros E. apply (Hab (eid q)).
      - unfold ids. rewrite map_app. apply in_or_app. right. now left.
      - simpl. left. now rewrite E. }
    destruct (Nat.eqb_spec (eid q) (eid e)) as [E|_]; [tauto|].
    rewrite <- app_assoc. simpl.
    rewrite insert_after_middle.
    2:{ destruct (NoDup_ids_app _ _ Na) as (_ & _ & H). intros Hin.
        apply (H _ Hin). now left. }
    rewrite <- app_assoc in HS. simpl in HS.
    destruct (rev ra) as [|h t].
    + simpl in *. inversion HS as [|? ? _ Hall]; subst.
      inversion Hall as [|? ? (? & _) _]; subst.
      destruct (Z.ltb_spec (e_lo e) (e_lo q)); [lia|reflexivity || (now rewrite <- app_assoc)].
    + simpl in *. inversion HS as [|? ? _ Hall]; subst.
      rewrite Forall_app in Hall. destruct Hall as [_ Hall].
      inversion Hall as [|? ? _ Hall']; subst.
      inversion Hall' as [|? ? (? & _) _]; subst.
      destruct (Z.ltb_spec (e_lo e) (e_lo h)); [lia|].
      now rewrite <- app_assoc.
Qed.

(** The nodes [remove_entry] unlinks, in order, each with the back link it
    keeps. *)
Inductive removal_chain : ring -> list entry -> ring -> Prop :=
| rc_nil l : removal_chain l [] l
| rc_cons a e b rest l' :
    removal_chain (a ++ b) rest l' ->
    removal_chain (a ++ e :: b) (set_m_prev (back_link a e b) e :: rest) l'.

Lemma removal_chain_ok l removed l' :
  removal_chain l removed l' -> ring_inv l -> proper_ok l ->
  ring_inv l' /\ proper_ok l'.
Proof.
  induction 1 as [|a e b rest l' _ IH]; intros Hi Ho; [auto|].
  apply IH; [eapply ring_inv_remove|eapply proper_ok_remove]; eauto.
Qed.

Lemma removal_chain_ids l removed l' :
  removal_chain l removed l' -> forall x, In x (ids l') -> In x (ids l).
Proof.
  induction 1 as [|a e b rest l' _ IH]; intros x Hx; [assumption|].
  specialize (IH x Hx). unfold ids in *. rewrite map_app in *.
  apply in_app_or in IH. apply in_or_app. simpl. tauto.
Qed.

Lemma intersect_loop_chain fuel ne :
  forall rb rest removed top,
  match intersect_loop fuel ne rb rest removed top with
  | i_dropped l rm =>
      exists new, rm = removed ++ new /\ removal_chain (rev rb ++ rest) new l
  | i_inserted l rm =>
      exists new a b, rm = removed ++ new /\
        removal_chain (rev rb ++ rest) new (a ++ b) /\
        l = a ++ dll_base.init ne :: b
  | i_fuel => True
  end.
Proof.
  induction fuel as [|fuel IH]; intros rb rest removed top; [exact I|].
  simpl. destruct rest as [|e rest']; [exact I|].
  destruct (top && iv_contains e ne).
  { exists []. rewrite app_nil_r, rev_append_rev. split; [reflexivity|constructor]. }
  destruct (iv_contains ne e).
  { assert (Hb : match rb with y :: _ => eid y | [] => eid (last rest' e) end
                 = back_link (rev rb) e rest').
    { unfold back_link. rewrite rev_involutive. reflexivity. }
    rewrite Hb. clear Hb.
    destruct rb as [|p rb'], rest' as [|x r].
    - exists [set_m_prev (back_link (rev []) e []) e], [], [].
      split; [reflexivity|]. split; [|reflexivity].
      apply (@rc_cons [] e [] [] []). constructor.
    - specialize (IH [] (x :: r) (removed ++ [set_m_prev (back_link (rev []) e (x :: r)) e]) false).
      destruct (intersect_loop fuel ne [] (x :: r) _ false) as [l rm|l rm|]; [| |exact I].
      + destruct IH as (new & -> & Hc). eexists. rewrite <- app_assoc. split; [reflexivity|].
        apply (@rc_cons [] e (x :: r)). exact Hc.
      + destruct IH as (new & a & b & -> & Hc & ->). eexists _, a, b.
        rewrite <- app_assoc. split; [reflexivity|]. split; [|reflexivity].
        apply (@rc_cons [] e (x :: r)). exact Hc.
    - specialize (IH [] (rev (p :: rb')) (removed ++ [set_m_prev (back_link (rev (p :: rb')) e []) e]) false).
      destruct (intersect_loop fuel ne [] (rev (p :: rb')) _ false) as [l rm|l rm|]; [| |exact I].
      + destruct IH as (new & -> & Hc). eexists. rewrite <- app_assoc. split; [reflexivity|].
        apply (@rc_cons (rev (p :: rb')) e []). now rewrite app_nil_r.
      + destruct IH as (new & a & b & -> & Hc & ->). eexists _, a, b.
        rewrite <- app_assoc. split; [reflexivity|]. split; [|reflexivity].
        apply (@rc_cons (rev (p :: rb')) e []). now rewrite app_nil_r.
    - specialize (IH (p :: rb') (x :: r) (removed ++ [set_m_prev (back_link (rev (p :: rb')) e (x :: r)) e]) false).
      destruct (intersect_loop fuel ne (p :: rb') (x :: r) _ false) as [l rm|l rm|]; [| |exact I].
      + destruct IH as (new & -> & Hc). eexists. rewrite <- app_assoc. split; [reflexivity|].
        apply (@rc_cons (rev (p :: rb')) e (x :: r)). exact Hc.
      + destruct IH as (new & a & b & -> & Hc & ->). eexists _, a, b.
        rewrite <- app_assoc. split; [reflexivity|]. split; [|reflexivity].
        apply (@rc_cons (rev (p :: rb')) e (x :: r)). exact Hc. }
  destruct (e_lo e >? e_lo ne).
  { destruct (iv_contains (last rest' e) ne).
    - exists []. rewrite app_nil_r, rev_append_rev. split; [reflexivity|constructor].
    - exists [], (rev rb), (e :: rest'). rewrite app_nil_r, rev_append_rev.
      split; [reflexivity|]. split; [constructor|reflexivity]. }
  destruct rest' as [|x r].
  - exists [], (rev rb ++ [e]), []. rewrite !app_nil_r, rev_append_rev.
    split; [reflexivity|]. split; [constructor|]. now rewrite <- app_assoc.
  - specialize (IH (e :: rb) (x :: r) removed true).
    simpl in IH. rewrite <- app_assoc in IH. exact IH.
Qed.

Lemma remove_all_chain l : removal_chain l (remove_all l) [].
Proof.
  induction l as [|e r IH]; [constructor|].
  simpl. apply (@rc_cons [] e r). exact IH.
Qed.

Lemma intersect_ring_chain l ne :
  match intersect_ring l ne with
  | i_dropped l' rm => removal_chain l rm l'
  | i_inserted l' rm =>
      exists a b, removal_chain l rm (a ++ b) /\ l' = a ++ dll_base.init ne :: b
  | i_fuel => True
  end.
Proof.
  unfold intersect_ring. destruct l as [|e l'].
  - destruct (is_currently_empty (interval ne)); [constructor|].
    exists [], []. split; [constructor|reflexivity].
  - destruct (is_full (interval e)); [constructor|].
    destruct (is_currently_empty (interval ne)); [constructor|].
    destruct (is_full (interval ne)).
    { exists [], []. split; [apply remove_all_chain|reflexivity]. }
    assert (H := intersect_loop_chain (2 * length (e :: l') + 1) ne [] (e :: l') [] true).
    destruct (intersect_loop _ ne [] (e :: l') [] true) as [l rm|l rm|]; [| |exact I].
    + destruct H as (new & -> & Hc). exact Hc.
    + destruct H as (new & a & b & -> & Hc & ->). exists a, b. split; [exact Hc|reflexivity].
Qed.

End WellFormed.

(** ** Refinement of an equation [a * v == b] with even [a] *)

Section EqualLin.
Import Numeral Viable.

Lemma power_of_two_pos n : 0 < power_of_two n.
Proof. unfold power_of_two. apply Z.pow_pos_nonneg; lia. Qed.

Lemma power_of_two_add n m :
  power_of_two (n + m) = power_of_two n * power_of_two m.
Proof.
  unfold power_of_two. rewrite Nat2Z.inj_add, Z.pow_add_r; lia.
Qed.

Lemma power_of_two_S n : power_of_two (S n) = 2 * power_of_two n.
Proof.
  unfold power_of_two. rewrite Nat2Z.inj_succ, Z.pow_succ_r; lia.
Qed.

Lemma trailing_zeros_spec p :
  exists q, Z.pos p = power_of_two (trailing_zeros p) * q /\ q mod 2 = 1 /\ 0 < q.
Proof.
  induction p as [p IH | p IH |].
  - exists (Z.pos p~1). simpl trailing_zeros. unfold power_of_two. simpl.
    split; [lia|]. split; [|lia].
    rewrite Pos2Z.inj_xI. rewrite Z.add_comm, Z.mul_comm, Z_mod_plus_full. reflexivity.
  - destruct IH as [q [E [O Q]]]. exists q. simpl trailing_zeros.
    rewrite power_of_two_S, Pos2Z.inj_xO, E. split; [lia | auto].
  - exists 1. simpl. unfold power_of_two. simpl. repeat split; lia.
Qed.

(** A positive numeral is its odd part times two to its parity. *)
Lemma get_parity_spec a N :
  0 < a ->
  exists q, a = power_of_two (get_parity a N) * q /\ q mod 2 = 1 /\ 0 < q.
Proof.
  destruct a as [|p|p]; try lia. intros _. apply trailing_zeros_spec.
Qed.

Lemma odd_coprime_pow2 q n : q mod 2 = 1 -> Z.coprime q (power_of_two n).
Proof.
  intros O. unfold power_of_two. apply Z.coprime_pow_r; [lia|].
  apply Z.coprime_mod_l_iff. rewrite O. apply Z.coprime_1_l.
Qed.

Lemma get_parity_lt a N :
  0 < a < power_of_two N -> (get_parity a N < N)%nat.
Proof.
  intros [Ha Hlt]. destruct (@get_parity_spec a N Ha) as [q [E [O Q]]].
  destruct (Nat.lt_ge_cases (get_parity a N) N) as [|Hge]; auto.
  exfalso.
  replace (get_parity a N) with (N + (get_parity a N - N))%nat in E by lia.
  rewrite power_of_two_add in E.
  pose proof (power_of_two_pos N). pose proof (power_of_two_pos (get_parity a N - N)).
  assert (1 <= power_of_two (get_parity a N - N) * q) by nia.
  rewrite <- Z.mul_assoc in E. nia.
Qed.

(** [b] is a multiple of two to any power up to its parity. *)
Lemma get_parity_divide b N k :
  0 <= b -> (k <= get_parity b N)%nat -> (k <= N)%nat ->
  b = power_of_two k * machine_div2k b k.
Proof.
  intros Hb Hk HN. unfold machine_div2k.
  destruct (Z.eq_dec b 0) as [->|Hnz].
  { rewrite Z.div_0_l; [lia|]. pose proof (power_of_two_pos k). lia. }
  destruct (@get_parity_spec b N ltac:(lia)) as [q [E [O Q]]].
  replace (get_parity b N) with (k + (get_parity b N - k))%nat in E by lia.
  rewrite power_of_two_add in E.
  pose proof (power_of_two_pos k).
  apply Z_div_exact_full_2; [lia|].
  rewrite E, <- Z.mul_assoc, Z.mul_comm. apply Z_mod_mult.
Qed.


(** Congruent numerals: the same residue. *)
Lemma mod_eq_diff x y m : 0 < m -> x mod m = y mod m -> exists j, x = y + m * j.
Proof.
  intros Hm E. exists (x / m - y / m).
  pose proof (Z.div_mod x m ltac:(lia)). pose proof (Z.div_mod y m ltac:(lia)). lia.
Qed.

Lemma mod_of_diff x y m j : x = y + m * j -> x mod m = y mod m.
Proof. intros ->. rewrite Z.mul_comm. apply Z_mod_plus_full. Qed.

Section EvenEquation.
Variables (N : nat) (a b : Z).
Hypothesis Ha : 0 < a < power_of_two N.
Hypothesis Hb : 0 <= b < power_of_two N.
Hypothesis Hk : (get_parity a N <= get_parity b N)%nat.

(** The shape of the data: [a = 2^k q] with [q] odd, [b = 2^k b'], and the
    modulus [2^N = 2^k 2^(N-k)]. *)
Lemma even_equation_shape :
  exists q b',
    a = power_of_two (get_parity a N) * q /\ q mod 2 = 1 /\ 0 < q /\
    b = power_of_two (get_parity a N) * b' /\
    b' = machine_div2k b (get_parity a N) /\
    q = machine_div2k a (get_parity a N) /\
    power_of_two N =
      power_of_two (get_parity a N) * power_of_two (N - get_parity a N).
Proof.
  destruct (@get_parity_spec a N (proj1 Ha)) as [q [E [O Q]]].
  pose proof (@get_parity_lt a N Ha) as Hlt.
  exists q, (machine_div2k b (get_parity a N)).
  pose proof (power_of_two_pos (get_parity a N)) as HP.
  repeat split; auto.
  - apply get_parity_divide with (N := N); lia.
  - unfold machine_div2k. rewrite E at 1. rewrite Z.mul_comm, Z.div_mul; lia.
  - rewrite <- power_of_two_add. f_equal. lia.
Qed.

Definition v0_of : Z :=
  (pseudo_inverse a N * machine_div2k b (get_parity a N))
    mod power_of_two (N - get_parity a N).

Lemma v0_solution : (a * v0_of) mod power_of_two N = b.
Proof.
  destruct even_equation_shape as [q [b' [Ea [O [Q [Eb [Eb' [Eq EM]]]]]]]].
  pose proof (@get_parity_lt a N Ha) as Hlt.
  pose proof (power_of_two_pos (get_parity a N)) as HP.
  pose proof (power_of_two_pos (N - get_parity a N)) as HT.
  assert (H2 : 2 <= power_of_two (N - get_parity a N)).
  { replace (N - get_parity a N)%nat with (S (N - get_parity a N - 1)) by lia.
    rewrite power_of_two_S. pose proof (power_of_two_pos (N - get_parity a N - 1)). lia. }
  assert (Hinv : (pseudo_inverse a N * q) mod power_of_two (N - get_parity a N) = 1).
  { unfold pseudo_inverse, mult_inverse. rewrite <- Eq.
    apply Z.invmod_coprime; auto. now apply odd_coprime_pow2. }
  assert (Hq : (q * v0_of) mod power_of_two (N - get_parity a N)
               = b' mod power_of_two (N - get_parity a N)).
  { unfold v0_of. rewrite <- Eb'.
    rewrite Z.mul_mod_idemp_r by lia.
    replace (q * (pseudo_inverse a N * b')) with ((pseudo_inverse a N * q) * b') by ring.
    rewrite <- Z.mul_mod_idemp_l by lia. rewrite Hinv. f_equal. lia. }
  destruct (@mod_eq_diff _ _ _ HT Hq) as [j Hj].
  transitivity (b mod power_of_two N); [|apply Z.mod_small; lia].
  apply mod_of_diff with (j := j).
  rewrite Ea at 1. rewrite EM, Eb at 1.
  replace (power_of_two (get_parity a N) * q * v0_of)
    with (power_of_two (get_parity a N) * (q * v0_of)) by ring.
  rewrite Hj. ring.
Qed.

(** The solutions are spaced [2^(N-k)] apart, with none in between. *)
Lemma solution_shift x t :
  (a * x) mod power_of_two N = b ->
  (a * (x + power_of_two (N - get_parity a N) * t)) mod power_of_two N = b.
Proof.
  destruct even_equation_shape as [q [b' [Ea [O [Q [Eb [Eb' [Eq EM]]]]]]]].
  intros <-. apply mod_of_diff with (j := q * t).
  rewrite EM. set (P := power_of_two (get_parity a N)) in *.
  set (T := power_of_two (N - get_parity a N)) in *.
  rewrite Ea. ring.
Qed.

Lemma solution_gap x j :
  (a * x) mod power_of_two N = b ->
  0 < j < power_of_two (N - get_parity a N) ->
  (a * (x + j)) mod power_of_two N <> b.
Proof.
  destruct even_equation_shape as [q [b' [Ea [O [Q [Eb [Eb' [Eq EM]]]]]]]].
  pose proof (power_of_two_pos (get_parity a N)) as HP.
  pose proof (power_of_two_pos (N - get_parity a N)) as HT.
  pose proof (power_of_two_pos N) as HM.
  intros Hx Hj Hxj. rewrite <- Hx in Hxj.
  destruct (@mod_eq_diff _ _ _ HM Hxj) as [i Hi].
  assert (D : (power_of_two (N - get_parity a N) | q * j)).
  { exists i. rewrite EM in Hi.
    assert (power_of_two (get_parity a N) * (q * j)
            = power_of_two (get_parity a N) * (i * power_of_two (N - get_parity a N))).
    { rewrite Ea in Hi at 1 2. lia. }
    apply Z.mul_reg_l in H; lia. }
  apply Z.gauss in D.
  - apply Z.divide_pos_le in D; lia.
  - rewrite Z.gcd_comm. now apply odd_coprime_pow2.
Qed.

End EvenEquation.


(** No solution when the parity of the coefficient exceeds that of the
    right-hand side. *)
Lemma parity_no_solution N a b x :
  0 < a < power_of_two N -> 0 <= b < power_of_two N ->
  (get_parity b N < get_parity a N)%nat ->
  (a * x) mod power_of_two N <> b.
Proof.
  intros Ha Hb Hlt Hx.
  destruct (@get_parity_spec a N (proj1 Ha)) as [q [Ea [O Q]]].
  pose proof (@get_parity_lt a N Ha) as HaN.
  assert (Hb0 : 0 < b).
  { destruct (Z.eq_dec b 0) as [->|]; [simpl in Hlt; lia | lia]. }
  destruct (@get_parity_spec b N Hb0) as [qb [Eb [Ob Qb]]].
  pose proof (power_of_two_pos N) as HM.
  pose proof (Z.div_mod (a * x) (power_of_two N) ltac:(lia)) as D. rewrite Hx in D.
  assert (EM : power_of_two N =
               power_of_two (get_parity b N) *
               (2 * power_of_two (N - get_parity b N - 1))).
  { rewrite <- power_of_two_S, <- power_of_two_add. f_equal. lia. }
  assert (EA : power_of_two (get_parity a N) =
               power_of_two (get_parity b N) *
               (2 * power_of_two (get_parity a N - get_parity b N - 1))).
  { rewrite <- power_of_two_S, <- power_of_two_add. f_equal. lia. }
  pose proof (power_of_two_pos (get_parity b N)) as HPb.
  set (Pb := power_of_two (get_parity b N)) in *.
  set (U := power_of_two (N - get_parity b N - 1)) in *.
  set (W := power_of_two (get_parity a N - get_parity b N - 1)) in *.
  assert (E2 : qb = 2 * (W * q * x - U * (a * x / power_of_two N))).
  { apply (Z.mul_reg_l _ _ Pb); [lia|].
    rewrite <- Eb. rewrite EM in D at 1. rewrite Ea in D at 1.
    rewrite EA in D. lia. }
  rewrite E2 in Ob. rewrite Z.mul_comm, Z_mod_mult in Ob. discriminate.
Qed.

Lemma contains_proper_mod M lo_v hi_v t l h :
  0 <= lo_v < M -> 0 <= hi_v < M -> 0 <= t < M ->
  (eval_interval.currently_contains (eval_interval.proper l lo_v h hi_v) t = true
   <-> (t - lo_v) mod M < (hi_v - lo_v) mod M).
Proof.
  intros Hl Hh Ht. rewrite contains_proper.
  rewrite (@mod_sub_case M t lo_v), (@mod_sub_case M hi_v lo_v) by lia.
  destruct (Z.leb_spec lo_v hi_v), (Z.ltb_spec t lo_v), (Z.ltb_spec hi_v lo_v);
    rewrite ?andb_true_iff, ?orb_true_iff, ?Z.leb_le, ?Z.ltb_lt, ?Z.geb_le; lia.
Qed.

Lemma mod_mod_sub x y m : 0 < m -> (x - y mod m) mod m = (x - y) mod m.
Proof. intros Hm. now rewrite Zminus_mod_idemp_r. Qed.


Lemma equal_lin_interval_even (N : nat) (val : Z) (e : entry) :
  0 < coeff e < power_of_two N ->
  0 <= e_hi e < power_of_two N ->
  0 <= val < power_of_two N ->
  (e_hi e + 1) mod power_of_two N = e_lo e ->
  (0 < get_parity (coeff e) N)%nat ->
  (coeff e * val) mod power_of_two N <> e_hi e ->
  ((get_parity (e_hi e) N < get_parity (coeff e) N)%nat ->
     equal_lin_interval N val e = eval_interval.full /\
     forall x, (coeff e * x) mod power_of_two N <> e_hi e) /\
  ((get_parity (coeff e) N <= get_parity (e_hi e) N)%nat ->
     exists vi,
       0 <= vi < power_of_two N /\
       (coeff e * vi) mod power_of_two N = e_hi e /\
       (coeff e * (vi + power_of_two (N - get_parity (coeff e) N)))
         mod power_of_two N = e_hi e /\
       0 < (val - vi) mod power_of_two N < power_of_two (N - get_parity (coeff e) N) /\
       equal_lin_interval N val e =
         eval_interval.proper
           (mk_val ((vi + 1) mod power_of_two N)) ((vi + 1) mod power_of_two N)
           (mk_val ((vi + power_of_two (N - get_parity (coeff e) N)) mod power_of_two N))
           ((vi + power_of_two (N - get_parity (coeff e) N)) mod power_of_two N) /\
       eval_interval.current_len (power_of_two N) (equal_lin_interval N val e)
         = power_of_two (N - get_parity (coeff e) N) - 1 /\
       eval_interval.currently_contains (equal_lin_interval N val e) val = true /\
       forall x, 0 <= x < power_of_two N ->
         eval_interval.currently_contains (equal_lin_interval N val e) x = true ->
         (coeff e * x) mod power_of_two N <> e_hi e).
Proof.
  intros Ha Hb Hval Heq Hk Hns.
  pose proof (power_of_two_pos N) as HM.
  split.
  - intros Hlt. split.
    + unfold equal_lin_interval. rewrite Heq, Z.eqb_refl.
      apply Nat.ltb_lt in Hlt. now rewrite Hlt.
    + intros x. now apply parity_no_solution.
  - intros Hle.
    set (a := coeff e) in *. set (b := e_hi e) in *.
    set (k := get_parity a N) in *.
    pose proof (@get_parity_lt a N Ha) as HkN. fold k in HkN.
    destruct (@even_equation_shape N a b Ha Hb Hle)
      as [q [b' [Ea [O [Q [Eb [Eb' [Eq EM]]]]]]]].
    fold k in Ea, Eb, Eb', Eq, EM.
    pose proof (power_of_two_pos k) as HP.
    pose proof (power_of_two_pos (N - k)) as HT.
    assert (HP2 : 2 <= power_of_two k).
    { replace k with (S (k - 1)) by lia. rewrite power_of_two_S.
      pose proof (power_of_two_pos (k - 1)). lia. }
    pose proof (@v0_solution N a b Ha Hb Hle) as Hv0.
    set (v0 := v0_of N a b) in *.
    assert (Hv0r : 0 <= v0 < power_of_two (N - k)).
    { unfold v0, v0_of. fold k. apply Z.mod_pos_bound. lia. }
    set (d := (val - v0) mod power_of_two N).
    assert (Hd : 0 <= d < power_of_two N) by (apply Z.mod_pos_bound; lia).
    set (T := power_of_two (N - k)) in *.
    set (M := power_of_two N) in *.
    set (P := power_of_two k) in *.
    pose proof (Z.div_mod d T ltac:(lia)) as Dd.
    pose proof (Z.mod_pos_bound d T ltac:(lia)) as Hr.
    assert (Hdq : 0 <= d / T < P).
    { split; [apply Z.div_pos; lia|]. apply Z.div_lt_upper_bound; lia. }
    set (vi := v0 + clear_lower_bits d (N - k)).
    assert (Evi : vi = v0 + T * (d / T)).
    { unfold vi, clear_lower_bits. fold T. lia. }
    assert (Hvi : 0 <= vi < M) by nia.
    assert (Svi : (a * vi) mod M = b).
    { rewrite Evi. apply (@solution_shift N a b Ha Hb Hle). exact Hv0. }
    assert (Svi' : (a * (vi + T)) mod M = b).
    { replace (vi + T) with (vi + T * 1) by lia.
      apply (@solution_shift N a b Ha Hb Hle). exact Svi. }
    destruct (@mod_eq_diff d (val - v0) M HM) as [j Hj].
    { unfold d. apply Z.mod_mod. lia. }
    assert (Hvr : (val - vi) mod M = d mod T).
    { rewrite <- (Z.mod_small (d mod T) M) by lia.
      apply mod_of_diff with (j := - j). lia. }
    assert (Hr0 : d mod T <> 0).
    { intros E0. apply Hns. rewrite <- Svi.
      apply mod_of_diff with (j := a * (- j)). rewrite Evi.
      replace val with (v0 + T * (d / T) + d mod T + M * - j) by lia.
      rewrite E0. ring. }
    assert (EI : equal_lin_interval N val e =
                 eval_interval.proper (mk_val ((vi + 1) mod M)) ((vi + 1) mod M)
                   (mk_val ((vi + T) mod M)) ((vi + T) mod M)).
    { unfold equal_lin_interval. fold M. fold b. rewrite Heq, Z.eqb_refl.
      fold a. fold k.
      replace (get_parity b N <? k)%nat with false
        by (symmetry; apply Nat.ltb_ge; lia).
      replace (k =? 0)%nat with false by (symmetry; apply Nat.eqb_neq; lia).
      reflexivity. }
    assert (Hlen : ((vi + T) mod M - (vi + 1) mod M) mod M = T - 1).
    { rewrite Zminus_mod_idemp_l, Zminus_mod_idemp_r.
      replace (vi + T - (vi + 1)) with (T - 1) by lia.
      apply Z.mod_small. nia. }
    assert (Hin : forall x, 0 <= x < M ->
              (eval_interval.currently_contains (equal_lin_interval N val e) x = true
               <-> (x - vi - 1) mod M < T - 1)).
    { intros x Hx. rewrite EI.
      rewrite (@contains_proper_mod M) by
        (try apply Z.mod_pos_bound; lia).
      rewrite Hlen, Zminus_mod_idemp_r.
      replace (x - (vi + 1)) with (x - vi - 1) by lia. tauto. }
    exists vi.
    split; [exact Hvi|]. split; [exact Svi|]. split; [exact Svi'|].
    split; [rewrite Hvr; lia|]. split; [exact EI|].
    split; [rewrite EI; unfold eval_interval.current_len; simpl; exact Hlen|].
    split.
    + apply Hin; [lia|].
      assert ((val - vi - 1) mod M = d mod T - 1).
      { rewrite <- (Z.mod_small (d mod T - 1) M) by lia.
        apply mod_of_diff with (j := - j). lia. }
      lia.
    + intros x Hx Hc. apply Hin in Hc; [|lia].
      pose proof (Z.mod_pos_bound (x - vi - 1) M ltac:(lia)) as Hj'.
      pose proof (Z.div_mod (x - vi - 1) M ltac:(lia)) as Dx.
      intros Sx.
      apply (@solution_gap N a b Ha Hb Hle vi (1 + (x - vi - 1) mod M) Svi);
        [fold k; fold T; lia|].
      rewrite <- Sx. fold M.
      apply mod_of_diff with (j := a * - ((x - vi - 1) / M)).
      replace x with (vi + (1 + (x - vi - 1) mod M) + M * ((x - vi - 1) / M)) at 2 by lia.
      ring.
Qed.

End EqualLin.

Section EqualLinClaim.
Import Numeral Viable.

Lemma equation_hit_not_solution N val e :
  eval_interval.is_full (interval e) = false ->
  0 <= e_hi e < power_of_two N ->
  (e_hi e + 1) mod power_of_two N = e_lo e ->
  equal_lin_hit N val e = true ->
  (coeff e * val) mod power_of_two N <> e_hi e.
Proof.
  intros Hf Hb Heq Hhit E. unfold equal_lin_hit in Hhit.
  apply currently_contains_spec in Hhit. unfold In_interval in Hhit.
  rewrite E in Hhit. fold (e_lo e) (e_hi e) in Hhit.
  destruct Hhit as [F | [[? ?] | [? [? | ?]]]]; try lia. congruence.
Qed.


(** The equation [2 * x == 2] at width 8, probed at 5. *)
Definition equation_2x_2 : entry :=
  mk_entry 0 [mk_sc 0 true] [] 2
    (eval_interval.proper (mk_val 3) 3 (mk_val 2) 2) 8 false 0.

Definition equation_2x_2_state : solver :=
  mk_solver (viable.mk [] 1 [[]] [[equation_2x_2]] [[]] [])
    (viable_fallback.mk [[]]) conflict_empty [] [] [] [0] [unassigned] [[]]
    [8%nat] [] 0 0 [] [] [] 0 0 0 0 0 0.



End EqualLinClaim.

(** ** The refinement budget of a query and the fallback *)

Section QueryBudget.
Import Numeral Viable.

Variable us_check : solver -> pvar -> list signed_constraint -> lbool.
Variable us_model : solver -> pvar -> list signed_constraint -> Z.
Variable us_find_min : solver -> pvar -> list signed_constraint -> option Z.
Variable us_find_max : solver -> pvar -> list signed_constraint -> option Z.
Variable collect_bits : pvar -> solver -> fixed_bits_info + list literal.

Local Abbreviation query_loop := (query_loop us_check us_model us_find_min us_find_max).
Local Abbreviation query_fallback :=
  (query_fallback us_check us_model us_find_min us_find_max).
Local Abbreviation query :=
  (query us_check us_model us_find_min us_find_max collect_bits).
Local Abbreviation find_viable :=
  (find_viable us_check us_model us_find_min us_find_max collect_bits).

(** The result and the state after [n] rounds of the refinement loop. *)
Fixpoint after_rounds (n : nat) (mode : query_t) (v : pvar) (fbi : fixed_bits_info)
    (st : result_t mode * solver) : result_t mode * solver :=
  match n with
  | O => st
  | S n' =>
      let r := query_round mode v fbi (snd st) in
      after_rounds n' mode v fbi (snd (fst r), snd r)
  end.

(** What round number [i] (from 0) answers. *)
Definition round_res (i : nat) (mode : query_t) (v : pvar) (fbi : fixed_bits_info)
    (st : result_t mode * solver) : lbool :=
  fst (fst (query_round mode v fbi (snd (after_rounds i mode v fbi st)))).

Lemma after_rounds_S n mode v fbi st :
  after_rounds (S n) mode v fbi st =
  (snd (fst (query_round mode v fbi (snd (after_rounds n mode v fbi st)))),
   snd (query_round mode v fbi (snd (after_rounds n mode v fbi st)))).
Proof.
  revert st. induction n as [|n IH]; intros st; [reflexivity|].
  change (after_rounds (S (S n)) mode v fbi st)
    with (after_rounds (S n) mode v fbi
            (snd (fst (query_round mode v fbi (snd st))),
             snd (query_round mode v fbi (snd st)))).
  rewrite IH. reflexivity.
Qed.

(** Rounds that answer [l_undef] are skipped over. *)
Lemma query_loop_skip n m mode v fbi result s :
  (forall i, (i < n)%nat -> round_res i mode v fbi (result, s) = l_undef) ->
  query_loop (n + m)%nat mode v fbi result s =
  query_loop m mode v fbi (fst (after_rounds n mode v fbi (result, s)))
    (snd (after_rounds n mode v fbi (result, s))).
Proof.
  revert result s. induction n as [|n IH]; intros result s H; [reflexivity|].
  simpl plus. simpl query_loop.
  pose proof (H O ltac:(lia)) as H0. unfold round_res in H0. simpl in H0.
  destruct (query_round mode v fbi s) as [[res result'] s'] eqn:E.
  simpl in H0. subst res. simpl.
  rewrite IH.
  - reflexivity.
  - intros i Hi. pose proof (H (S i) ltac:(lia)) as Hs.
    unfold round_res in *. simpl in Hs. rewrite E in Hs. exact Hs.
Qed.

Lemma query_loop_answer n m mode v fbi result s :
  (forall i, (i < n)%nat -> round_res i mode v fbi (result, s) = l_undef) ->
  round_res n mode v fbi (result, s) <> l_undef ->
  query_loop (n + S m)%nat mode v fbi result s =
  query_round mode v fbi (snd (after_rounds n mode v fbi (result, s))).
Proof.
  intros H Hn. rewrite query_loop_skip by assumption.
  simpl. unfold round_res in Hn.
  destruct (query_round mode v fbi _) as [[res result'] s'].
  simpl in Hn. destruct res; simpl; congruence.
Qed.

Lemma query_loop_exhausted budget mode v fbi result s :
  (forall i, (i < budget)%nat -> round_res i mode v fbi (result, s) = l_undef) ->
  query_loop budget mode v fbi result s =
  query_fallback mode v (fst (after_rounds budget mode v fbi (result, s)))
    (snd (after_rounds budget mode v fbi (result, s))).
Proof.
  intros H.
  pose proof (@query_loop_skip budget 0 mode v fbi result s H) as E.
  rewrite Nat.add_0_r in E. exact E.
Qed.

Lemma query_loop_first_answer budget k mode v fbi result s :
  (k < budget)%nat ->
  (forall i, (i < k)%nat -> round_res i mode v fbi (result, s) = l_undef) ->
  round_res k mode v fbi (result, s) <> l_undef ->
  query_loop budget mode v fbi result s =
  query_round mode v fbi (snd (after_rounds k mode v fbi (result, s))).
Proof.
  intros Hk H Hn.
  replace budget with (k + S (budget - k - 1))%nat by lia.
  now apply query_loop_answer.
Qed.

(** The first round that answers, if there is one among the first [n]. *)
Lemma first_answer n mode v fbi st :
  (exists k, (k < n)%nat /\
     (forall i, (i < k)%nat -> round_res i mode v fbi st = l_undef) /\
     round_res k mode v fbi st <> l_undef) \/
  (forall i, (i < n)%nat -> round_res i mode v fbi st = l_undef).
Proof.
  induction n as [|n [[k [Hk [Hu Ha]]] | IH]].
  - right. intros i Hi. lia.
  - left. exists k. split; [lia | auto].
  - destruct (lbool_eqb (round_res n mode v fbi st) l_undef) eqn:E.
    + right. intros i Hi. apply lbool_eqb_eq in E.
      destruct (Nat.eq_dec i n) as [->|]; [auto | apply IH; lia].
    + left. exists n. split; [lia|]. split; [auto|].
      intros C. rewrite C in E. discriminate.
Qed.

(** Every constraint recorded for [v] in the fallback store, and every
    source of a refined unit entry of [v], is among the constraints the
    second check of [query_fallback] runs on. *)
Lemma add_unless_added_incl (cs : list signed_constraint)
    (st : list literal * list signed_constraint) :
  (forall c, In c (fst st) -> In c (snd st)) ->
  let st' := fold_left
    (fun st c =>
       if existsb (sc_eqb (blit c)) (fst st) then st
       else (blit c :: fst st, snd st ++ [c])) cs st in
  (forall c, In c (fst st') -> In c (snd st')) /\
  (forall c, In c (snd st) -> In c (snd st')) /\
  (forall c, In c cs -> In c (snd st')).
Proof.
  revert st. induction cs as [|c cs IH]; intros st Hinv; simpl.
  - repeat split; auto. intros c [].
  - set (st1 := if existsb (sc_eqb (blit c)) (fst st) then st
                else (blit c :: fst st, snd st ++ [c])).
    assert (H1 : (forall x, In x (fst st1) -> In x (snd st1)) /\
                 (forall x, In x (snd st) -> In x (snd st1)) /\
                 In c (snd st1)).
    { unfold st1. destruct (existsb (sc_eqb (blit c)) (fst st)) eqn:E.
      - repeat split; auto. apply existsb_exists in E.
        destruct E as [x [Hx Ex]]. apply sc_eqb_eq in Ex. unfold blit in Ex.
        subst x. auto.
      - simpl. repeat split.
        + intros x [<-|Hx]; apply in_or_app; [right; now left | left; auto].
        + intros x Hx. apply in_or_app. now left.
        + apply in_or_app. right. now left. }
    destruct H1 as [I1 [I2 I3]].
    destruct (IH st1 I1) as [J1 [J2 J3]].
    repeat split; auto.
    intros x [<-|Hx]; auto.
Qed.


Lemma looping_constraints_incl (l : ring)
    (st : list literal * list signed_constraint) :
  (forall c, In c (fst st) -> In c (snd st)) ->
  (forall c, In c (fst (fold_left add_entry_srcs l st)) ->
             In c (snd (fold_left add_entry_srcs l st))) /\
  (forall c, In c (snd st) -> In c (snd (fold_left add_entry_srcs l st))) /\
  (forall e c, In e l -> refined e = true -> In c (src e) ->
               In c (snd (fold_left add_entry_srcs l st))).
Proof.
  revert st. induction l as [|e l IH]; intros st Hinv; simpl.
  - repeat split; auto. intros e c [].
  - assert (H1 : (forall x, In x (fst (add_entry_srcs st e)) ->
                            In x (snd (add_entry_srcs st e))) /\
                 (forall x, In x (snd st) -> In x (snd (add_entry_srcs st e))) /\
                 (refined e = true -> forall x, In x (src e) ->
                            In x (snd (add_entry_srcs st e)))).
    { unfold add_entry_srcs. destruct (refined e).
      - destruct (@add_unless_added_incl (src e) st Hinv) as [J1 [J2 J3]].
        repeat split; auto.
      - repeat split; auto. discriminate. }
    destruct H1 as [I1 [I2 I3]].
    destruct (IH _ I1) as [J1 [J2 J3]].
    repeat split; auto.
    intros e' c [<-|He'] Hr Hc; eauto.
Qed.

Lemma fallback_constraints_complete (s : solver) (v : pvar) (c : signed_constraint) :
  In c (nth v (viable_fallback.m_constraints (m_viable_fallback s)) []) \/
  (exists e, In e (unit_entries s v) /\ refined e = true /\ In c (src e)) ->
  In c (snd (all_constraints s v (looping_constraints s v))).
Proof.
  unfold all_constraints, looping_constraints.
  destruct (@looping_constraints_incl (unit_entries s v) ([], []))
    as [I1 [I2 I3]]; [intros x []|].
  destruct (@add_unless_added_incl
              (rev (nth v (viable_fallback.m_constraints (m_viable_fallback s)) []))
              _ I1) as [J1 [J2 J3]].
  intros [H | [e [He [Hr Hc]]]].
  - apply J3. now apply -> in_rev.
  - apply J2. eapply I3; eauto.
Qed.

(** A linear check that the first [n] rounds all answer [l_undef]. *)
Fixpoint rounds_all_undef (n : nat) (mode : query_t) (v : pvar)
    (fbi : fixed_bits_info) (s : solver) : bool :=
  match n with
  | O => true
  | S n' =>
      let r := query_round mode v fbi s in
      lbool_eqb (fst (fst r)) l_undef && rounds_all_undef n' mode v fbi (snd r)
  end.

Lemma rounds_all_undef_spec n mode v fbi result s :
  rounds_all_undef n mode v fbi s = true ->
  forall i, (i < n)%nat -> round_res i mode v fbi (result, s) = l_undef.
Proof.
  revert result s. induction n as [|n IH]; intros result s H i Hi; [lia|].
  simpl in H. apply andb_true_iff in H. destruct H as [H0 H1].
  apply lbool_eqb_eq in H0.
  destruct i as [|i]; [exact H0|].
  unfold round_res. simpl.
  apply (IH (snd (fst (query_round mode v fbi s))) _ H1 i). lia.
Qed.

(** C3.  A query whose bit information is collected runs the refinement
    round at most 1000 times: either one of the first 1000 rounds answers
    (not [l_undef]) and the query returns what the first such round
    returns, or all 1000 answer [l_undef] and the query returns what
    [query_fallback] returns on the state the 1000 rounds leave.  The
    fallback asks the univariate solver about the sources of the refined
    unit entries and then about these together with every constraint
    recorded for the variable. *)
Theorem query_refinement_budget (mode : query_t) (v : pvar)
    (result : result_t mode) (s : solver) (fbi : fixed_bits_info) :
  collect_bits v s = inl fbi ->
  ((exists k, (k < 1000)%nat /\
      (forall i, (i < k)%nat -> round_res i mode v fbi (result, s) = l_undef) /\
      round_res k mode v fbi (result, s) <> l_undef /\
      query mode v result s =
        query_round mode v fbi (snd (after_rounds k mode v fbi (result, s)))) \/
   ((forall i, (i < 1000)%nat -> round_res i mode v fbi (result, s) = l_undef) /\
    query mode v result s =
      query_fallback mode v (fst (after_rounds 1000 mode v fbi (result, s)))
        (snd (after_rounds 1000 mode v fbi (result, s))))) /\
  (forall (s' : solver) (result' : result_t mode),
     fst (fst (query_fallback mode v result' s')) =
       match us_check s' v (snd (looping_constraints s' v)) with
       | l_false => l_false
       | l_undef => l_undef
       | l_true =>
           match us_check s' v
                   (snd (all_constraints s' v (looping_constraints s' v))) with
           | l_false => l_false
           | l_undef => l_undef
           | l_true =>
               fst (query_mode_fallback us_model us_find_min us_find_max mode v s'
                      (snd (all_constraints s' v (looping_constraints s' v)))
                      result')
           end
       end) /\
  (forall (s' : solver) (c : signed_constraint),
     In c (nth v (viable_fallback.m_constraints (m_viable_fallback s')) []) \/
     (exists e, In e (unit_entries s' v) /\ refined e = true /\ In c (src e)) ->
     In c (snd (all_constraints s' v (looping_constraints s' v)))).
Proof.
  intros Hc.
  assert (Hq : query mode v result s =
               query_loop 1000 mode v fbi result s).
  { unfold Viable.query, collect_bit_information. rewrite Hc. reflexivity. }
  split; [|split].
  - destruct (first_answer 1000 mode v fbi (result, s)) as [[k [Hk [Hu Ha]]] | Hu].
    + left. exists k. repeat split; auto.
      rewrite Hq. now apply query_loop_first_answer.
    + right. split; [auto|]. rewrite Hq.
      now apply query_loop_exhausted.
  - intros s' result'. unfold Viable.query_fallback.
    destruct (us_check s' v (snd (looping_constraints s' v))); try reflexivity.
    destruct (us_check s' v (snd (all_constraints s' v (looping_constraints s' v))));
      reflexivity.
  - intros s' c. apply fallback_constraints_complete.
Qed.

(** C10.  When all 1000 rounds of a [find_viable] query answer [l_undef],
    the query is answered by the fallback and [find_viable] does not return
    [singleton]: where both checks of the univariate solver succeed it
    returns [multiple] with the solver's model, whatever the number of
    viable values. *)
Theorem find_viable_fallback_never_singleton (v : pvar) (lo : Z) (s : solver)
    (fbi : fixed_bits_info) :
  collect_bits v s = inl fbi ->
  (forall i, (i < 1000)%nat ->
     round_res i find_viable_q v fbi (@pair (result_t find_viable_q) solver (lo, 0) s) = l_undef) ->
  fst (fst (find_viable v lo s)) <> singleton /\
  (let s' := snd (after_rounds 1000 find_viable_q v fbi
                     (@pair (result_t find_viable_q) solver (lo, 0) s)) in
   us_check s' v (snd (looping_constraints s' v)) = l_true ->
   us_check s' v (snd (all_constraints s' v (looping_constraints s' v))) = l_true ->
   find_viable v lo s =
     (multiple,
      us_model s' v (snd (all_constraints s' v (looping_constraints s' v))), s')).
Proof.
  intros Hc Hu.
  assert (Hq0 : find_viable2 us_check us_model us_find_min us_find_max
                  collect_bits v lo 0 s =
                query_loop 1000 find_viable_q v fbi (lo, 0) s).
  { unfold find_viable2, Viable.query, collect_bit_information. rewrite Hc.
    reflexivity. }
  pose proof (@query_loop_exhausted 1000 find_viable_q v fbi (lo, 0) s Hu) as Hq.
  rewrite <- Hq0 in Hq. clear Hq0.
  unfold Viable.find_viable. rewrite Hq. unfold Viable.query_fallback.
  cbv zeta.
  set (st := after_rounds 1000 find_viable_q v fbi _). clearbody st.
  destruct (us_check (snd st) v (snd (looping_constraints (snd st) v))) eqn:E1.
  - destruct (fst st) as [a b]. simpl. split; [discriminate | discriminate].
  - destruct (fst st) as [a b]. simpl. split; [discriminate | discriminate].
  - destruct (us_check (snd st) v
                (snd (all_constraints (snd st) v (looping_constraints (snd st) v))))
      eqn:E2.
    + destruct (fst st) as [a b]. simpl. split; [discriminate | discriminate].
    + destruct (fst st) as [a b]. simpl. split; [discriminate | discriminate].
    + simpl. split; [discriminate | reflexivity].
Qed.

End QueryBudget.

(** *** Two states to run the queries on *)

Section QueryExamples.
Import Numeral Viable.

(** No fixed bits; a univariate solver that finds every constraint set
    unsatisfiable. *)
Definition no_bits (v : pvar) (s : solver) : fixed_bits_info + list literal :=
  inl (mk_fbi [] [] []).
Definition us_unsat (s : solver) (v : pvar) (cs : list signed_constraint) : lbool :=
  l_false.
Definition us_zero (s : solver) (v : pvar) (cs : list signed_constraint) : Z := 0.
Definition us_none (s : solver) (v : pvar) (cs : list signed_constraint)
  : option Z := None.

(** Scenario C: one variable of width 8 with the equal-linear entry of
    [2 * x == 1], that is [2 * x] not in [2, 1). *)
Definition equation_2x_1 : entry :=
  mk_entry 0 [mk_sc 0 true] [] 2
    (eval_interval.proper (mk_val 2) 2 (mk_val 1) 1) 8 false 0.

Definition scenario_C : solver :=
  mk_solver (viable.mk [] 1 [[]] [[equation_2x_1]] [[]] [])
    (viable_fallback.mk [[]]) conflict_empty [] [] [] [0] [unassigned] [[]]
    [8%nat] [] 0 0 [] [] [] 0 0 0 0 0 0.

(** One variable of width 12 with the equal-linear entries
    [2^11 * x] not in [1, 0) and [(2^11 + 2) * x] not in [0, 2^11): every
    round of refinement forbids one more value. *)
Definition looping_entry (id : nat) (c l h : Z) : entry :=
  mk_entry id [mk_sc id true] [] c
    (eval_interval.proper (mk_val l) l (mk_val h) h) 12 false id.

Definition looping_state : solver :=
  mk_solver
    (viable.mk [] 2 [[]]
       [[looping_entry 0 2048 1 0; looping_entry 1 2050 0 2048]] [[]] [])
    (viable_fallback.mk [[mk_sc 2 true]]) conflict_empty [] [] [] [0]
    [unassigned] [[]] [12%nat] [] 0 0 [] [] [] 0 0 0 0 0 0.

Lemma looping_state_exhausts :
  rounds_all_undef 1000 find_viable_q 0%nat (mk_fbi [] [] []) looping_state = true.
Proof. vm_compute. reflexivity. Qed.

Lemma query_refinement_budget_witness :
  exists k, (k < 1000)%nat /\
    query us_unsat us_zero us_none us_none no_bits find_viable_q 0%nat (0, 0)
      scenario_C =
    query_round find_viable_q 0%nat (mk_fbi [] [] [])
      (snd (after_rounds k find_viable_q 0%nat (mk_fbi [] [] [])
              (@pair (result_t find_viable_q) solver (0, 0) scenario_C))).
Proof.
  destruct (@query_refinement_budget us_unsat us_zero us_none us_none no_bits
              find_viable_q 0%nat (0, 0) scenario_C (mk_fbi [] [] []) eq_refl)
    as [[[k [Hk [_ [_ E]]]] | [Hu _]] _].
  - exists k. split; assumption.
  - specialize (Hu 1%nat ltac:(lia)). vm_compute in Hu. discriminate.
Defined.

(** With a univariate solver that finds the constraints satisfiable, with
    model 1024, the query on the looping state ends in the fallback and
    [find_viable] answers [multiple]. *)
Definition us_sat (s : solver) (v : pvar) (cs : list signed_constraint) : lbool :=
  l_true.
Definition us_1024 (s : solver) (v : pvar) (cs : list signed_constraint) : Z :=
  1024.

Lemma find_viable_fallback_never_singleton_witness :
  fst (fst (find_viable us_sat us_1024 us_none us_none no_bits 0%nat 0
              looping_state)) = multiple /\
  snd (fst (find_viable us_sat us_1024 us_none us_none no_bits 0%nat 0
              looping_state)) = 1024.
Proof.
  destruct (@find_viable_fallback_never_singleton us_sat us_1024 us_none us_none
              no_bits 0%nat 0 looping_state (mk_fbi [] [] []) eq_refl
              (@rounds_all_undef_spec 1000 find_viable_q 0%nat (mk_fbi [] [] [])
                 (0, 0) looping_state looping_state_exhausts)) as [_ H].
  rewrite (H eq_refl eq_refl). split; reflexivity.
Defined.

End QueryExamples.

(** ** Backjumping: what [pop_levels] undoes and what it re-queues *)

(** Case analysis on the scrutinees of the goal, and the fields an
    operation of the solver leaves alone. *)
Ltac break_match :=
  match goal with
  | |- context [match ?x with _ => _ end] => destruct x eqn:?
  end.

Ltac frame :=
  unfold Solver.undo_instr, Solver.pop_qhead, Solver.del_var, Solver.del_var_eh,
    Solver.unassign_var_eh, Solver.deactivate_constraint, Solver.erase_watch,
    Solver.erase_watch_var, Solver.set_active, Solver.bvars_unassign;
  repeat (simpl; try reflexivity; break_match).

Section PopLevels.
Import Solver.

(** One round of the loop, with the pop of the trail. *)
Definition undo_step (target_level : Z) (st : solver * Z * list literal)
    (i : trail_instr_t) : solver * Z * list literal :=
  let r := undo_instr i target_level st in
  (set_m_trail (removelast (m_trail (fst (fst r)))) (fst (fst r)),
   snd (fst r), snd r).

Definition undo_all (target_level : Z) (l : list trail_instr_t)
    (st : solver * Z * list literal) : solver * Z * list literal :=
  fold_left (undo_step target_level) l st.

Definition count_inc (l : list trail_instr_t) : nat :=
  length (filter (fun i => match i with inc_level_i => true | _ => false end) l).

Lemma undo_instr_trail i target s n r :
  m_trail (fst (fst (undo_instr i target (s, n, r)))) = m_trail s.
Proof. destruct i; frame. Qed.

Lemma undo_instr_num i target s n r :
  snd (fst (undo_instr i target (s, n, r))) =
  match i with inc_level_i => n - 1 | _ => n end.
Proof. destruct i; frame. Qed.

Lemma removelast_snoc {A} (l : list A) x : removelast (l ++ [x]) = l.
Proof. apply removelast_last. Qed.

Lemma pop_levels_loop_S fuel target s n r :
  pop_levels_loop (S fuel) target (s, n, r) =
  if n >? 0 then
    match unsnoc (m_trail s) with
    | None => (s, n, r)
    | Some (tr, i) =>
        pop_levels_loop fuel target
          (set_m_trail tr (fst (fst (undo_instr i target (s, n, r)))),
           snd (fst (undo_instr i target (s, n, r))),
           snd (undo_instr i target (s, n, r)))
    end
  else (s, n, r).
Proof.
  cbn [pop_levels_loop]. destruct (n >? 0); [|reflexivity].
  destruct (unsnoc (m_trail s)) as [[tr i]|]; [|reflexivity].
  destruct (undo_instr i target (s, n, r)) as [[s1 n1] r1]. reflexivity.
Qed.

(** While levels remain, the loop runs the rounds one by one. *)
Lemma pop_levels_loop_steps target l :
  forall pre fuel s n r,
    m_trail s = pre ++ rev l ->
    (length l <= fuel)%nat ->
    Z.of_nat (count_inc l) < n ->
    pop_levels_loop fuel target (s, n, r) =
    pop_levels_loop (fuel - length l) target (undo_all target l (s, n, r)).
Proof.
  induction l as [|i l IH]; intros pre fuel s n r Htr Hf Hn.
  - simpl. now rewrite Nat.sub_0_r.
  - destruct fuel as [|fuel]; [simpl in Hf; lia|].
    simpl rev in Htr. rewrite app_assoc in Htr.
    rewrite pop_levels_loop_S.
    assert (Hpos : (n >? 0) = true).
    { apply Z.gtb_lt. unfold count_inc in Hn. lia. }
    rewrite Hpos, Htr, unsnoc_app.
    pose proof (undo_instr_trail i target s n r) as Ht.
    pose proof (undo_instr_num i target s n r) as Hnum.
    change (undo_all target (i :: l) (s, n, r))
      with (undo_all target l (undo_step target (s, n, r) i)).
    unfold undo_step.
    destruct (undo_instr i target (s, n, r)) as [[s1 n1] r1] eqn:E.
    simpl in Ht, Hnum. simpl fst. simpl snd.
    rewrite Ht, Htr, removelast_snoc.
    simpl length. simpl Nat.sub.
    apply IH with (pre := pre).
    + reflexivity.
    + simpl in Hf. lia.
    + subst n1. unfold count_inc in *. simpl in Hn.
      destruct i; simpl in Hn; lia.
Qed.

(** *** What the rounds do to each part of the state *)

Definition viable_undo (vb : viable.t) (i : trail_instr_t) : viable.t :=
  match i with
  | viable_add_i => Viable.pop_viable vb
  | viable_rem_i => Viable.push_viable vb
  | add_var_i => Viable.pop_var vb
  | _ => vb
  end.

Lemma undo_step_viable target st i :
  m_viable (fst (fst (undo_step target st i))) =
  viable_undo (m_viable (fst (fst st))) i.
Proof. destruct st as [[s n] r]. unfold undo_step. destruct i; frame. Qed.

Lemma undo_all_viable target l : forall st,
  m_viable (fst (fst (undo_all target l st))) =
  fold_left viable_undo l (m_viable (fst (fst st))).
Proof.
  induction l as [|i l IH]; intros st; [reflexivity|].
  change (undo_all target (i :: l) st)
    with (undo_all target l (undo_step target st i)).
  rewrite IH, undo_step_viable. reflexivity.
Qed.

Lemma undo_step_level target st i :
  m_level (fst (fst (undo_step target st i))) =
    match i with
    | inc_level_i => u32 (m_level (fst (fst st)) - 1)
    | _ => m_level (fst (fst st))
    end /\
  snd (fst (undo_step target st i)) =
    match i with
    | inc_level_i => snd (fst st) - 1
    | _ => snd (fst st)
    end.
Proof. destruct st as [[s n] r]. unfold undo_step. split; destruct i; frame. Qed.

Lemma u32_small x : 0 <= x < 2 ^ 32 -> u32 x = x.
Proof. intros H. unfold u32. now apply Z.mod_small. Qed.

Lemma undo_all_level target l : forall st,
  Z.of_nat (count_inc l) <= m_level (fst (fst st)) < 2 ^ 32 ->
  m_level (fst (fst (undo_all target l st))) =
    m_level (fst (fst st)) - Z.of_nat (count_inc l) /\
  snd (fst (undo_all target l st)) = snd (fst st) - Z.of_nat (count_inc l).
Proof.
  induction l as [|i l IH]; intros st H; [simpl; lia|].
  change (undo_all target (i :: l) st)
    with (undo_all target l (undo_step target st i)).
  destruct (undo_step_level target st i) as [E1 E2].
  assert (Hc : count_inc (i :: l) =
               ((match i with inc_level_i => 1 | _ => 0 end) + count_inc l)%nat).
  { unfold count_inc. simpl. destruct i; reflexivity. }
  rewrite Hc in *.
  destruct (IH (undo_step target st i)) as [F1 F2].
  { rewrite E1. destruct i; try lia. rewrite u32_small; lia. }
  rewrite F1, F2, E1, E2.
  destruct i; try lia. rewrite u32_small; lia.
Qed.

Lemma undo_step_trail target st i :
  m_trail (fst (fst (undo_step target st i))) = removelast (m_trail (fst (fst st))).
Proof.
  destruct st as [[s n] r]. unfold undo_step.
  pose proof (undo_instr_trail i target s n r) as H.
  destruct (undo_instr i target (s, n, r)) as [[s1 n1] r1].
  simpl in *. now rewrite H.
Qed.

Lemma undo_all_trail target l : forall st pre,
  m_trail (fst (fst st)) = pre ++ rev l ->
  m_trail (fst (fst (undo_all target l st))) = pre.
Proof.
  induction l as [|i l IH]; intros st pre H.
  - simpl in *. now rewrite app_nil_r in H.
  - change (undo_all target (i :: l) st)
      with (undo_all target l (undo_step target st i)).
    apply IH. rewrite undo_step_trail, H. simpl rev.
    now rewrite app_assoc, removelast_snoc.
Qed.

(** The items of the search stack the popped instructions go with, in the
    order they are popped. *)
Fixpoint items_match (l : list trail_instr_t) (items : list search_item) : Prop :=
  match l with
  | [] => items = []
  | assign_i :: l' =>
      match items with
      | assignment _ :: items' => items_match l' items'
      | _ => False
      end
  | assign_bool_i :: l' =>
      match items with
      | boolean _ :: items' => items_match l' items'
      | _ => False
      end
  | _ :: l' => items_match l' items
  end.

Definition lits_of (items : list search_item) : list literal :=
  flat_map (fun it => match it with boolean lit => [lit] | assignment _ => [] end)
    items.

Definition vars_of (items : list search_item) : list pvar :=
  flat_map (fun it => match it with assignment v => [v] | boolean _ => [] end)
    items.

Definition unassigned_info : bool_info := mk_bool_info l_undef 0 b_unassigned.

Lemma bvar_info_unassign lit s b :
  bvar_info (bvars_unassign lit s) b =
  if (b =? bvar lit)%nat then unassigned_info else bvar_info s b.
Proof.
  unfold bvar_info, bvars_unassign. simpl.
  destruct (Nat.eqb_spec b (bvar lit)) as [->|Hne].
  - destruct (Nat.lt_ge_cases (bvar lit) (length (m_bvars s))).
    + now apply nth_set_nth_same.
    + rewrite nth_overflow; [reflexivity|]. now rewrite length_set_nth.
  - apply nth_set_nth_other. auto.
Qed.

Lemma bvar_info_deactivate c s b :
  bvar_info (deactivate_constraint c s) b = bvar_info s b.
Proof. unfold bvar_info. f_equal. frame. Qed.

Lemma nth_removelast_default {A} (l : list A) (d : A) v :
  nth v l d = d -> nth v (removelast l) d = d.
Proof.
  revert v. induction l as [|x l IH]; intros v Hv; [destruct v; auto|].
  destruct l as [|y l'].
  - simpl. destruct v; reflexivity.
  - destruct v as [|v]; [exact Hv|].
    change (nth v (removelast (y :: l')) d = d). apply IH. exact Hv.
Qed.

Lemma undo_step_other target st i :
  i <> assign_i -> i <> assign_bool_i ->
  m_search (fst (fst (undo_step target st i))) = m_search (fst (fst st)) /\
  snd (undo_step target st i) = snd st /\
  m_bvars (fst (fst (undo_step target st i))) = m_bvars (fst (fst st)) /\
  (forall v, nth v (m_justification (fst (fst st))) unassigned = unassigned ->
     nth v (m_justification (fst (fst (undo_step target st i)))) unassigned
       = unassigned).
Proof.
  destruct st as [[s n] r]. unfold undo_step. intros H1 H2.
  split; [destruct i; try congruence; frame|].
  split; [destruct i; try congruence; frame|].
  split; [destruct i; try congruence; frame|].
  intros v Hv. destruct i; try congruence; simpl; auto.
  - unfold pop_qhead. repeat break_match; simpl; auto.
  - now apply nth_removelast_default.
Qed.

Lemma undo_step_assign target s n r items v :
  m_search s = items ++ [assignment v] ->
  m_search (fst (fst (undo_step target (s, n, r) assign_i))) = items /\
  snd (undo_step target (s, n, r) assign_i) = r /\
  m_bvars (fst (fst (undo_step target (s, n, r) assign_i))) = m_bvars s /\
  nth v (m_justification (fst (fst (undo_step target (s, n, r) assign_i))))
    unassigned = unassigned /\
  (forall w, nth w (m_justification s) unassigned = unassigned ->
     nth w (m_justification (fst (fst (undo_step target (s, n, r) assign_i))))
       unassigned = unassigned).
Proof.
  intros H. unfold undo_step, undo_instr. rewrite H, unsnoc_app.
  assert (J : m_justification (unassign_var_eh v s) = m_justification s)
    by (unfold unassign_var_eh; destruct (existsb _ _); reflexivity).
  assert (B : m_bvars (unassign_var_eh v s) = m_bvars s)
    by (unfold unassign_var_eh; destruct (existsb _ _); reflexivity).
  simpl. rewrite J, B. repeat split.
  - destruct (Nat.lt_ge_cases v (length (m_justification s))).
    + now apply nth_set_nth_same.
    + apply nth_overflow. now rewrite length_set_nth.
  - intros w Hw. destruct (Nat.eq_dec v w) as [->|Hne].
    + destruct (Nat.lt_ge_cases w (length (m_justification s))).
      * now apply nth_set_nth_same.
      * apply nth_overflow. now rewrite length_set_nth.
    + rewrite nth_set_nth_other; auto.
Qed.

Lemma undo_step_bool target s n r items lit :
  m_search s = items ++ [boolean lit] ->
  m_search (fst (fst (undo_step target (s, n, r) assign_bool_i))) = items /\
  snd (undo_step target (s, n, r) assign_bool_i) =
    (if bvars_level s lit <=? target then r ++ [lit] else r) /\
  (forall b, bvar_info (fst (fst (undo_step target (s, n, r) assign_bool_i))) b =
     if (b =? bvar lit)%nat && negb (bvars_level s lit <=? target)
     then unassigned_info else bvar_info s b) /\
  m_justification (fst (fst (undo_step target (s, n, r) assign_bool_i)))
    = m_justification s.
Proof.
  intros H. unfold undo_step, undo_instr. rewrite H, unsnoc_app.
  unfold lit2cnstr.
  assert (D : forall b,
             bvar_info (if is_active s lit then deactivate_constraint lit s else s) b
             = bvar_info s b).
  { intros b. destruct (is_active s lit); [apply bvar_info_deactivate | reflexivity]. }
  assert (J : m_justification
                (if is_active s lit then deactivate_constraint lit s else s)
              = m_justification s).
  { destruct (is_active s lit); [frame | reflexivity]. }
  destruct (bvars_level s lit <=? target); simpl; repeat split; auto.
  - intros b. rewrite andb_false_r. apply D.
  - intros b. rewrite andb_true_r.
    change (bvar_info (bvars_unassign lit
              (if is_active s lit then deactivate_constraint lit s else s)) b
            = if (b =? bvar lit)%nat then unassigned_info else bvar_info s b).
    rewrite bvar_info_unassign, D. reflexivity.
Qed.

Lemma existsb_ext_in {A} (f g : A -> bool) (l : list A) :
  (forall a, In a l -> f a = g a) -> existsb f l = existsb g l.
Proof.
  induction l as [|x l IH]; intros H; [reflexivity|].
  simpl. rewrite (H x (or_introl eq_refl)), IH; auto.
  intros a Ha. apply H. now right.
Qed.

Definition above (s : solver) (target : Z) (lit : literal) : bool :=
  negb (bvars_level s lit <=? target).

Opaque undo_step.

(** The rounds over the popped instructions [l] (in the order they are
    popped), when the items [its] on top of the search stack go with them. *)
Lemma undo_all_search target l : forall its st spre,
  items_match l its ->
  m_search (fst (fst st)) = spre ++ rev its ->
  NoDup (map bvar (lits_of its)) ->
  m_search (fst (fst (undo_all target l st))) = spre /\
  snd (undo_all target l st) =
    snd st ++ filter (fun lit => bvars_level (fst (fst st)) lit <=? target)
                (lits_of its) /\
  (forall b, bvar_info (fst (fst (undo_all target l st))) b =
     if existsb (fun lit => (b =? bvar lit)%nat && above (fst (fst st)) target lit)
          (lits_of its)
     then unassigned_info else bvar_info (fst (fst st)) b) /\
  (forall v, In v (vars_of its) ->
     nth v (m_justification (fst (fst (undo_all target l st)))) unassigned
       = unassigned) /\
  (forall v, nth v (m_justification (fst (fst st))) unassigned = unassigned ->
     nth v (m_justification (fst (fst (undo_all target l st)))) unassigned
       = unassigned).
Proof.
  induction l as [|i l IH]; intros its st spre Hm Hs Hnd.
  - simpl in Hm. subst its. simpl in *. rewrite app_nil_r in *.
    repeat split; auto. intros v [].
  - change (undo_all target (i :: l) st)
      with (undo_all target l (undo_step target st i)).
    destruct st as [[s n] r].
    assert (Hother : i <> assign_i -> i <> assign_bool_i ->
              items_match l its ->
              m_search (fst (fst (undo_all target l (undo_step target (s, n, r) i))))
                = spre /\
              snd (undo_all target l (undo_step target (s, n, r) i)) =
                snd (s, n, r) ++
                filter (fun lit => bvars_level (fst (fst (s, n, r))) lit <=? target)
                  (lits_of its) /\
              (forall b,
                 bvar_info (fst (fst (undo_all target l (undo_step target (s, n, r) i)))) b =
                 if existsb
                      (fun lit => (b =? bvar lit)%nat
                                  && above (fst (fst (s, n, r))) target lit)
                      (lits_of its)
                 then unassigned_info else bvar_info (fst (fst (s, n, r))) b) /\
              (forall v, In v (vars_of its) ->
                 nth v (m_justification
                          (fst (fst (undo_all target l (undo_step target (s, n, r) i)))))
                   unassigned = unassigned) /\
              (forall v, nth v (m_justification (fst (fst (s, n, r)))) unassigned
                         = unassigned ->
                 nth v (m_justification
                          (fst (fst (undo_all target l (undo_step target (s, n, r) i)))))
                   unassigned = unassigned)).
    { intros N1 N2 Hm'.
      destruct (@undo_step_other target (s, n, r) i N1 N2) as [E1 [E2 [E3 E4]]].
      destruct (IH its (undo_step target (s, n, r) i) spre Hm')
        as [F1 [F2 [F3 [F4 F5]]]]; auto.
      { rewrite E1. exact Hs. }
      assert (L : forall lit,
                bvars_level (fst (fst (undo_step target (s, n, r) i))) lit
                = bvars_level s lit).
      { intros lit. unfold bvars_level, bvar_info. now rewrite E3. }
      split; [exact F1|]. split.
      { rewrite F2, E2. simpl. f_equal. apply filter_ext. intros lit. now rewrite L. }
      split.
      { intros b. rewrite F3.
        assert (B : bvar_info (fst (fst (undo_step target (s, n, r) i))) b
                    = bvar_info s b) by (unfold bvar_info; now rewrite E3).
        rewrite B. simpl.
        assert (Fe : existsb
                       (fun lit0 =>
                          (b =? bvar lit0)%nat
                          && above (fst (fst (undo_step target (s, n, r) i)))
                               target lit0) (lits_of its)
                     = existsb
                         (fun lit0 => (b =? bvar lit0)%nat && above s target lit0)
                         (lits_of its))
          by (apply existsb_ext_in; intros a Ha; unfold above; now rewrite L).
        rewrite Fe.
        reflexivity. }
      split; [exact F4|]. intros v Hv. apply F5. apply E4. exact Hv. }
    destruct i; try (apply Hother; [discriminate | discriminate | exact Hm]).
    + (* assign_i *)
      simpl in Hm. destruct its as [|[v|lit] its']; try contradiction.
      simpl rev in Hs. rewrite app_assoc in Hs. simpl in Hs.
      destruct (@undo_step_assign target s n r _ v Hs) as [E1 [E2 [E3 [E4 E5]]]].
      destruct (IH its' (undo_step target (s, n, r) assign_i) spre Hm E1 Hnd)
        as [F1 [F2 [F3 [F4 F5]]]].
      assert (L : forall lit,
                bvars_level (fst (fst (undo_step target (s, n, r) assign_i))) lit
                = bvars_level s lit).
      { intros lit. unfold bvars_level, bvar_info. now rewrite E3. }
      split; [exact F1|]. split.
      { rewrite F2, E2. simpl. f_equal. apply filter_ext. intros lit. now rewrite L. }
      split.
      { intros b. rewrite F3.
        assert (B : bvar_info (fst (fst (undo_step target (s, n, r) assign_i))) b
                    = bvar_info s b) by (unfold bvar_info; now rewrite E3).
        rewrite B. simpl.
        assert (Fe : existsb
                       (fun lit0 =>
                          (b =? bvar lit0)%nat
                          && above (fst (fst (undo_step target (s, n, r) assign_i)))
                               target lit0) (lits_of its')
                     = existsb
                         (fun lit0 => (b =? bvar lit0)%nat && above s target lit0)
                         (lits_of its'))
          by (apply existsb_ext_in; intros a Ha; unfold above; now rewrite L).
        rewrite Fe.
        reflexivity. }
      split.
      { intros w [<-|Hw]; [apply F5; exact E4 | apply F4; exact Hw]. }
      intros w Hw. apply F5. apply E5. exact Hw.
    + (* assign_bool_i *)
      simpl in Hm. destruct its as [|[v|lit] its']; try contradiction.
      simpl rev in Hs. rewrite app_assoc in Hs. simpl in Hs.
      simpl in Hnd. inversion Hnd as [|x xs Hnin Hnd']; subst.
      destruct (@undo_step_bool target s n r _ lit Hs) as [E1 [E2 [E3 E4]]].
      destruct (IH its' (undo_step target (s, n, r) assign_bool_i) spre Hm E1 Hnd')
        as [F1 [F2 [F3 [F4 F5]]]].
      assert (L : forall lit', In lit' (lits_of its') ->
                bvars_level (fst (fst (undo_step target (s, n, r) assign_bool_i))) lit'
                = bvars_level s lit').
      { intros lit' Hin. unfold bvars_level. rewrite E3.
        destruct (Nat.eqb_spec (bvar lit') (bvar lit)) as [Eq|]; [|reflexivity].
        exfalso. apply Hnin. rewrite <- Eq. now apply in_map. }
      split; [exact F1|]. split.
      { rewrite F2, E2. simpl.
        assert (Ff : filter
                       (fun lit0 =>
                          bvars_level
                            (fst (fst (undo_step target (s, n, r) assign_bool_i)))
                            lit0 <=? target) (lits_of its')
                     = filter (fun lit0 => bvars_level s lit0 <=? target)
                         (lits_of its'))
          by (apply filter_ext_in; intros a Ha; now rewrite L).
        rewrite Ff.
        destruct (bvars_level s lit <=? target); simpl;
          [now rewrite <- app_assoc | reflexivity]. }
      split.
      { intros b. rewrite F3. simpl.
        assert (Fe : existsb
                       (fun lit0 =>
                          (b =? bvar lit0)%nat
                          && above (fst (fst (undo_step target (s, n, r) assign_bool_i)))
                               target lit0) (lits_of its')
                     = existsb
                         (fun lit0 => (b =? bvar lit0)%nat && above s target lit0)
                         (lits_of its'))
          by (apply existsb_ext_in; intros a Ha; unfold above; now rewrite L).
        rewrite Fe.
        rewrite E3. fold (above s target lit).
        destruct (existsb
                    (fun lit0 => (b =? bvar lit0)%nat && above s target lit0)
                    (lits_of its'));
          [now rewrite orb_true_r|].
        rewrite orb_false_r. reflexivity. }
      split.
      { intros w Hw. apply F4. exact Hw. }
      intros w Hw. apply F5. rewrite E4. exact Hw.
Qed.

Transparent undo_step.

Lemma pop_levels_loop_done fuel target s n r :
  n <= 0 -> pop_levels_loop fuel target (s, n, r) = (s, n, r).
Proof.
  intros H. destruct fuel as [|fuel]; [reflexivity|].
  rewrite pop_levels_loop_S.
  replace (n >? 0) with false; [reflexivity|].
  symmetry. rewrite Z.gtb_ltb. apply Z.ltb_ge. lia.
Qed.

Lemma undo_all_num target l : forall st,
  snd (fst (undo_all target l st)) = snd (fst st) - Z.of_nat (count_inc l).
Proof.
  induction l as [|i l IH]; intros st; [simpl; lia|].
  change (undo_all target (i :: l) st)
    with (undo_all target l (undo_step target st i)).
  rewrite IH. destruct (undo_step_level target st i) as [_ E]. rewrite E.
  unfold count_inc. simpl. destruct i; simpl length; lia.
Qed.

Lemma count_inc_rev l : count_inc (rev l) = count_inc l.
Proof. unfold count_inc. now rewrite filter_rev, length_rev. Qed.

Lemma lits_of_app a b : lits_of (a ++ b) = lits_of a ++ lits_of b.
Proof. unfold lits_of. apply flat_map_app. Qed.

Lemma lits_of_rev items : lits_of (rev items) = rev (lits_of items).
Proof.
  induction items as [|it items IH]; [reflexivity|].
  simpl rev. rewrite lits_of_app, IH.
  destruct it; simpl; [now rewrite app_nil_r | reflexivity].
Qed.

Lemma vars_of_rev_In items v : In v (vars_of (rev items)) <-> In v (vars_of items).
Proof.
  unfold vars_of. rewrite !in_flat_map. split; intros [x [Hx Hv]]; exists x;
    (split; [|exact Hv]); [now apply in_rev | now apply -> in_rev].
Qed.

Lemma NoDup_map_eq {A B} (f : A -> B) (l : list A) a b :
  NoDup (map f l) -> In a l -> In b l -> f a = f b -> a = b.
Proof.
  induction l as [|x l IH]; intros Hnd Ha Hb E; [destruct Ha|].
  simpl in Hnd. inversion Hnd as [|y ys Hnin Hnd']; subst.
  destruct Ha as [->|Ha], Hb as [->|Hb]; auto.
  - exfalso. apply Hnin. rewrite E. now apply in_map.
  - exfalso. apply Hnin. rewrite <- E. now apply in_map.
Qed.

(** The whole loop of [pop_levels], on a trail whose suffix from the
    [num_levels]-th last [inc_level_i] is [inc_level_i :: suf]. *)
Lemma pop_levels_loop_all target s n r pre suf :
  m_trail s = pre ++ inc_level_i :: suf ->
  Z.of_nat (count_inc suf) = n - 1 ->
  pop_levels_loop (length (m_trail s)) target (s, n, r) =
  undo_all target (rev (inc_level_i :: suf)) (s, n, r).
Proof.
  intros Htr Hc.
  assert (Htr' : m_trail s = (pre ++ [inc_level_i]) ++ rev (rev suf)).
  { rewrite rev_involutive, <- app_assoc. exact Htr. }
  rewrite (@pop_levels_loop_steps target (rev suf) (pre ++ [inc_level_i])
             (length (m_trail s)) s n r Htr').
  2:{ rewrite Htr, length_rev, length_app. simpl. lia. }
  2:{ rewrite count_inc_rev. lia. }
  assert (Hf : exists f, (length (m_trail s) - length (rev suf))%nat = S f).
  { exists (length pre). rewrite Htr, length_rev, length_app. simpl. lia. }
  destruct Hf as [f ->].
  pose proof (@undo_all_trail target (rev suf) (s, n, r) _ Htr') as Ht.
  pose proof (@undo_all_num target (rev suf) (s, n, r)) as Hl.
  rewrite count_inc_rev in Hl.
  simpl rev. unfold undo_all at 2. rewrite fold_left_app.
  fold (undo_all target (rev suf) (s, n, r)).
  destruct (undo_all target (rev suf) (s, n, r)) as [[s1 n1] r1] eqn:E.
  simpl in Ht, Hl. rewrite pop_levels_loop_S.
  replace (n1 >? 0) with true by (symmetry; apply Z.gtb_lt; lia).
  rewrite Ht, unsnoc_app.
  pose proof (undo_instr_trail inc_level_i target s1 n1 r1) as Ht1.
  pose proof (undo_instr_num inc_level_i target s1 n1 r1) as Hn1.
  cbn [fold_left]. unfold undo_step.
  destruct (undo_instr inc_level_i target (s1, n1, r1)) as [[s2 n2] r2].
  simpl in Ht1, Hn1. cbn [fst snd].
  rewrite Ht1, Ht, removelast_snoc.
  apply pop_levels_loop_done. lia.
Qed.

Lemma replay_fold lits : forall s,
  m_search (fold_left replay_lit lits s) = m_search s ++ map boolean lits /\
  m_trail (fold_left replay_lit lits s) =
    m_trail s ++ map (fun _ => assign_bool_i) lits /\
  m_level (fold_left replay_lit lits s) = m_level s /\
  m_bvars (fold_left replay_lit lits s) = m_bvars s /\
  m_viable (fold_left replay_lit lits s) = m_viable s /\
  m_justification (fold_left replay_lit lits s) = m_justification s.
Proof.
  induction lits as [|lit lits IH]; intros s.
  - simpl. now rewrite !app_nil_r.
  - simpl fold_left. destruct (IH (replay_lit s lit)) as [A [B [C [D [E F]]]]].
    rewrite A, B, C, D, E, F. simpl. rewrite <- !app_assoc.
    repeat split; reflexivity.
Qed.


(** A state at level 2: the literal 0 was asserted at level 1, the literal 1
    decided at level 2, then the variable 0 assigned and the literal 2
    propagated with level 1. *)
Definition backjump_state : solver :=
  mk_solver (viable.mk [] 0 [[]] [[]] [[]] []) (viable_fallback.mk [[]])
    conflict_empty
    [mk_bool_info l_true 1 b_asserted; mk_bool_info l_true 2 b_decision;
     mk_bool_info l_true 1 b_propagation]
    [] [] [5] [decision 2] [[]] [4%nat]
    [boolean (mk_sc 0 true); boolean (mk_sc 1 true); assignment 0%nat;
     boolean (mk_sc 2 true)]
    4 2
    [inc_level_i; assign_bool_i; inc_level_i; assign_bool_i; assign_i;
     assign_bool_i]
    [] [] 0 0 0 0 0 0.


End PopLevels.

(** ** Restarts *)

Section Restarts.
Import Solver.

Variable get_luby : Z -> Z.

(** The fields [pop_levels] leaves alone. *)
Definition same_counters (s s' : solver) : Prop :=
  m_num_conflicts s' = m_num_conflicts s /\
  m_num_restarts s' = m_num_restarts s /\
  m_conflicts_at_restart s' = m_conflicts_at_restart s /\
  m_restart_threshold s' = m_restart_threshold s /\
  m_restart_init s' = m_restart_init s /\
  m_luby_idx s' = m_luby_idx s /\
  m_base_levels s' = m_base_levels s.

Lemma same_counters_refl s : same_counters s s.
Proof. repeat split. Qed.

Lemma same_counters_trans s1 s2 s3 :
  same_counters s1 s2 -> same_counters s2 s3 -> same_counters s1 s3.
Proof.
  unfold same_counters. intros [A [B [C [D [E [F G]]]]]] [A' [B' [C' [D' [E' [F' G']]]]]].
  repeat split; congruence.
Qed.

Lemma undo_instr_counters i target s n r :
  same_counters s (fst (fst (undo_instr i target (s, n, r)))).
Proof. unfold same_counters. destruct i; repeat split; frame. Qed.

Lemma pop_levels_loop_counters fuel target : forall s n r,
  same_counters s (fst (fst (pop_levels_loop fuel target (s, n, r)))).
Proof.
  induction fuel as [|fuel IH]; intros s n r; [apply same_counters_refl|].
  rewrite pop_levels_loop_S.
  destruct (n >? 0); [|apply same_counters_refl].
  destruct (unsnoc (m_trail s)) as [[tr i]|]; [|apply same_counters_refl].
  eapply same_counters_trans; [apply (undo_instr_counters i target s n r)|].
  eapply same_counters_trans; [|apply IH].
  repeat split.
Qed.

Lemma replay_counters lits : forall s,
  same_counters s (fold_left replay_lit lits s).
Proof.
  induction lits as [|lit lits IH]; intros s; [apply same_counters_refl|].
  simpl. eapply same_counters_trans; [|apply IH]. repeat split.
Qed.

Lemma pop_levels_counters n s : same_counters s (pop_levels n s).
Proof.
  unfold pop_levels. destruct (n =? 0); [apply same_counters_refl|].
  pose proof (pop_levels_loop_counters (length (m_trail s))
                (u32 (m_level s - n)) s n []) as H.
  destruct (pop_levels_loop _ _ _) as [[s1 n1] replay]. simpl in H.
  eapply same_counters_trans; [exact H | apply replay_counters].
Qed.

(** C9.  [should_restart] answers [false] whenever [base_level() + 2], as
    the unsigned sum the code computes, exceeds [m_level]; so it does
    whenever the sum does not overflow and fewer than two levels lie above
    the base level.  The loop of [check_sat] restarts only where
    [should_restart] holds, that is with the conflict count since the last
    restart at the threshold and at least two levels above the base level.
    [restart] counts the restart, records the conflict count, advances the
    Luby index and sets the threshold to [m_restart_init] times the Luby
    value at the new index. *)
Theorem should_restart_suppressed (s : solver) :
  (u32 (base_level s + 2) > m_level s -> should_restart s = false) /\
  (0 <= base_level s < 2 ^ 32 - 2 -> base_level s + 2 > m_level s ->
     should_restart s = false) /\
  (forall can_decide should_gc,
     check_sat_action can_decide should_gc s = a_restart ->
     should_restart s = true /\
     u32 (base_level s + 2) <= m_level s /\
     m_restart_threshold s <=
       u32 (m_num_conflicts s - m_conflicts_at_restart s)) /\
  m_luby_idx (restart get_luby s) = u32 (m_luby_idx s + 1) /\
  m_restart_threshold (restart get_luby s) =
    u32 (m_restart_init s * get_luby (u32 (m_luby_idx s + 1))) /\
  m_conflicts_at_restart (restart get_luby s) = m_num_conflicts s /\
  m_num_restarts (restart get_luby s) = u32 (m_num_restarts s + 1).
Proof.
  assert (H1 : u32 (base_level s + 2) > m_level s -> should_restart s = false).
  { intros H. unfold should_restart.
    destruct (_ <? _); [reflexivity|].
    replace (u32 (base_level s + 2) >? m_level s) with true; [reflexivity|].
    symmetry. apply Z.gtb_lt. lia. }
  split; [exact H1|]. split.
  { intros Hb H. apply H1. rewrite u32_small; lia. }
  split.
  { intros can_decide should_gc. unfold check_sat_action, should_simplify.
    destruct (is_conflict s && at_base_level s); [discriminate|].
    destruct (is_conflict s); [discriminate|].
    destruct (can_propagate s); [discriminate|].
    destruct (negb can_decide); [discriminate|].
    destruct should_gc; [discriminate|].
    destruct (should_restart s) eqn:E; [|discriminate].
    intros _. split; [reflexivity|]. unfold should_restart in E.
    destruct (Z.ltb_spec (u32 (m_num_conflicts s - m_conflicts_at_restart s))
                (m_restart_threshold s)); [discriminate|].
    destruct (u32 (base_level s + 2) >? m_level s) eqn:G; [discriminate|].
    rewrite Z.gtb_ltb in G. apply Z.ltb_ge in G. lia. }
  unfold restart. cbv zeta.
  set (s1 := set_m_num_restarts (u32 (m_num_restarts s + 1)) s).
  pose proof (pop_levels_counters (u32 (m_level s1 - base_level s1)) s1) as H.
  set (s2 := pop_levels (u32 (m_level s1 - base_level s1)) s1) in *.
  clearbody s2. destruct H as [A [B [C [D [E [F G]]]]]].
  simpl in *. rewrite A, B, E, F. repeat split.
Qed.

End Restarts.

(** One level above the base level, threshold reached: no restart. *)
Definition restart_state : solver :=
  mk_solver (viable.mk [] 0 [] [] [] []) (viable_fallback.mk [])
    conflict_empty [] [] [] [] [] [] [] [] 0 1 [inc_level_i] [] []
    10 0 0 5 100 0.

Lemma should_restart_suppressed_witness :
  Solver.should_restart restart_state = false /\
  m_restart_threshold (Solver.restart (fun i => 2 * i) restart_state) = 200.
Proof.
  split.
  - apply (proj1 (should_restart_suppressed (fun i => 2 * i) restart_state)).
    vm_compute. reflexivity.
  - vm_compute. reflexivity.
Defined.

(** ** Scopes: [push] and [pop] *)

Section Scopes.
Import Solver.

(** A solver with one variable [x] of width 4 and two constraints on it:
    constraint 0 is [x < 4], which forbids [4, 0) for [x], and constraint 1
    is [x >= 4], which forbids [0, 4). *)
Definition scope_interval (c : signed_constraint) (v : pvar) (s : solver)
  : option entry :=
  match bvar c with
  | O => Some (mk_entry 0 [c] [] 1
                 (eval_interval.proper (mk_val 4) 4 (mk_val 0) 0) 4 false 0)
  | S O => Some (mk_entry 0 [c] [] 1
                   (eval_interval.proper (mk_val 0) 0 (mk_val 4) 4) 4 false 0)
  | _ => None
  end.

Definition scope_narrow (c : signed_constraint) (s : solver) : solver :=
  snd (viable_intersect scope_interval 0%nat c s).

Definition scope_watch (c : signed_constraint) (v : pvar) (s : solver)
  : bool * solver := (false, s).

Definition scope_false (c : signed_constraint) (s : solver) : bool := false.

Definition scope_init : solver :=
  add_var 4
    (mk_solver (viable.mk [] 0 [] [] [] []) (viable_fallback.mk [])
       conflict_empty
       [mk_bool_info l_undef 0 b_unassigned; mk_bool_info l_undef 0 b_unassigned]
       [mk_constraint [0%nat] false; mk_constraint [0%nat] false]
       [] [] [] [] [] [] 0 0 [] [] [] 0 0 0 0 0 0).

Definition assert_and_propagate (c : signed_constraint) (s : solver) : solver :=
  propagate scope_narrow scope_watch 10 (assign_eh scope_false c s).

Definition probe (val : Z) (s : solver) : bool :=
  fst (Viable.is_viable no_bits 0%nat val s).

Definition x_lt_4 : signed_constraint := mk_sc 0 true.
Definition x_ge_4 : signed_constraint := mk_sc 1 true.

(** [push(); assert x < 4; push(); pop(1); pop(1)] *)
Definition nested_scopes : solver :=
  pop 1 (pop 1 (push (assert_and_propagate x_lt_4 (push scope_init)))).

(** [push(); assert x < 4; pop(1)] *)
Definition single_scope : solver :=
  pop 1 (assert_and_propagate x_lt_4 (push scope_init)).

(** C7.  Popping a single scope restores the viable values of [x], and
    after it [x >= 4] leaves the values from 4 on, [find_viable] answering 4;
    but [pop] never shrinks [m_base_levels]: with two nested scopes the
    second [pop(1)] reads the level of the inner scope, pops no level, and
    the interval of [x < 4], asserted in the outer scope, stays. *)
Theorem pop_nested_scopes_keeps_constraint :
  map (fun val => probe val scope_init) [0; 3; 4; 5; 15]
    = [true; true; true; true; true] /\
  map (fun val => probe val single_scope) [0; 3; 4; 5; 15]
    = [true; true; true; true; true] /\
  map (fun val => probe val (assert_and_propagate x_ge_4 single_scope))
    [0; 3; 4; 5; 15] = [false; false; true; true; true] /\
  fst (Viable.find_viable us_unsat us_zero us_none us_none no_bits 0%nat 0
         (assert_and_propagate x_ge_4 single_scope)) = (Viable.multiple, 4) /\
  map (fun val => probe val nested_scopes) [0; 3; 4; 5; 15]
    = [true; true; false; false; false] /\
  m_level nested_scopes = 1 /\
  m_base_levels nested_scopes = [1; 2] /\
  m_base_levels single_scope = [1].
Proof. vm_compute. repeat split; reflexivity. Qed.

End Scopes.

(** ** Watch lists *)

Section Watches.
Import Solver.
Local Open Scope nat_scope.

Lemma fold_left_count (f : list signed_constraint -> nat) (P : list (list signed_constraint)) :
  forall n, fold_left (fun n wlist => n + f wlist) P n = n + list_sum (map f P).
Proof.
  induction P as [|w P IH]; intros n; simpl; [lia|]. rewrite IH. lia.
Qed.

Lemma num_watches_sum s sc :
  num_watches s sc = list_sum (map (count_watch sc) (m_pwatch s)).
Proof. unfold num_watches. now rewrite fold_left_count. Qed.

Lemma count_watch_snoc sc l c :
  count_watch sc (l ++ [c]) = count_watch sc l + (if sc_eqb sc c then 1 else 0).
Proof.
  unfold count_watch. rewrite filter_app, length_app. simpl.
  destruct (sc_eqb sc c); reflexivity.
Qed.

(** The watch lists after [add_watch(c, v)]. *)
Lemma nth_add_watch (P : list (list signed_constraint)) v c i :
  nth i (set_nth v (nth v P [] ++ [c]) P) [] =
  if (i =? v) && (v <? length P) then nth v P [] ++ [c] else nth i P [].
Proof.
  destruct (Nat.eqb_spec i v) as [->|Hne]; simpl.
  - destruct (Nat.ltb_spec v (length P)).
    + now apply nth_set_nth_same.
    + rewrite !nth_overflow; auto. now rewrite length_set_nth.
  - apply nth_set_nth_other. auto.
Qed.

Lemma sum_add_watch sc c : forall (P : list (list signed_constraint)) v,
  v < length P ->
  list_sum (map (count_watch sc) (set_nth v (nth v P [] ++ [c]) P)) =
  list_sum (map (count_watch sc) P) + (if sc_eqb sc c then 1 else 0).
Proof.
  assert (G : forall (P : list (list signed_constraint)) v x, v < length P ->
            list_sum (map (count_watch sc) (set_nth v x P)) + count_watch sc (nth v P [])
            = list_sum (map (count_watch sc) P) + count_watch sc x).
  { induction P as [|w P IH]; intros v x Hv; [simpl in Hv; lia|].
    destruct v as [|v]; simpl; [lia|].
    simpl in Hv. specialize (IH v x ltac:(lia)). lia. }
  intros P v Hv. specialize (G P v (nth v P [] ++ [c]) Hv).
  rewrite count_watch_snoc in G. lia.
Qed.

Lemma count_le_sum sc (P : list (list signed_constraint)) w :
  In w P -> count_watch sc w <= list_sum (map (count_watch sc) P).
Proof.
  induction P as [|x P IH]; intros H; [destruct H|].
  simpl. destruct H as [->|H]; [lia|]. specialize (IH H). lia.
Qed.

Lemma sum_zero_nth sc (P : list (list signed_constraint)) i :
  list_sum (map (count_watch sc) P) = 0 -> count_watch sc (nth i P []) = 0.
Proof.
  intros H. destruct (Nat.lt_ge_cases i (length P)) as [Hi|Hi].
  - pose proof (@count_le_sum sc P (nth i P []) (nth_In P [] Hi)). lia.
  - now rewrite nth_overflow.
Qed.

Lemma sc_eqb_neq a b : a <> b -> sc_eqb a b = false.
Proof.
  intros H. apply not_true_iff_false. intros E. apply H. now apply sc_eqb_eq.
Qed.

(** [add_watch] puts a constraint that is watched nowhere on the lists of
    its first two variables. *)
Lemma add_watch_installs s c :
  num_watches s c = 0 ->
  (forall v, In v (firstn 2 (vars (cnstr s c))) -> v < length (m_pwatch s)) ->
  NoDup (firstn 2 (vars (cnstr s c))) ->
  num_watches (add_watch c s) c = Nat.min 2 (length (vars (cnstr s c))) /\
  (forall wlist, In wlist (m_pwatch (add_watch c s)) -> count_watch c wlist <= 1) /\
  (forall c', c' <> c -> num_watches (add_watch c s) c' = num_watches s c').
Proof.
  intros H0 Hr Hnd. rewrite num_watches_sum in H0.
  unfold add_watch. destruct (vars (cnstr s c)) as [|v0 [|v1 vs]] eqn:Ev.
  - split; [rewrite num_watches_sum; exact H0|]. split; [|reflexivity].
    intros w Hw. pose proof (@count_le_sum c _ w Hw). lia.
  - assert (Hv0 : v0 < length (m_pwatch s)) by (apply Hr; simpl; auto).
    assert (S1 : num_watches (add_watch_var c v0 s) c = 1).
    { rewrite num_watches_sum. unfold add_watch_var. simpl.
      rewrite sum_add_watch by exact Hv0. rewrite sc_eqb_refl. lia. }
    split; [exact S1|]. split.
    + intros w Hw. rewrite num_watches_sum in S1.
      pose proof (@count_le_sum c _ w Hw). lia.
    + intros c' Hc'. rewrite !num_watches_sum. unfold add_watch_var. simpl.
      rewrite sum_add_watch by exact Hv0. rewrite sc_eqb_neq by exact Hc'. lia.
  - assert (Hv0 : v0 < length (m_pwatch s)) by (apply Hr; simpl; auto).
    assert (Hv1 : v1 < length (m_pwatch s)) by (apply Hr; simpl; auto).
    assert (Hne : v0 <> v1).
    { simpl in Hnd. inversion Hnd as [|x xs Hnin _]; subst.
      intros ->. apply Hnin. now left. }
    unfold add_watch_var. simpl.
    set (P := m_pwatch s) in *.
    set (P1 := set_nth v0 (nth v0 P [] ++ [c]) P).
    assert (L1 : length P1 = length P) by apply length_set_nth.
    split.
    { rewrite num_watches_sum. simpl.
      rewrite sum_add_watch by lia. unfold P1.
      rewrite sum_add_watch by lia. rewrite sc_eqb_refl. simpl. lia. }
    split.
    { intros w Hw. simpl in Hw.
      destruct (In_nth _ _ [] Hw) as [i [Hi <-]].
      rewrite nth_add_watch. unfold P1 at 2. rewrite nth_add_watch.
      unfold P1 at 2. rewrite nth_add_watch.
      pose proof (@sum_zero_nth c P v1 H0) as Z1.
      pose proof (@sum_zero_nth c P v0 H0) as Z0.
      pose proof (@sum_zero_nth c P i H0) as Zi.
      destruct (Nat.eqb_spec i v1) as [->|N1]; simpl.
      - replace (v1 <? length P1) with true by (symmetry; apply Nat.ltb_lt; lia).
        replace (v1 =? v0) with false by (symmetry; apply Nat.eqb_neq; lia).
        simpl. rewrite count_watch_snoc, sc_eqb_refl. lia.
      - destruct (Nat.eqb_spec i v0) as [->|N0]; simpl.
        + replace (v0 <? length P) with true by (symmetry; apply Nat.ltb_lt; lia).
          rewrite count_watch_snoc, sc_eqb_refl. lia.
        + lia. }
    intros c' Hc'. rewrite !num_watches_sum. simpl.
    rewrite sum_add_watch by lia. unfold P1.
    rewrite sum_add_watch by lia. rewrite sc_eqb_neq by exact Hc'.
    subst P1 P. lia.
Qed.

(** [wlist_invariant] as a statement on the constraints. *)
Definition watched_ok (s : solver) (b : nat) (c : constraint) : Prop :=
  ~ In b (skip_set s) ->
  b_value (bvar_info s b) <> l_undef ->
  (forall wlist, In wlist (m_pwatch s) ->
     count_watch (mk_sc b (lbool_eqb (b_value (bvar_info s b)) l_true)) wlist <= 1) /\
  num_watches s (mk_sc b (lbool_eqb (b_value (bvar_info s b)) l_true))
    = Nat.min 2 (length (vars c)).

Lemma wlist_ok_iff s b c : wlist_ok s b c = true <-> watched_ok s b c.
Proof.
  unfold wlist_ok, watched_ok.
  destruct (existsb (Nat.eqb b) (skip_set s)) eqn:E.
  - split; [|reflexivity]. intros _ Hn. exfalso. apply Hn.
    apply existsb_exists in E. destruct E as [x [Hx Ex]].
    apply Nat.eqb_eq in Ex. now subst.
  - assert (Hn : ~ In b (skip_set s)).
    { intros Hin. apply not_true_iff_false in E. apply E.
      apply existsb_exists. exists b. split; [auto | apply Nat.eqb_refl]. }
    destruct (b_value (bvar_info s b)) eqn:V.
    + rewrite andb_true_iff, forallb_forall, Nat.eqb_eq. unfold expected_watches.
      split.
      * intros [H1 H2] _ _. split; [|exact H2].
        intros w Hw. apply Nat.leb_le. apply H1. exact Hw.
      * intros H. destruct (H Hn ltac:(discriminate)) as [H1 H2]. split; [|exact H2].
        intros w Hw. apply Nat.leb_le. apply H1. exact Hw.
    + split; [intros _ _ C; now elim C | reflexivity].
    + rewrite andb_true_iff, forallb_forall, Nat.eqb_eq. unfold expected_watches.
      split.
      * intros [H1 H2] _ _. split; [|exact H2].
        intros w Hw. apply Nat.leb_le. apply H1. exact Hw.
      * intros H. destruct (H Hn ltac:(discriminate)) as [H1 H2]. split; [|exact H2].
        intros w Hw. apply Nat.leb_le. apply H1. exact Hw.
Qed.

Lemma wlist_invariant_from_iff s cs : forall k,
  wlist_invariant_from s k cs = true <->
  (forall i c, nth_error cs i = Some c -> watched_ok s (k + i) c).
Proof.
  induction cs as [|c cs IH]; intros k; simpl.
  - split; [intros _ i c H; destruct i; discriminate | reflexivity].
  - rewrite andb_true_iff, wlist_ok_iff, IH. split.
    + intros [H0 H] i c' Hi. destruct i as [|i]; simpl in Hi.
      * inversion Hi; subst. now rewrite Nat.add_0_r.
      * replace (k + S i) with (S k + i) by lia. now apply H.
    + intros H. split.
      * specialize (H 0 c eq_refl). now rewrite Nat.add_0_r in H.
      * intros i c' Hi. replace (S k + i) with (k + S i) by lia. now apply H.
Qed.


(** The variables of a constraint that are unassigned: what the count would
    run over if only free variables were watched. *)
Definition free_vars (s : solver) (c : constraint) : list pvar :=
  filter (fun v => negb (is_assigned s v)) (vars c).

(** The solver with [x < 4] asserted and propagated, then [x] decided and
    the decision propagated: nothing is pending, there is no conflict. *)
Definition quiescent_state : solver :=
  propagate scope_narrow scope_watch 10
    (pdecide us_unsat us_zero us_none us_none no_bits 0
       (assert_and_propagate x_lt_4 scope_init)).



End Watches.

(** ** The unit-interval list of a variable under insertion and undo *)

Section UnitList.
Import eval_interval Viable.

(** A unit-interval list with the entries of the undo trail that belong to
    it, oldest first: [t_add] for an inserted node ([viable_add_i]),
    [t_rem] for a removed one ([viable_rem_i]). *)
Inductive tag := t_add | t_rem.

Definition ring_state : Type := ring * list (tag * entry).

(** The operations on the list: [intersect] with a node that is not linked
    (it comes from [alloc_entry]), which inserts it or drops it after
    removing the nodes it contains, and the undo of the last trail entry,
    [pop_viable] for an insertion and [push_viable] for a removal. *)
Inductive ring_step : ring_state -> ring_state -> Prop :=
| rs_inserted l tr ne l' removed :
    ~ In (eid ne) (ids l) ->
    intersect_ring l ne = i_inserted l' removed ->
    ring_step (l, tr)
      (l', tr ++ map (pair t_rem) removed ++ [(t_add, dll_base.init ne)])
| rs_dropped l tr ne l' removed :
    intersect_ring l ne = i_dropped l' removed ->
    ring_step (l, tr) (l', tr ++ map (pair t_rem) removed)
| rs_pop l tr e :
    ring_step (l, tr ++ [(t_add, e)]) (dll_base.remove_from l e, tr)
| rs_push l tr e :
    ring_step (l, tr ++ [(t_rem, e)]) (push_viable_ring l e, tr).

Inductive ring_reachable : ring_state -> Prop :=
| rr_init : ring_reachable ([], [])
| rr_step st st' : ring_reachable st -> ring_step st st' -> ring_reachable st'.

Definition good (l : ring) : Prop := ring_inv l /\ ring_ok l.

(** Undoing the trail, last entry first, leads through good lists only. *)
Fixpoint hist (undo : list (tag * entry)) (l : ring) : Prop :=
  match undo with
  | [] => True
  | (t_add, e) :: r =>
      good (dll_base.remove_from l e) /\ hist r (dll_base.remove_from l e)
  | (t_rem, e) :: r =>
      good (push_viable_ring l e) /\ hist r (push_viable_ring l e)
  end.

Definition ring_invariant (st : ring_state) : Prop :=
  good (fst st) /\ hist (rev (snd st)) (fst st).

Lemma hist_restore l removed l' :
  removal_chain l removed l' ->
  forall R, ring_inv l -> proper_ok l -> hist R l ->
  hist (rev (map (pair t_rem) removed) ++ R) l'.
Proof.
  induction 1 as [l|a e b rest l' _ IH]; intros R Hi Ho Hh; [exact Hh|].
  simpl map. simpl rev. rewrite <- app_assoc. simpl app.
  apply IH.
  - eapply ring_inv_remove; eauto.
  - eapply proper_ok_remove; eauto.
  - simpl. rewrite push_viable_ring_restores by assumption.
    split; [|exact Hh]. split; [exact Hi | now apply proper_ok_ring_ok].
Qed.

Lemma remove_from_middle a e b :
  ~ In (eid e) (ids a) -> dll_base.remove_from (a ++ e :: b) e = a ++ b.
Proof.
  intros H. unfold dll_base.remove_from.
  destruct (a ++ e :: b) as [|x [|y r]] eqn:E.
  - destruct a; discriminate.
  - destruct a as [|x' a']; simpl in E.
    + inversion E; subst. reflexivity.
    + exfalso. inversion E as [[E1 E2]]. destruct a'; discriminate.
  - rewrite <- E. now apply remove_middle.
Qed.

Lemma ring_inv_insert a ne b :
  ring_inv (a ++ b) -> ~ In (eid ne) (ids (a ++ b)) ->
  ring_inv (a ++ dll_base.init ne :: b).
Proof.
  intros [Hn Hf] Hfresh. split.
  - unfold ids in *. rewrite map_app in *. simpl.
    apply NoDup_Add with (a := eid ne) (l := map eid a ++ map eid b).
    + apply Add_app.
    + split; assumption.
  - rewrite Forall_app in *. destruct Hf as [H1 H2]. split; [assumption|].
    constructor; [reflexivity | assumption].
Qed.

Lemma removal_chain_nil removed l' :
  removal_chain [] removed l' -> removed = [] /\ l' = [].
Proof.
  intros H. inversion H as [l E1 E2 | a e b rest l0 Hc E1 E2 E3]; subst.
  - auto.
  - destruct a; discriminate.
Qed.

Lemma ring_step_invariant st st' :
  ring_step st st' -> ring_invariant st -> ring_invariant st'.
Proof.
  intros Hs. destruct Hs as [l tr ne l' removed Hfresh Hi | l tr ne l' removed Hi
                            | l tr e | l tr e];
    unfold ring_invariant; simpl; intros [[Hinv Hok] Hh].
  - pose proof (intersect_ring_ok ne Hok) as Hok'.
    pose proof (intersect_ring_chain l ne) as Hch.
    rewrite Hi in Hok', Hch. destruct Hch as (a & b & Hch & ->).
    assert (Hsub : forall x, In x (ids (a ++ b)) -> In x (ids l))
      by (eapply removal_chain_ids; eauto).
    assert (Hab : ring_inv (a ++ b) /\ ring_ok (a ++ b) /\
                  hist (rev (map (pair t_rem) removed) ++ rev tr) (a ++ b)).
    { destruct l as [|e0 l0].
      - destruct (removal_chain_nil Hch) as [-> E]. rewrite E.
        repeat split; auto; constructor.
      - unfold intersect_ring in Hi.
        destruct (is_full (interval e0)) eqn:F0; [discriminate|].
        pose proof (ring_ok_proper Hok F0) as Hp.
        destruct (removal_chain_ok Hch Hinv Hp) as [I1 P1].
        split; [exact I1|]. split; [now apply proper_ok_ring_ok|].
        now apply hist_restore with (l := e0 :: l0). }
    destruct Hab as [I1 [O1 H1]].
    assert (Hfr : ~ In (eid ne) (ids (a ++ b))) by (intros C; apply Hfresh; auto).
    split.
    + split; [now apply ring_inv_insert | exact Hok'].
    + rewrite !rev_app_distr. simpl rev. simpl app.
      assert (Hrm : dll_base.remove_from (a ++ dll_base.init ne :: b)
                      (dll_base.init ne) = a ++ b).
      { apply remove_from_middle. simpl. intros C. apply Hfr.
        unfold ids in *. rewrite map_app. apply in_or_app. now left. }
      simpl. rewrite Hrm. split; [split; assumption | exact H1].
  - pose proof (intersect_ring_ok ne Hok) as Hok'.
    pose proof (intersect_ring_chain l ne) as Hch.
    rewrite Hi in Hok', Hch.
    destruct l as [|e0 l0].
    + destruct (removal_chain_nil Hch) as [-> ->].
      simpl. rewrite app_nil_r. repeat split; auto; constructor.
    + unfold intersect_ring in Hi.
      destruct (is_full (interval e0)) eqn:F0.
      * inversion Hi; subst. simpl. rewrite app_nil_r.
        split; [split; assumption | assumption].
      * pose proof (ring_ok_proper Hok F0) as Hp.
        destruct (removal_chain_ok Hch Hinv Hp) as [I1 P1].
        split; [split; assumption|].
        rewrite rev_app_distr. now apply hist_restore with (l := e0 :: l0).
  - rewrite rev_app_distr in Hh. simpl in Hh. exact Hh.
  - rewrite rev_app_distr in Hh. simpl in Hh. exact Hh.
Qed.

Lemma ring_reachable_invariant st : ring_reachable st -> ring_invariant st.
Proof.
  induction 1 as [|st st' _ IH Hs].
  - split; [split|exact I].
    + split; [constructor | constructor].
    + apply ring_ok_nil.
  - eapply ring_step_invariant; eauto.
Qed.

(** What [ring_ok] says, entry by entry. *)
Lemma ring_ok_explicit l :
  ring_ok l ->
  StronglySorted
    (fun a b => e_lo a < e_lo b /\ iv_contains a b = false /\ iv_contains b a = false)
    l /\
  Forall (fun e => is_currently_empty (interval e) = false) l /\
  (forall e, In e l -> is_full (interval e) = true -> l = [e]).
Proof.
  intros [(e & -> & F) | [HP HS]].
  - split; [repeat constructor|]. split.
    + constructor; [|constructor].
      unfold is_currently_empty, is_proper, interval.is_proper.
      unfold is_full in F. now rewrite F.
    + intros e' [<-|[]] _. reflexivity.
  - split; [|split].
    + induction HS as [|a l HS IH Ha]; [constructor|].
      inversion HP as [|x xs Pa Pl]; subst.
      constructor; [now apply IH|].
      rewrite Forall_forall in *. intros b Hb.
      destruct (Ha b Hb) as (Hlo & C1 & C2).
      destruct Pa as [Fa _]. destruct (Pl b Hb) as [Fb _].
      split; [exact Hlo|].
      split; apply iv_contains_false_iff; assumption.
    + rewrite Forall_forall in *. intros e He.
      apply proper_nonempty_not_empty. now apply HP.
    + intros e He F. rewrite Forall_forall in HP.
      destruct (HP e He) as [F' _]. congruence.
Qed.

(** C5.  In every state a unit-interval list reaches from the empty list by
    [intersect] (with a node that is not linked) and by the undo of its
    trail entries ([pop_viable] for an insertion, [push_viable] for a
    removal), [well_formed] holds of the list: from the head on, every entry
    has a strictly smaller lower bound than the entries after it and neither
    of two entries contains the other; no entry is currently empty; and a
    full entry is the only entry. *)
Theorem unit_list_well_formed (st : ring_state) :
  ring_reachable st ->
  well_formed (fst st) = true /\
  StronglySorted
    (fun a b => e_lo a < e_lo b /\ iv_contains a b = false /\ iv_contains b a = false)
    (fst st) /\
  Forall (fun e => is_currently_empty (interval e) = false) (fst st) /\
  (forall e, In e (fst st) -> is_full (interval e) = true -> fst st = [e]).
Proof.
  intros H. destruct (ring_reachable_invariant H) as [[_ Hok] _].
  split; [now apply well_formed_iff_ring_ok | now apply ring_ok_explicit].
Qed.

End UnitList.

(** A list that takes [2, 5), then [1, 7), which replaces it, and is then
    undone twice. *)
Definition unit_entry (id : nat) (l h : Z) : entry :=
  mk_entry id [] [] 1 (eval_interval.proper (mk_val l) l (mk_val h) h) 4 false id.

Lemma unit_list_example_reachable :
  ring_reachable ([unit_entry 0 2 5], [(t_add, unit_entry 0 2 5)]).
Proof.
  assert (R1 : ring_reachable ([unit_entry 0 2 5], [(t_add, unit_entry 0 2 5)])).
  { apply (@rr_step ([], []) _ rr_init).
    apply (@rs_inserted [] [] (unit_entry 0 2 5) [unit_entry 0 2 5] []);
      [intros [] | reflexivity]. }
  assert (R2 : ring_reachable
                 ([unit_entry 1 1 7],
                  [(t_add, unit_entry 0 2 5); (t_rem, unit_entry 0 2 5);
                   (t_add, unit_entry 1 1 7)])).
  { apply (@rr_step _ _ R1).
    apply (@rs_inserted [unit_entry 0 2 5] [(t_add, unit_entry 0 2 5)]
             (unit_entry 1 1 7) [unit_entry 1 1 7] [unit_entry 0 2 5]);
      [simpl; intros [C|[]]; discriminate | reflexivity]. }
  assert (R3 : ring_reachable
                 ([], [(t_add, unit_entry 0 2 5); (t_rem, unit_entry 0 2 5)])).
  { apply (@rr_step _ _ R2).
    apply (@rs_pop [unit_entry 1 1 7]
             [(t_add, unit_entry 0 2 5); (t_rem, unit_entry 0 2 5)]
             (unit_entry 1 1 7)). }
  apply (@rr_step _ _ R3).
  apply (@rs_push [] [(t_add, unit_entry 0 2 5)] (unit_entry 0 2 5)).
Qed.

Lemma unit_list_well_formed_witness :
  Viable.well_formed [unit_entry 0 2 5] = true /\
  Forall (fun e => eval_interval.is_currently_empty (interval e) = false)
    [unit_entry 0 2 5].
Proof.
  destruct (@unit_list_well_formed _ unit_list_example_reachable)
    as [W [_ [E _]]].
  split; [exact W | exact E].
Defined.

(** ** Queries on a well-formed unit-interval list *)

Section ForbiddenValues.
Import eval_interval Viable.

(** A value is forbidden by a list when an entry contains it. *)
Definition forbidden (l : ring) (x : Z) : bool :=
  existsb (fun e => contains_val e x) l.

(** Membership in a proper interval, as a linear condition. *)
Definition Cov (e : entry) (x : Z) : Prop :=
  (e_lo e <= e_hi e /\ e_lo e <= x < e_hi e) \/
  (e_hi e < e_lo e /\ (x < e_hi e \/ e_lo e <= x)).

Lemma contains_val_Cov e x :
  is_full (interval e) = false -> (contains_val e x = true <-> Cov e x).
Proof.
  intros F. unfold contains_val. rewrite currently_contains_spec.
  unfold In_interval, Cov, e_lo, e_hi. rewrite F.
  intuition (try discriminate; lia).
Qed.

Lemma contains_val_not_Cov e x :
  is_full (interval e) = false -> (contains_val e x = false <-> ~ Cov e x).
Proof.
  intros F. rewrite <- (@contains_val_Cov e x F).
  destruct (contains_val e x); split; intros; congruence.
Qed.

Lemma forbidden_false l x :
  forbidden l x = false <-> forall e, In e l -> contains_val e x = false.
Proof.
  unfold forbidden. split.
  - intros H e He. destruct (contains_val e x) eqn:E; [|reflexivity].
    assert (existsb (fun e => contains_val e x) l = true)
      by (apply existsb_exists; eauto). congruence.
  - intros H. apply not_true_iff_false. intros C.
    apply existsb_exists in C. destruct C as [e [He Ce]].
    rewrite (H e He) in Ce. discriminate.
Qed.

(** What two entries in list order know of each other: entries that wrap
    around come last, and upper bounds ascend among the entries that wrap and
    among those that do not. *)
Definition ok_facts (a b : entry) : Prop :=
  e_lo a < e_lo b /\
  (e_hi a < e_lo a -> e_hi b < e_lo b /\ e_hi a < e_hi b) /\
  (e_lo a < e_hi a -> e_lo b < e_hi b -> e_hi a < e_hi b) /\
  (e_lo a < e_hi a -> e_hi b < e_lo b -> e_hi b < e_hi a).

Lemma ok_pair_facts a b :
  proper_nonempty a -> proper_nonempty b -> ok_pair a b -> ok_facts a b.
Proof.
  unfold ok_pair, ok_facts, Contains, proper_nonempty.
  intros [_ Ha] [_ Hb] (H1 & H2 & H3).
  destruct (Z_lt_ge_dec (e_lo a) (e_hi a)); destruct (Z_lt_ge_dec (e_lo b) (e_hi b));
    repeat split; intros; try lia.
Qed.

(** *** The scan of [is_viable] *)

Lemma walk_found init x :
  is_viable_walk init x = false -> exists e, In e init /\ contains_val e x = true.
Proof.
  induction init as [|e r IH]; simpl; [discriminate|].
  destruct (contains_val e x) eqn:C; [intros _; exists e; auto|].
  destruct (x <? e_lo e); [discriminate|].
  intros H. destruct (IH H) as [e' [He' Ce']]. exists e'. auto.
Qed.

Lemma walk_complete last x : forall init,
  proper_ok (init ++ [last]) ->
  contains_val last x = false ->
  is_viable_walk init x = true ->
  forall e, In e init -> contains_val e x = false.
Proof.
  induction init as [|e r IH]; intros Hok Hl Hw e' He'; [destruct He'|].
  destruct Hok as [HP HS]. simpl in HP, HS.
  inversion HP as [|? ? Pe Pr]; subst. inversion HS as [|? ? Sr He]; subst.
  simpl in Hw. destruct (contains_val e x) eqn:C; [discriminate|].
  assert (Plast : proper_nonempty last).
  { rewrite Forall_app in Pr. destruct Pr as [_ Pr]. now inversion Pr. }
  rewrite Forall_forall in He, Pr.
  destruct He' as [<-|He']; [exact C|].
  destruct (Z.ltb_spec x (e_lo e)) as [Hlt|Hge].
  - assert (Hel : ok_pair e last) by (apply He, in_or_app; right; now left).
    assert (He1 : ok_pair e e') by (apply He, in_or_app; now left).
    assert (Pe' : proper_nonempty e') by (apply Pr, in_or_app; now left).
    assert (He'l : ok_pair e' last).
    { apply StronglySorted_app_inv in Sr. destruct Sr as (_ & _ & Hx).
      apply Hx; [exact He' | now left]. }
    apply contains_val_not_Cov; [apply Pe'|].
    apply contains_val_not_Cov in Hl; [|apply Plast].
    apply contains_val_not_Cov in C; [|apply Pe].
    apply ok_pair_facts in Hel, He1, He'l; auto.
    clear - Hel He1 He'l Pe Pe' Plast Hl C Hlt.
    unfold ok_facts, Cov, proper_nonempty in *. lia.
  - apply IH; auto. split; [apply Forall_forall; exact Pr | exact Sr].
Qed.

(** *** The walk of [query_find] *)

(** A walk that never breaks, and whose last upper bound is again in the
    head, leaves no value out: every step moves the current value up to the
    upper bound of an entry, and only a wrapping entry can take it from
    above [x] to below [x]. *)
Lemma step_below e c x :
  contains_val e c = true -> contains_val e x = false -> c <= x ->
  c < e_hi e <= x.
Proof.
  unfold contains_val. rewrite !currently_contains_spec.
  intros Hc Hx. assert (Nx : ~ In_interval (interval e) x) by (intros C; rewrite <- currently_contains_spec in C; congruence).
  revert Hc Nx. unfold In_interval, e_hi.
  destruct (is_full (interval e)); intros; lia.
Qed.

Lemma step_above e c x :
  contains_val e c = true -> contains_val e x = false -> x < c ->
  (c < e_hi e /\ x < e_hi e) \/ e_hi e <= x.
Proof.
  unfold contains_val. rewrite !currently_contains_spec.
  intros Hc Hx. assert (Nx : ~ In_interval (interval e) x) by (intros C; rewrite <- currently_contains_spec in C; congruence).
  revert Hc Nx. unfold In_interval, e_hi.
  destruct (is_full (interval e)); intros; lia.
Qed.

Lemma walk_below x : forall l c c',
  (forall e, In e l -> contains_val e x = false) ->
  walk_lo l c = (c', None) -> c <= x -> c <= c' <= x.
Proof.
  induction l as [|e r IH]; simpl; intros c c' Hx Hw Hc.
  - inversion Hw; subst. lia.
  - destruct (contains_val e c) eqn:C; simpl in Hw; [|discriminate].
    pose proof (@step_below e c x C (Hx e (or_introl eq_refl)) Hc).
    assert (e_hi e <= c' <= x) by (apply IH; auto; lia). lia.
Qed.

Lemma walk_above x : forall l c c',
  (forall e, In e l -> contains_val e x = false) ->
  walk_lo l c = (c', None) -> x < c -> c <= c' \/ c' <= x.
Proof.
  induction l as [|e r IH]; simpl; intros c c' Hx Hw Hc.
  - inversion Hw; subst. lia.
  - destruct (contains_val e c) eqn:C; simpl in Hw; [|discriminate].
    destruct (@step_above e c x C (Hx e (or_introl eq_refl)) Hc) as [[H1 H2]|H1].
    + assert (e_hi e <= c' \/ c' <= x) by (apply IH; auto). lia.
    + assert (e_hi e <= c' <= x) by (apply (@walk_below x r); auto). lia.
Qed.

Lemma walk_around_covers first r c0 c x :
  walk_lo (first :: r) c0 = (c, None) ->
  contains_val first c = true ->
  forbidden (first :: r) x = true.
Proof.
  intros Hw Hc. destruct (forbidden (first :: r) x) eqn:F; [reflexivity|].
  exfalso. rewrite forbidden_false in F.
  simpl in Hw. destruct (contains_val first c0) eqn:C0; simpl in Hw; [|discriminate].
  assert (Fx : contains_val first x = false) by (apply F; now left).
  assert (Fr : forall e, In e r -> contains_val e x = false)
    by (intros; apply F; now right).
  destruct (Z_le_gt_dec (e_hi first) x) as [L|R].
  - pose proof (@walk_below x r _ _ Fr Hw L).
    pose proof (@step_below first c x Hc Fx ltac:(lia)). lia.
  - destruct (@walk_above x r _ _ Fr Hw ltac:(lia)) as [H|H].
    + destruct (@step_above first c x Hc Fx ltac:(lia)); lia.
    + pose proof (@step_below first c x Hc Fx H). lia.
Qed.

(** Where the walk breaks. *)
Lemma walk_break : forall l c c' e,
  walk_lo l c = (c', Some e) ->
  contains_val e c' = false /\
  exists pre post, l = pre ++ e :: post /\
    c' = match rev pre with [] => c | p :: _ => e_hi p end.
Proof.
  induction l as [|a r IH]; simpl; intros c c' e Hw; [discriminate|].
  destruct (contains_val a c) eqn:C; simpl in Hw.
  - destruct (IH _ _ _ Hw) as [H1 (pre & post & -> & H2)].
    split; [exact H1|]. exists (a :: pre), post. split; [reflexivity|].
    simpl. destruct (rev pre) as [|p q] eqn:E; simpl; [|exact H2].
    exact H2.
  - inversion Hw; subst. split; [exact C|]. exists [], r. auto.
Qed.

Lemma walk_none : forall l c c',
  walk_lo l c = (c', None) -> c' = match rev l with [] => c | p :: _ => e_hi p end.
Proof.
  induction l as [|a r IH]; simpl; intros c c' Hw; [now inversion Hw|].
  destruct (contains_val a c) eqn:C; simpl in Hw; [|discriminate].
  rewrite (IH _ _ Hw). destruct (rev r); reflexivity.
Qed.

(** *** Values that no entry of a well-formed list contains *)

Definition nonneg (l : ring) : Prop :=
  Forall (fun e => 0 <= e_lo e /\ 0 <= e_hi e) l.

Lemma proper_ok_In l e : proper_ok l -> In e l -> proper_nonempty e.
Proof. intros [HP _] He. rewrite Forall_forall in HP. auto. Qed.

Lemma ok_pair_split a x b y c :
  proper_ok (a ++ x :: b ++ y :: c) -> ok_pair x y.
Proof.
  intros [_ HS]. apply StronglySorted_app_inv in HS. destruct HS as (_ & HS & _).
  inversion HS as [|? ? _ Hx]; subst. rewrite Forall_forall in Hx.
  apply Hx, in_or_app. right. now left.
Qed.

Lemma ok_pair_head a r e : proper_ok (a :: r) -> In e r -> ok_pair a e.
Proof.
  intros H He. apply in_split in He. destruct He as (b & c & ->).
  exact (@ok_pair_split [] a b e c H).
Qed.

Lemma ok_pair_last init z e : proper_ok (init ++ [z]) -> In e init -> ok_pair e z.
Proof.
  intros H He. apply in_split in He. destruct He as (b & c & ->).
  rewrite <- app_assoc in H. exact (@ok_pair_split b e c z [] H).
Qed.

Lemma snoc_cases {A} (l : list A) : l = [] \/ exists init z, l = init ++ [z].
Proof. destruct l using rev_ind; [now left | right; eauto]. Qed.

Ltac ring_lia :=
  repeat match goal with
  | H : ok_pair ?a ?b |- _ => apply ok_pair_facts in H; [|assumption|assumption]
  end;
  repeat match goal with
  | H : proper_ok _ |- _ => clear H
  | H : In _ _ |- _ => clear H
  | H : nonneg _ |- _ => clear H
  | H : forall _, _ |- _ => clear H
  end;
  unfold ok_facts, Cov, proper_nonempty in *; lia.

(** The upper bound of the last entry, when the head does not contain it. *)
Lemma last_hi_free first r :
  proper_ok (first :: r) ->
  contains_val first (e_hi (last r first)) = false ->
  forbidden (first :: r) (e_hi (last r first)) = false.
Proof.
  intros Hok Hf. apply forbidden_false. intros e He.
  destruct (snoc_cases r) as [->|(init & z & ->)].
  - destruct He as [<-|[]]. exact Hf.
  - rewrite last_last in *.
    assert (Pf : proper_nonempty first) by (eapply proper_ok_In; [exact Hok|now left]).
    assert (Pz : proper_nonempty z)
      by (eapply proper_ok_In; [exact Hok|right; apply in_or_app; right; now left]).
    assert (Hfz : ok_pair first z)
      by (eapply ok_pair_head; [exact Hok|apply in_or_app; right; now left]).
    apply contains_val_not_Cov in Hf; [|apply Pf].
    destruct He as [<-|He]; [apply contains_val_not_Cov; [apply Pf|exact Hf]|].
    apply in_app_or in He. destruct He as [He|[<-|[]]].
    + assert (Pe : proper_nonempty e)
        by (eapply proper_ok_In; [exact Hok|right; apply in_or_app; now left]).
      assert (Hfe : ok_pair first e)
        by (eapply ok_pair_head; [exact Hok|apply in_or_app; now left]).
      assert (Hez : ok_pair e z).
      { apply (@ok_pair_last init z e); [|exact He].
        destruct Hok as [HP HS]. inversion HP; inversion HS; subst. split; auto. }
      apply contains_val_not_Cov; [apply Pe|]. ring_lia.
    + apply contains_val_not_Cov; [apply Pz|]. ring_lia.
Qed.

(** Zero, when neither the head nor the last entry contains it. *)
Lemma zero_free first r :
  proper_ok (first :: r) -> nonneg (first :: r) ->
  contains_val first 0 = false ->
  contains_val (last r first) 0 = false ->
  forbidden (first :: r) 0 = false.
Proof.
  intros Hok Hn Hf Hl. apply forbidden_false. intros e He.
  destruct (snoc_cases r) as [->|(init & z & ->)].
  - destruct He as [<-|[]]. exact Hf.
  - rewrite last_last in *.
    assert (Pf : proper_nonempty first) by (eapply proper_ok_In; [exact Hok|now left]).
    assert (Pz : proper_nonempty z)
      by (eapply proper_ok_In; [exact Hok|right; apply in_or_app; right; now left]).
    destruct He as [<-|He]; [exact Hf|].
    apply in_app_or in He. destruct He as [He|[<-|[]]]; [|exact Hl].
    assert (Pe : proper_nonempty e)
      by (eapply proper_ok_In; [exact Hok|right; apply in_or_app; now left]).
    assert (Hfe : ok_pair first e)
      by (eapply ok_pair_head; [exact Hok|apply in_or_app; now left]).
    assert (Hez : ok_pair e z).
    { apply (@ok_pair_last init z e); [|exact He].
      destruct Hok as [HP HS]. inversion HP; inversion HS; subst. split; auto. }
    unfold nonneg in Hn. rewrite Forall_forall in Hn.
    assert (Nf := Hn first (or_introl eq_refl)).
    assert (Ne := Hn e ltac:(right; apply in_or_app; now left)).
    assert (Nz := Hn z ltac:(right; apply in_or_app; right; now left)).
    apply contains_val_not_Cov in Hf; [|apply Pf].
    apply contains_val_not_Cov in Hl; [|apply Pz].
    apply contains_val_not_Cov; [apply Pe|]. ring_lia.
Qed.

(** The upper bound of an entry that the next entry does not contain. *)
Lemma break_hi_free pre p e post :
  proper_ok (pre ++ p :: e :: post) ->
  contains_val e (e_hi p) = false ->
  forbidden (pre ++ p :: e :: post) (e_hi p) = false.
Proof.
  intros Hok Hc. apply forbidden_false. intros x Hx.
  assert (Pp : proper_nonempty p)
    by (eapply proper_ok_In; [exact Hok|apply in_or_app; right; now left]).
  assert (Pe : proper_nonempty e)
    by (eapply proper_ok_In; [exact Hok|apply in_or_app; right; right; now left]).
  assert (Px : proper_nonempty x) by (eapply proper_ok_In; eauto).
  assert (Hpe : ok_pair p e) by exact (@ok_pair_split pre p [] e post Hok).
  apply contains_val_not_Cov in Hc; [|apply Pe].
  apply contains_val_not_Cov; [apply Px|].
  apply in_app_or in Hx. destruct Hx as [Hx|[<-|[<-|Hx]]].
  - apply in_split in Hx. destruct Hx as (a & b & ->).
    rewrite <- app_assoc in Hok. simpl in Hok.
    assert (H1 : ok_pair x p) by exact (@ok_pair_split a x b p (e :: post) Hok).
    assert (H2 : ok_pair x e) by exact (@ok_pair_split a x (b ++ [p]) e post
      ltac:(rewrite <- app_assoc; exact Hok)).
    ring_lia.
  - ring_lia.
  - exact Hc.
  - apply in_split in Hx. destruct Hx as (a & b & ->).
    assert (H1 : ok_pair p x) by exact (@ok_pair_split pre p (e :: a) x b Hok).
    assert (H2 : ok_pair e x) by exact (@ok_pair_split (pre ++ [p]) e a x b
      ltac:(rewrite <- app_assoc; exact Hok)).
    ring_lia.
Qed.

(** The upper bound of a last entry that does not wrap around. *)
Lemma quick_hi_free first r :
  proper_ok (first :: r) ->
  e_lo (last r first) < e_hi (last r first) ->
  forbidden (first :: r) (e_hi (last r first)) = false.
Proof.
  intros Hok Hlt. apply forbidden_false. intros e He.
  assert (Pe : proper_nonempty e) by (eapply proper_ok_In; eauto).
  apply contains_val_not_Cov; [apply Pe|].
  destruct (snoc_cases r) as [->|(init & z & ->)].
  - destruct He as [<-|[]]. simpl in *. ring_lia.
  - rewrite last_last in *. rewrite app_comm_cons in Hok, He.
    apply in_app_or in He. destruct He as [He|[<-|[]]]; [|ring_lia].
    assert (Hez : ok_pair e z) by (eapply ok_pair_last; eauto).
    assert (Pz : proper_nonempty z)
      by (eapply proper_ok_In; [exact Hok|apply in_or_app; right; now left]).
    ring_lia.
Qed.

(** The bounds [query_find] arrives at before it refines: [None] when it
    reports a conflict. *)
Definition find_bounds (l : ring) (mx : Z) : option (Z * Z) :=
  match l with
  | [] => Some (0, mx)
  | first :: r =>
      if is_full (interval first) then None
      else
        let last := last r first in
        if (e_lo last <? e_hi last) && (e_hi last <? mx) then Some (e_hi last, mx)
        else
          let lo := if contains_val last 0 then e_hi last else 0 in
          let '(lo, brk) := walk_lo (first :: r) lo in
          let e := match brk with Some e => e | None => first end in
          if contains_val e lo then None
          else Some (lo, walk_hi (rev (first :: r)) mx)
  end.

Lemma rev_head_last {A} (first : A) r :
  exists q, rev (first :: r) = last r first :: q.
Proof.
  destruct (snoc_cases r) as [->|(init & z & ->)]; simpl.
  - exists []. reflexivity.
  - rewrite last_last, rev_app_distr. simpl. eauto.
Qed.

Lemma walk_free first r lo brk :
  proper_ok (first :: r) -> nonneg (first :: r) ->
  walk_lo (first :: r)
    (if contains_val (last r first) 0 then e_hi (last r first) else 0) = (lo, brk) ->
  contains_val (match brk with Some e => e | None => first end) lo = false ->
  forbidden (first :: r) lo = false.
Proof.
  intros Hok Hn Hw Hc. destruct brk as [e|].
  - destruct (walk_break _ _ Hw) as [_ (pre & post & El & Elo)].
    destruct (rev pre) as [|p q] eqn:Er.
    + assert (pre = []) by (rewrite <- (rev_involutive pre), Er; reflexivity).
      subst pre. simpl in El. inversion El; subst e post.
      destruct (contains_val (last r first) 0) eqn:C0; subst lo.
      * now apply last_hi_free.
      * now apply zero_free.
    + assert (pre = rev q ++ [p]) by (rewrite <- (rev_involutive pre), Er; reflexivity).
      subst pre lo. rewrite <- app_assoc in El. simpl in El. rewrite El in *.
      now apply break_hi_free.
  - pose proof (walk_none _ _ Hw) as Elo.
    destruct (rev_head_last first r) as [q Eq]. rewrite Eq in Elo. subst lo.
    now apply last_hi_free.
Qed.

Lemma find_bounds_free l mx lo hi :
  ring_ok l -> nonneg l -> find_bounds l mx = Some (lo, hi) ->
  forbidden l lo = false.
Proof.
  intros Hok Hn. destruct l as [|first r]; unfold find_bounds.
  - intros H. inversion H. reflexivity.
  - destruct (is_full (interval first)) eqn:F; [discriminate|].
    pose proof (ring_ok_proper Hok F) as Hp.
    destruct ((e_lo (last r first) <? e_hi (last r first)) &&
              (e_hi (last r first) <? mx)) eqn:Q.
    + intros H. inversion H; subst. apply andb_prop in Q. destruct Q as [Q _].
      apply Z.ltb_lt in Q. now apply quick_hi_free.
    + destruct (walk_lo (first :: r) (if contains_val (last r first) 0 then e_hi (last r first) else 0)) as [lo' brk] eqn:W.
      destruct (contains_val match brk with Some e => e | None => first end lo') eqn:C; [discriminate|].
      intros H. inversion H; subst. eapply walk_free; eauto.
Qed.

Lemma find_bounds_none l mx x :
  find_bounds l mx = None -> forbidden l x = true.
Proof.
  destruct l as [|first r]; unfold find_bounds; [discriminate|].
  destruct (is_full (interval first)) eqn:F.
  - intros _. apply existsb_exists. exists first. split; [now left|].
    apply currently_contains_spec. now left.
  - destruct ((e_lo (last r first) <? e_hi (last r first)) &&
              (e_hi (last r first) <? mx)); [discriminate|].
    destruct (walk_lo (first :: r) (if contains_val (last r first) 0 then e_hi (last r first) else 0)) as [lo' brk] eqn:W.
    destruct (contains_val match brk with Some e => e | None => first end lo') eqn:C; [|discriminate].
    intros _. destruct brk as [e|].
    + destruct (walk_break _ _ W) as [H _]. congruence.
    + exact (@walk_around_covers first r _ lo' x W C).
Qed.

(** The scan of [is_viable] finds exactly the forbidden values. *)
Lemma scan_forbidden first r x :
  ring_ok (first :: r) ->
  contains_val (last r first) x || negb (is_viable_walk (removelast (first :: r)) x)
  = forbidden (first :: r) x.
Proof.
  intros Hok.
  destruct (is_full (interval first)) eqn:F.
  - destruct Hok as [(e & He & Fe)|[HP _]].
    + inversion He; subst. simpl.
      assert (C : contains_val e x = true) by (apply currently_contains_spec; now left).
      now rewrite C.
    + inversion HP as [|? ? [P _] _]; subst. congruence.
  - pose proof (ring_ok_proper Hok F) as Hp.
    destruct (snoc_cases r) as [->|(init & z & ->)].
    + simpl. now rewrite !orb_false_r.
    + rewrite last_last. rewrite app_comm_cons, removelast_last.
      rewrite app_comm_cons in Hp.
      destruct (contains_val z x) eqn:Cz; cbn [orb].
      * symmetry. unfold forbidden. apply existsb_exists. exists z. split; [|exact Cz].
        right. apply in_or_app. right. now left.
      * destruct (is_viable_walk (first :: init) x) eqn:W; cbn [negb].
        -- symmetry. apply forbidden_false. intros e He.
           apply in_app_or in He.
           destruct He as [He|[<-|[]]]; [|exact Cz].
           exact (@walk_complete z x (first :: init) Hp Cz W e He).
        -- destruct (walk_found _ _ W) as (e & He & Ce). symmetry.
           unfold forbidden. apply existsb_exists. exists e. split; [|exact Ce].
           apply in_or_app. now left.
Qed.

End ForbiddenValues.

(** *** The layers of a variable *)

Section LayersOfVariable.
Import eval_interval Viable.
Local Open Scope nat_scope.

Ltac nat_cases :=
  repeat match goal with
         | |- context [?a =? ?b] => destruct (Nat.eqb_spec a b)
         | |- context [?a <? ?b] => destruct (Nat.ltb_spec a b)
         end.

Lemma get_entries_set ls bw r bw' :
  Layers.get_entries (Layers.set_entries ls bw r) bw' =
  if bw' =? bw then r else Layers.get_entries ls bw'.
Proof.
  unfold Layers.get_entries.
  induction ls as [|l ls IH]; simpl.
  - nat_cases; simpl; try reflexivity; lia.
  - destruct (Nat.eqb_spec (layer.bit_width l) bw) as [E|N]; simpl.
    + nat_cases; simpl; try reflexivity; lia.
    + destruct (Nat.ltb_spec (layer.bit_width l) bw); simpl.
      * nat_cases; simpl; try reflexivity; lia.
      * destruct (Nat.eqb_spec (layer.bit_width l) bw') as [E'|N'].
        { nat_cases; simpl; try reflexivity; lia. }
        exact IH.
Qed.

(** Layers are kept in descending bit-width. *)
Definition layers_sorted (ls : layers) : Prop :=
  StronglySorted (fun a b => layer.bit_width b < layer.bit_width a) ls.

Lemma get_layer_below ls bw :
  Forall (fun l => layer.bit_width l < bw) ls -> Layers.get_layer ls bw = None.
Proof.
  induction 1 as [|l ls Hl _ IH]; simpl; [reflexivity|].
  destruct (Nat.eqb_spec (layer.bit_width l) bw); [lia | exact IH].
Qed.

Lemma get_entries_ensure ls bw bw' :
  layers_sorted ls ->
  Layers.get_entries (Layers.ensure_layer ls bw) bw' = Layers.get_entries ls bw'.
Proof.
  unfold Layers.get_entries.
  induction 1 as [|l ls HS IH Hl]; simpl.
  - nat_cases; reflexivity.
  - destruct (Nat.eqb_spec (layer.bit_width l) bw) as [E|N]; [reflexivity|].
    destruct (Nat.ltb_spec (layer.bit_width l) bw); simpl.
    + destruct (Nat.eqb_spec bw bw') as [<-|N']; [|reflexivity].
      destruct (Nat.eqb_spec (layer.bit_width l) bw); [contradiction|].
      rewrite get_layer_below; [reflexivity|].
      eapply Forall_impl; [|exact Hl]. simpl. intros. lia.
    + destruct (layer.bit_width l =? bw'); [reflexivity | exact IH].
Qed.

Lemma Forall_ensure (P : layer.t -> Prop) ls bw :
  P (layer.mk bw []) -> Forall P ls -> Forall P (Layers.ensure_layer ls bw).
Proof.
  intros Hn. induction 1 as [|l ls Hl H IH]; simpl; [auto|].
  nat_cases; auto.
Qed.

Lemma Forall_set (P : layer.t -> Prop) ls bw r :
  P (layer.mk bw r) -> Forall P ls -> Forall P (Layers.set_entries ls bw r).
Proof.
  intros Hn. induction 1 as [|l ls Hl H IH]; simpl; [auto|].
  nat_cases; auto.
Qed.

Lemma ensure_layer_sorted ls bw :
  layers_sorted ls -> layers_sorted (Layers.ensure_layer ls bw).
Proof.
  induction 1 as [|l ls HS IH Hl]; simpl; [repeat constructor|].
  nat_cases.
  - now constructor.
  - constructor; [now constructor|].
    constructor; [simpl; lia|].
    eapply Forall_impl; [|exact Hl]. simpl. intros. lia.
  - constructor; [exact IH|].
    apply Forall_ensure; [simpl; lia | exact Hl].
Qed.

Lemma set_entries_sorted ls bw r :
  layers_sorted ls -> layers_sorted (Layers.set_entries ls bw r).
Proof.
  induction 1 as [|l ls HS IH Hl]; simpl; [repeat constructor|].
  nat_cases.
  - constructor; [exact HS|]. simpl. subst bw. exact Hl.
  - constructor; [now constructor|].
    constructor; [simpl; lia|].
    eapply Forall_impl; [|exact Hl]. simpl. intros. lia.
  - constructor; [exact IH|].
    apply Forall_set; [simpl; lia | exact Hl].
Qed.

End LayersOfVariable.

(** *** Refinement keeps the lists of a variable in order *)

Section RefineLists.
Import eval_interval Viable Numeral.

Definition equal_list (s : solver) (v : pvar) : ring :=
  nth v (viable.m_equal_lin (m_viable s)) [].
Definition diseq_list (s : solver) (v : pvar) : ring :=
  nth v (viable.m_diseq_lin (m_viable s)) [].

(** The non-unit entries of [v] are the same, whatever the list pointers
    designate. *)
Record same_constraints (v : pvar) (s s' : solver) : Prop :=
  { sc_size : m_size s' = m_size s;
    sc_equal : forall e, In e (equal_list s' v) <-> In e (equal_list s v);
    sc_diseq : forall e, In e (diseq_list s' v) <-> In e (diseq_list s v) }.

Definition same_units (s s' : solver) : Prop :=
  viable.m_units (m_viable s') = viable.m_units (m_viable s).

Lemma same_constraints_refl v s : same_constraints v s s.
Proof. split; intros; tauto. Qed.

Lemma same_constraints_trans v s1 s2 s3 :
  same_constraints v s1 s2 -> same_constraints v s2 s3 -> same_constraints v s1 s3.
Proof.
  intros [A1 B1 C1] [A2 B2 C2]. split.
  - congruence.
  - intros e. rewrite B2. apply B1.
  - intros e. rewrite C2. apply C1.
Qed.

Lemma same_size v s s' : m_size s' = m_size s -> size s' v = size s v.
Proof. unfold size. now intros ->. Qed.

Lemma same_unit_entries v s s' :
  m_size s' = m_size s -> same_units s s' -> unit_entries s' v = unit_entries s v.
Proof.
  unfold same_units, unit_entries, units_of, size. now intros -> ->.
Qed.

(** What a query relies on: the layers of [v] descend in bit-width, the unit
    list of its width is well-formed with bounds that are not negative, and
    the coefficients of its disequal-linear entries are modular values. *)
Record query_inv (v : pvar) (s : solver) : Prop :=
  { qi_sorted : layers_sorted (units_of (m_viable s) v);
    qi_ok : ring_ok (unit_entries s v);
    qi_nonneg : nonneg (unit_entries s v);
    qi_diseq : forall e, In e (diseq_list s v) ->
                 0 <= e_hi e /\ e_lo e < power_of_two (size s v) }.

Lemma query_inv_transfer v s s' :
  same_constraints v s s' -> same_units s s' -> query_inv v s -> query_inv v s'.
Proof.
  intros [A B C] U [H1 H2 H3 H4].
  pose proof (@same_unit_entries v s s' A U) as E.
  split.
  - unfold units_of. rewrite U. exact H1.
  - now rewrite E.
  - now rewrite E.
  - intros e He. rewrite (@same_size v s s' A). apply H4, C, He.
Qed.

Lemma removal_chain_incl l removed l' :
  removal_chain l removed l' -> forall x, In x l' -> In x l.
Proof.
  induction 1 as [|a e b rest l' _ IH]; intros x Hx; [assumption|].
  specialize (IH x Hx). apply in_app_or in IH. apply in_or_app.
  destruct IH; [now left | right; now right].
Qed.

Lemma nonneg_init e : 0 <= e_lo e /\ 0 <= e_hi e ->
  0 <= e_lo (dll_base.init e) /\ 0 <= e_hi (dll_base.init e).
Proof. destruct e. exact (fun H => H). Qed.

Lemma intersect_ring_nonneg l ne :
  nonneg l -> 0 <= e_lo ne /\ 0 <= e_hi ne ->
  match intersect_ring l ne with
  | i_dropped l' _ | i_inserted l' _ => nonneg l'
  | i_fuel => True
  end.
Proof.
  intros Hl Hn. pose proof (intersect_ring_chain l ne) as Hc.
  unfold nonneg in *. rewrite Forall_forall in Hl.
  destruct (intersect_ring l ne) as [l' rm|l' rm|]; [| |exact I].
  - apply Forall_forall. intros x Hx. apply Hl.
    eapply removal_chain_incl; eauto.
  - destruct Hc as (a & b & Hc & ->). apply Forall_forall. intros x Hx.
    apply in_app_or in Hx. destruct Hx as [Hx|[<-|Hx]].
    + apply Hl. eapply removal_chain_incl; eauto. apply in_or_app. now left.
    + now apply nonneg_init.
    + apply Hl. eapply removal_chain_incl; eauto. apply in_or_app. now right.
Qed.

(** [intersect] touches the unit lists only. *)
Lemma intersect_same_constraints v u ne s :
  same_constraints v s (snd (intersect u ne s)).
Proof.
  unfold intersect. destruct (intersect_ring _ ne); split; simpl; intros; tauto.
Qed.

Lemma units_of_set_layers v ls vb :
  units_of (set_layers v ls vb) v =
  if (v <? length (viable.m_units vb))%nat then ls else [].
Proof.
  unfold units_of, set_layers. simpl.
  destruct (Nat.ltb_spec v (length (viable.m_units vb))).
  - now apply nth_set_nth_same.
  - apply nth_overflow. now rewrite length_set_nth.
Qed.

Lemma intersect_units v ne s :
  layers_sorted (units_of (m_viable s) v) ->
  ring_ok (unit_entries s v) -> nonneg (unit_entries s v) ->
  0 <= e_lo ne /\ 0 <= e_hi ne ->
  let s' := snd (intersect v ne s) in
  layers_sorted (units_of (m_viable s') v) /\
  ring_ok (unit_entries s' v) /\ nonneg (unit_entries s' v).
Proof.
  intros Hs Hok Hn Hne.
  assert (Empty : forall x : solver, units_of (m_viable x) v = [] ->
            layers_sorted (units_of (m_viable x) v) /\
            ring_ok (unit_entries x v) /\ nonneg (unit_entries x v)).
  { intros x E. unfold unit_entries. rewrite E. split; [constructor|].
    split; [right; split; constructor | constructor]. }
  destruct (Nat.ltb_spec v (length (viable.m_units (m_viable s)))) as [Hv|Hv].
  2:{ simpl. apply Empty. unfold intersect.
      destruct (intersect_ring _ ne); simpl; unfold units_of; simpl;
        try (apply nth_overflow; rewrite ?length_set_nth; exact Hv). }
  pose proof (@intersect_ring_ok (unit_entries s v) ne Hok) as Rok.
  pose proof (@intersect_ring_nonneg (unit_entries s v) ne Hn Hne) as Rnn.
  set (ls := Layers.ensure_layer (units_of (m_viable s) v) (bit_width ne)).
  assert (Els : forall bw, Layers.get_entries ls bw
                 = Layers.get_entries (units_of (m_viable s) v) bw)
    by (intros; now apply get_entries_ensure).
  assert (Sls : layers_sorted ls) by now apply ensure_layer_sorted.
  assert (Key : forall l x,
    m_size x = m_size s ->
    units_of (m_viable x) v = Layers.set_entries ls (bit_width ne) l ->
    (bit_width ne = size s v -> ring_ok l /\ nonneg l) ->
    layers_sorted (units_of (m_viable x) v) /\
    ring_ok (unit_entries x v) /\ nonneg (unit_entries x v)).
  { intros l x Ex Eu Hl. split; [rewrite Eu; now apply set_entries_sorted|].
    unfold unit_entries. rewrite Eu, (@same_size v s x Ex), get_entries_set.
    destruct (Nat.eqb_spec (size s v) (bit_width ne)) as [E|N].
    - apply Hl. congruence.
    - rewrite Els. split; assumption. }
  simpl. unfold intersect. fold ls.
  destruct (Nat.eq_dec (bit_width ne) (size s v)) as [E|N].
  - assert (Er : Layers.get_entries ls (bit_width ne) = unit_entries s v)
      by (rewrite Els, E; reflexivity).
    rewrite Er.
    destruct (intersect_ring (unit_entries s v) ne) as [l rm|l rm|] eqn:Ei.
    + apply (Key l); [reflexivity | | auto].
      simpl. unfold units_of. simpl. rewrite nth_set_nth_same; [reflexivity|].
      now rewrite length_set_nth.
    + apply (Key l); [reflexivity | | auto].
      simpl. unfold units_of. simpl. rewrite nth_set_nth_same; [reflexivity|].
      now rewrite length_set_nth.
    + simpl. unfold unit_entries in *. auto.
  - destruct (intersect_ring (Layers.get_entries ls (bit_width ne)) ne)
      as [l rm|l rm|] eqn:Ei.
    + apply (Key l); [reflexivity | | congruence].
      simpl. unfold units_of. simpl. rewrite nth_set_nth_same; [reflexivity|].
      now rewrite length_set_nth.
    + apply (Key l); [reflexivity | | congruence].
      simpl. unfold units_of. simpl. rewrite nth_set_nth_same; [reflexivity|].
      now rewrite length_set_nth.
    + simpl. auto.
Qed.

(** [alloc_entry] and [release] leave the lists alone. *)
Lemma alloc_entry_lists vb :
  viable.m_units (snd (alloc_entry vb)) = viable.m_units vb /\
  viable.m_equal_lin (snd (alloc_entry vb)) = viable.m_equal_lin vb /\
  viable.m_diseq_lin (snd (alloc_entry vb)) = viable.m_diseq_lin vb.
Proof.
  unfold alloc_entry. destruct (unsnoc (viable.m_alloc vb)) as [[r id]|]; simpl; auto.
Qed.

Lemma alloc_state v s :
  same_constraints v s (set_m_viable (snd (alloc_entry (m_viable s))) s) /\
  same_units s (set_m_viable (snd (alloc_entry (m_viable s))) s).
Proof.
  destruct (alloc_entry_lists (m_viable s)) as (U & E & D).
  split; [split|]; unfold equal_list, diseq_list, same_units; simpl;
    rewrite ?U, ?E, ?D; intros; tauto.
Qed.

(** *** [refine_bits] *)

Lemma bits_value_nonneg nb : 0 <= bits_value nb.
Proof.
  induction nb as [|b nb IH]; simpl; [lia|].
  destruct (lbool_eqb b l_true); lia.
Qed.

(** [extend_by_bits] gives the bound back, or a value read off the bits. *)
Lemma extend_by_bits_cases FORWARD k bound fbi src0 side0 :
  (fst (fst (extend_by_bits FORWARD k bound fbi src0 side0)) = bound /\
   (fbi_is_empty fbi = true \/ first_fail fbi bound k = O)) \/
  (fbi_is_empty fbi = false /\ first_fail fbi bound k <> O /\
   0 <= fst (fst (extend_by_bits FORWARD k bound fbi src0 side0))).
Proof.
  unfold extend_by_bits.
  destruct (fbi_is_empty fbi) eqn:E; [left; auto|].
  destruct (Nat.eqb_spec (first_fail fbi bound k) 0) as [Z0|NZ]; [left; auto|].
  right. split; [reflexivity|]. split; [exact NZ|].
  destruct (fold_left (high_step FORWARD fbi bound) _ _) as [[nb carry] j].
  destruct carry; simpl; [lia|].
  pose proof (bits_value_nonneg nb). destruct FORWARD; simpl; lia.
Qed.

Definition bits_accept (FORWARD : bool) (v : pvar) (val : Z)
    (fbi : fixed_bits_info) (s : solver) : Prop :=
  fst (fst (extend_by_bits FORWARD (size s v) val fbi [] [])) = val.

Lemma refine_bits_true_iff FORWARD v val fbi s :
  fst (refine_bits FORWARD v val fbi s) = true <-> bits_accept FORWARD v val fbi s.
Proof.
  unfold refine_bits, bits_accept.
  destruct (alloc_entry (m_viable s)) as [id vb].
  destruct (extend_by_bits FORWARD (size s v) val fbi [] []) as [[nv s1] d1].
  simpl. destruct (Z.eqb_spec nv val) as [E|N].
  - simpl. tauto.
  - destruct (extend_by_bits (negb FORWARD) (size s v) val fbi s1 d1) as [[nv2 s2] d2].
    simpl. split; [discriminate | contradiction].
Qed.

Lemma refine_bits_state FORWARD v val fbi s :
  let r := refine_bits FORWARD v val fbi s in
  same_constraints v s (snd r) /\
  (fst r = true -> same_units s (snd r)) /\
  (query_inv v s -> query_inv v (snd r)).
Proof.
  unfold refine_bits.
  pose proof (alloc_state v s) as [AC AU].
  pose proof (alloc_entry_lists (m_viable s)) as (U & E & D).
  destruct (alloc_entry (m_viable s)) as [id vb]. simpl in AC, AU, U, E, D.
  pose proof (extend_by_bits_cases FORWARD (size s v) val fbi [] []) as C1.
  destruct (extend_by_bits FORWARD (size s v) val fbi [] []) as [[nv s1] d1].
  simpl in C1. destruct (Z.eqb_spec nv val) as [Ev|Nv].
  - simpl.
    assert (SC : same_constraints v s (set_m_viable (release id vb) s))
      by (split; unfold equal_list, diseq_list; simpl; rewrite ?E, ?D; intros; tauto).
    assert (SU : same_units s (set_m_viable (release id vb) s))
      by (unfold same_units; simpl; exact U).
    split; [exact SC|]. split; [intros _; exact SU|].
    now apply query_inv_transfer.
  - pose proof (extend_by_bits_cases (negb FORWARD) (size s v) val fbi s1 d1) as C2.
    destruct (extend_by_bits (negb FORWARD) (size s v) val fbi s1 d1) as [[nv2 s2] d2].
    simpl in C2. simpl.
    destruct C1 as [[C1 _]|(Ne1 & Nf1 & C1)]; [contradiction|].
    destruct C2 as [[_ [C2|C2]]|(_ & _ & C2)]; [congruence|contradiction|].
    match goal with |- context [intersect v ?e _] => set (ne := e) end.
    assert (Hne : 0 <= e_lo ne /\ 0 <= e_hi ne)
      by (subst ne; destruct FORWARD; simpl; split; assumption).
    clearbody ne.
    split; [|split; [discriminate|]].
    + eapply same_constraints_trans; [exact AC|]. apply intersect_same_constraints.
    + intros Q. pose proof (query_inv_transfer AC AU Q) as [Q1 Q2 Q3 Q4].
      destruct (@intersect_units v ne (set_m_viable vb s) Q1 Q2 Q3 Hne) as (I1 & I2 & I3).
      pose proof (intersect_same_constraints v v ne (set_m_viable vb s)) as [S1 S2 S3].
      split; auto.
      intros e He. rewrite (@same_size v _ _ S1). apply Q4, S3, He.
Qed.

(** *** [refine_equal_lin] and [refine_disequal_lin] *)

Lemma find_none_iff {A} (f : A -> bool) l :
  find f l = None <-> forall x, In x l -> f x = false.
Proof.
  split.
  - intros H x Hx. exact (find_none f l H x Hx).
  - induction l as [|a l IH]; intros H; simpl; [reflexivity|].
    rewrite (H a (or_introl eq_refl)). apply IH. intros x Hx. apply H. now right.
Qed.

Lemma In_rotate (l : ring) e : In e (rotate l) <-> In e l.
Proof.
  destruct l as [|a r]; simpl; [tauto|].
  rewrite in_app_iff. simpl. tauto.
Qed.

Lemma nth_nonempty_lt {A} v (L : list (list A)) a r :
  nth v L [] = a :: r -> (v < length L)%nat.
Proof.
  intros H. destruct (Nat.ltb_spec v (length L)); [assumption|].
  rewrite nth_overflow in H by assumption. discriminate.
Qed.

Definition equal_accept (v : pvar) (val : Z) (s : solver) : Prop :=
  forall e, In e (equal_list s v) -> equal_lin_hit (size s v) val e = false.

Definition diseq_accept (v : pvar) (val : Z) (s : solver) : Prop :=
  forall e, In e (diseq_list s v) ->
    diseq_lin_hit (power_of_two (size s v)) val e = false.

Lemma refine_equal_lin_true_iff v val s :
  fst (refine_equal_lin v val s) = true <-> equal_accept v val s.
Proof.
  unfold refine_equal_lin, equal_accept, equal_list.
  destruct (nth v (viable.m_equal_lin (m_viable s)) []) as [|first r] eqn:El.
  - simpl. split; [intros _ e []|reflexivity].
  - rewrite <- find_none_iff.
    destruct (find (equal_lin_hit (size s v) val) (first :: r)) as [e|] eqn:F.
    + destruct (alloc_entry _) as [id vb1]. simpl. split; discriminate.
    + simpl. tauto.
Qed.

Lemma power_of_two_positive n : 0 < power_of_two n.
Proof. unfold power_of_two. apply Z.pow_pos_nonneg; lia. Qed.

Lemma compute_y_bounds_nonneg y0 a lo hi M :
  0 < M ->
  0 <= fst (compute_y_bounds y0 a lo hi M) /\ 0 <= snd (compute_y_bounds y0 a lo hi M).
Proof.
  intros HM. unfold compute_y_bounds.
  match goal with |- context [if ?c then _ else _] => destruct c end; cbn [fst snd].
  - lia.
  - split; apply Z.mod_pos_bound; lia.
Qed.

Ltac bounds :=
  unfold lo_val, hi_val, proper, full; cbn [m_concrete_lo m_concrete_hi].

Lemma equal_lin_interval_nonneg N val e :
  0 <= lo_val (equal_lin_interval N val e) /\
  0 <= hi_val (equal_lin_interval N val e).
Proof.
  pose proof (power_of_two_positive N) as HM.
  unfold equal_lin_interval.
  destruct ((e_hi e + 1) mod power_of_two N =? e_lo e).
  - destruct (get_parity (e_hi e) N <? get_parity (coeff e) N)%nat; [bounds; lia|].
    destruct (get_parity (coeff e) N =? 0)%nat; bounds;
      split; apply Z.mod_pos_bound; lia.
  - pose proof (@compute_y_bounds_nonneg val (coeff e) (e_lo e)
        (if e_hi e =? 0 then power_of_two N - 1 else e_hi e - 1) (power_of_two N) HM)
      as [B1 B2].
    destruct (compute_y_bounds val (coeff e) (e_lo e) _ (power_of_two N)) as [lo hi0].
    cbn [fst snd] in B1, B2.
    destruct ((lo =? 0) && (hi0 + 1 =? power_of_two N)); [bounds; lia|].
    destruct (hi0 + 1 =? power_of_two N); bounds; lia.
Qed.

Lemma div_ceil_pos a b : 0 < a -> 0 < b -> 1 <= div_ceil a b.
Proof.
  intros Ha Hb. unfold div_ceil.
  assert ((- a) / b < 0) by (apply Z.div_lt_upper_bound; lia). lia.
Qed.

Lemma diseq_lin_interval_nonneg M val e :
  0 < M -> -1 <= val -> 0 <= e_hi e -> e_lo e < M ->
  diseq_lin_hit M val e = true ->
  0 <= lo_val (diseq_lin_interval M val e) /\
  0 <= hi_val (diseq_lin_interval M val e).
Proof.
  intros HM Hv Hr Hp Hit. unfold diseq_lin_hit in Hit.
  unfold diseq_lin_interval. cbv zeta.
  set (a := diseq_a M val e) in *. set (b := diseq_b M val e) in *.
  set (corr := if diseq_neg e then 1 else 0).
  assert (Hnum : 0 < a - b + corr).
  { subst corr. apply orb_prop in Hit. destruct Hit as [Hit|Hit].
    - apply Z.gtb_lt in Hit. destruct (diseq_neg e); lia.
    - apply andb_prop in Hit. destruct Hit as [-> Hit]. apply Z.eqb_eq in Hit. lia. }
  pose proof (@div_ceil_pos (a - b + corr) (M - e_lo e + e_hi e) Hnum ltac:(lia)) as H3.
  bounds. split; [lia|].
  match goal with |- 0 <= (if ?c =? M then 0 else _) => destruct (c =? M) end; lia.
Qed.

Lemma nonneg_refined id e iv :
  0 <= lo_val iv /\ 0 <= hi_val iv ->
  0 <= e_lo (refined_entry id e iv) /\ 0 <= e_hi (refined_entry id e iv).
Proof. exact (fun H => H). Qed.

(** A refinement that finds an entry to refine intersects a new unit entry
    with bounds that are not negative. *)
Lemma refine_intersect_state v s s1 ne :
  same_constraints v s s1 -> same_units s s1 ->
  0 <= e_lo ne /\ 0 <= e_hi ne ->
  same_constraints v s (snd (intersect v ne s1)) /\
  (query_inv v s -> query_inv v (snd (intersect v ne s1))).
Proof.
  intros SC SU Hne.
  pose proof (intersect_same_constraints v v ne s1) as SI.
  split; [eapply same_constraints_trans; eauto|].
  intros Q. pose proof (query_inv_transfer SC SU Q) as [Q1 Q2 Q3 Q4].
  destruct (@intersect_units v ne s1 Q1 Q2 Q3 Hne) as (I1 & I2 & I3).
  destruct SI as [S1 S2 S3]. split; auto.
  intros e He. rewrite (@same_size v _ _ S1). apply Q4, S3, He.
Qed.

Lemma refine_equal_lin_state v val s :
  let r := refine_equal_lin v val s in
  same_constraints v s (snd r) /\
  (fst r = true -> same_units s (snd r)) /\
  (query_inv v s -> query_inv v (snd r)).
Proof.
  unfold refine_equal_lin.
  destruct (nth v (viable.m_equal_lin (m_viable s)) []) as [|first r] eqn:El.
  { simpl. split; [apply same_constraints_refl|]. split; [reflexivity|auto]. }
  set (s1 := set_m_viable _ s).
  assert (SC : same_constraints v s s1).
  { split; [reflexivity| |unfold diseq_list; simpl; intros; tauto].
    intros e. unfold equal_list. subst s1. simpl.
    rewrite nth_set_nth_same by (eapply nth_nonempty_lt; eauto).
    rewrite El. exact (@In_rotate (first :: r) e). }
  assert (SU : same_units s s1) by reflexivity.
  destruct (find (equal_lin_hit (size s v) val) (first :: r)) as [e|] eqn:F.
  - pose proof (alloc_state v s1) as [AC AU].
    destruct (alloc_entry (m_viable s1)) as [id vb1]. cbn [fst snd] in *.
    assert (H := @refine_intersect_state v s (set_m_viable vb1 s1)
              (refined_entry id e (equal_lin_interval (size s v) val e))
              (same_constraints_trans SC AC)
              ltac:(unfold same_units in *; congruence)
              (@nonneg_refined id e _ (equal_lin_interval_nonneg (size s v) val e))).
    destruct H as [H1 H2]. split; [exact H1|]. split; [discriminate|exact H2].
  - cbn [fst snd]. split; [exact SC|]. split; [intros _; exact SU|].
    now apply query_inv_transfer.
Qed.

Lemma refine_disequal_lin_true_iff v val s :
  fst (refine_disequal_lin v val s) = true <-> diseq_accept v val s.
Proof.
  unfold refine_disequal_lin, diseq_accept, diseq_list.
  destruct (nth v (viable.m_diseq_lin (m_viable s)) []) as [|first r] eqn:El.
  - simpl. split; [intros _ e []|reflexivity].
  - rewrite <- find_none_iff.
    destruct (find (diseq_lin_hit (power_of_two (size s v)) val) (first :: r))
      as [e|] eqn:F.
    + destruct (alloc_entry _) as [id vb1]. simpl. split; discriminate.
    + simpl. tauto.
Qed.

Lemma refine_disequal_lin_state v val s :
  -1 <= val ->
  let r := refine_disequal_lin v val s in
  same_constraints v s (snd r) /\
  (fst r = true -> same_units s (snd r)) /\
  (query_inv v s -> query_inv v (snd r)).
Proof.
  intros Hval. unfold refine_disequal_lin.
  destruct (nth v (viable.m_diseq_lin (m_viable s)) []) as [|first r] eqn:El.
  { simpl. split; [apply same_constraints_refl|]. split; [reflexivity|auto]. }
  set (s1 := set_m_viable _ s).
  assert (SC : same_constraints v s s1).
  { split; [reflexivity|unfold equal_list; simpl; intros; tauto|].
    intros e. unfold diseq_list. subst s1. simpl.
    rewrite nth_set_nth_same by (eapply nth_nonempty_lt; eauto).
    rewrite El. exact (@In_rotate (first :: r) e). }
  assert (SU : same_units s s1) by reflexivity.
  destruct (find (diseq_lin_hit (power_of_two (size s v)) val) (first :: r))
    as [e|] eqn:F.
  - pose proof (alloc_state v s1) as [AC AU].
    destruct (alloc_entry (m_viable s1)) as [id vb1]. cbn [fst snd] in *.
    split; [|split; [discriminate|]].
    + eapply same_constraints_trans; [exact (same_constraints_trans SC AC)|].
      apply intersect_same_constraints.
    + intros Q.
      apply find_some in F. destruct F as [He Hit].
      assert (Hc : 0 <= e_hi e /\ e_lo e < power_of_two (size s v)).
      { apply (qi_diseq Q). unfold diseq_list. now rewrite El. }
      refine (proj2 (@refine_intersect_state v s (set_m_viable vb1 s1) _
                (same_constraints_trans SC AC)
                ltac:(unfold same_units in *; congruence) _) Q).
      apply nonneg_refined.
      apply diseq_lin_interval_nonneg; try tauto.
      apply power_of_two_positive.
  - cbn [fst snd]. split; [exact SC|]. split; [intros _; exact SU|].
    now apply query_inv_transfer.
Qed.

(** *** [refine_viable] *)

(** [refine_viable] accepts a value that the fixed bits, the equal-linear
    and the disequal-linear entries all accept. *)
Definition accepts (FORWARD : bool) (v : pvar) (val : Z) (fbi : fixed_bits_info)
    (s : solver) : Prop :=
  bits_accept FORWARD v val fbi s /\ equal_accept v val s /\ diseq_accept v val s.

Lemma accepts_same FORWARD v val fbi s s' :
  same_constraints v s s' -> accepts FORWARD v val fbi s -> accepts FORWARD v val fbi s'.
Proof.
  intros [A B C] (H1 & H2 & H3).
  unfold accepts, bits_accept, equal_accept, diseq_accept in *.
  rewrite (@same_size v s s' A). repeat split; auto.
  - intros e He. apply H2, B, He.
  - intros e He. apply H3, C, He.
Qed.

Lemma same_constraints_sym v s s' : same_constraints v s s' -> same_constraints v s' s.
Proof.
  intros [A B C]. split; [congruence| |]; intros e; [rewrite B|rewrite C]; tauto.
Qed.

Lemma same_units_trans s1 s2 s3 :
  same_units s1 s2 -> same_units s2 s3 -> same_units s1 s3.
Proof. unfold same_units. congruence. Qed.

Lemma refine_viable_state FORWARD v val fbi s :
  -1 <= val ->
  let r := refine_viable FORWARD v val fbi s in
  same_constraints v s (snd r) /\
  (fst r = true -> same_units s (snd r)) /\
  (query_inv v s -> query_inv v (snd r)).
Proof.
  intros Hval. unfold refine_viable.
  pose proof (refine_bits_state FORWARD v val fbi s) as (B1 & B2 & B3).
  destruct (refine_bits FORWARD v val fbi s) as [b1 s1]. cbn [fst snd] in *.
  destruct b1; cbn [negb]; cbn [fst snd].
  2:{ split; [exact B1|]. split; [discriminate|exact B3]. }
  pose proof (refine_equal_lin_state v val s1) as (E1 & E2 & E3).
  destruct (refine_equal_lin v val s1) as [b2 s2]. cbn [fst snd] in *.
  destruct b2; cbn [negb]; cbn [fst snd].
  2:{ split; [eapply same_constraints_trans; eauto|]. split; [discriminate|auto]. }
  pose proof (@refine_disequal_lin_state v val s2 Hval) as (D1 & D2 & D3).
  cbv zeta in D1, D2, D3.
  split; [exact (same_constraints_trans (same_constraints_trans B1 E1) D1)|].
  split; [|auto].
  intros T.
  exact (same_units_trans (same_units_trans (B2 eq_refl) (E2 eq_refl)) (D2 T)).
Qed.

Lemma refine_viable_true_iff FORWARD v val fbi s :
  fst (refine_viable FORWARD v val fbi s) = true <-> accepts FORWARD v val fbi s.
Proof.
  unfold refine_viable, accepts.
  pose proof (refine_bits_true_iff FORWARD v val fbi s) as B.
  pose proof (refine_bits_state FORWARD v val fbi s) as (B1 & _ & _).
  destruct (refine_bits FORWARD v val fbi s) as [b1 s1]. cbn [fst snd] in *.
  destruct b1; cbn [negb]; cbn [fst snd].
  2:{ split; [discriminate|]. intros [H _]. apply B in H. discriminate. }
  pose proof (refine_equal_lin_true_iff v val s1) as E.
  pose proof (refine_equal_lin_state v val s1) as (E1 & _ & _).
  destruct (refine_equal_lin v val s1) as [b2 s2]. cbn [fst snd] in *.
  assert (Eq : equal_accept v val s1 <-> equal_accept v val s).
  { unfold equal_accept. rewrite (@same_size v s s1 (sc_size B1)).
    split; intros H e He; apply H; apply (sc_equal B1); exact He. }
  destruct b2; cbn [negb]; cbn [fst snd].
  2:{ split; [discriminate|]. intros (_ & H & _). apply Eq, E in H. discriminate. }
  rewrite refine_disequal_lin_true_iff.
  pose proof (same_constraints_trans B1 E1) as S2.
  assert (Dq : diseq_accept v val s2 <-> diseq_accept v val s).
  { unfold diseq_accept. rewrite (@same_size v s s2 (sc_size S2)).
    split; intros H e He; apply H; apply (sc_diseq S2); exact He. }
  rewrite Dq. split; [intros H|tauto].
  split; [apply B; reflexivity|]. split; [apply Eq, E; reflexivity|exact H].
Qed.

(** *** [query_find] *)

Lemma walk_lo_nonneg : forall l c,
  nonneg l -> 0 <= c -> 0 <= fst (walk_lo l c).
Proof.
  induction l as [|e r IH]; simpl; intros c Hn Hc; [exact Hc|].
  inversion Hn as [|? ? [_ He] Hr]; subst.
  destruct (contains_val e c); simpl; [apply IH; auto | exact Hc].
Qed.

Lemma walk_hi_range : forall l h,
  nonneg l -> -1 <= h -> -1 <= walk_hi l h.
Proof.
  induction l as [|e r IH]; simpl; intros h Hn Hh; [exact Hh|].
  inversion Hn as [|? ? [He _] Hr]; subst.
  destruct (contains_val e h); simpl; [apply IH; auto; lia | exact Hh].
Qed.

Lemma nonneg_last first r : nonneg (first :: r) -> 0 <= e_hi (last r first).
Proof.
  intros Hn. unfold nonneg in Hn. rewrite Forall_forall in Hn.
  apply Hn. destruct (snoc_cases r) as [->|(init & z & ->)]; [now left|].
  rewrite last_last. right. apply in_or_app. right. now left.
Qed.

Lemma find_bounds_range l mx lo hi :
  nonneg l -> 0 <= mx -> find_bounds l mx = Some (lo, hi) -> 0 <= lo /\ -1 <= hi.
Proof.
  intros Hn Hmx. destruct l as [|first r]; unfold find_bounds.
  - intros H. inversion H; subst. lia.
  - destruct (is_full (interval first)); [discriminate|].
    pose proof (nonneg_last Hn) as Hl.
    destruct ((e_lo (last r first) <? e_hi (last r first)) &&
              (e_hi (last r first) <? mx)).
    + intros H. inversion H; subst. lia.
    + pose proof (@walk_lo_nonneg (first :: r)
         (if contains_val (last r first) 0 then e_hi (last r first) else 0) Hn
         ltac:(destruct (contains_val (last r first) 0); lia)) as Hw.
      destruct (walk_lo (first :: r)
         (if contains_val (last r first) 0 then e_hi (last r first) else 0))
        as [lo' brk].
      destruct (contains_val match brk with Some e => e | None => first end lo');
        [discriminate|].
      intros H. injection H as <- <-. split; [exact Hw|].
      apply walk_hi_range; [|lia].
      exact (Forall_rev Hn).
Qed.

(** The two refinements [query_find] runs on the bounds it found. *)
Definition refine_both (v : pvar) (lo hi : Z) (fbi : fixed_bits_info) (s : solver)
  : lbool * (Z * Z) * solver :=
  let r1 := refine_viable true v lo fbi s in
  if negb (fst r1) then (l_undef, (lo, hi), snd r1)
  else
    let r2 := refine_viable false v hi fbi (snd r1) in
    if negb (fst r2) then (l_undef, (lo, hi), snd r2)
    else (l_true, (lo, hi), snd r2).

Lemma query_find_bounds v fbi s :
  match find_bounds (unit_entries s v) (max_value s v) with
  | None =>
      fst (fst (query_find v fbi s)) = l_false /\
      snd (query_find v fbi s) = set_m_conflict (conflict_by_viable_interval v) s
  | Some (lo, hi) => query_find v fbi s = refine_both v lo hi fbi s
  end.
Proof.
  unfold query_find, find_bounds, refine_both. cbv zeta.
  destruct (unit_entries s v) as [|first r]; [reflexivity|].
  destruct (is_full (interval first)); [split; reflexivity|].
  destruct ((e_lo (last r first) <? e_hi (last r first)) &&
            (e_hi (last r first) <? max_value s v)); [reflexivity|].
  destruct (walk_lo (first :: r)
     (if contains_val (last r first) 0 then e_hi (last r first) else 0))
    as [lo' brk].
  destruct (contains_val match brk with Some e => e | None => first end lo');
    [split; reflexivity | reflexivity].
Qed.

Lemma refine_both_spec v lo hi fbi s :
  0 <= lo -> -1 <= hi ->
  let r := refine_both v lo hi fbi s in
  same_constraints v s (snd r) /\
  (query_inv v s -> query_inv v (snd r)) /\
  fst (fst r) <> l_false /\
  (fst (fst r) = l_true ->
   snd (fst r) = (lo, hi) /\ accepts true v lo fbi s /\ same_units s (snd r)).
Proof.
  intros Hlo Hhi. unfold refine_both.
  pose proof (@refine_viable_state true v lo fbi s ltac:(lia)) as (A1 & A2 & A3).
  pose proof (refine_viable_true_iff true v lo fbi s) as A4.
  destruct (refine_viable true v lo fbi s) as [b1 s1]. cbn [fst snd] in *.
  destruct b1; cbn [negb]; cbn [fst snd].
  2:{ split; [exact A1|]. split; [exact A3|]. split; discriminate. }
  pose proof (@refine_viable_state false v hi fbi s1 Hhi) as (B1 & B2 & B3).
  destruct (refine_viable false v hi fbi s1) as [b2 s2]. cbn [fst snd] in *.
  assert (SC : same_constraints v s s2) by exact (same_constraints_trans A1 B1).
  destruct b2; cbn [negb]; cbn [fst snd].
  - split; [exact SC|]. split; [auto|]. split; [discriminate|].
    intros _. split; [reflexivity|]. split; [apply A4; reflexivity|].
    exact (same_units_trans (A2 eq_refl) (B2 eq_refl)).
  - split; [exact SC|]. split; [auto|]. split; discriminate.
Qed.

Lemma max_value_nonneg s v : 0 <= max_value s v.
Proof. unfold max_value. pose proof (power_of_two_positive (size s v)). lia. Qed.

(** One round of the refinement loop keeps what the query relies on; when it
    reports a conflict the unit list forbids every value, and when it finds
    a value no unit entry contains it and the refinements accept it. *)
Lemma query_find_spec v fbi s :
  query_inv v s ->
  let r := query_find v fbi s in
  same_constraints v s (snd r) /\
  query_inv v (snd r) /\
  (fst (fst r) = l_false ->
   same_units s (snd r) /\ forall x, forbidden (unit_entries s v) x = true) /\
  (fst (fst r) = l_true ->
   same_units s (snd r) /\
   forbidden (unit_entries s v) (fst (snd (fst r))) = false /\
   accepts true v (fst (snd (fst r))) fbi s).
Proof.
  intros Q. cbv zeta.
  pose proof (query_find_bounds v fbi s) as H.
  destruct (find_bounds (unit_entries s v) (max_value s v)) as [[lo hi]|] eqn:Fb.
  - rewrite H.
    destruct (@find_bounds_range _ _ _ _ (qi_nonneg Q) (max_value_nonneg s v) Fb)
      as [Hlo Hhi].
    pose proof (@refine_both_spec v lo hi fbi s Hlo Hhi) as (R1 & R2 & R3 & R4).
    split; [exact R1|]. split; [auto|]. split; [intros C; contradiction|].
    intros T. destruct (R4 T) as (E & Acc & SU). rewrite E. cbn [fst].
    split; [exact SU|]. split; [|exact Acc].
    exact (@find_bounds_free _ _ _ _ (qi_ok Q) (qi_nonneg Q) Fb).
  - destruct H as [H1 H2]. rewrite H1, H2.
    assert (SC : same_constraints v s
                   (set_m_conflict (conflict_by_viable_interval v) s))
      by (split; unfold equal_list, diseq_list; simpl; intros; tauto).
    assert (SU : same_units s (set_m_conflict (conflict_by_viable_interval v) s))
      by reflexivity.
    split; [exact SC|]. split; [now apply (query_inv_transfer SC SU)|].
    split; [|discriminate].
    intros _. split; [exact SU|]. intros x. now apply find_bounds_none with (mx := max_value s v).
Qed.

End RefineLists.

(** ** [find_viable] against [is_viable] *)

Section QueryConsistency.
Import Numeral Viable.

Variable us_check : solver -> pvar -> list signed_constraint -> lbool.
Variable us_model : solver -> pvar -> list signed_constraint -> Z.
Variable us_find_min : solver -> pvar -> list signed_constraint -> option Z.
Variable us_find_max : solver -> pvar -> list signed_constraint -> option Z.
Variable collect_bits : pvar -> solver -> fixed_bits_info + list literal.

Local Abbreviation find_viable :=
  (find_viable us_check us_model us_find_min us_find_max collect_bits).
Local Abbreviation is_viable := (is_viable collect_bits).

Lemma is_viable_forbidden v val s :
  ring_ok (unit_entries s v) -> forbidden (unit_entries s v) val = true ->
  fst (is_viable v val s) = false.
Proof.
  intros Hok Hf. unfold Viable.is_viable, collect_bit_information.
  destruct (collect_bits v s) as [fbi|lits]; cbn [negb]; [|reflexivity].
  destruct (unit_entries s v) as [|first r] eqn:El; [discriminate|].
  rewrite <- (@scan_forbidden first r val Hok) in Hf.
  destruct (contains_val (last r first) val); [reflexivity|].
  cbn [orb] in Hf. apply negb_true_iff in Hf. rewrite Hf. reflexivity.
Qed.

Lemma is_viable_accepted v val s fbi :
  collect_bits v s = inl fbi ->
  ring_ok (unit_entries s v) -> forbidden (unit_entries s v) val = false ->
  accepts true v val fbi s ->
  fst (is_viable v val s) = true.
Proof.
  intros Hc Hok Hf Acc. unfold Viable.is_viable, collect_bit_information.
  rewrite Hc. cbn [negb].
  apply (refine_viable_true_iff true v val fbi s) in Acc.
  destruct (unit_entries s v) as [|first r] eqn:El; [exact Acc|].
  rewrite <- (@scan_forbidden first r val Hok) in Hf.
  apply orb_false_iff in Hf. destruct Hf as [H1 H2].
  apply negb_false_iff in H2. rewrite H1, H2. exact Acc.
Qed.

(** The rounds of refinement keep what the query relies on. *)
Lemma after_rounds_inv v fbi : forall k (result : result_t find_viable_q) s,
  query_inv v s ->
  query_inv v (snd (after_rounds k find_viable_q v fbi (result, s))).
Proof.
  induction k as [|k IH]; intros result s Q; [exact Q|].
  rewrite after_rounds_S. cbn [snd].
  exact (proj1 (proj2 (@query_find_spec v fbi _ (IH result s Q)))).
Qed.

(** C1, as it holds: when the unit list of [v] is well-formed and a round of
    refinement answers the query within the budget, [is_viable] agrees with
    [find_viable] on the state [find_viable] leaves: after [empty] it
    rejects every value, and after [singleton] or [multiple] it accepts the
    value found, given the same bit information. *)
Theorem find_viable_is_viable_within_budget v lo0 s fbi k :
  query_inv v s ->
  collect_bits v s = inl fbi ->
  (k < refinement_budget)%nat ->
  (forall i, (i < k)%nat ->
     round_res i find_viable_q v fbi
       (@pair (result_t find_viable_q) solver (lo0, 0) s) = l_undef) ->
  round_res k find_viable_q v fbi
    (@pair (result_t find_viable_q) solver (lo0, 0) s) <> l_undef ->
  (fst (fst (find_viable v lo0 s)) = empty ->
   forall val, fst (is_viable v val (snd (find_viable v lo0 s))) = false) /\
  (fst (fst (find_viable v lo0 s)) = singleton \/
   fst (fst (find_viable v lo0 s)) = multiple ->
   collect_bits v (snd (find_viable v lo0 s)) = inl fbi ->
   fst (is_viable v (snd (fst (find_viable v lo0 s))) (snd (find_viable v lo0 s)))
   = true).
Proof.
  intros Q Hc Hk Hu Ha.
  pose proof (@query_loop_first_answer us_check us_model us_find_min us_find_max
                refinement_budget k find_viable_q v fbi (lo0, 0) s Hk Hu Ha) as E.
  pose proof (@after_rounds_inv v fbi k (lo0, 0) s Q) as Qk.
  unfold round_res in Ha.
  set (sk := snd (after_rounds k find_viable_q v fbi
                    (@pair (result_t find_viable_q) solver (lo0, 0) s))) in *.
  clearbody sk.
  assert (Ef : Viable.find_viable us_check us_model us_find_min us_find_max
                 collect_bits v lo0 s =
               (let '(res, (lo', hi), s') := query_find v fbi sk in
                (match res with
                 | l_true => if hi <? 0 then multiple
                             else if lo' =? hi then singleton else multiple
                 | l_false => empty
                 | l_undef => resource_out
                 end, lo', s'))).
  { unfold Viable.find_viable, find_viable2, query, collect_bit_information.
    rewrite Hc. cbn [negb]. rewrite E. reflexivity. }
  rewrite Ef. clear Ef E.
  pose proof (@query_find_spec v fbi sk Qk) as (SC & Q' & HF & HT).
  change (query_round find_viable_q v fbi sk) with (query_find v fbi sk) in Ha.
  destruct (query_find v fbi sk) as [[res [lo hi]] s']. cbn [fst snd] in *.
  destruct res; cbn [fst snd].
  - destruct (HF eq_refl) as (SU & Hall).
    split; [|intros [C|C]; discriminate].
    intros _ val.
    pose proof (@same_unit_entries v sk s' (sc_size SC) SU) as Eu.
    apply is_viable_forbidden; [exact (qi_ok Q')|]. rewrite Eu. apply Hall.
  - contradiction.
  - destruct (HT eq_refl) as (SU & Hfree & Acc).
    split; [intros C; destruct (hi <? 0); [discriminate|];
            destruct (lo =? hi); discriminate|].
    intros _ Hc'.
    pose proof (@same_unit_entries v sk s' (sc_size SC) SU) as Eu.
    apply is_viable_accepted with (fbi := fbi); auto.
    + exact (qi_ok Q').
    + rewrite Eu. exact Hfree.
    + exact (accepts_same SC Acc).
Qed.

End QueryConsistency.

(** Scenario C: the first round refines [2 * x == 1] to the full interval,
    the second reports the conflict; [is_viable] then rejects 5. *)
Lemma find_viable_is_viable_within_budget_witness :
  fst (fst (Viable.find_viable us_unsat us_zero us_none us_none no_bits 0%nat 0
              scenario_C)) = Viable.empty /\
  fst (Viable.is_viable no_bits 0%nat 5
         (snd (Viable.find_viable us_unsat us_zero us_none us_none no_bits 0%nat 0
                 scenario_C))) = false.
Proof.
  split; [vm_compute; reflexivity|].
  refine (proj1 (@find_viable_is_viable_within_budget us_unsat us_zero us_none
                   us_none no_bits 0%nat 0 scenario_C (mk_fbi [] [] []) 1%nat
                   _ eq_refl _ _ _) _ 5).
  - split.
    + constructor.
    + right. split; constructor.
    + constructor.
    + intros e [].
  - unfold Viable.refinement_budget. lia.
  - intros i Hi. assert (i = 0%nat) as -> by lia. vm_compute. reflexivity.
  - vm_compute. discriminate.
  - vm_compute. reflexivity.
Defined.

(** A univariate solver that knows of a constraint without forbidden
    intervals: constraint 2 has no solution. *)
Definition us_no_2 (s : solver) (v : pvar) (cs : list signed_constraint) : lbool :=
  if existsb (sc_eqb (mk_sc 2 true)) cs then l_false else l_true.

(** On the looping state the refinement budget runs out and the fallback
    finds the constraints of the variable unsatisfiable: [find_viable]
    answers [empty], while [is_viable] accepts 1024, which the intervals
    allow. *)
Lemma find_viable_empty_counterexample :
  fst (fst (Viable.find_viable us_no_2 us_zero us_none us_none no_bits 0%nat 0
              looping_state)) = Viable.empty /\
  fst (Viable.is_viable no_bits 0%nat 1024
         (snd (Viable.find_viable us_no_2 us_zero us_none us_none no_bits 0%nat 0
                 looping_state))) = true.
Proof. vm_compute. split; reflexivity. Qed.

(** ** Further properties of the interval lists and the queries *)

Section Narrowing.
Import eval_interval Viable.

(** Containment of intervals is containment of their values. *)
Lemma iv_contains_sound a b x :
  iv_contains a b = true -> contains_val b x = true -> contains_val a x = true.
Proof.
  intros Hab Hb.
  destruct (is_full (interval a)) eqn:Fa.
  { apply currently_contains_spec. now left. }
  destruct (is_full (interval b)) eqn:Fb.
  { unfold iv_contains, currently_contains_interval in Hab.
    rewrite Fa, Fb in Hab. discriminate. }
  apply (@iv_contains_iff a b Fa Fb) in Hab.
  apply (@contains_val_Cov b x Fb) in Hb. apply (@contains_val_Cov a x Fa).
  unfold Contains, Cov in *. lia.
Qed.

Lemma forbidden_app l1 l2 x :
  forbidden (l1 ++ l2) x = forbidden l1 x || forbidden l2 x.
Proof. unfold forbidden. apply existsb_app. Qed.

Lemma forbidden_In l e x :
  In e l -> contains_val e x = true -> forbidden l x = true.
Proof. intros. unfold forbidden. apply existsb_exists. eauto. Qed.

Lemma contains_val_init e x : contains_val (dll_base.init e) x = contains_val e x.
Proof. destruct e. reflexivity. Qed.

Lemma contains_val_set_prev p e x : contains_val (set_m_prev p e) x = contains_val e x.
Proof. destruct e. reflexivity. Qed.

(** The loop of [intersect] loses no forbidden value: a node it removes is
    contained in the new one, and it drops the new one only for a node that
    contains it. *)
Lemma intersect_loop_narrows ne x : forall fuel rb rest removed top,
  forbidden (rev rb ++ rest) x = true \/ contains_val ne x = true ->
  match intersect_loop fuel ne rb rest removed top with
  | i_dropped l' _ => forbidden l' x = true
  | i_inserted l' _ => forbidden l' x = true
  | i_fuel => True
  end.
Proof.
  induction fuel as [|fuel IH]; intros rb rest removed top H; [exact I|].
  simpl. destruct rest as [|e rest']; [exact I|].
  assert (Hring : forall e', In e' (rev rb ++ e :: rest') ->
            iv_contains e' ne = true ->
            forbidden (rev rb ++ e :: rest') x = true).
  { intros e' He' Hc. destruct H as [H|H]; [exact H|].
    eapply forbidden_In; [exact He'|]. eapply iv_contains_sound; eauto. }
  destruct (top && iv_contains e ne) eqn:C1.
  { rewrite rev_append_rev. apply andb_prop in C1. destruct C1 as [_ C1].
    apply (Hring e); [apply in_or_app; right; now left | exact C1]. }
  destruct (iv_contains ne e) eqn:C2.
  { assert (H' : forbidden (rev rb ++ rest') x = true \/ contains_val ne x = true).
    { destruct H as [H|H]; [|now right].
      rewrite forbidden_app in H. simpl in H.
      rewrite forbidden_app.
      destruct (forbidden (rev rb) x); [now left|].
      destruct (contains_val e x) eqn:Ce; [right; eapply iv_contains_sound; eauto|].
      left. exact H. }
    destruct rb as [|b rb'], rest' as [|n rest''].
    - simpl. rewrite contains_val_init. destruct H' as [H'|H']; [discriminate|].
      now rewrite H'.
    - apply IH. exact H'.
    - apply IH. simpl. rewrite app_nil_r in H'. exact H'.
    - apply IH. exact H'. }
  destruct (e_lo e >? e_lo ne).
  { destruct (iv_contains (last rest' e) ne) eqn:C3.
    - rewrite rev_append_rev. apply (Hring (last rest' e)); [|exact C3].
      apply in_or_app. right.
      destruct (snoc_cases rest') as [->|(init & z & ->)]; [now left|].
      rewrite last_last. right. apply in_or_app. right. now left.
    - rewrite rev_append_rev. rewrite forbidden_app. simpl.
      rewrite contains_val_init.
      destruct H as [H|H].
      + rewrite forbidden_app in H. simpl in H.
        destruct (forbidden (rev rb) x); [reflexivity|].
        simpl in *. rewrite H. apply orb_true_r.
      + rewrite H. simpl. apply orb_true_r. }
  destruct rest' as [|n rest''].
  - rewrite rev_append_rev. rewrite forbidden_app. simpl.
    rewrite contains_val_init.
    destruct H as [H|H].
    + rewrite forbidden_app in H. simpl in H.
      destruct (forbidden (rev rb) x); [reflexivity|].
      simpl in *. rewrite orb_false_r in H. now rewrite H.
    + rewrite H. rewrite !orb_true_r. reflexivity.
  - apply IH. simpl. rewrite <- app_assoc. exact H.
Qed.

Lemma intersect_ring_narrows l ne x :
  forbidden l x = true \/
  (is_currently_empty (interval ne) = false /\ contains_val ne x = true) ->
  match intersect_ring l ne with
  | i_dropped l' _ => forbidden l' x = true
  | i_inserted l' _ => forbidden l' x = true
  | i_fuel => True
  end.
Proof.
  intros H. unfold intersect_ring. destruct l as [|e l'].
  - destruct H as [H|[H1 H2]]; [discriminate|]. rewrite H1.
    simpl. rewrite contains_val_init, H2. reflexivity.
  - destruct (is_full (interval e)) eqn:Fe.
    { eapply forbidden_In; [now left|]. apply currently_contains_spec. now left. }
    destruct (is_currently_empty (interval ne)) eqn:En.
    { destruct H as [H|[H _]]; [exact H|discriminate]. }
    destruct (is_full (interval ne)) eqn:Fn.
    { simpl. rewrite contains_val_init.
      assert (C : contains_val ne x = true) by (apply currently_contains_spec; now left).
      now rewrite C. }
    apply intersect_loop_narrows. simpl. tauto.
Qed.

End Narrowing.

(** X1.  Narrowing: [intersect] only adds forbidden values.  A value that a
    unit entry forbids, or that the new interval (not currently empty)
    contains, is forbidden by the list [intersect] leaves, whether the new
    entry is inserted or dropped. *)
Theorem intersect_only_narrows l ne x :
  forbidden l x = true \/
  (eval_interval.is_currently_empty (interval ne) = false /\
   Viable.contains_val ne x = true) ->
  exists l' removed,
    (Viable.intersect_ring l ne = Viable.i_inserted l' removed \/
     Viable.intersect_ring l ne = Viable.i_dropped l' removed) /\
    forbidden l' x = true.
Proof.
  intros H. pose proof (@intersect_ring_narrows l ne x H) as N.
  pose proof (@intersect_ring_total l ne) as T.
  destruct (Viable.intersect_ring l ne) as [l' rm|l' rm|]; [| |contradiction].
  - exists l', rm. auto.
  - exists l', rm. auto.
Qed.

Lemma intersect_only_narrows_witness :
  exists l' removed,
    (Viable.intersect_ring [unit_entry 0 2 5; unit_entry 1 9 12] (unit_entry 2 4 10)
       = Viable.i_inserted l' removed \/
     Viable.intersect_ring [unit_entry 0 2 5; unit_entry 1 9 12] (unit_entry 2 4 10)
       = Viable.i_dropped l' removed) /\
    forbidden l' 3 = true.
Proof.
  apply (@intersect_only_narrows [unit_entry 0 2 5; unit_entry 1 9 12]
           (unit_entry 2 4 10) 3).
  left. reflexivity.
Defined.

(** ** Undoing an [intersect] *)

Section UndoIntersect.
Import eval_interval Viable.

(** The undo of trail entries of one list, first entry first: [pop_viable]
    for an insertion, [push_viable] for a removal. *)
Fixpoint undo_ring (undo : list (tag * entry)) (l : ring) : ring :=
  match undo with
  | [] => l
  | (t_add, e) :: r => undo_ring r (dll_base.remove_from l e)
  | (t_rem, e) :: r => undo_ring r (push_viable_ring l e)
  end.

Lemma undo_ring_app u1 u2 l : undo_ring (u1 ++ u2) l = undo_ring u2 (undo_ring u1 l).
Proof.
  revert l. induction u1 as [|[[] e] u1 IH]; intros l; simpl; auto.
Qed.

Lemma undo_removal_chain l removed l' :
  removal_chain l removed l' -> ring_inv l -> proper_ok l ->
  undo_ring (rev (map (pair t_rem) removed)) l' = l.
Proof.
  induction 1 as [l|a e b rest l' _ IH]; intros Hi Ho; [reflexivity|].
  simpl map. simpl rev. rewrite undo_ring_app.
  rewrite IH by (eauto using ring_inv_remove, proper_ok_remove).
  simpl. now apply push_viable_ring_restores.
Qed.

(** [intersect] inserts or removes nothing when the head is full. *)
Lemma changed_proper l ne :
  ring_ok l ->
  match intersect_ring l ne with
  | i_inserted _ _ | i_dropped _ (_ :: _) => proper_ok l
  | _ => True
  end.
Proof.
  intros Hok. unfold intersect_ring. destruct l as [|e r].
  - destruct (is_currently_empty (interval ne)); [exact I|]. split; constructor.
  - destruct (is_full (interval e)) eqn:Fe; [exact I|].
    pose proof (ring_ok_proper Hok Fe) as Hp.
    destruct (is_currently_empty (interval ne)); [exact I|].
    destruct (is_full (interval ne)); [exact Hp|].
    destruct (intersect_loop _ ne [] (e :: r) [] true) as [? [|? ?]|? ?|]; auto.
Qed.

End UndoIntersect.

(** X2.  An [intersect] is undone exactly: after the new node is inserted,
    undoing the trail entries of the call, last first ([pop_viable] for
    the insertion, then [push_viable] for each removed node), gives back the
    list as it was; likewise when the new node is dropped. *)
Theorem intersect_undo_restores l ne :
  ring_inv l -> Viable.well_formed l = true -> ~ In (eid ne) (ids l) ->
  match Viable.intersect_ring l ne with
  | Viable.i_inserted l' removed =>
      undo_ring (rev (map (pair t_rem) removed ++ [(t_add, dll_base.init ne)])) l' = l
  | Viable.i_dropped l' removed =>
      undo_ring (rev (map (pair t_rem) removed)) l' = l
  | Viable.i_fuel => False
  end.
Proof.
  intros Hi Hwf Hfresh. apply well_formed_iff_ring_ok in Hwf.
  pose proof (intersect_ring_chain l ne) as Hc.
  pose proof (@intersect_ring_total l ne) as T.
  pose proof (@changed_proper l ne Hwf) as Hp.
  destruct (Viable.intersect_ring l ne) as [l' rm|l' rm|] eqn:E; [| |contradiction].
  - destruct rm as [|r0 rm'].
    + inversion Hc; subst. reflexivity.
    + now apply undo_removal_chain.
  - destruct Hc as (a & b & Hc & ->).
    rewrite rev_app_distr. simpl.
    assert (Hsub : forall x, In x (ids (a ++ b)) -> In x (ids l))
      by (eapply removal_chain_ids; eauto).
    rewrite remove_from_middle.
    + now apply undo_removal_chain.
    + change (eid (dll_base.init ne)) with (eid ne).
      intros C. apply Hfresh, Hsub. unfold ids in *. rewrite map_app.
      apply in_or_app. now left.
Qed.

Lemma intersect_undo_restores_witness :
  undo_ring
    (rev (map (pair t_rem) [unit_entry 0 2 5] ++ [(t_add, dll_base.init (unit_entry 1 1 7))]))
    [unit_entry 1 1 7] = [unit_entry 0 2 5].
Proof.
  pose proof (@intersect_undo_restores [unit_entry 0 2 5] (unit_entry 1 1 7)
    ltac:(split; repeat constructor; simpl; tauto) eq_refl
    ltac:(simpl; intros [C|[]]; discriminate)) as H.
  exact H.
Defined.

(** ** The unit lists of a state under [intersect] *)

Section IntersectState.
Import eval_interval Viable.

(** The list of any bit-width after [intersect]: unchanged, or what
    [intersect] on the list of the new entry's width gives. *)
Lemma intersect_entries v ne s bw :
  layers_sorted (units_of (m_viable s) v) ->
  layers_sorted (units_of (m_viable (snd (intersect v ne s))) v) /\
  (Layers.get_entries (units_of (m_viable (snd (intersect v ne s))) v) bw
   = Layers.get_entries (units_of (m_viable s) v) bw \/
   bw = bit_width ne /\
   exists l removed,
     (intersect_ring (Layers.get_entries (units_of (m_viable s) v) bw) ne
        = i_inserted l removed \/
      intersect_ring (Layers.get_entries (units_of (m_viable s) v) bw) ne
        = i_dropped l removed) /\
     Layers.get_entries (units_of (m_viable (snd (intersect v ne s))) v) bw = l).
Proof.
  intros Hs.
  destruct (Nat.ltb_spec v (length (viable.m_units (m_viable s)))) as [Hv|Hv].
  2:{ assert (E0 : units_of (m_viable s) v = [])
        by (unfold units_of; now apply nth_overflow).
      assert (E1 : units_of (m_viable (snd (intersect v ne s))) v = []).
      { unfold intersect. destruct (intersect_ring _ ne); simpl; unfold units_of;
          simpl; apply nth_overflow; rewrite ?length_set_nth; exact Hv. }
      rewrite E1, E0. split; [constructor | now left]. }
  set (ls := Layers.ensure_layer (units_of (m_viable s) v) (bit_width ne)).
  assert (Els : forall w, Layers.get_entries ls w
                 = Layers.get_entries (units_of (m_viable s) v) w)
    by (intros; now apply get_entries_ensure).
  assert (Sls : layers_sorted ls) by now apply ensure_layer_sorted.
  unfold intersect. fold ls. rewrite Els.
  destruct (intersect_ring (Layers.get_entries (units_of (m_viable s) v) (bit_width ne)) ne)
    as [l rm|l rm|] eqn:Ei.
  - assert (Eu : units_of (m_viable (snd (false,
       set_m_trail (m_trail s ++ map (fun _ => viable_rem_i) rm)
         (set_m_viable
            (release (eid ne)
               (set_trail (viable.m_trail (m_viable s) ++ map (fun e => (v, unit_e, e)) rm)
                  (set_layers v (Layers.set_entries ls (bit_width ne) l)
                     (set_layers v ls (m_viable s))))) s)))) v
       = Layers.set_entries ls (bit_width ne) l).
    { simpl. unfold units_of. simpl. rewrite nth_set_nth_same; [reflexivity|].
      now rewrite length_set_nth. }
    rewrite Eu. split; [now apply set_entries_sorted|].
    rewrite get_entries_set. destruct (Nat.eqb_spec bw (bit_width ne)) as [->|N].
    + right. split; [reflexivity|]. exists l, rm. auto.
    + left. apply Els.
  - assert (Eu : units_of (m_viable (snd (true,
       set_m_trail (m_trail s ++ map (fun _ => viable_rem_i) rm ++ [viable_add_i])
         (set_m_viable
            (set_trail (viable.m_trail (m_viable s)
                        ++ map (fun e => (v, unit_e, e)) rm ++ [(v, unit_e, dll_base.init ne)])
               (set_layers v (Layers.set_entries ls (bit_width ne) l)
                  (set_layers v ls (m_viable s)))) s)))) v
       = Layers.set_entries ls (bit_width ne) l).
    { simpl. unfold units_of. simpl. rewrite nth_set_nth_same; [reflexivity|].
      now rewrite length_set_nth. }
    rewrite Eu. split; [now apply set_entries_sorted|].
    rewrite get_entries_set. destruct (Nat.eqb_spec bw (bit_width ne)) as [->|N].
    + right. split; [reflexivity|]. exists l, rm. auto.
    + left. apply Els.
  - simpl. split; [exact Hs | now left].
Qed.

End IntersectState.

(** X3.  [viable::intersect] on a state keeps the unit list of every
    bit-width of the variable well-formed, and its layers in descending
    bit-width. *)
Theorem intersect_keeps_lists_well_formed v ne s bw :
  layers_sorted (Viable.units_of (m_viable s) v) ->
  Viable.well_formed (Layers.get_entries (Viable.units_of (m_viable s) v) bw) = true ->
  Viable.well_formed
    (Layers.get_entries
       (Viable.units_of (m_viable (snd (Viable.intersect v ne s))) v) bw) = true /\
  layers_sorted (Viable.units_of (m_viable (snd (Viable.intersect v ne s))) v).
Proof.
  intros Hs Hwf.
  destruct (@intersect_entries v ne s bw Hs) as [S' [E|(_ & l & rm & E & ->)]].
  - rewrite E. auto.
  - split; [|exact S']. apply well_formed_iff_ring_ok.
    apply well_formed_iff_ring_ok in Hwf.
    pose proof (@intersect_ring_ok _ ne Hwf) as Hok.
    destruct E as [E|E]; rewrite E in Hok; exact Hok.
Qed.

Lemma intersect_keeps_lists_well_formed_witness :
  Viable.well_formed
    (Layers.get_entries
       (Viable.units_of
          (m_viable (snd (Viable.intersect 0%nat (unit_entry 0 2 5) scenario_C)))
          0%nat) 4) = true /\
  layers_sorted
    (Viable.units_of
       (m_viable (snd (Viable.intersect 0%nat (unit_entry 0 2 5) scenario_C))) 0%nat).
Proof.
  apply (@intersect_keeps_lists_well_formed 0%nat (unit_entry 0 2 5) scenario_C 4%nat).
  - constructor.
  - reflexivity.
Defined.

(** X4.  A conflict reported by [query_find] is sound for the unit list,
    well-formed or not: every value is contained in a unit entry, and the
    conflict recorded is the interval conflict of the variable. *)
Theorem query_find_conflict_forbids_all v fbi s :
  fst (fst (Viable.query_find v fbi s)) = l_false ->
  (forall x, forbidden (Viable.unit_entries s v) x = true) /\
  snd (Viable.query_find v fbi s)
  = set_m_conflict (conflict_by_viable_interval v) s.
Proof.
  intros H. pose proof (query_find_bounds v fbi s) as B.
  destruct (find_bounds (Viable.unit_entries s v) (Viable.max_value s v))
    as [[lo hi]|] eqn:Fb.
  - exfalso. rewrite B in H. unfold refine_both in H.
    destruct (fst (Viable.refine_viable true v lo fbi s)); simpl in H;
      [|discriminate].
    destruct (fst (Viable.refine_viable false v hi fbi _)); simpl in H; discriminate.
  - split; [|exact (proj2 B)].
    intros x. exact (@find_bounds_none _ _ x Fb).
Qed.

Lemma query_find_conflict_forbids_all_witness :
  forbidden
    (Viable.unit_entries
       (snd (Viable.query_find 0%nat (mk_fbi [] [] []) scenario_C)) 0%nat) 171
  = true.
Proof.
  apply (@query_find_conflict_forbids_all 0%nat (mk_fbi [] [] [])
           (snd (Viable.query_find 0%nat (mk_fbi [] [] []) scenario_C))).
  vm_compute. reflexivity.
Defined.

Section IsViable.
Import Viable.
Variable collect_bits : pvar -> solver -> fixed_bits_info + list literal.

(** X5.  [is_viable] on a well-formed unit list: it accepts a value exactly
    when no unit entry contains it and the fixed bits, the equal-linear and
    the disequal-linear entries of the variable all accept it. *)
Theorem is_viable_exact v val s fbi :
  collect_bits v s = inl fbi ->
  well_formed (unit_entries s v) = true ->
  (fst (is_viable collect_bits v val s) = true <->
   forbidden (unit_entries s v) val = false /\ accepts true v val fbi s).
Proof.
  intros Hc Hwf. apply well_formed_iff_ring_ok in Hwf. split.
  - intros H. destruct (forbidden (unit_entries s v) val) eqn:F.
    + rewrite (@is_viable_forbidden collect_bits v val s Hwf F) in H. discriminate.
    + split; [reflexivity|].
      unfold is_viable, collect_bit_information in H. rewrite Hc in H.
      cbn [negb] in H. apply (refine_viable_true_iff true v val fbi s).
      destruct (unit_entries s v) as [|first r]; [exact H|].
      destruct (contains_val (last r first) val); [discriminate|].
      destruct (is_viable_walk (removelast (first :: r)) val); [exact H|discriminate].
  - intros [F A]. exact (@is_viable_accepted collect_bits v val s fbi Hc Hwf F A).
Qed.

End IsViable.

(** Scenario B: one variable of width 8 with the equal-linear entry of
    [3 * x == 1], that is [3 * x] not in [2, 1). *)
Definition equation_3x_1 : entry :=
  mk_entry 0 [mk_sc 0 true] [] 3
    (eval_interval.proper (mk_val 2) 2 (mk_val 1) 1) 8 false 0.

Definition scenario_B : solver :=
  mk_solver (viable.mk [] 1 [[]] [[equation_3x_1]] [[]] [])
    (viable_fallback.mk [[]]) conflict_empty [] [] [] [0] [unassigned] [[]]
    [8%nat] [] 0 0 [] [] [] 0 0 0 0 0 0.

Lemma is_viable_exact_witness :
  fst (Viable.is_viable no_bits 0%nat 171 scenario_B) = true <->
  forbidden (Viable.unit_entries scenario_B 0%nat) 171 = false /\
  accepts true 0%nat 171 (mk_fbi [] [] []) scenario_B.
Proof.
  apply (@is_viable_exact no_bits 0%nat 171 scenario_B (mk_fbi [] [] [])).
  - reflexivity.
  - reflexivity.
Defined.

(** Scenario B on the viable store: with [3 * x == 1] at width 8,
    [find_viable] answers [singleton] with the value 171, the inverse of 3
    modulo 256, after one refinement of the equation and without the
    fallback. *)
Theorem scenario_B_singleton_171 :
  fst (Viable.find_viable us_unsat us_zero us_none us_none no_bits 0%nat 0
         scenario_B) = (Viable.singleton, 171) /\
  map (fun val => fst (Viable.is_viable no_bits 0%nat val
         (snd (Viable.find_viable us_unsat us_zero us_none us_none no_bits 0%nat 0
                 scenario_B)))) [0; 85; 170; 171; 172; 255]
  = [false; false; false; true; false; false].
Proof. vm_compute. split; reflexivity. Qed.

(** Scenario C on the viable store: with [2 * x == 1] at width 8 the
    refinement of the equation forbids every value (the parity of 2 exceeds
    that of 1), and [find_viable] answers [empty] with the interval conflict
    of the variable. *)
Theorem scenario_C_empty :
  fst (fst (Viable.find_viable us_unsat us_zero us_none us_none no_bits 0%nat 0
              scenario_C)) = Viable.empty /\
  m_conflict (snd (Viable.find_viable us_unsat us_zero us_none us_none no_bits
                     0%nat 0 scenario_C)) = conflict_by_viable_interval 0%nat /\
  map eval_interval.is_full
    (map interval
       (Viable.unit_entries
          (snd (Viable.find_viable us_unsat us_zero us_none us_none no_bits
                  0%nat 0 scenario_C)) 0%nat)) = [true].
Proof. vm_compute. repeat split; reflexivity. Qed.

(** ** interval.h: containment and length of evaluated intervals *)

Section IntervalValues.
Import eval_interval.

(** The bounds [eval_interval::proper] asserts: values of the bit-width. *)
Definition bounds_in_range (M : Z) (i : t) : Prop :=
  0 <= lo_val i < M /\ 0 <= hi_val i < M.

Lemma contains_false_iff i v :
  currently_contains i v = false <-> ~ In_interval i v.
Proof.
  rewrite <- currently_contains_spec.
  destruct (currently_contains i v); split; intros; congruence.
Qed.

End IntervalValues.

(** X8.  [eval_interval::currently_contains(eval_interval const&)] decides
    containment of the values of the bit-width: for intervals with bounds
    in [0, 2^w) and [other] not currently empty, it returns true exactly
    when every value of [0, 2^w) that [other] contains is contained in the
    interval. *)
Theorem currently_contains_interval_exact M i other :
  (eval_interval.is_full i = false -> bounds_in_range M i) ->
  (eval_interval.is_full other = false -> bounds_in_range M other) ->
  eval_interval.is_currently_empty other = false ->
  (eval_interval.currently_contains_interval i other = true <->
   forall v, 0 <= v < M ->
     eval_interval.currently_contains other v = true ->
     eval_interval.currently_contains i v = true).
Proof.
  unfold bounds_in_range, eval_interval.is_currently_empty,
    eval_interval.is_proper, interval.is_proper, eval_interval.is_full.
  intros Hi Ho Hne.
  unfold eval_interval.currently_contains_interval, eval_interval.is_full.
  destruct (interval.is_full (eval_interval.m_symbolic i)) eqn:Fi.
  { split; [|reflexivity]. intros _ v _ _.
    apply currently_contains_spec. left. exact Fi. }
  specialize (Hi eq_refl).
  destruct (interval.is_full (eval_interval.m_symbolic other)) eqn:Fo.
  { split; [discriminate|]. intros H. exfalso.
    assert (Ha : forall v, 0 <= v < M -> In_interval i v).
    { intros v Hv. apply currently_contains_spec. apply H; [exact Hv|].
      apply currently_contains_spec. left. exact Fo. }
    assert (H1 := Ha (eval_interval.hi_val i) ltac:(lia)).
    unfold In_interval, eval_interval.is_full in H1. rewrite Fi in H1.
    destruct H1 as [H1|H1]; [discriminate|].
    assert (H2 := Ha 0 ltac:(lia)). assert (H3 := Ha (M - 1) ltac:(lia)).
    unfold In_interval, eval_interval.is_full in H2, H3. rewrite Fi in H2, H3.
    lia. }
  specialize (Ho eq_refl). simpl in Hne. apply Z.eqb_neq in Hne.
  assert (Hc : forall v, 0 <= v < M ->
            (eval_interval.currently_contains other v = true ->
             eval_interval.currently_contains i v = true) <->
            (In_interval other v -> In_interval i v)).
  { intros v _. rewrite !currently_contains_spec. tauto. }
  split.
  - intros H v Hv. apply Hc; [exact Hv|].
    unfold In_interval, eval_interval.is_full. rewrite Fi, Fo.
    revert H.
    repeat match goal with
    | |- context [?a <=? ?b] => destruct (Z.leb_spec a b)
    end; simpl; intros; try discriminate; lia.
  - intros H.
    assert (Hp : forall v, 0 <= v < M -> In_interval other v -> In_interval i v)
      by (intros v Hv; apply Hc; [exact Hv | apply H; exact Hv]).
    unfold In_interval, eval_interval.is_full in Hp. rewrite Fi, Fo in Hp.
    assert (P1 := Hp (eval_interval.lo_val other) ltac:(lia)).
    assert (P2 := Hp (eval_interval.hi_val other - 1)).
    assert (P3 := Hp 0 ltac:(lia)).
    assert (P4 := Hp (M - 1) ltac:(lia)).
    assert (P5 := Hp (eval_interval.hi_val i) ltac:(lia)).
    assert (P6 := Hp (eval_interval.lo_val i - 1)).
    repeat match goal with
    | |- context [?a <=? ?b] => destruct (Z.leb_spec a b)
    end; simpl; try reflexivity; exfalso; lia.
Qed.

Lemma currently_contains_interval_exact_witness :
  eval_interval.currently_contains_interval
    (eval_interval.proper (mk_val 12) 12 (mk_val 6) 6)
    (eval_interval.proper (mk_val 14) 14 (mk_val 3) 3) = true <->
  forall v, 0 <= v < 16 ->
    eval_interval.currently_contains
      (eval_interval.proper (mk_val 14) 14 (mk_val 3) 3) v = true ->
    eval_interval.currently_contains
      (eval_interval.proper (mk_val 12) 12 (mk_val 6) 6) v = true.
Proof.
  apply (@currently_contains_interval_exact 16
           (eval_interval.proper (mk_val 12) 12 (mk_val 6) 6)
           (eval_interval.proper (mk_val 14) 14 (mk_val 3) 3)).
  - intros _. unfold bounds_in_range. simpl. lia.
  - intros _. unfold bounds_in_range. simpl. lia.
  - reflexivity.
Defined.

Section IntervalLength.
Import eval_interval.

(** The values of the bit-width an interval currently contains. *)
Definition values_of (M : Z) (i : t) : list Z :=
  filter (currently_contains i) (map Z.of_nat (seq 0 (Z.to_nat M))).

Lemma count_clipped (a b : Z) : forall n : nat,
  Z.of_nat (length (filter (fun v => (a <=? v) && (v <? b))
                      (map Z.of_nat (seq 0 n))))
  = Z.max 0 (Z.min b (Z.of_nat n) - Z.max a 0).
Proof.
  induction n as [|n IH].
  - simpl. lia.
  - rewrite seq_S, map_app, filter_app, length_app, Nat2Z.inj_add, IH.
    simpl. destruct ((a <=? Z.of_nat n) && (Z.of_nat n <? b)) eqn:C; simpl; lia.
Qed.

Lemma count_segment (a b : Z) (n : nat) :
  0 <= a <= b -> b <= Z.of_nat n ->
  Z.of_nat (length (filter (fun v => (a <=? v) && (v <? b))
                      (map Z.of_nat (seq 0 n)))) = b - a.
Proof. intros. rewrite count_clipped. lia. Qed.

Lemma count_split (P Q : Z -> bool) (l : list Z) :
  (forall v, In v l -> P v && Q v = false) ->
  length (filter (fun v => P v || Q v) l) =
  (length (filter P l) + length (filter Q l))%nat.
Proof.
  induction l as [|x l IH]; intros H; [reflexivity|].
  pose proof (H x (or_introl eq_refl)) as Hx.
  assert (IH' := IH (fun v Hv => H v (or_intror Hv))).
  simpl. destruct (P x), (Q x); simpl in *; try discriminate; lia.
Qed.

End IntervalLength.

(** X9.  [eval_interval::current_len] is the number of values of the
    bit-width the interval currently contains, for a proper interval with
    bounds in [0, 2^w); a proper interval with equal bounds contains none. *)
Theorem current_len_counts_values M i :
  eval_interval.is_full i = false -> bounds_in_range M i ->
  Z.of_nat (length (values_of M i)) = eval_interval.current_len M i.
Proof.
  intros F [Hl Hh]. unfold values_of, eval_interval.current_len.
  set (n := Z.to_nat M). assert (Hn : Z.of_nat n = M) by (subst n; lia).
  assert (E : forall l, filter (eval_interval.currently_contains i) l =
     filter (fun v =>
       if eval_interval.lo_val i <=? eval_interval.hi_val i
       then (eval_interval.lo_val i <=? v) && (v <? eval_interval.hi_val i)
       else (v <? eval_interval.hi_val i) || (v >=? eval_interval.lo_val i)) l).
  { intros l. apply filter_ext. intros v.
    unfold eval_interval.currently_contains. now rewrite F. }
  rewrite E. destruct (Z.leb_spec (eval_interval.lo_val i) (eval_interval.hi_val i)).
  - rewrite count_segment by lia. rewrite Z.mod_small; lia.
  - rewrite (@count_split (fun v => v <? eval_interval.hi_val i)
               (fun v => v >=? eval_interval.lo_val i))
      by (intros; rewrite Z.geb_leb; lia).
    rewrite Nat2Z.inj_add.
    assert (E1 : filter (fun v => v <? eval_interval.hi_val i)
                   (map Z.of_nat (seq 0 n))
               = filter (fun v => (0 <=? v) && (v <? eval_interval.hi_val i))
                   (map Z.of_nat (seq 0 n))).
    { apply filter_ext_in. intros v Hv. apply in_map_iff in Hv.
      destruct Hv as (x & <- & _). replace (0 <=? Z.of_nat x) with true by (symmetry; apply Z.leb_le; lia).
      reflexivity. }
    assert (E2 : filter (fun v => v >=? eval_interval.lo_val i)
                   (map Z.of_nat (seq 0 n))
               = filter (fun v => (eval_interval.lo_val i <=? v) && (v <? M))
                   (map Z.of_nat (seq 0 n))).
    { apply filter_ext_in. intros v Hv. apply in_map_iff in Hv.
      destruct Hv as (x & <- & Hx). apply in_seq in Hx.
      replace (Z.of_nat x <? M) with true by (symmetry; apply Z.ltb_lt; lia).
      rewrite andb_true_r. apply Z.geb_leb. }
    rewrite E1, E2, !count_segment by lia.
    replace (eval_interval.hi_val i - eval_interval.lo_val i)
      with (eval_interval.hi_val i - eval_interval.lo_val i + M + (-1) * M) by lia.
    rewrite Z_mod_plus_full. rewrite Z.mod_small; lia.
Qed.

Lemma current_len_counts_values_witness :
  Z.of_nat (length (values_of 16 (eval_interval.proper (mk_val 12) 12 (mk_val 6) 6)))
  = eval_interval.current_len 16 (eval_interval.proper (mk_val 12) 12 (mk_val 6) 6).
Proof.
  apply (@current_len_counts_values 16
           (eval_interval.proper (mk_val 12) 12 (mk_val 6) 6)).
  - reflexivity.
  - unfold bounds_in_range. simpl. lia.
Defined.

(** ** Fixed bits: [extend_by_bits] and [refine_bits] *)

Section FixedBits.
Import Viable.

(** The value agrees with every fixed bit among the lowest [k]. *)
Definition bits_agree (fbi : fixed_bits_info) (k : nat) (val : Z) : Prop :=
  forall i, (i < k)%nat -> fixed_at fbi i <> l_undef ->
    to_lbool (get_bit val i) = fixed_at fbi i.

Lemma lbool_eqb_refl x : lbool_eqb x x = true.
Proof. destruct x; reflexivity. Qed.

Lemma lbool_eqb_false x y : lbool_eqb x y = false <-> x <> y.
Proof.
  split.
  - intros H E. subst. rewrite lbool_eqb_refl in H. discriminate.
  - intros H. destruct (lbool_eqb x y) eqn:E; [|reflexivity].
    apply lbool_eqb_eq in E. contradiction.
Qed.

(** The loop that looks for the highest disagreeing bit. *)
Lemma first_fail_spec fbi bound : forall k,
  match first_fail fbi bound k with
  | O => bits_agree fbi k bound
  | S i => (i < k)%nat /\ fixed_at fbi i <> l_undef /\
           to_lbool (get_bit bound i) <> fixed_at fbi i
  end.
Proof.
  induction k as [|k IH]; simpl.
  - intros i Hi. lia.
  - destruct (lbool_eqb (fixed_at fbi k) l_undef) eqn:E1; simpl.
    + apply lbool_eqb_eq in E1.
      destruct (first_fail fbi bound k) as [|i].
      * intros i Hi Hf. destruct (Nat.eq_dec i k) as [->|]; [contradiction|].
        apply IH; [lia | exact Hf].
      * destruct IH as (H1 & H2 & H3). repeat split; auto.
    + apply lbool_eqb_false in E1.
      destruct (lbool_eqb (to_lbool (get_bit bound k)) (fixed_at fbi k)) eqn:E2; simpl.
      * apply lbool_eqb_eq in E2.
        destruct (first_fail fbi bound k) as [|i].
        -- intros i Hi Hf. destruct (Nat.eq_dec i k) as [->|]; [exact E2|].
           apply IH; [lia | exact Hf].
        -- destruct IH as (H1 & H2 & H3). repeat split; auto.
      * apply lbool_eqb_false in E2. repeat split; auto.
Qed.

Lemma first_fail_zero_iff fbi bound k :
  first_fail fbi bound k = O <-> bits_agree fbi k bound.
Proof.
  pose proof (first_fail_spec fbi bound k) as H. split.
  - intros E. now rewrite E in H.
  - intros A. destruct (first_fail fbi bound k) as [|i]; [reflexivity|].
    destruct H as (H1 & H2 & H3). exfalso. apply H3, A; assumption.
Qed.

(** The bits [extend_by_bits] writes below [firstFail]. *)
Definition low_bit (FORWARD : bool) (fbi : fixed_bits_info) (i : nat) : lbool :=
  if negb (lbool_eqb (fixed_at fbi i) l_undef) then fixed_at fbi i
  else if FORWARD then l_false else l_true.

Lemma low_fold FORWARD fbi ff : forall l nb j,
  fst (fold_left (low_step FORWARD fbi ff) l (nb, j))
  = nb ++ map (low_bit FORWARD fbi) l.
Proof.
  induction l as [|i l IH]; intros nb j; simpl; [now rewrite app_nil_r|].
  assert (E : exists j', low_step FORWARD fbi ff (nb, j) i
                         = (nb ++ [low_bit FORWARD fbi i], j')).
  { unfold low_step, low_bit. simpl.
    destruct (negb (lbool_eqb (fixed_at fbi i) l_undef)); eauto. }
  destruct E as [j' ->]. rewrite IH, <- app_assoc. reflexivity.
Qed.

(** The bit [extend_by_bits] writes at a position from [firstFail] on is
    the fixed one where there is one; the carry is never set again once it
    is clear. *)
Lemma high_step_spec FORWARD fbi bound nb carry j i :
  exists b c j',
    high_step FORWARD fbi bound (nb, carry, j) i = (nb ++ [b], c, j') /\
    b <> l_undef /\
    (fixed_at fbi i <> l_undef -> b = fixed_at fbi i) /\
    (carry = false -> c = false).
Proof.
  unfold high_step.
  destruct (lbool_eqb (fixed_at fbi i) l_undef) eqn:E.
  - apply lbool_eqb_eq in E.
    destruct carry, FORWARD, (get_bit bound i); simpl;
      eexists _, _, _; (split; [reflexivity|]);
      (split; [discriminate|]); (split; [congruence|]); auto; discriminate.
  - apply lbool_eqb_false in E. eexists _, _, _. split; [reflexivity|].
    split; [exact E|]. split; auto.
Qed.

Lemma high_fold FORWARD fbi bound : forall l nb carry j,
  exists hi,
    fst (fst (fold_left (high_step FORWARD fbi bound) l (nb, carry, j)))
      = nb ++ hi /\
    length hi = length l /\
    (forall n, (n < length l)%nat ->
       fixed_at fbi (nth n l O) <> l_undef ->
       nth n hi l_undef = fixed_at fbi (nth n l O)) /\
    (Forall (fun b => b <> l_undef) hi) /\
    (carry = false ->
     snd (fst (fold_left (high_step FORWARD fbi bound) l (nb, carry, j))) = false).
Proof.
  induction l as [|i l IH]; intros nb carry j; cbn [fold_left length].
  - exists []. rewrite app_nil_r. simpl. repeat split; auto. intros n Hn. lia.
  - destruct (high_step_spec FORWARD fbi bound nb carry j i)
      as (b & c & j' & E0 & Hb & Hf & Hc).
    rewrite E0.
    destruct (IH (nb ++ [b]) c j') as (hi & E & L & F & U & C).
    exists (b :: hi). rewrite E, <- app_assoc. simpl.
    split; [reflexivity|]. split; [now rewrite L|]. split; [|split].
    + intros [|n] Hn Hfix; simpl; [now apply Hf|]. apply F; [lia|exact Hfix].
    + constructor; assumption.
    + intros Hcar. apply C, Hc, Hcar.
Qed.

Lemma bits_value_testbit : forall nb i,
  (i < length nb)%nat ->
  get_bit (bits_value nb) i = lbool_eqb (nth i nb l_undef) l_true.
Proof.
  unfold get_bit.
  induction nb as [|b nb IH]; intros i Hi; simpl in Hi; [lia|].
  simpl bits_value. pose proof (bits_value_nonneg nb) as Hn.
  destruct i as [|i].
  - simpl nth. change (Z.of_nat 0) with 0. rewrite Z.bit0_odd.
    replace (bits_value nb * 2 + (if lbool_eqb b l_true then 1 else 0))
      with ((if lbool_eqb b l_true then 1 else 0) + 2 * bits_value nb) by lia.
    rewrite Z.odd_add_mul_2. destruct (lbool_eqb b l_true); reflexivity.
  - simpl nth. rewrite Nat2Z.inj_succ.
    replace (bits_value nb * 2 + (if lbool_eqb b l_true then 1 else 0))
      with (2 * bits_value nb + (if lbool_eqb b l_true then 1 else 0)) by lia.
    destruct (lbool_eqb b l_true).
    + rewrite Z.testbit_odd_succ by lia. apply IH. lia.
    + rewrite Z.add_0_r, Z.testbit_even_succ by lia. apply IH. lia.
Qed.

Lemma fbi_is_empty_iff fbi : fbi_is_empty fbi = true <-> fixed fbi = [].
Proof. unfold fbi_is_empty. destruct (fixed fbi); split; congruence. Qed.

(** What [extend_by_bits] computes when a fixed bit disagrees with the
    bound: the bits written, and the carry left after the last one. *)
Lemma extend_by_bits_bits FORWARD k bound fbi src0 side0 i0 :
  fbi_is_empty fbi = false -> first_fail fbi bound k = S i0 ->
  exists (nb : list lbool) (carry : bool),
    fst (fst (extend_by_bits FORWARD k bound fbi src0 side0))
      = (if carry then 0
         else if FORWARD then bits_value nb else bits_value nb + 1) /\
    length nb = k /\
    (forall i, (i < k)%nat -> fixed_at fbi i <> l_undef ->
       nth i nb l_undef = fixed_at fbi i) /\
    (lbool_eqb (fixed_at fbi i0) (if FORWARD then l_false else l_true) = false ->
     carry = false).
Proof.
  intros He Hff. pose proof (first_fail_spec fbi bound k) as Hs.
  rewrite Hff in Hs. destruct Hs as (Hi0 & Hfix & Hdis).
  unfold extend_by_bits. rewrite He, Hff. cbn [Nat.eqb].
  set (st1 := fold_left (low_step FORWARD fbi (S i0)) (seq 0 (S i0))
                (@nil lbool, mk_acc [] src0 [] side0)).
  assert (E1 : fst st1 = map (low_bit FORWARD fbi) (seq 0 (S i0)))
    by (subst st1; now rewrite low_fold).
  replace (S i0 - 1)%nat with i0 by lia.
  destruct (high_fold FORWARD fbi bound (seq (S i0) (k - S i0)) (fst st1)
              (lbool_eqb (fixed_at fbi i0) (if FORWARD then l_false else l_true))
              (snd st1)) as (hi & Enb & Lhi & Fhi & _ & Chi).
  destruct (fold_left (high_step FORWARD fbi bound) (seq (S i0) (k - S i0))
              (fst st1,
               lbool_eqb (fixed_at fbi i0) (if FORWARD then l_false else l_true),
               snd st1)) as [[nb carry] j].
  cbn [fst snd] in Enb, Chi. rewrite length_seq in Lhi, Fhi.
  exists nb, carry. split; [destruct carry; reflexivity|].
  subst nb. rewrite E1. split; [|split].
  - rewrite length_app, length_map, length_seq, Lhi. lia.
  - intros i Hi Hf. destruct (Nat.ltb_spec i (S i0)) as [Hlt|Hge].
    + rewrite app_nth1 by (now rewrite length_map, length_seq).
      rewrite nth_indep with (d' := low_bit FORWARD fbi O)
        by (now rewrite length_map, length_seq).
      rewrite map_nth, seq_nth by lia. simpl. unfold low_bit.
      apply lbool_eqb_false in Hf. now rewrite Hf.
    + rewrite app_nth2 by (rewrite length_map, length_seq; lia).
      rewrite length_map, length_seq.
      rewrite Fhi.
      * rewrite seq_nth by lia. f_equal. lia.
      * lia.
      * rewrite seq_nth by lia. replace (S i0 + (i - S i0))%nat with i by lia.
        exact Hf.
  - exact Chi.
Qed.

End FixedBits.

(** X10.  [extend_by_bits]: unless it reports an overflow by returning 0,
    the value it moves the bound to agrees with every fixed bit of the
    variable (for the backward direction, the value just below the
    exclusive bound it returns); a bound that agrees is returned as is. *)
Theorem extend_by_bits_agrees FORWARD k bound fbi src0 side0 :
  fixed fbi <> [] ->
  let r := fst (fst (Viable.extend_by_bits FORWARD k bound fbi src0 side0)) in
  (bits_agree fbi k bound -> r = bound) /\
  (r = 0 \/ bits_agree fbi k (if FORWARD then r else r - 1) \/ r = bound).
Proof.
  intros Hne. cbv zeta.
  assert (He : Viable.fbi_is_empty fbi = false).
  { destruct (Viable.fbi_is_empty fbi) eqn:E; [|reflexivity].
    apply fbi_is_empty_iff in E. contradiction. }
  destruct (Viable.first_fail fbi bound k) as [|i0] eqn:Hff.
  - assert (E : fst (fst (Viable.extend_by_bits FORWARD k bound fbi src0 side0)) = bound)
      by (unfold Viable.extend_by_bits; rewrite He, Hff; reflexivity).
    rewrite E. auto.
  - split.
    + intros A. apply first_fail_zero_iff in A. congruence.
    + destruct (@extend_by_bits_bits FORWARD k bound fbi src0 side0 i0 He Hff)
        as (nb & carry & E & L & F & _).
      rewrite E. destruct carry; [now left|]. right. left.
      replace (if FORWARD then if FORWARD then Viable.bits_value nb else Viable.bits_value nb + 1
               else (if FORWARD then Viable.bits_value nb else Viable.bits_value nb + 1) - 1)
        with (Viable.bits_value nb) by (destruct FORWARD; lia).
      intros i Hi Hf. rewrite bits_value_testbit by lia.
      rewrite (F i Hi Hf).
      destruct (Viable.fixed_at fbi i); [reflexivity|contradiction|reflexivity].
Qed.

Lemma extend_by_bits_agrees_witness :
  (bits_agree (mk_fbi [l_undef; l_true; l_undef; l_false] [] []) 4 5 ->
   fst (fst (Viable.extend_by_bits true 4 5
               (mk_fbi [l_undef; l_true; l_undef; l_false] [] []) [] [])) = 5) /\
  (fst (fst (Viable.extend_by_bits true 4 5
               (mk_fbi [l_undef; l_true; l_undef; l_false] [] []) [] [])) = 0 \/
   bits_agree (mk_fbi [l_undef; l_true; l_undef; l_false] [] []) 4
     (fst (fst (Viable.extend_by_bits true 4 5
                  (mk_fbi [l_undef; l_true; l_undef; l_false] [] []) [] []))) \/
   fst (fst (Viable.extend_by_bits true 4 5
               (mk_fbi [l_undef; l_true; l_undef; l_false] [] []) [] [])) = 5).
Proof.
  apply (@extend_by_bits_agrees true 4 5
           (mk_fbi [l_undef; l_true; l_undef; l_false] [] []) [] []).
  discriminate.
Defined.

(** X7.  [refine_bits<true>] accepts a value exactly when there are no
    fixed bits or the value agrees with every fixed bit of the variable;
    otherwise it returns false (after intersecting the interval of the
    values it skips). *)
Theorem refine_bits_accepts_iff_bits_agree v val fbi s :
  fst (Viable.refine_bits true v val fbi s) = true <->
  fixed fbi = [] \/ bits_agree fbi (Viable.size s v) val.
Proof.
  rewrite refine_bits_true_iff. unfold bits_accept.
  destruct (Viable.fbi_is_empty fbi) eqn:He.
  { split; [left; now apply fbi_is_empty_iff|].
    intros _. unfold Viable.extend_by_bits. now rewrite He. }
  destruct (Viable.first_fail fbi val (Viable.size s v)) as [|i0] eqn:Hff.
  { split.
    - intros _. right. now apply first_fail_zero_iff.
    - intros _. unfold Viable.extend_by_bits. now rewrite He, Hff. }
  pose proof (first_fail_spec fbi val (Viable.size s v)) as Hs.
  rewrite Hff in Hs. destruct Hs as (Hi0 & Hfix & Hdis).
  split.
  - intros E. exfalso.
    destruct (@extend_by_bits_bits true (Viable.size s v) val fbi [] [] i0 He Hff)
      as (nb & carry & Er & L & F & C).
    rewrite Er in E. destruct carry.
    + (* overflow: the disagreeing bit is fixed to 0, so the bound is not 0 *)
      destruct (lbool_eqb (Viable.fixed_at fbi i0) l_false) eqn:Ef;
        [|specialize (C eq_refl); discriminate].
      apply lbool_eqb_eq in Ef. rewrite Ef in Hdis.
      subst val. unfold Viable.get_bit in Hdis. rewrite Z.bits_0 in Hdis.
      apply Hdis. reflexivity.
    + apply Hdis. rewrite <- E, bits_value_testbit by lia.
      rewrite (F i0 Hi0 Hfix).
      destruct (Viable.fixed_at fbi i0); [reflexivity|contradiction|reflexivity].
  - intros [E|A].
    + apply fbi_is_empty_iff in E. congruence.
    + apply first_fail_zero_iff in A. congruence.
Qed.

Lemma refine_bits_accepts_iff_bits_agree_witness :
  fst (Viable.refine_bits true 0%nat 10
         (mk_fbi [l_undef; l_true; l_undef; l_undef; l_undef; l_undef; l_undef; l_false]
            [] []) scenario_C) = true.
Proof.
  apply (proj2 (@refine_bits_accepts_iff_bits_agree 0%nat 10
    (mk_fbi [l_undef; l_true; l_undef; l_undef; l_undef; l_undef; l_undef; l_false]
       [] []) scenario_C)).
  right. intros i Hi Hf.
  change (Viable.size scenario_C 0%nat) with 8%nat in Hi.
  do 8 (destruct i as [|i]; [first [reflexivity | exfalso; apply Hf; reflexivity]|]).
  lia.
Defined.

(** ** [refine_equal_lin]: equations with an odd coefficient *)

Section OddEquation.
Import Numeral Viable.

Variables (N : nat) (a b : Z).
Hypothesis Ha : 0 < a < power_of_two N.
Hypothesis Hb : 0 <= b < power_of_two N.
Hypothesis Hodd : get_parity a N = O.

Let M := power_of_two N.

Lemma odd_modulus : 2 <= M.
Proof.
  subst M. destruct N as [|n].
  - change (power_of_two 0) with 1 in Ha. lia.
  - rewrite power_of_two_S. pose proof (power_of_two_pos n). lia.
Qed.

Lemma odd_coefficient_coprime : Z.coprime a M.
Proof.
  destruct (@get_parity_spec a N (proj1 Ha)) as [q [Ea [O Q]]].
  rewrite Hodd in Ea. change (power_of_two 0) with 1 in Ea.
  assert (a = q) by lia. subst q. now apply odd_coprime_pow2.
Qed.

(** The solution [viable.cpp] computes: [a_inv * b]. *)
Definition odd_solution : Z := (mult_inverse a N * b) mod M.

Lemma odd_solution_range : 0 <= odd_solution < M.
Proof. apply Z.mod_pos_bound. pose proof odd_modulus. lia. Qed.

Lemma odd_solution_solves : (a * odd_solution) mod M = b.
Proof.
  pose proof odd_modulus as HM. unfold odd_solution, mult_inverse. fold M.
  rewrite Z.mul_mod_idemp_r by lia.
  replace (a * (Z.invmod a M * b)) with ((Z.invmod a M * a) * b) by ring.
  rewrite <- Z.mul_mod_idemp_l by lia.
  rewrite (Z.invmod_coprime a M HM odd_coefficient_coprime).
  rewrite Z.mul_1_l. apply Z.mod_small. exact Hb.
Qed.

Lemma odd_solution_unique x :
  0 <= x < M -> (a * x) mod M = b -> x = odd_solution.
Proof.
  intros Hx Hs. pose proof odd_modulus as HM.
  pose proof odd_solution_range as Hr. pose proof odd_solution_solves as H0.
  assert (D : (M | a * (x - odd_solution))).
  { destruct (@mod_eq_diff (a * x) (a * odd_solution) M ltac:(lia)
                ltac:(congruence)) as [j Ej].
    exists j. lia. }
  apply Z.gauss in D.
  - destruct D as [j Ej]. assert (j = 0) by nia. lia.
  - rewrite Z.gcd_comm. exact odd_coefficient_coprime.
Qed.

End OddEquation.

(** X6.  An equal-linear entry standing for the equation [a * v == b]
    (its interval is [b + 1, b) modulo 2^N) with an odd coefficient: when
    [refine_equal_lin] meets it, it hands to [intersect] the interval that
    leaves out exactly one value, [a_inv * b] modulo 2^N, which is the one
    solution of the equation. *)
Theorem refine_equal_lin_odd_coefficient
    (v : pvar) (val : Z) (s : solver) (first : entry) (r : ring) (e : entry) :
  nth v (viable.m_equal_lin (m_viable s)) [] = first :: r ->
  find (Viable.equal_lin_hit (Viable.size s v) val) (first :: r) = Some e ->
  0 < coeff e < Numeral.power_of_two (Viable.size s v) ->
  0 <= e_hi e < Numeral.power_of_two (Viable.size s v) ->
  (e_hi e + 1) mod Numeral.power_of_two (Viable.size s v) = e_lo e ->
  Numeral.get_parity (coeff e) (Viable.size s v) = O ->
  exists x0,
    0 <= x0 < Numeral.power_of_two (Viable.size s v) /\
    (coeff e * x0) mod Numeral.power_of_two (Viable.size s v) = e_hi e /\
    (forall x, 0 <= x < Numeral.power_of_two (Viable.size s v) ->
       (coeff e * x) mod Numeral.power_of_two (Viable.size s v) = e_hi e ->
       x = x0) /\
    (exists id s1,
       Viable.refine_equal_lin v val s =
       (false,
        snd (Viable.intersect v
               (Viable.refined_entry id e
                  (Viable.equal_lin_interval (Viable.size s v) val e)) s1))) /\
    (forall x, 0 <= x < Numeral.power_of_two (Viable.size s v) ->
       (eval_interval.currently_contains
          (Viable.equal_lin_interval (Viable.size s v) val e) x = true
        <-> x <> x0)).
Proof.
  intros Hl Hfind Ha Hb Heq Hodd.
  set (N := Viable.size s v) in *. set (M := Numeral.power_of_two N) in *.
  exists (odd_solution N (coeff e) (e_hi e)).
  pose proof (@odd_solution_range N (coeff e) (e_hi e) Ha Hb Hodd) as Hr.
  pose proof (@odd_modulus N (coeff e) (e_hi e) Ha Hb Hodd) as HM. fold M in Hr, HM.
  split; [exact Hr|]. split; [now apply odd_solution_solves|].
  split; [intros x Hx Hs; now apply (@odd_solution_unique N (coeff e) (e_hi e))|].
  split.
  - unfold Viable.refine_equal_lin. rewrite Hl. fold N. rewrite Hfind.
    destruct (Viable.alloc_entry _) as [id vb1]. eexists _, _. reflexivity.
  - intros x Hx.
    assert (Ei : Viable.equal_lin_interval N val e =
      eval_interval.proper
        (mk_val ((odd_solution N (coeff e) (e_hi e) + 1) mod M))
        ((odd_solution N (coeff e) (e_hi e) + 1) mod M)
        (mk_val (odd_solution N (coeff e) (e_hi e)))
        (odd_solution N (coeff e) (e_hi e))).
    { unfold Viable.equal_lin_interval. fold M. rewrite Heq, Z.eqb_refl, Hodd.
      replace (Numeral.get_parity (e_hi e) N <? 0)%nat with false
        by (symmetry; apply Nat.ltb_ge; lia).
      reflexivity. }
    rewrite Ei, contains_proper.
    set (x0 := odd_solution N (coeff e) (e_hi e)) in *.
    destruct (Z.eq_dec (x0 + 1) M) as [E|NE].
    + rewrite E, Z_mod_same_full.
      destruct (Z.leb_spec 0 x0); [|lia].
      rewrite andb_true_iff, Z.leb_le, Z.ltb_lt. lia.
    + rewrite Z.mod_small by lia.
      destruct (Z.leb_spec (x0 + 1) x0); [lia|].
      rewrite orb_true_iff, Z.ltb_lt, Z.geb_le. lia.
Qed.

Lemma refine_equal_lin_odd_coefficient_witness :
  exists x0,
    0 <= x0 < 256 /\ (3 * x0) mod 256 = 1 /\
    (forall x, 0 <= x < 256 ->
       (eval_interval.currently_contains
          (Viable.equal_lin_interval 8 0 equation_3x_1) x = true <-> x <> x0)).
Proof.
  destruct (@refine_equal_lin_odd_coefficient 0%nat 0 scenario_B equation_3x_1 []
              equation_3x_1 eq_refl eq_refl
              ltac:(vm_compute; intuition congruence)
              ltac:(vm_compute; intuition congruence)
              eq_refl eq_refl) as (x0 & H1 & H2 & _ & _ & H5).
  exists x0. repeat split; try apply H1; try exact H2; apply H5; assumption.
Defined.

(** ** The extremal values [query_min], [query_max] and [query_find] find *)

Section Extremal.
Import eval_interval Viable.

(** Bounds that are values of the bit-width, as [eval_interval::proper]
    asserts. *)
Definition bounded (mx : Z) (l : ring) : Prop :=
  Forall (fun e => 0 <= e_lo e <= mx /\ 0 <= e_hi e <= mx) l.

Lemma bounded_nonneg mx l : bounded mx l -> nonneg l.
Proof. apply Forall_impl. intros e. lia. Qed.

Lemma contains_up e c x :
  contains_val e c = true -> c <= x < e_hi e -> contains_val e x = true.
Proof.
  unfold contains_val. rewrite !currently_contains_spec.
  unfold In_interval, e_hi. intros [F|H] Hx; [now left|right]. lia.
Qed.

Lemma contains_down e c x :
  contains_val e c = true -> e_lo e <= x <= c -> contains_val e x = true.
Proof.
  unfold contains_val. rewrite !currently_contains_spec.
  unfold In_interval, e_lo. intros [F|H] Hx; [now left|right]. lia.
Qed.

(** Walking up: every value below the current one is forbidden. *)
Lemma walk_lo_below (L : ring) : forall l c c' brk,
  incl l L -> walk_lo l c = (c', brk) ->
  (forall x, 0 <= x < c -> forbidden L x = true) ->
  forall x, 0 <= x < c' -> forbidden L x = true.
Proof.
  induction l as [|e r IH]; simpl; intros c c' brk Hin Hw Hc.
  - inversion Hw; subst. exact Hc.
  - destruct (contains_val e c) eqn:C; simpl in Hw.
    + apply (IH (e_hi e) c' brk); [intros y Hy; apply Hin; now right | exact Hw |].
      intros x Hx. destruct (Z_lt_ge_dec x c) as [Hlt|Hge]; [apply Hc; lia|].
      eapply forbidden_In; [apply Hin; now left|].
      eapply contains_up; [exact C | lia].
    + inversion Hw; subst. exact Hc.
Qed.

Lemma start_below first r x :
  0 <= x < (if contains_val (last r first) 0 then e_hi (last r first) else 0) ->
  forbidden (first :: r) x = true.
Proof.
  destruct (contains_val (last r first) 0) eqn:C; [|lia]. intros Hx.
  eapply forbidden_In; [|eapply contains_up; [exact C | lia]].
  destruct (snoc_cases r) as [->|(init & z & ->)]; [now left|].
  rewrite last_last. right. apply in_or_app. right. now left.
Qed.

(** Walking down: every value above the current one, up to the maximum, is
    forbidden. *)
Lemma walk_hi_above (L : ring) (mx : Z) : forall l h,
  incl l L ->
  (forall x, h < x <= mx -> forbidden L x = true) ->
  forall x, walk_hi l h < x <= mx -> forbidden L x = true.
Proof.
  induction l as [|e r IH]; simpl; intros h Hin Hh; [exact Hh|].
  destruct (contains_val e h) eqn:C; simpl; [|exact Hh].
  apply IH; [intros y Hy; apply Hin; now right|].
  intros x Hx. destruct (Z_lt_ge_dec h x) as [Hlt|Hge]; [apply Hh; lia|].
  eapply forbidden_In; [apply Hin; now left|].
  eapply contains_down; [exact C | lia].
Qed.

(** Where the walk down stops. *)
Lemma walk_hi_stop : forall rl h0,
  exists pre post, rl = pre ++ post /\
    walk_hi rl h0 = match rev pre with [] => h0 | p :: _ => e_lo p - 1 end /\
    match post with
    | [] => True
    | e :: _ => contains_val e (walk_hi rl h0) = false
    end.
Proof.
  induction rl as [|e r IH]; intros h0; simpl.
  - exists [], []. auto.
  - destruct (contains_val e h0) eqn:C; simpl.
    + destruct (IH (e_lo e - 1)) as (pre & post & -> & E & S).
      exists (e :: pre), post. split; [reflexivity|]. split; [|exact S].
      rewrite E. simpl. destruct (rev pre); reflexivity.
    + exists [], (e :: r). simpl. auto.
Qed.

Ltac pair_lia :=
  repeat match goal with
  | H : ok_pair ?a ?b |- _ => apply ok_pair_facts in H; [|assumption|assumption]
  end;
  repeat match goal with
  | H : proper_ok _ |- _ => clear H
  | H : In _ _ |- _ => clear H
  | H : bounded _ _ |- _ => clear H
  | H : forall _, _ |- _ => clear H
  end;
  unfold ok_facts, Cov, proper_nonempty in *; lia.

(** The maximum, when the last entry does not contain it. *)
Lemma max_free mx init z :
  proper_ok (init ++ [z]) -> bounded mx (init ++ [z]) ->
  contains_val z mx = false ->
  forbidden (init ++ [z]) mx = false.
Proof.
  intros Hok Hb Hz. apply forbidden_false. intros e He.
  assert (Pz : proper_nonempty z)
    by (eapply proper_ok_In; [exact Hok|apply in_or_app; right; now left]).
  assert (Pe : proper_nonempty e) by (eapply proper_ok_In; eauto).
  unfold bounded in Hb. rewrite Forall_forall in Hb.
  assert (Be := Hb e He).
  assert (Bz := Hb z ltac:(apply in_or_app; right; now left)).
  apply contains_val_not_Cov in Hz; [|apply Pz].
  apply in_app_or in He. destruct He as [He|[<-|[]]].
  - assert (Hez : ok_pair e z) by (eapply ok_pair_last; eauto).
    apply contains_val_not_Cov; [apply Pe|]. pair_lia.
  - apply contains_val_not_Cov; [apply Pz|]. exact Hz.
Qed.

(** The value just below an entry the walk went through, when the entry
    before it does not contain it and some value at or below it is free. *)
Lemma below_lo_free pre p q x0 :
  proper_ok (pre ++ p :: q) ->
  match rev pre with
  | [] => True
  | e :: _ => contains_val e (e_lo p - 1) = false
  end ->
  forbidden (pre ++ p :: q) x0 = false -> x0 <= e_lo p - 1 ->
  forbidden (pre ++ p :: q) (e_lo p - 1) = false.
Proof.
  intros Hok He Hx0 Hle. rewrite forbidden_false in Hx0.
  apply forbidden_false. intros x Hx.
  assert (Pp : proper_nonempty p)
    by (eapply proper_ok_In; [exact Hok|apply in_or_app; right; now left]).
  assert (Px : proper_nonempty x) by (eapply proper_ok_In; eauto).
  assert (Fx : ~ Cov x x0) by (apply contains_val_not_Cov; [apply Px|auto]).
  apply contains_val_not_Cov; [apply Px|].
  apply in_app_or in Hx. destruct Hx as [Hx|[<-|Hx]].
  - destruct (snoc_cases pre) as [->|(a & e & ->)]; [destruct Hx|].
    rewrite rev_app_distr in He. simpl in He.
    rewrite <- app_assoc in Hok. simpl in Hok.
    assert (Pe : proper_nonempty e)
      by (eapply proper_ok_In; [exact Hok|apply in_or_app; right; now left]).
    assert (Hep : ok_pair e p) by exact (@ok_pair_split a e [] p q Hok).
    apply contains_val_not_Cov in He; [|apply Pe].
    apply in_app_or in Hx. destruct Hx as [Hx|[<-|[]]]; [|exact He].
    apply in_split in Hx. destruct Hx as (a1 & a2 & ->).
    rewrite <- app_assoc in Hok. simpl in Hok.
    assert (H1 : ok_pair x e) by exact (@ok_pair_split a1 x a2 e (p :: q) Hok).
    assert (H2 : ok_pair x p) by exact (@ok_pair_split a1 x (a2 ++ [e]) p q
      ltac:(rewrite <- app_assoc; exact Hok)).
    pair_lia.
  - pair_lia.
  - apply in_split in Hx. destruct Hx as (b1 & b2 & ->).
    assert (H1 : ok_pair p x) by exact (@ok_pair_split pre p b1 x b2 Hok).
    pair_lia.
Qed.

(** The value the walk down stops at is free, when some value is. *)
Lemma walk_hi_free mx l x0 :
  proper_ok l -> bounded mx l ->
  forbidden l x0 = false -> 0 <= x0 <= mx ->
  forbidden l (walk_hi (rev l) mx) = false /\ x0 <= walk_hi (rev l) mx <= mx.
Proof.
  intros Hok Hb Hx0 Hr.
  assert (Habove : forall x, walk_hi (rev l) mx < x <= mx -> forbidden l x = true).
  { apply walk_hi_above; [|intros x Hx; lia].
    intros y Hy. now apply in_rev. }
  assert (Hle : x0 <= walk_hi (rev l) mx).
  { destruct (Z_le_gt_dec x0 (walk_hi (rev l) mx)) as [H|H]; [exact H|].
    rewrite Habove in Hx0 by lia. discriminate. }
  destruct (walk_hi_stop (rev l) mx) as (pre & post & El & Eh & Hs).
  assert (E : l = rev post ++ rev pre)
    by (rewrite <- rev_app_distr, <- El, rev_involutive; reflexivity).
  destruct (rev pre) as [|p q] eqn:Ep.
  - rewrite Eh. split; [|lia].
    rewrite app_nil_r in E. destruct post as [|z post'].
    + subst l. reflexivity.
    + simpl in E. rewrite Eh in Hs. subst l. now apply max_free.
  - assert (Hup : walk_hi (rev l) mx <= mx).
    { rewrite Eh. unfold bounded in Hb. rewrite Forall_forall in Hb.
      assert (Bp := Hb p ltac:(rewrite E; apply in_or_app; right; now left)). lia. }
    split; [|lia]. rewrite Eh in *. rewrite E in *.
    apply below_lo_free with (x0 := x0); auto.
    rewrite rev_involutive. exact Hs.
Qed.

Lemma full_forbids first r x :
  is_full (interval first) = true -> forbidden (first :: r) x = true.
Proof.
  intros F. eapply forbidden_In; [now left|].
  apply currently_contains_spec. now left.
Qed.

(** The value the walk up stops at is free, when some value is. *)
Lemma walk_lo_free first r x0 :
  ring_ok (first :: r) -> nonneg (first :: r) ->
  forbidden (first :: r) x0 = false ->
  forbidden (first :: r)
    (fst (walk_lo (first :: r)
            (if contains_val (last r first) 0 then e_hi (last r first) else 0)))
  = false.
Proof.
  intros Hok Hn Hx0.
  destruct (is_full (interval first)) eqn:F.
  { rewrite full_forbids in Hx0 by exact F. discriminate. }
  pose proof (ring_ok_proper Hok F) as Hp.
  destruct (walk_lo (first :: r)
     (if contains_val (last r first) 0 then e_hi (last r first) else 0))
    as [lo brk] eqn:W.
  cbn [fst]. apply (@walk_free first r lo brk Hp Hn W).
  destruct brk as [e|].
  - exact (proj1 (walk_break _ _ W)).
  - destruct (contains_val first lo) eqn:C; [|reflexivity].
    rewrite (@walk_around_covers first r _ lo x0 W C) in Hx0. discriminate.
Qed.

Lemma walk_lo_bounded mx : forall l c,
  bounded mx l -> 0 <= c <= mx -> 0 <= fst (walk_lo l c) <= mx.
Proof.
  induction l as [|e r IH]; simpl; intros c Hn Hc; [exact Hc|].
  inversion Hn as [|? ? [_ He] Hr]; subst.
  destruct (contains_val e c); simpl; [apply IH; auto | exact Hc].
Qed.

(** The bounds [query_find] arrives at, on a well-formed list with bounds
    in range. *)
Lemma find_bounds_extremal l mx lo hi :
  ring_ok l -> bounded mx l -> 0 <= mx ->
  find_bounds l mx = Some (lo, hi) ->
  forbidden l lo = false /\ forbidden l hi = false /\
  0 <= lo <= hi /\ hi <= mx /\
  (forall x, hi < x <= mx -> forbidden l x = true) /\
  (lo = hi -> forall x, 0 <= x <= mx -> x <> lo -> forbidden l x = true).
Proof.
  intros Hok Hb Hmx Hf.
  pose proof (@find_bounds_free l mx lo hi Hok (bounded_nonneg Hb) Hf) as Hlo.
  revert Hf. destruct l as [|first r]; unfold find_bounds.
  { intros H. injection H as <- <-. repeat split; try reflexivity; try lia. }
  destruct (is_full (interval first)) eqn:F; [discriminate|].
  pose proof (ring_ok_proper Hok F) as Hp.
  assert (Bl : 0 <= e_lo (last r first) <= mx /\ 0 <= e_hi (last r first) <= mx).
  { unfold bounded in Hb. rewrite Forall_forall in Hb. apply Hb.
    destruct (snoc_cases r) as [->|(init & z & ->)]; [now left|].
    rewrite last_last. right. apply in_or_app. right. now left. }
  destruct ((e_lo (last r first) <? e_hi (last r first)) &&
            (e_hi (last r first) <? mx)) eqn:Q.
  - intros H. injection H as <- <-.
    apply andb_prop in Q. destruct Q as [Q1 Q2].
    apply Z.ltb_lt in Q1. apply Z.ltb_lt in Q2.
    split; [exact Hlo|]. split; [|repeat split; try lia; intros; lia].
    assert (El : exists init, first :: r = init ++ [last r first]).
    { destruct (snoc_cases r) as [->|(init & z & ->)]; [exists []; reflexivity|].
      rewrite last_last. exists (first :: init). reflexivity. }
    destruct El as [init El]. rewrite El in *.
    apply max_free; auto.
    apply contains_val_not_Cov.
    + eapply proper_ok_In; [exact Hp|]. apply in_or_app. right. now left.
    + unfold Cov. lia.
  - set (lo1 := if contains_val (last r first) 0 then e_hi (last r first) else 0).
    pose proof (@walk_lo_bounded mx (first :: r) lo1 Hb
                  ltac:(subst lo1; destruct (contains_val (last r first) 0); lia))
      as Hwb.
    pose proof (fun brk W => @walk_lo_below (first :: r) (first :: r) lo1 lo brk
                  (fun y Hy => Hy) W (fun x Hx => @start_below first r x Hx))
      as Hbelow.
    destruct (walk_lo (first :: r) lo1) as [lo' brk] eqn:W. cbn [fst] in Hwb.
    destruct (contains_val match brk with Some e => e | None => first end lo');
      [discriminate|].
    intros H. injection H as <- <-.
    destruct (@walk_hi_free mx (first :: r) lo' Hp Hb Hlo Hwb) as [H1 H2].
    change (rev r ++ [first]) with (rev (first :: r)).
    split; [exact Hlo|]. split; [exact H1|]. split; [lia|]. split; [lia|].
    split.
    + apply walk_hi_above; [|intros x Hx; lia].
      intros y Hy. now apply in_rev.
    + intros E x Hx Hne. destruct (Z_lt_ge_dec x lo') as [Hlt|Hge].
      * apply (Hbelow brk eq_refl). lia.
      * apply walk_hi_above with (mx := mx) (l := rev (first :: r)) (h := mx);
          [intros y Hy; now apply in_rev | intros y Hy; lia | lia].
Qed.

End Extremal.

(** X11.  [query_min]: when it answers [l_true], every value from 0 up to
    the value [lo] it found is contained in a unit entry and refinement
    accepts [lo]; on a well-formed list with bounds that are not negative,
    [lo] is the least value no unit entry contains, if there is one. *)
Theorem query_min_least v fbi s :
  fst (fst (Viable.query_min v fbi s)) = l_true ->
  let lo := snd (fst (Viable.query_min v fbi s)) in
  (forall x, 0 <= x < lo -> forbidden (Viable.unit_entries s v) x = true) /\
  accepts true v lo fbi s /\
  (ring_ok (Viable.unit_entries s v) -> nonneg (Viable.unit_entries s v) ->
   forall x0, forbidden (Viable.unit_entries s v) x0 = false ->
     forbidden (Viable.unit_entries s v) lo = false).
Proof.
  unfold Viable.query_min.
  destruct (Viable.unit_entries s v) as [|first r].
  - pose proof (refine_viable_true_iff true v 0 fbi s) as A.
    destruct (fst (Viable.refine_viable true v 0 fbi s)); cbn [negb fst snd];
      [|discriminate].
    intros _. split; [intros x Hx; lia|]. split; [now apply A|reflexivity].
  - set (lo1 := if Viable.contains_val (last r first) 0
                then e_hi (last r first) else 0).
    pose proof (refine_viable_true_iff true v
                  (fst (Viable.walk_lo (first :: r) lo1)) fbi s) as A.
    destruct (fst (Viable.refine_viable true v
                     (fst (Viable.walk_lo (first :: r) lo1)) fbi s));
      cbn [negb fst snd]; [|discriminate].
    intros _. split; [|split; [now apply A|]].
    + destruct (Viable.walk_lo (first :: r) lo1) as [lo brk] eqn:W. cbn [fst].
      apply (@walk_lo_below (first :: r) (first :: r) lo1 lo brk
               (fun y Hy => Hy) W).
      intros x Hx. now apply start_below.
    + intros Hok Hn x0 Hx0. now apply walk_lo_free with (x0 := x0).
Qed.

(** X12.  [query_max]: when it answers [l_true], every value above the
    value [hi] it found, up to the maximum of the bit-width, is contained in
    a unit entry and refinement accepts [hi]; on a well-formed list with
    bounds in range, [hi] is the greatest value no unit entry contains, if
    there is one. *)
Theorem query_max_greatest v fbi s :
  fst (fst (Viable.query_max v fbi s)) = l_true ->
  let hi := snd (fst (Viable.query_max v fbi s)) in
  (forall x, hi < x <= Viable.max_value s v ->
     forbidden (Viable.unit_entries s v) x = true) /\
  accepts false v hi fbi s /\
  (ring_ok (Viable.unit_entries s v) ->
   bounded (Viable.max_value s v) (Viable.unit_entries s v) ->
   forall x0, 0 <= x0 <= Viable.max_value s v ->
     forbidden (Viable.unit_entries s v) x0 = false ->
     forbidden (Viable.unit_entries s v) hi = false /\ x0 <= hi).
Proof.
  unfold Viable.query_max.
  destruct (Viable.unit_entries s v) as [|first r] eqn:El.
  - pose proof (refine_viable_true_iff false v (Viable.max_value s v) fbi s) as A.
    destruct (fst (Viable.refine_viable false v (Viable.max_value s v) fbi s));
      cbn [negb fst snd]; [|discriminate].
    intros _. split; [intros x Hx; lia|]. split; [now apply A|].
    intros _ _ x0 Hx0 _. split; [reflexivity|lia].
  - pose proof (refine_viable_true_iff false v
                  (Viable.walk_hi (rev (first :: r)) (Viable.max_value s v)) fbi s)
      as A.
    destruct (fst (Viable.refine_viable false v
                     (Viable.walk_hi (rev (first :: r)) (Viable.max_value s v))
                     fbi s));
      cbn [negb fst snd]; [|discriminate].
    intros _. split; [|split; [now apply A|]].
    + apply walk_hi_above; [|intros x Hx; lia].
      intros y Hy. now apply in_rev.
    + intros Hok Hb x0 Hr Hx0.
      destruct (eval_interval.is_full (interval first)) eqn:F.
      { rewrite full_forbids in Hx0 by exact F. discriminate. }
      pose proof (ring_ok_proper Hok F) as Hp.
      destruct (@walk_hi_free (Viable.max_value s v) (first :: r) x0 Hp Hb Hx0 Hr)
        as [H1 H2].
      split; [exact H1|lia].
Qed.

(** X13.  [query_find] on a well-formed unit list with bounds in range:
    when it answers [l_true] with [lo] and [hi], no unit entry contains [lo]
    or [hi], [lo <= hi], every value above [hi] is contained in a unit
    entry, and refinement accepts both; when [lo = hi], which is when
    [find_viable] answers [singleton], every other value of the bit-width is
    contained in a unit entry. *)
Theorem query_find_bounds_extremal v fbi s :
  ring_ok (Viable.unit_entries s v) ->
  bounded (Viable.max_value s v) (Viable.unit_entries s v) ->
  fst (fst (Viable.query_find v fbi s)) = l_true ->
  let lo := fst (snd (fst (Viable.query_find v fbi s))) in
  let hi := snd (snd (fst (Viable.query_find v fbi s))) in
  forbidden (Viable.unit_entries s v) lo = false /\
  forbidden (Viable.unit_entries s v) hi = false /\
  0 <= lo <= hi /\ hi <= Viable.max_value s v /\
  (forall x, hi < x <= Viable.max_value s v ->
     forbidden (Viable.unit_entries s v) x = true) /\
  (lo = hi -> forall x, 0 <= x <= Viable.max_value s v -> x <> lo ->
     forbidden (Viable.unit_entries s v) x = true) /\
  accepts true v lo fbi s /\ accepts false v hi fbi s.
Proof.
  intros Hok Hb Ht. cbv zeta.
  pose proof (query_find_bounds v fbi s) as B.
  destruct (find_bounds (Viable.unit_entries s v) (Viable.max_value s v))
    as [[lo hi]|] eqn:Fb.
  2:{ rewrite (proj1 B) in Ht. discriminate. }
  destruct (@find_bounds_extremal _ _ lo hi Hok Hb (max_value_nonneg s v) Fb)
    as (H1 & H2 & H3 & H4 & H5 & H6).
  rewrite B in *. unfold refine_both in *.
  pose proof (refine_viable_true_iff true v lo fbi s) as A1.
  pose proof (@refine_viable_state true v lo fbi s ltac:(lia)) as (S1 & _ & _).
  destruct (Viable.refine_viable true v lo fbi s) as [b1 s1].
  cbn [fst snd] in *. destruct b1; cbn [negb] in *; [|discriminate].
  pose proof (refine_viable_true_iff false v hi fbi s1) as A2.
  destruct (Viable.refine_viable false v hi fbi s1) as [b2 s2].
  cbn [fst snd] in *. destruct b2; cbn [negb fst snd] in *; [|discriminate].
  split; [exact H1|]. split; [exact H2|]. split; [exact H3|].
  split; [exact H4|]. split; [exact H5|]. split; [exact H6|].
  split; [now apply A1|].
  exact (@accepts_same false v hi fbi s1 s (same_constraints_sym S1)
           (proj1 A2 eq_refl)).
Qed.

(** One variable of width 4 whose unit list forbids [2, 5) and [12, 3). *)
Definition two_intervals_state : solver :=
  mk_solver
    (viable.mk [] 2 [[layer.mk 4 [unit_entry 0 2 5; unit_entry 1 12 3]]] [[]] [[]] [])
    (viable_fallback.mk [[]]) conflict_empty [] [] [] [0] [unassigned] [[]]
    [4%nat] [] 0 0 [] [] [] 0 0 0 0 0 0.

Lemma two_intervals_ok : ring_ok (Viable.unit_entries two_intervals_state 0%nat).
Proof. apply well_formed_iff_ring_ok. reflexivity. Qed.

Lemma two_intervals_bounded :
  bounded (Viable.max_value two_intervals_state 0%nat)
    (Viable.unit_entries two_intervals_state 0%nat).
Proof. repeat constructor; vm_compute; congruence. Qed.

Lemma query_min_least_witness :
  (forall x, 0 <= x < 5 ->
     forbidden (Viable.unit_entries two_intervals_state 0%nat) x = true) /\
  forbidden (Viable.unit_entries two_intervals_state 0%nat) 5 = false.
Proof.
  destruct (@query_min_least 0%nat (mk_fbi [] [] []) two_intervals_state eq_refl)
    as (H1 & _ & H3).
  split; [exact H1|].
  exact (H3 two_intervals_ok (bounded_nonneg two_intervals_bounded) 5 eq_refl).
Defined.

Lemma query_max_greatest_witness :
  (forall x, 11 < x <= 15 ->
     forbidden (Viable.unit_entries two_intervals_state 0%nat) x = true) /\
  forbidden (Viable.unit_entries two_intervals_state 0%nat) 11 = false.
Proof.
  destruct (@query_max_greatest 0%nat (mk_fbi [] [] []) two_intervals_state eq_refl)
    as (H1 & _ & H3).
  split; [exact H1|].
  exact (proj1 (H3 two_intervals_ok two_intervals_bounded 7
                  ltac:(vm_compute; intuition congruence) eq_refl)).
Defined.

Lemma query_find_bounds_extremal_witness :
  forbidden (Viable.unit_entries two_intervals_state 0%nat) 5 = false /\
  forbidden (Viable.unit_entries two_intervals_state 0%nat) 11 = false /\
  (forall x, 11 < x <= 15 ->
     forbidden (Viable.unit_entries two_intervals_state 0%nat) x = true).
Proof.
  destruct (@query_find_bounds_extremal 0%nat (mk_fbi [] [] []) two_intervals_state
              two_intervals_ok two_intervals_bounded eq_refl)
    as (H1 & H2 & _ & _ & H5 & _).
  split; [exact H1|]. split; [exact H2|exact H5].
Defined.

(** ** viable.cpp: [has_upper_bound], [has_lower_bound], [has_viable] *)

Module ViableBounds.
Import eval_interval Viable.

Definition is_nil {A} (l : list A) : bool :=
  match l with [] => true | _ => false end.

(** The running state of the two loops: the bound found so far, the
    constraints that justify it, and [found]. *)
Definition bound_state : Type := Z * list signed_constraint * bool.

(** The body of the inner loop of [has_upper_bound].  [lo()] and [hi()] of a
    full interval are undefined in the source; here they read as the
    constant 0, with which neither branch is taken. *)
Definition upper_step (st : bound_state) (e : entry) : bound_state :=
  let '(out_hi, out_c, found) := st in
  if negb (refined e) && is_nil (side_cond e) then
    let lo := sym_lo (interval e) in
    let hi := sym_hi (interval e) in
    if is_val lo && is_val hi then
      if is_nil out_c && (val lo >? val hi) then
        (val lo - 1, out_c ++ src e, true)
      else if negb (is_nil out_c) && (val lo <=? out_hi) && (out_hi <? val hi) then
        (val lo - 1, out_c ++ src e, true)
      else st
    else st
  else st.

(** The body of the inner loop of [has_lower_bound]. *)
Definition lower_step (st : bound_state) (e : entry) : bound_state :=
  let '(out_lo, out_c, found) := st in
  if negb (refined e) && is_nil (side_cond e) then
    let lo := sym_lo (interval e) in
    let hi := sym_hi (interval e) in
    if is_val lo && is_val hi then
      if is_nil out_c && negb (val hi =? 0)
         && ((val lo =? 0) || (val lo >? val hi)) then
        (val hi, out_c ++ src e, true)
      else if negb (is_nil out_c) && (val lo <=? out_lo) && (out_lo <? val hi) then
        (val hi, out_c ++ src e, true)
      else st
    else st
  else st.

(** [do { found = false; do { ... } while (e != first); } while (found);]
    The fuel bounds the passes over the list. *)
Fixpoint bound_rounds (step : bound_state -> entry -> bound_state) (fuel : nat)
    (l : ring) (out : Z) (out_c : list signed_constraint)
  : option (Z * list signed_constraint) :=
  match fuel with
  | O => None
  | S fuel' =>
      let '(out', out_c', found) := fold_left step l (out, out_c, false) in
      if found then bound_rounds step fuel' l out' out_c'
      else Some (out', out_c')
  end.

Definition has_bound (step : bound_state -> entry -> bound_state) (fuel : nat)
    (v : pvar) (out : Z) (s : solver)
  : option (bool * Z * list signed_constraint) :=
  match unit_entries s v with
  | [] => Some (false, out, [])
  | l =>
      match bound_rounds step fuel l out [] with
      | None => None
      | Some (out', out_c) => Some (negb (is_nil out_c), out', out_c)
      end
  end.

(** [viable::has_upper_bound]; [out_hi] is the caller's variable. *)
Definition has_upper_bound (fuel : nat) (v : pvar) (out_hi : Z) (s : solver)
  : option (bool * Z * list signed_constraint) :=
  has_bound upper_step fuel v out_hi s.

(** [viable::has_lower_bound] *)
Definition has_lower_bound (fuel : nat) (v : pvar) (out_lo : Z) (s : solver)
  : option (bool * Z * list signed_constraint) :=
  has_bound lower_step fuel v out_lo s.

(** The walk of [has_viable] from node [e], whose successors up to the end
    of the list are [rest]: the value to check, or [None] for
    [return false]. *)
Fixpoint has_viable_walk (first e : entry) (rest : ring) : option Z :=
  if is_full (interval e) then None
  else
    match rest with
    | [] =>                                   (* n == first *)
        if negb (contains_val first (e_hi e)) then Some (e_hi e)
        else if e_lo e >? e_hi e then None
        else Some (e_hi e)
    | n :: rest' =>
        if negb (contains_val n (e_hi e)) then Some (e_hi e)
        else has_viable_walk first n rest'
    end.

(** The part of [has_viable] between the label [refined] and
    [CHECK_RETURN]. *)
Definition has_viable_candidate (l : ring) : option Z :=
  match l with
  | [] => Some 0
  | first :: r =>
      if is_full (interval first) then None
      else
        let last := last r first in
        if e_lo last <? e_hi last then Some (e_hi last)
        else
          match r with
          | [] => Some (e_hi first)            (* n == e *)
          | _ :: _ => has_viable_walk first first r
          end
  end.

Section HasViable.
Variable collect_bits : pvar -> solver -> fixed_bits_info + list literal.

(** [CHECK_RETURN(val)] and [goto refined]; the source sets no limit to the
    number of refinements, the fuel counts them. *)
Fixpoint has_viable_loop (fuel : nat) (v : pvar) (fbi : fixed_bits_info)
    (s : solver) : option (bool * solver) :=
  match fuel with
  | O => None
  | S fuel' =>
      match has_viable_candidate (unit_entries s v) with
      | None => Some (false, s)
      | Some val =>
          let r := refine_viable true v val fbi s in
          if fst r then Some (true, snd r)
          else has_viable_loop fuel' v fbi (snd r)
      end
  end.

(** [viable::has_viable] *)
Definition has_viable (fuel : nat) (v : pvar) (s : solver)
  : option (bool * solver) :=
  let '(ok, fbi, s1) := collect_bit_information collect_bits v false s in
  if negb ok then Some (false, s1)
  else has_viable_loop fuel v fbi s1.

End HasViable.

End ViableBounds.

(** *** The passes of [has_upper_bound] and [has_lower_bound] *)

Section BoundRounds.
Import eval_interval Viable ViableBounds.

Variable step : bound_state -> entry -> bound_state.
Variable l : ring.

(** A potential that every update of the bound decreases, and a property
    of the bound and its justification that every update keeps. *)
Variable potential : Z -> list signed_constraint -> nat.
Variable good : Z -> list signed_constraint -> Prop.

Hypothesis step_progress : forall e out out_c found,
  In e l ->
  step (out, out_c, found) e = (out, out_c, found) \/
  exists out' out_c',
    step (out, out_c, found) e = (out', out_c', true) /\
    (potential out' out_c' < potential out out_c)%nat.

Hypothesis step_good : forall e out out_c found,
  In e l -> good out out_c ->
  good (fst (fst (step (out, out_c, found) e)))
       (snd (fst (step (out, out_c, found) e))).

Lemma fold_progress : forall l' out out_c found,
  incl l' l ->
  let r := fold_left step l' (out, out_c, found) in
  (potential (fst (fst r)) (snd (fst r)) <= potential out out_c)%nat /\
  (snd r = true ->
   found = true \/
   (potential (fst (fst r)) (snd (fst r)) < potential out out_c)%nat) /\
  (good out out_c -> good (fst (fst r)) (snd (fst r))).
Proof.
  induction l' as [|e l' IH]; intros out out_c found Hin; simpl.
  - repeat split; auto.
  - assert (He : In e l) by (apply Hin; now left).
    assert (Hin' : incl l' l) by (intros y Hy; apply Hin; now right).
    pose proof (@step_good e out out_c found He) as G.
    destruct (@step_progress e out out_c found He) as [E|(o' & c' & E & Hlt)];
      rewrite E in *; cbn [fst snd] in G.
    + destruct (IH out out_c found Hin') as (H1 & H2 & H3). auto.
    + destruct (IH o' c' true Hin') as (H1 & H2 & H3).
      split; [lia|]. split; [intros _; right; lia|]. auto.
Qed.

Lemma bound_rounds_total : forall fuel out out_c,
  (potential out out_c < fuel)%nat -> good out out_c ->
  exists out' out_c',
    bound_rounds step fuel l out out_c = Some (out', out_c') /\
    good out' out_c'.
Proof.
  induction fuel as [|fuel IH]; intros out out_c Hp Hg; [lia|].
  simpl.
  destruct (@fold_progress l out out_c false (fun y Hy => Hy)) as (H1 & H2 & H3).
  destruct (fold_left step l (out, out_c, false)) as [[o' c'] f'].
  cbn [fst snd] in *. destruct f'.
  - apply IH; [|auto]. destruct (H2 eq_refl) as [C|C]; [discriminate|lia].
  - exists o', c'. auto.
Qed.

End BoundRounds.

Section Bounds.
Import eval_interval Viable ViableBounds.

(** A bound that is a constant evaluates to the constant. *)
Definition reads_back (e : entry) : Prop :=
  (is_val (sym_lo (interval e)) = true -> val (sym_lo (interval e)) = e_lo e) /\
  (is_val (sym_hi (interval e)) = true -> val (sym_hi (interval e)) = e_hi e).

Lemma filter_length_mono {A} (p q : A -> bool) (l : list A) :
  (forall x, q x = true -> p x = true) ->
  (length (filter q l) <= length (filter p l))%nat.
Proof.
  intros H. induction l as [|x l IH]; simpl; [lia|].
  destruct (q x) eqn:Q; [rewrite (H x Q); simpl; lia|].
  destruct (p x); simpl; lia.
Qed.

Lemma filter_length_strict {A} (p q : A -> bool) (l : list A) e :
  (forall x, q x = true -> p x = true) ->
  In e l -> p e = true -> q e = false ->
  (length (filter q l) < length (filter p l))%nat.
Proof.
  intros H. induction l as [|x l IH]; [intros []|].
  intros [<-|He] Pe Qe; simpl.
  - rewrite Pe, Qe. simpl. pose proof (filter_length_mono p q l H). lia.
  - specialize (IH He Pe Qe).
    destruct (q x) eqn:Q; [rewrite (H x Q); simpl; lia|].
    destruct (p x); simpl; lia.
Qed.

Lemma full_symbolic i :
  is_full i = true -> sym_lo i = mk_val 0 /\ sym_hi i = mk_val 0.
Proof.
  unfold is_full, interval.is_full, sym_lo, sym_hi.
  destruct (m_symbolic i); [discriminate|auto].
Qed.

Lemma is_nil_app {A} (a b : list A) : b <> [] -> is_nil (a ++ b) = false.
Proof. destruct a, b; simpl; congruence. Qed.

Lemma is_nil_false {A} (a : list A) : is_nil a = false <-> a <> [].
Proof. destruct a; simpl; split; congruence. Qed.

Variable l : ring.
Hypothesis Hsrc : forall e, In e l -> src e <> [].
Hypothesis Hread : forall e, In e l -> reads_back e.

(** The interval of an entry that the loops may use and whose constraints
    are among [c] contains [x]. *)
Definition covered_by (c : list signed_constraint) (x : Z) : Prop :=
  exists e, In e l /\ refined e = false /\ side_cond e = [] /\
            incl (src e) c /\ contains_val e x = true.

(** Every constraint of [c] comes from an entry that the loops may use. *)
Definition justified (c : list signed_constraint) : Prop :=
  forall sc, In sc c ->
    exists e, In e l /\ In sc (src e) /\ refined e = false /\ side_cond e = [].

Definition upper_good (out0 out_hi : Z) (c : list signed_constraint) : Prop :=
  (c <> [] -> forall x, out_hi < x -> covered_by c x) /\
  justified c /\ (c = [] -> out_hi = out0).

Definition lower_good (out0 out_lo : Z) (c : list signed_constraint) : Prop :=
  (c <> [] -> forall x, 0 <= x < out_lo -> covered_by c x) /\
  justified c /\ (c = [] -> out_lo = out0).

Definition upper_potential (out_hi : Z) (c : list signed_constraint) : nat :=
  if is_nil c then S (length l)
  else length (filter (fun e => val (sym_lo (interval e)) <=? out_hi) l).

Definition lower_potential (out_lo : Z) (c : list signed_constraint) : nat :=
  if is_nil c then S (length l)
  else length (filter (fun e => out_lo <? val (sym_hi (interval e))) l).

Lemma justified_app c e :
  In e l -> refined e = false -> side_cond e = [] ->
  justified c -> justified (c ++ src e).
Proof.
  intros He Hr Hs Hc sc Hsc. apply in_app_or in Hsc.
  destruct Hsc as [Hsc|Hsc]; [now apply Hc|]. exists e. auto.
Qed.

Lemma covered_by_app c c' x : covered_by c x -> covered_by (c ++ c') x.
Proof.
  intros (e & He & Hr & Hs & Hi & Hc). exists e.
  repeat split; auto. now apply incl_appl.
Qed.

Lemma covered_by_entry c e x :
  In e l -> refined e = false -> side_cond e = [] ->
  is_full (interval e) = false ->
  (e_lo e <= e_hi e /\ e_lo e <= x < e_hi e) \/
  (e_hi e < e_lo e /\ (x < e_hi e \/ e_lo e <= x)) ->
  covered_by (c ++ src e) x.
Proof.
  intros He Hr Hs F H. exists e. repeat split; auto.
  - apply incl_appr, incl_refl.
  - now apply contains_val_Cov.
Qed.

Lemma app_src_nonempty c e : In e l -> c ++ src e = [] -> False.
Proof.
  intros He H. apply app_eq_nil in H. destruct H as [_ H].
  now apply (Hsrc e He).
Qed.

Lemma upper_step_progress e out out_c found :
  In e l ->
  upper_step (out, out_c, found) e = (out, out_c, found) \/
  exists out' out_c',
    upper_step (out, out_c, found) e = (out', out_c', true) /\
    (upper_potential out' out_c' < upper_potential out out_c)%nat.
Proof.
  intros He. unfold upper_step.
  destruct (negb (refined e) && is_nil (side_cond e)); [|now left].
  destruct (is_val (sym_lo (interval e)) && is_val (sym_hi (interval e)));
    [|now left].
  destruct (is_nil out_c) eqn:En; cbn [andb negb].
  - destruct (val (sym_lo (interval e)) >? val (sym_hi (interval e)));
      [|now left].
    right. eexists _, _. split; [reflexivity|].
    unfold upper_potential. rewrite En.
    rewrite is_nil_app by (now apply Hsrc).
    apply Nat.lt_succ_r, filter_length_le.
  - destruct ((val (sym_lo (interval e)) <=? out) &&
              (out <? val (sym_hi (interval e)))) eqn:C; [|now left].
    right. eexists _, _. split; [reflexivity|].
    unfold upper_potential. rewrite En.
    rewrite is_nil_app by (now apply Hsrc).
    apply andb_prop in C. destruct C as [C1 C2].
    apply filter_length_strict with (e := e); auto.
    + intros x Hx. apply Z.leb_le in Hx. apply Z.leb_le in C1.
      apply Z.leb_le. lia.
    + apply Z.leb_gt. lia.
Qed.

Lemma upper_step_good out0 e out out_c found :
  In e l -> upper_good out0 out out_c ->
  upper_good out0 (fst (fst (upper_step (out, out_c, found) e)))
             (snd (fst (upper_step (out, out_c, found) e))).
Proof.
  intros He (G & J & K). unfold upper_step.
  destruct (negb (refined e) && is_nil (side_cond e)) eqn:E1;
    [|repeat split; assumption].
  apply andb_prop in E1. destruct E1 as [Er Es].
  apply negb_true_iff in Er.
  assert (Es' : side_cond e = []) by (destruct (side_cond e); [auto|discriminate]).
  destruct (is_val (sym_lo (interval e)) && is_val (sym_hi (interval e))) eqn:E2;
    [|repeat split; assumption].
  apply andb_prop in E2. destruct E2 as [Vl Vh].
  destruct (is_full (interval e)) eqn:F.
  { destruct (full_symbolic _ F) as [-> ->]. simpl.
    rewrite andb_false_r.
    destruct (negb (is_nil out_c) && (0 <=? out) && (out <? 0)) eqn:C;
      [exfalso|repeat split; assumption].
    apply andb_prop in C. destruct C as [C C2]. apply andb_prop in C.
    destruct C as [_ C1]. lia. }
  destruct (Hread e He) as [Rl Rh]. rewrite (Rl Vl), (Rh Vh).
  destruct (is_nil out_c) eqn:En; cbn [andb negb].
  - destruct (Z.gtb_spec (e_lo e) (e_hi e)) as [Hw|Hw]; cbn [fst snd];
      [|repeat split; assumption].
    split; [|split; [now apply justified_app|]].
    + intros _ x Hx. apply covered_by_entry; auto. lia.
    + intros H. now apply app_src_nonempty in H.
  - destruct ((e_lo e <=? out) && (out <? e_hi e)) eqn:C; cbn [fst snd];
      [|repeat split; assumption].
    apply andb_prop in C. destruct C as [C1 C2].
    split; [|split; [now apply justified_app|]].
    + intros _ x Hx. destruct (Z_lt_ge_dec out x) as [Hlt|Hge].
      * apply covered_by_app, G; [now apply is_nil_false|exact Hlt].
      * apply covered_by_entry; auto. lia.
    + intros H. now apply app_src_nonempty in H.
Qed.

Lemma lower_step_progress e out out_c found :
  In e l ->
  lower_step (out, out_c, found) e = (out, out_c, found) \/
  exists out' out_c',
    lower_step (out, out_c, found) e = (out', out_c', true) /\
    (lower_potential out' out_c' < lower_potential out out_c)%nat.
Proof.
  intros He. unfold lower_step.
  destruct (negb (refined e) && is_nil (side_cond e)); [|now left].
  destruct (is_val (sym_lo (interval e)) && is_val (sym_hi (interval e)));
    [|now left].
  destruct (is_nil out_c) eqn:En; cbn [andb negb].
  - destruct (negb (val (sym_hi (interval e)) =? 0) &&
              ((val (sym_lo (interval e)) =? 0)
               || (val (sym_lo (interval e)) >? val (sym_hi (interval e)))));
      [|now left].
    right. eexists _, _. split; [reflexivity|].
    unfold lower_potential. rewrite En.
    rewrite is_nil_app by (now apply Hsrc).
    apply Nat.lt_succ_r, filter_length_le.
  - destruct ((val (sym_lo (interval e)) <=? out) &&
              (out <? val (sym_hi (interval e)))) eqn:C; [|now left].
    right. eexists _, _. split; [reflexivity|].
    unfold lower_potential. rewrite En.
    rewrite is_nil_app by (now apply Hsrc).
    apply andb_prop in C. destruct C as [C1 C2].
    apply filter_length_strict with (e := e); auto.
    + intros x Hx. apply Z.ltb_lt in Hx. apply Z.ltb_lt in C2.
      apply Z.ltb_lt. lia.
    + apply Z.ltb_ge. lia.
Qed.

Lemma lower_step_good out0 e out out_c found :
  In e l -> lower_good out0 out out_c ->
  lower_good out0 (fst (fst (lower_step (out, out_c, found) e)))
             (snd (fst (lower_step (out, out_c, found) e))).
Proof.
  intros He (G & J & K). unfold lower_step.
  destruct (negb (refined e) && is_nil (side_cond e)) eqn:E1;
    [|repeat split; assumption].
  apply andb_prop in E1. destruct E1 as [Er Es].
  apply negb_true_iff in Er.
  assert (Es' : side_cond e = []) by (destruct (side_cond e); [auto|discriminate]).
  destruct (is_val (sym_lo (interval e)) && is_val (sym_hi (interval e))) eqn:E2;
    [|repeat split; assumption].
  apply andb_prop in E2. destruct E2 as [Vl Vh].
  destruct (is_full (interval e)) eqn:F.
  { destruct (full_symbolic _ F) as [-> ->]. simpl.
    rewrite andb_false_r.
    destruct (negb (is_nil out_c) && (0 <=? out) && (out <? 0)) eqn:C;
      [exfalso|repeat split; assumption].
    apply andb_prop in C. destruct C as [C C2]. apply andb_prop in C.
    destruct C as [_ C1]. lia. }
  destruct (Hread e He) as [Rl Rh]. rewrite (Rl Vl), (Rh Vh).
  destruct (is_nil out_c) eqn:En; cbn [andb negb].
  - destruct (negb (e_hi e =? 0) && ((e_lo e =? 0) || (e_lo e >? e_hi e))) eqn:C;
      cbn [fst snd]; [|repeat split; assumption].
    apply andb_prop in C. destruct C as [C1 C2].
    split; [|split; [now apply justified_app|]].
    + intros _ x Hx. apply covered_by_entry; auto.
      apply orb_prop in C2. destruct C2 as [C2|C2].
      * apply Z.eqb_eq in C2. lia.
      * apply Z.gtb_lt in C2. lia.
    + intros H. now apply app_src_nonempty in H.
  - destruct ((e_lo e <=? out) && (out <? e_hi e)) eqn:C; cbn [fst snd];
      [|repeat split; assumption].
    apply andb_prop in C. destruct C as [C1 C2].
    split; [|split; [now apply justified_app|]].
    + intros _ x Hx. destruct (Z_lt_ge_dec x out) as [Hlt|Hge].
      * apply covered_by_app, G; [now apply is_nil_false|lia].
      * apply covered_by_entry; auto. lia.
    + intros H. now apply app_src_nonempty in H.
Qed.

Lemma upper_rounds out0 :
  exists out' out_c',
    bound_rounds upper_step (length l + 2) l out0 [] = Some (out', out_c') /\
    upper_good out0 out' out_c'.
Proof.
  apply (@bound_rounds_total upper_step l upper_potential (upper_good out0)).
  - intros e out out_c found He. now apply upper_step_progress.
  - intros e out out_c found He. now apply upper_step_good.
  - unfold upper_potential. simpl. lia.
  - repeat split; [congruence|intros sc []].
Qed.

Lemma lower_rounds out0 :
  exists out' out_c',
    bound_rounds lower_step (length l + 2) l out0 [] = Some (out', out_c') /\
    lower_good out0 out' out_c'.
Proof.
  apply (@bound_rounds_total lower_step l lower_potential (lower_good out0)).
  - intros e out out_c found He. now apply lower_step_progress.
  - intros e out out_c found He. now apply lower_step_good.
  - unfold lower_potential. simpl. lia.
  - repeat split; [congruence|intros sc []].
Qed.

End Bounds.

(** X14.  [has_upper_bound] stops after at most one pass per entry and one
    more; when it reports a bound, every value above the bound lies in the
    interval of an entry whose constraints were put into [out_c], and
    [out_c] holds only constraints of entries that are not refined and
    have no side condition; when it reports none, [out_hi] is left as it
    was and [out_c] is empty.  The entries are assumed to carry at least
    one constraint and to have constant bounds equal to their values. *)
Theorem has_upper_bound_justified (fuel : nat) (v : pvar) (out_hi : Z) (s : solver) :
  (forall e, In e (Viable.unit_entries s v) -> src e <> []) ->
  (forall e, In e (Viable.unit_entries s v) -> reads_back e) ->
  (length (Viable.unit_entries s v) + 1 < fuel)%nat ->
  exists found hi c,
    ViableBounds.has_upper_bound fuel v out_hi s = Some (found, hi, c) /\
    (found = true ->
     forall x, hi < x -> covered_by (Viable.unit_entries s v) c x) /\
    justified (Viable.unit_entries s v) c /\
    (found = false -> hi = out_hi /\ c = []).
Proof.
  intros Hsrc Hread Hfuel.
  unfold ViableBounds.has_upper_bound, ViableBounds.has_bound.
  destruct (Viable.unit_entries s v) as [|e0 l0] eqn:El.
  - exists false, out_hi, []. repeat split; [discriminate|intros sc []].
  - destruct (@bound_rounds_total ViableBounds.upper_step (e0 :: l0)
                (upper_potential (e0 :: l0)) (upper_good (e0 :: l0) out_hi)
                (fun e out out_c found He =>
                   @upper_step_progress (e0 :: l0) Hsrc e out out_c found He)
                (fun e out out_c found He =>
                   @upper_step_good (e0 :: l0) Hsrc Hread out_hi e out out_c found He)
                fuel out_hi [])
      as (o & c & E & G & J & K).
    + unfold upper_potential. cbn [ViableBounds.is_nil]. simpl length in *. lia.
    + repeat split; [congruence|intros sc []].
    + rewrite E. exists (negb (ViableBounds.is_nil c)), o, c.
      split; [reflexivity|]. split; [|split; [exact J|]].
      * intros Hf. apply G. destruct c; [discriminate|congruence].
      * intros Hf. destruct c; [auto|discriminate].
Qed.

(** X15.  [has_lower_bound] likewise: when it reports a bound, every value
    from 0 up to the bound (the bound excluded) lies in the interval of an
    entry whose constraints were put into [out_c]. *)
Theorem has_lower_bound_justified (fuel : nat) (v : pvar) (out_lo : Z) (s : solver) :
  (forall e, In e (Viable.unit_entries s v) -> src e <> []) ->
  (forall e, In e (Viable.unit_entries s v) -> reads_back e) ->
  (length (Viable.unit_entries s v) + 1 < fuel)%nat ->
  exists found lo c,
    ViableBounds.has_lower_bound fuel v out_lo s = Some (found, lo, c) /\
    (found = true ->
     forall x, 0 <= x < lo -> covered_by (Viable.unit_entries s v) c x) /\
    justified (Viable.unit_entries s v) c /\
    (found = false -> lo = out_lo /\ c = []).
Proof.
  intros Hsrc Hread Hfuel.
  unfold ViableBounds.has_lower_bound, ViableBounds.has_bound.
  destruct (Viable.unit_entries s v) as [|e0 l0] eqn:El.
  - exists false, out_lo, []. repeat split; [discriminate|intros sc []].
  - destruct (@bound_rounds_total ViableBounds.lower_step (e0 :: l0)
                (lower_potential (e0 :: l0)) (lower_good (e0 :: l0) out_lo)
                (fun e out out_c found He =>
                   @lower_step_progress (e0 :: l0) Hsrc e out out_c found He)
                (fun e out out_c found He =>
                   @lower_step_good (e0 :: l0) Hsrc Hread out_lo e out out_c found He)
                fuel out_lo [])
      as (o & c & E & G & J & K).
    + unfold lower_potential. cbn [ViableBounds.is_nil]. simpl length in *. lia.
    + repeat split; [congruence|intros sc []].
    + rewrite E. exists (negb (ViableBounds.is_nil c)), o, c.
      split; [reflexivity|]. split; [|split; [exact J|]].
      * intros Hf. apply G. destruct c; [discriminate|congruence].
      * intros Hf. destruct c; [auto|discriminate].
Qed.

(** A variable of width 4 whose unit list forbids [2, 5) because of
    constraint 0 and [12, 3) because of constraint 1. *)
Definition source_entry (id : nat) (l h : Z) : entry :=
  mk_entry id [mk_sc id true] [] 1
    (eval_interval.proper (mk_val l) l (mk_val h) h) 4 false id.

Definition two_sources_state : solver :=
  mk_solver
    (viable.mk [] 2 [[layer.mk 4 [source_entry 0 2 5; source_entry 1 12 3]]] [[]] [[]] [])
    (viable_fallback.mk [[]]) conflict_empty [] [] [] [0] [unassigned] [[]]
    [4%nat] [] 0 0 [] [] [] 0 0 0 0 0 0.

Lemma two_sources_src e :
  In e (Viable.unit_entries two_sources_state 0%nat) -> src e <> [].
Proof. intros [<-|[<-|[]]]; discriminate. Qed.

Lemma two_sources_reads_back e :
  In e (Viable.unit_entries two_sources_state 0%nat) -> reads_back e.
Proof. intros [<-|[<-|[]]]; split; reflexivity. Qed.

Lemma has_upper_bound_justified_witness :
  exists found hi c,
    ViableBounds.has_upper_bound 4 0%nat 0 two_sources_state = Some (found, hi, c) /\
    (found = true ->
     forall x, hi < x ->
       covered_by (Viable.unit_entries two_sources_state 0%nat) c x) /\
    justified (Viable.unit_entries two_sources_state 0%nat) c /\
    (found = false -> hi = 0 /\ c = []).
Proof.
  apply (@has_upper_bound_justified 4 0%nat 0 two_sources_state).
  - exact two_sources_src.
  - exact two_sources_reads_back.
  - vm_compute. lia.
Defined.

Lemma has_lower_bound_justified_witness :
  exists found lo c,
    ViableBounds.has_lower_bound 4 0%nat 0 two_sources_state = Some (found, lo, c) /\
    (found = true ->
     forall x, 0 <= x < lo ->
       covered_by (Viable.unit_entries two_sources_state 0%nat) c x) /\
    justified (Viable.unit_entries two_sources_state 0%nat) c /\
    (found = false -> lo = 0 /\ c = []).
Proof.
  apply (@has_lower_bound_justified 4 0%nat 0 two_sources_state).
  - exact two_sources_src.
  - exact two_sources_reads_back.
  - vm_compute. lia.
Defined.

Example two_sources_bounds :
  ViableBounds.has_upper_bound 4 0%nat 0 two_sources_state
    = Some (true, 11, [mk_sc 1 true]) /\
  ViableBounds.has_lower_bound 4 0%nat 0 two_sources_state
    = Some (true, 5, [mk_sc 1 true; mk_sc 0 true]).
Proof. split; reflexivity. Qed.

(** *** [has_viable] *)

Section HasViableCandidate.
Import eval_interval Viable ViableBounds.

Lemma last_cons_default {A} : forall (rest : list A) n e,
  last (n :: rest) e = last rest n.
Proof.
  induction rest as [|m rest IH]; intros n e; [reflexivity|].
  change (last (n :: m :: rest) e) with (last (m :: rest) e).
  rewrite !IH. reflexivity.
Qed.

Lemma last_in_cons {A} : forall (r : list A) a, In (last r a) (a :: r).
Proof.
  induction r as [|m r IH]; intros a; [now left|].
  rewrite last_cons_default. right. apply IH.
Qed.

Lemma has_viable_walk_spec first : forall rest e,
  (forall x, In x (e :: rest) -> is_full (interval x) = false) ->
  has_viable_walk first e rest =
    match walk_lo rest (e_hi e) with
    | (c, Some _) => Some c
    | (c, None) =>
        if negb (contains_val first c) then Some c
        else if e_lo (last rest e) >? e_hi (last rest e) then None
        else Some c
    end.
Proof.
  induction rest as [|n rest IH]; intros e Hf.
  - simpl. rewrite (Hf e (or_introl eq_refl)). reflexivity.
  - cbn [has_viable_walk walk_lo]. rewrite (Hf e (or_introl eq_refl)).
    destruct (negb (contains_val n (e_hi e))); [reflexivity|].
    rewrite IH by (intros x Hx; apply Hf; now right).
    destruct (walk_lo rest (e_hi n)) as [c [m|]]; [reflexivity|].
    rewrite last_cons_default. reflexivity.
Qed.

Lemma proper_not_full l x : proper_ok l -> In x l -> is_full (interval x) = false.
Proof. intros H Hx. exact (proj1 (@proper_ok_In l x H Hx)). Qed.

Lemma proper_own_hi e : proper_nonempty e -> e_hi e < e_lo e ->
  contains_val e (e_hi e) = false.
Proof.
  intros [F N] H. apply contains_val_not_Cov; [exact F|]. unfold Cov. lia.
Qed.

Lemma proper_own_lo e : proper_nonempty e -> contains_val e (e_lo e) = true.
Proof.
  intros [F N]. apply contains_val_Cov; [exact F|]. unfold Cov. lia.
Qed.

(** The value that [has_viable] checks lies in no interval of the list. *)
Lemma has_viable_candidate_free l val :
  ring_ok l -> has_viable_candidate l = Some val -> forbidden l val = false.
Proof.
  intros Hok. destruct l as [|first r]; unfold has_viable_candidate.
  - intros H. inversion H. reflexivity.
  - destruct (is_full (interval first)) eqn:F; [discriminate|].
    pose proof (@ring_ok_proper first r Hok F) as Hp.
    destruct (Z.ltb_spec (e_lo (last r first)) (e_hi (last r first))) as [Q|Q].
    { intros H. inversion H; subst. now apply quick_hi_free. }
    assert (Pl : proper_nonempty (last r first)).
    { apply (@proper_ok_In (first :: r) _ Hp), last_in_cons. }
    destruct r as [|n r'].
    { intros H. inversion H; subst. simpl in *.
      apply (@last_hi_free first [] Hp). simpl.
      apply proper_own_hi; [exact Pl|]. destruct Pl. lia. }
    rewrite has_viable_walk_spec
      by (intros x Hx; exact (@proper_not_full _ x Hp Hx)).
    destruct (walk_lo (n :: r') (e_hi first)) as [c [m|]] eqn:W.
    + intros H. inversion H; subst.
      destruct (@walk_break _ _ _ _ W) as (Hc & pre & post & El & Ec).
      destruct (snoc_cases pre) as [->|(init & p & ->)].
      * simpl in Ec, El. subst val. rewrite El in *.
        apply (@break_hi_free [] first m post); [exact Hp|exact Hc].
      * rewrite rev_app_distr in Ec. simpl in Ec. subst val.
        rewrite El in *. rewrite <- app_assoc in *. simpl app in *.
        apply (@break_hi_free (first :: init) p m post); [exact Hp|exact Hc].
    + pose proof (@walk_none _ _ _ W) as Ec.
      destruct (rev_head_last n r') as [q Eq].
      rewrite Eq in Ec.
      pose proof (last_cons_default r' n first) as Ell.
      rewrite Ell in *. subst c.
      destruct (contains_val first (e_hi (last r' n))) eqn:Cf; cbn [negb].
      * destruct (Z.gtb_spec (e_lo (last r' n)) (e_hi (last r' n))) as [G|G];
          [discriminate|]. destruct Pl. lia.
      * intros H. inversion H; subst.
        pose proof (@last_hi_free first (n :: r') Hp) as L.
        rewrite Ell in L. now apply L.
Qed.
End HasViableCandidate.

Section HasViableAnswer.
Import eval_interval Viable ViableBounds.

Lemma has_viable_walk_hi first val : forall rest e,
  has_viable_walk first e rest = Some val ->
  exists x, In x (e :: rest) /\ val = e_hi x.
Proof.
  induction rest as [|n rest IH]; intros e; cbn [has_viable_walk];
    (destruct (is_full (interval e)); [discriminate|]).
  - destruct (negb (contains_val first (e_hi e)));
      [|destruct (e_lo e >? e_hi e); [discriminate|]];
      intros H; inversion H; exists e; split; auto; now left.
  - destruct (negb (contains_val n (e_hi e))).
    + intros H; inversion H; exists e; split; auto; now left.
    + intros H. destruct (IH n H) as (x & Hx & E). exists x. split; [now right|exact E].
Qed.

Lemma has_viable_candidate_nonneg l val :
  nonneg l -> has_viable_candidate l = Some val -> 0 <= val.
Proof.
  intros Hn. unfold nonneg in Hn. rewrite Forall_forall in Hn.
  destruct l as [|first r]; unfold has_viable_candidate.
  - intros H. inversion H. lia.
  - destruct (is_full (interval first)); [discriminate|].
    destruct (e_lo (last r first) <? e_hi (last r first)).
    { intros H. inversion H. apply Hn, last_in_cons. }
    destruct r as [|n r'].
    { intros H. inversion H. apply Hn. now left. }
    intros H. destruct (has_viable_walk_hi _ _ _ H) as (x & Hx & ->).
    now apply Hn.
Qed.

(** Without a value to check, every value lies in an interval of the
    list. *)
Lemma has_viable_candidate_none l x :
  ring_ok l -> has_viable_candidate l = None -> forbidden l x = true.
Proof.
  intros Hok. destruct l as [|first r]; unfold has_viable_candidate; [discriminate|].
  destruct (is_full (interval first)) eqn:F.
  { intros _. apply existsb_exists. exists first. split; [now left|].
    apply currently_contains_spec. now left. }
  pose proof (@ring_ok_proper first r Hok F) as Hp.
  destruct (e_lo (last r first) <? e_hi (last r first)); [discriminate|].
  destruct r as [|n r']; [discriminate|].
  rewrite has_viable_walk_spec
    by (intros y Hy; exact (@proper_not_full _ y Hp Hy)).
  destruct (walk_lo (n :: r') (e_hi first)) as [c [m|]] eqn:W; [discriminate|].
  destruct (contains_val first c) eqn:Cf; cbn [negb]; [|discriminate].
  intros _.
  apply (@walk_around_covers first (n :: r') (e_lo first) c x); [|exact Cf].
  change (walk_lo (first :: n :: r') (e_lo first))
    with (if negb (contains_val first (e_lo first))
          then (e_lo first, Some first) else walk_lo (n :: r') (e_hi first)).
  rewrite proper_own_lo; [exact W|].
  apply (@proper_ok_In (first :: n :: r') first Hp). now left.
Qed.

Variable collect_bits : pvar -> solver -> fixed_bits_info + list literal.

(** What an answer of the loop of [has_viable] means for the state it
    leaves. *)
Lemma has_viable_loop_sound v fbi : forall fuel s b s',
  query_inv v s ->
  has_viable_loop fuel v fbi s = Some (b, s') ->
  same_constraints v s s' /\ query_inv v s' /\
  (b = true ->
   exists val, 0 <= val /\ forbidden (unit_entries s' v) val = false /\
               accepts true v val fbi s') /\
  (b = false -> forall x, forbidden (unit_entries s' v) x = true).
Proof.
  induction fuel as [|fuel IH]; intros s b s' Q; [discriminate|].
  cbn [has_viable_loop].
  destruct (has_viable_candidate (unit_entries s v)) as [val|] eqn:C.
  - pose proof (@has_viable_candidate_nonneg _ val (qi_nonneg Q) C) as Hv.
    pose proof (@has_viable_candidate_free _ val (qi_ok Q) C) as Hf.
    pose proof (@refine_viable_state true v val fbi s ltac:(lia)) as (R1 & R2 & R3).
    pose proof (refine_viable_true_iff true v val fbi s) as R4.
    destruct (refine_viable true v val fbi s) as [ok s1]. cbn [fst snd] in *.
    destruct ok.
    + intros H. inversion H; subst. split; [exact R1|]. split; [exact (R3 Q)|].
      split; [|discriminate]. intros _. exists val. split; [exact Hv|].
      rewrite (@same_unit_entries v s s' (sc_size R1) (R2 eq_refl)).
      split; [exact Hf|].
      apply (@accepts_same true v val fbi s s' R1). now apply R4.
    + intros H. destruct (IH s1 b s' (R3 Q) H) as (I1 & I2 & I3 & I4).
      split; [exact (same_constraints_trans R1 I1)|]. auto.
  - intros H. inversion H; subst. split; [apply same_constraints_refl|].
    split; [exact Q|]. split; [discriminate|].
    intros _ x. exact (@has_viable_candidate_none _ x (qi_ok Q) C).
Qed.

End HasViableAnswer.

(** X16.  When [has_viable] returns for a variable whose unit list is
    well-formed, it answers true exactly when [is_viable] accepts some value
    in the state that [has_viable] leaves, the bit information being the
    same there. *)
Theorem has_viable_iff_some_value_viable
    (collect_bits : pvar -> solver -> fixed_bits_info + list literal)
    (fuel : nat) (v : pvar) (s : solver) (b : bool) (s' : solver) :
  query_inv v s ->
  ViableBounds.has_viable collect_bits fuel v s = Some (b, s') ->
  collect_bits v s' = collect_bits v s ->
  (b = true <-> exists val, fst (Viable.is_viable collect_bits v val s') = true).
Proof.
  intros Q H Hc. unfold ViableBounds.has_viable, Viable.collect_bit_information in H.
  destruct (collect_bits v s) as [fbi|lits] eqn:Cb; cbn [negb] in H.
  - destruct (@has_viable_loop_sound v fbi fuel s b s' Q H) as (S1 & Q' & T & F).
    split.
    + intros Hb. destruct (T Hb) as (val & _ & Hf & Acc). exists val.
      exact (@is_viable_accepted collect_bits v val s' fbi Hc (qi_ok Q') Hf Acc).
    + intros (val & Hv). destruct b; [reflexivity|].
      rewrite (@is_viable_forbidden collect_bits v val s' (qi_ok Q') (F eq_refl val)) in Hv.
      discriminate.
  - inversion H; subst. split; [discriminate|]. intros (val & Hv).
    unfold Viable.is_viable, Viable.collect_bit_information in Hv.
    rewrite Cb in Hv. discriminate.
Qed.

(** The state [has_viable] leaves on the equation [3 * x = 1] of width 8:
    it first checks 0, refines, and then checks 171. *)
Definition scenario_B_checked : solver :=
  match ViableBounds.has_viable no_bits 2 0%nat scenario_B with
  | Some (_, s') => s'
  | None => scenario_B
  end.

Lemma has_viable_iff_some_value_viable_witness :
  ViableBounds.has_viable no_bits 2 0%nat scenario_B = Some (true, scenario_B_checked) /\
  (true = true <->
   exists val, fst (Viable.is_viable no_bits 0%nat val scenario_B_checked) = true).
Proof.
  split; [vm_compute; reflexivity|].
  apply (@has_viable_iff_some_value_viable no_bits 2 0%nat scenario_B true
           scenario_B_checked).
  - split.
    + constructor.
    + right. split; constructor.
    + constructor.
    + intros e [].
  - vm_compute. reflexivity.
  - reflexivity.
Defined.

(** ** Watch lists: [erase_watch] *)

Section EraseWatch.
Import Solver.
Local Open Scope nat_scope.

Lemma count_watch_cons sc x l :
  count_watch sc (x :: l) = (if sc_eqb sc x then 1 else 0) + count_watch sc l.
Proof. unfold count_watch. simpl. destruct (sc_eqb sc x); reflexivity. Qed.

Lemma count_watch_unsnoc sc l r b :
  unsnoc l = Some (r, b) ->
  count_watch sc l = count_watch sc (b :: r).
Proof.
  intros H. apply unsnoc_Some in H. subst l.
  rewrite count_watch_snoc, count_watch_cons. lia.
Qed.

(** Erasing [c] from a list takes out one occurrence of [c], if there is
    one, and keeps every other constraint as often as it was there. *)
Lemma count_erase_from c c' : forall w,
  count_watch c' (erase_from c w) =
  count_watch c' w - (if sc_eqb c' c then Nat.min 1 (count_watch c w) else 0).
Proof.
  induction w as [|x r IH]; [simpl; destruct (sc_eqb c' c); reflexivity|].
  cbn [erase_from]. destruct (sc_eqb c x) eqn:E.
  - apply sc_eqb_eq in E. subst x.
    rewrite !count_watch_cons, sc_eqb_refl.
    destruct (unsnoc r) as [[r' b]|] eqn:U.
    + rewrite <- (@count_watch_unsnoc c' r r' b U).
      destruct (sc_eqb c' c); simpl; lia.
    + apply unsnoc_None in U. subst r.
      destruct (sc_eqb c' c); reflexivity.
  - rewrite !count_watch_cons, IH, E.
    destruct (sc_eqb c' c) eqn:E'; [|lia].
    apply sc_eqb_eq in E'. subst c'. rewrite E. simpl. lia.
Qed.

(** The element pushed last is the one that is popped, also when the
    constraint was on the list before. *)
Lemma erase_from_snoc c : forall w, erase_from c (w ++ [c]) = w.
Proof.
  induction w as [|x r IH].
  - simpl. now rewrite sc_eqb_refl.
  - cbn [app erase_from]. destruct (sc_eqb c x) eqn:E.
    + apply sc_eqb_eq in E. subst x. now rewrite unsnoc_app.
    + now rewrite IH.
Qed.

Lemma set_nth_set_nth {A} (x y : A) : forall l n,
  set_nth n y (set_nth n x l) = set_nth n y l.
Proof. induction l as [|a l IH]; intros [|n]; simpl; auto. now rewrite IH. Qed.

Lemma set_nth_nth {A} (d : A) : forall l n, set_nth n (nth n l d) l = l.
Proof.
  induction l as [|a l IH]; intros [|n]; simpl; auto. now rewrite IH.
Qed.

Lemma set_m_pwatch_same s : set_m_pwatch (m_pwatch s) s = s.
Proof. destruct s; reflexivity. Qed.

Lemma set_m_pwatch_twice P Q s : set_m_pwatch Q (set_m_pwatch P s) = set_m_pwatch Q s.
Proof. reflexivity. Qed.

Lemma erase_add_var v c s :
  v < length (m_pwatch s) ->
  erase_watch_var v c (add_watch_var c v s) = s.
Proof.
  intros Hv. unfold erase_watch_var, add_watch_var.
  rewrite set_m_pwatch_twice.
  change (m_pwatch (set_m_pwatch ?P s)) with P.
  rewrite nth_set_nth_same by exact Hv.
  rewrite erase_from_snoc.
  rewrite set_nth_set_nth, set_nth_nth. apply set_m_pwatch_same.
Qed.

Lemma add_watch_var_length c v s :
  length (m_pwatch (add_watch_var c v s)) = length (m_pwatch s).
Proof. unfold add_watch_var. simpl. apply length_set_nth. Qed.

Lemma list_sum_count_nth sc (P : list (list signed_constraint)) :
  forall v x, v < length P ->
  list_sum (map (count_watch sc) (set_nth v x P)) + count_watch sc (nth v P [])
  = list_sum (map (count_watch sc) P) + count_watch sc x.
Proof.
  induction P as [|w P IH]; intros [|v] x Hv; simpl in *; try lia.
  specialize (IH v x ltac:(lia)). lia.
Qed.

Lemma set_nth_out {A} (x : A) : forall l n, length l <= n -> set_nth n x l = l.
Proof.
  induction l as [|a l IH]; intros [|n] H; simpl in *; auto; try lia.
  now rewrite IH by lia.
Qed.

Lemma erase_var_other v c c' s :
  c' <> c -> num_watches (erase_watch_var v c s) c' = num_watches s c'.
Proof.
  intros Hne. rewrite !num_watches_sum. unfold erase_watch_var.
  change (m_pwatch (set_m_pwatch ?P s)) with P.
  destruct (Nat.lt_ge_cases v (length (m_pwatch s))) as [Hv|Hv].
  - pose proof (@list_sum_count_nth c' (m_pwatch s) v
                  (erase_from c (nth v (m_pwatch s) [])) Hv) as H.
    rewrite count_erase_from, (@sc_eqb_neq c' c Hne) in H. lia.
  - now rewrite set_nth_out by exact Hv.
Qed.

Lemma erase_var_constraints v c s :
  m_constraints (erase_watch_var v c s) = m_constraints s.
Proof. reflexivity. Qed.

Lemma add_var_constraints v c s :
  m_constraints (add_watch_var c v s) = m_constraints s.
Proof. reflexivity. Qed.

Lemma set_nth_comm {A} (x y : A) : forall l n m, n <> m ->
  set_nth n x (set_nth m y l) = set_nth m y (set_nth n x l).
Proof.
  induction l as [|a l IH]; intros [|n] [|m] H; simpl; auto; try lia.
  now rewrite IH by lia.
Qed.

(** Erasing on the list of one variable and adding on the list of another
    do not interfere. *)
Lemma erase_add_comm v w c c' s :
  v <> w ->
  erase_watch_var v c (add_watch_var c' w s) =
  add_watch_var c' w (erase_watch_var v c s).
Proof.
  intros Hne. unfold erase_watch_var, add_watch_var.
  rewrite !set_m_pwatch_twice.
  change (m_pwatch (set_m_pwatch ?P s)) with P.
  rewrite (@nth_set_nth_other _ w v _ [] (m_pwatch s)) by congruence.
  rewrite (@nth_set_nth_other _ v w _ [] (m_pwatch s)) by congruence.
  rewrite set_nth_comm by exact Hne. reflexivity.
Qed.

End EraseWatch.

(** X17.  [erase_watch] never changes how often another constraint is
    watched, although it moves the last element of a watch list into the
    place of the erased one. *)
Theorem erase_watch_keeps_other_constraints (s : solver) (c c' : signed_constraint) :
  c' <> c ->
  Solver.num_watches (Solver.erase_watch c s) c' = Solver.num_watches s c'.
Proof.
  intros Hne. unfold Solver.erase_watch.
  destruct (vars (Solver.cnstr s c)) as [|v0 [|v1 vs]]; [reflexivity| |].
  - now apply erase_var_other.
  - rewrite erase_var_other by exact Hne. now apply erase_var_other.
Qed.

(** X18.  [erase_watch] undoes [add_watch]: when the first two variables of
    the constraint are variables of the solver, adding the watches and
    erasing them again gives back the solver state, every watch list in its
    old order, whether or not the constraint was watched before. *)
Theorem erase_watch_undoes_add_watch (s : solver) (c : signed_constraint) :
  (forall v, In v (firstn 2 (vars (Solver.cnstr s c))) ->
     (v < length (m_pwatch s))%nat) ->
  Solver.erase_watch c (Solver.add_watch c s) = s.
Proof.
  intros Hv. unfold Solver.erase_watch, Solver.add_watch, Solver.cnstr.
  change (Solver.cnstr s c) with (nth (bvar c) (m_constraints s) (mk_constraint [] false)) in *.
  destruct (vars (nth (bvar c) (m_constraints s) (mk_constraint [] false)))
    as [|v0 [|v1 vs]] eqn:Ev.
  - rewrite Ev. reflexivity.
  - rewrite add_var_constraints, Ev.
    exact (@erase_add_var v0 c s (Hv v0 (or_introl eq_refl))).
  - rewrite !add_var_constraints, Ev.
    pose proof (Hv v0 (or_introl eq_refl)) as H0.
    pose proof (Hv v1 (or_intror (or_introl eq_refl))) as H1.
    destruct (Nat.eq_dec v0 v1) as [<-|Hne].
    + rewrite (@erase_add_var v0 c (Solver.add_watch_var c v0 s))
        by (rewrite add_watch_var_length; exact H0).
      exact (@erase_add_var v0 c s H0).
    + rewrite (@erase_add_comm v0 v1 c c (Solver.add_watch_var c v0 s) Hne).
      rewrite (@erase_add_var v0 c s H0).
      exact (@erase_add_var v1 c s H1).
Qed.

(** ** Levels and scopes: what [pop_levels] and [pop] give back *)

Section Undo.
Import Solver.

Lemma pop_var_push_var vb : Viable.pop_var (Viable.push_var vb) = vb.
Proof.
  destruct vb. unfold Viable.pop_var, Viable.push_var. simpl.
  now rewrite !removelast_snoc.
Qed.

Lemma existsb_eqb_false v l :
  (forall x, In x l -> (x < v)%nat) -> existsb (Nat.eqb v) l = false.
Proof.
  intros H. apply not_true_iff_false. intros E.
  apply existsb_exists in E. destruct E as (x & Hx & Ex).
  apply Nat.eqb_eq in Ex. subst x. specialize (H v Hx). lia.
Qed.

Lemma filter_other v l :
  (forall x, In x l -> (x < v)%nat) ->
  filter (fun x => negb (x =? v)%nat) (l ++ [v]) = l.
Proof.
  intros H. rewrite filter_app. simpl. rewrite Nat.eqb_refl. simpl.
  rewrite app_nil_r. induction l as [|a l IH]; [reflexivity|].
  simpl. destruct (Nat.eqb_spec a v) as [->|N].
  - specialize (H v (or_introl eq_refl)). lia.
  - simpl. f_equal. apply IH. intros x Hx. apply H. now right.
Qed.

(** [del_var] takes back everything [add_var] did but the trail item. *)
Lemma del_var_add_var sz s :
  (forall x, In x (m_free_pvars s) -> (x < length (m_value s))%nat) ->
  del_var (add_var sz s) = set_m_trail (m_trail s ++ [add_var_i]) s.
Proof.
  intros Hf.
  destruct s as [vi vf cf bv cs fp va ju pw sz' se qh lv tr qt bl nc nr cr rt ri lu].
  cbn [m_free_pvars m_value] in Hf.
  cbv [del_var add_var unassign_var_eh del_var_eh
       set_m_value set_m_justification set_m_viable set_m_pwatch set_m_size
       set_m_trail set_m_free_pvars
       m_viable m_viable_fallback m_conflict m_bvars m_constraints m_free_pvars
       m_value m_justification m_pwatch m_size m_search m_qhead m_level
       m_trail m_qhead_trail m_base_levels m_num_conflicts m_num_restarts
       m_conflicts_at_restart m_restart_threshold m_restart_init m_luby_idx].
  rewrite (existsb_eqb_false _ Hf).
  rewrite !removelast_snoc, pop_var_push_var.
  rewrite length_app. cbn [length].
  replace (length va + 1 - 1)%nat with (length va) by lia.
  f_equal. exact (@filter_other (length va) fp Hf).
Qed.

Lemma u32_dec_inc x : 0 <= x < 2 ^ 32 - 1 -> u32 (u32 (x + 1) - 1) = x.
Proof.
  intros H. rewrite (@u32_small (x + 1)) by lia.
  replace (x + 1 - 1) with x by lia. apply u32_small. lia.
Qed.

Lemma set_m_trail_same s : set_m_trail (m_trail s) s = s.
Proof. destruct s; reflexivity. Qed.

Lemma set_m_trail_twice a b s : set_m_trail a (set_m_trail b s) = set_m_trail a s.
Proof. reflexivity. Qed.

(** [pop_levels(1)] right after [push_level] undoes it. *)
Lemma pop_level_push_level s :
  0 <= m_level s < 2 ^ 32 - 1 ->
  pop_levels 1 (push_level s) = s.
Proof.
  intros Hl. unfold pop_levels. cbn [Z.eqb].
  change (m_trail (push_level s)) with (m_trail s ++ [inc_level_i]).
  rewrite length_app, Nat.add_comm. cbn [length Nat.add].
  rewrite pop_levels_loop_S. cbn [Z.gtb Z.compare].
  change (m_trail (push_level s)) with (m_trail s ++ [inc_level_i]).
  rewrite unsnoc_app. cbn [undo_instr fst snd].
  rewrite pop_levels_loop_done by lia. cbn [rev fold_left].
  change (m_level (push_level s)) with (u32 (m_level s + 1)).
  rewrite (u32_dec_inc Hl). destruct s; reflexivity.
Qed.

End Undo.

(** X19.  [pop_levels(1)] undoes [push_level] followed by [add_var]: the
    solver state is the one before, with the new variable, its watch list,
    its viable lists and its place among the free variables gone and the
    level as it was.  The free variables are assumed to be variables of the
    solver and the level to be below the largest unsigned number. *)
Theorem pop_levels_undoes_add_var (sz : nat) (s : solver) :
  0 <= m_level s < 2 ^ 32 - 1 ->
  (forall x, In x (m_free_pvars s) -> (x < length (m_value s))%nat) ->
  Solver.pop_levels 1 (Solver.add_var sz (Solver.push_level s)) = s.
Proof.
  intros Hl Hf.
  rewrite <- (@pop_level_push_level s Hl) at 2.
  unfold Solver.pop_levels. cbn [Z.eqb].
  assert (Et : m_trail (Solver.add_var sz (Solver.push_level s))
               = m_trail (Solver.push_level s) ++ [add_var_i]).
  { unfold Solver.add_var, Solver.unassign_var_eh.
    destruct (existsb _ _); reflexivity. }
  assert (El : m_level (Solver.add_var sz (Solver.push_level s))
               = m_level (Solver.push_level s)).
  { unfold Solver.add_var, Solver.unassign_var_eh.
    destruct (existsb _ _); reflexivity. }
  rewrite Et, El, length_app, Nat.add_comm. cbn [length Nat.add].
  rewrite pop_levels_loop_S. cbn [Z.gtb Z.compare].
  rewrite Et, unsnoc_app. cbn [Solver.undo_instr fst snd].
  rewrite (@del_var_add_var sz (Solver.push_level s) Hf).
  rewrite set_m_trail_twice, set_m_trail_same. reflexivity.
Qed.

(** X20.  [pop(1)] right after [push] gives back the solver state except
    for two things: the conflict is reset, and the level that [push] put on
    [m_base_levels] stays there. *)
Theorem pop_undoes_push (s : solver) :
  0 <= m_level s < 2 ^ 32 - 1 ->
  Solver.pop 1 (Solver.push s) =
  set_m_conflict conflict_empty
    (set_m_base_levels (m_base_levels s ++ [m_level s + 1]) s).
Proof.
  intros Hl. unfold Solver.pop, Solver.push.
  change (m_base_levels (set_m_base_levels ?b ?s0)) with b.
  change (m_level (set_m_base_levels ?b ?s0)) with (m_level s0).
  change (m_base_levels (Solver.push_level s)) with (m_base_levels s).
  change (m_level (Solver.push_level s)) with (Solver.u32 (m_level s + 1)).
  rewrite (@u32_small (m_level s + 1)) by lia.
  rewrite length_app, Nat.add_comm. cbn [length Nat.add Nat.sub].
  rewrite Nat.sub_0_r, app_nth2 by lia. rewrite Nat.sub_diag. cbn [nth].
  replace (m_level s + 1 - (m_level s + 1) + 1) with 1 by lia.
  change (Solver.u32 1) with 1.
  unfold Solver.pop_levels. cbn [Z.eqb].
  change (m_trail (set_m_base_levels ?b (Solver.push_level s)))
    with (m_trail s ++ [inc_level_i]).
  rewrite length_app, Nat.add_comm. cbn [length Nat.add].
  rewrite pop_levels_loop_S. cbn [Z.gtb Z.compare].
  change (m_trail (set_m_base_levels ?b (Solver.push_level s)))
    with (m_trail s ++ [inc_level_i]).
  rewrite unsnoc_app. cbn [Solver.undo_instr fst snd].
  rewrite pop_levels_loop_done by lia. cbn [rev fold_left].
  change (m_level (set_m_base_levels ?b (Solver.push_level s)))
    with (Solver.u32 (m_level s + 1)).
  rewrite (u32_dec_inc Hl). destruct s; reflexivity.
Qed.

(** The solver of the scope example with both constraints watched. *)
Definition both_watched : solver :=
  Solver.add_watch x_ge_4 (Solver.add_watch x_lt_4 scope_init).

Lemma erase_watch_keeps_other_constraints_witness :
  Solver.num_watches (Solver.erase_watch x_lt_4 both_watched) x_ge_4
  = Solver.num_watches both_watched x_ge_4.
Proof.
  apply (@erase_watch_keeps_other_constraints both_watched x_lt_4 x_ge_4).
  discriminate.
Defined.

Lemma erase_watch_undoes_add_watch_witness :
  Solver.erase_watch x_ge_4 (Solver.add_watch x_ge_4 both_watched) = both_watched.
Proof.
  apply (@erase_watch_undoes_add_watch both_watched x_ge_4).
  intros v [<-|[]]. vm_compute. lia.
Defined.

Lemma pop_levels_undoes_add_var_witness :
  Solver.pop_levels 1 (Solver.add_var 8 (Solver.push_level scope_init)) = scope_init.
Proof.
  apply (@pop_levels_undoes_add_var 8 scope_init).
  - vm_compute. split; [discriminate|reflexivity].
  - intros x [<-|[]]. vm_compute. lia.
Defined.

Lemma pop_undoes_push_witness :
  Solver.pop 1 (Solver.push scope_init) =
  set_m_conflict conflict_empty
    (set_m_base_levels (m_base_levels scope_init ++ [m_level scope_init + 1])
       scope_init).
Proof.
  apply (@pop_undoes_push scope_init).
  vm_compute. split; [discriminate|reflexivity].
Defined.

(** ** Restarts do not repeat *)

(** X21.  Right after [restart], [should_restart] answers false as long as
    the new threshold is positive: the conflicts counted since the restart
    are zero. *)
Theorem restart_not_repeated (get_luby : Z -> Z) (s : solver) :
  0 < Solver.u32 (m_restart_init s * get_luby (Solver.u32 (m_luby_idx s + 1))) ->
  Solver.should_restart (Solver.restart get_luby s) = false.
Proof.
  intros Hpos. unfold Solver.should_restart, Solver.restart. cbv zeta.
  set (s1 := set_m_num_restarts (Solver.u32 (m_num_restarts s + 1)) s).
  pose proof (pop_levels_counters (Solver.u32 (m_level s1 - Solver.base_level s1)) s1) as H.
  set (s2 := Solver.pop_levels (Solver.u32 (m_level s1 - Solver.base_level s1)) s1) in *.
  clearbody s2. destruct H as [A [B [C [D [E [F G]]]]]].
  simpl in *. rewrite A, E, F, Z.sub_diag.
  change (Solver.u32 0) with 0.
  destruct (Z.ltb_spec 0 (Solver.u32 (m_restart_init s * get_luby (Solver.u32 (m_luby_idx s + 1)))));
    [reflexivity|lia].
Qed.

Lemma restart_not_repeated_witness :
  Solver.should_restart (Solver.restart (fun i => 2 * i) restart_state) = false.
Proof.
  apply (@restart_not_repeated (fun i => 2 * i) restart_state).
  vm_compute. reflexivity.
Defined.

(** ** [refine_disequal_lin]: the refined interval holds only violations *)

Section DisequalLin.
Import eval_interval Viable Numeral.

Lemma floor_le k n d : 0 < k -> d <= div_floor n k -> k * d <= n.
Proof.
  intros Hk H. unfold div_floor in H.
  pose proof (Z.mul_div_le n k Hk). nia.
Qed.

Lemma ceil_lt k n d : 0 < k -> d <= div_ceil n k - 1 -> k * d < n.
Proof.
  intros Hk H. unfold div_ceil in H.
  pose proof (Z.mul_div_le (- n) k Hk).
  pose proof (Z.mul_succ_div_gt (- n) k Hk). nia.
Qed.

Lemma mod_below M z : 0 < M -> z < M -> z <= z mod M.
Proof.
  intros HM Hz. destruct (Z_lt_ge_dec z 0) as [N|N].
  - pose proof (Z.mod_pos_bound z M HM). lia.
  - rewrite Z.mod_small; lia.
Qed.

Lemma mod_above M z : 0 < M -> 0 <= z -> z mod M <= z.
Proof. intros HM Hz. apply Z.mod_le; lia. Qed.

Lemma mod_shift M z k : (z + k * M) mod M = z mod M.
Proof. apply Z_mod_plus_full. Qed.

Lemma lin_up M q c x d :
  (c * (x + d) + q) mod M = ((c * x + q) mod M + c * d) mod M.
Proof. rewrite Zplus_mod_idemp_l. f_equal. ring. Qed.

Lemma lin_up_neg M q c x d :
  (c * (x + d) + q) mod M = ((c * x + q) mod M - (M - c) * d) mod M.
Proof.
  rewrite lin_up. rewrite <- (mod_shift M _ (- d)). f_equal. ring.
Qed.

(** The largest step [dmax] of [delta_l] and [delta_u], for the values
    [a + p * d] and [b + r * d] modulo [M]. *)
Definition delta_max (M a b p r num other : Z) : Z :=
  let h1 := div_floor b (M - r) in
  let h2 := if r >? p then div_ceil num (r - p) - 1 else other in
  let h3 := div_ceil num (M - p + r) - 1 in
  let h4 := div_ceil (M - a) p - 1 in
  Z.max (Z.max h3 (Z.min h1 h2)) (Z.max (Z.min h1 h4) (Z.min h2 h4)).

(** As long as [d] stays within [dmax], the first value stays above the
    second: one of them may wrap around, but not so as to change their
    order. *)
Lemma violation_core M a b p r corr other d :
  0 < M -> 0 <= a < M -> 0 <= b < M -> 0 < p < M -> 0 < r < M ->
  1 <= a - b + corr -> 0 <= d ->
  d <= delta_max M a b p r (a - b + corr) other ->
  1 <= (a + p * d) mod M - (b + r * d) mod M + corr.
Proof.
  intros HM Ha Hb Hp Hr Hnum Hd Hmax. unfold delta_max in Hmax. cbv zeta in Hmax.
  assert (F1 : d <= div_floor b (M - r) -> (M - r) * d <= b)
    by (apply floor_le; lia).
  assert (F3 : d <= div_ceil (a - b + corr) (M - p + r) - 1 ->
               (M - p + r) * d < a - b + corr) by (apply ceil_lt; lia).
  assert (F4 : d <= div_ceil (M - a) p - 1 -> p * d < M - a)
    by (apply ceil_lt; lia).
  assert (F2 : d <= (if r >? p then div_ceil (a - b + corr) (r - p) - 1 else other) ->
               p < r -> (r - p) * d < a - b + corr).
  { intros H Hlt. replace (r >? p) with true in H
      by (symmetry; apply Z.gtb_lt; lia).
    apply ceil_lt; [lia|exact H]. }
  assert (Pd : 0 <= p * d) by (apply Z.mul_nonneg_nonneg; lia).
  assert (Rd : 0 <= r * d) by (apply Z.mul_nonneg_nonneg; lia).
  assert (A1 : a - (M - p) * d <= (a + p * d) mod M).
  { rewrite <- (mod_shift M (a + p * d) (- d)).
    replace (a + p * d + - d * M) with (a - (M - p) * d) by ring.
    apply mod_below; [exact HM|].
    assert (0 <= (M - p) * d) by (apply Z.mul_nonneg_nonneg; lia). lia. }
  assert (B1 : (b + r * d) mod M <= b + r * d) by (apply mod_above; lia).
  assert (A4 : p * d < M - a -> (a + p * d) mod M = a + p * d)
    by (intros H; apply Z.mod_small; lia).
  assert (B4 : (M - r) * d <= b -> (b + r * d) mod M = b - (M - r) * d).
  { intros H. rewrite <- (mod_shift M (b + r * d) (- d)).
    replace (b + r * d + - d * M) with (b - (M - r) * d) by ring.
    apply Z.mod_small.
    assert (0 <= (M - r) * d) by (apply Z.mul_nonneg_nonneg; lia). lia. }
  set (h1 := div_floor b (M - r)) in *.
  set (h2 := if r >? p then div_ceil (a - b + corr) (r - p) - 1 else other) in *.
  set (h3 := div_ceil (a - b + corr) (M - p + r) - 1) in *.
  set (h4 := div_ceil (M - a) p - 1) in *.
  assert (C : d <= h3 \/ (d <= h1 /\ d <= h2) \/ (d <= h1 /\ d <= h4)
              \/ (d <= h2 /\ d <= h4))
    by (clearbody h1 h2 h3 h4; clear - Hmax; lia).
  clear Hmax.
  assert (Md1 : r * d <= M * d) by (apply Z.mul_le_mono_nonneg_r; lia).
  assert (Md2 : p * d <= M * d) by (apply Z.mul_le_mono_nonneg_r; lia).
  replace ((M - r) * d) with (M * d - r * d) in * by ring.
  replace ((M - p) * d) with (M * d - p * d) in * by ring.
  replace ((M - p + r) * d) with (M * d - p * d + r * d) in * by ring.
  replace ((r - p) * d) with (r * d - p * d) in * by ring.
  destruct (Z_lt_ge_dec p r) as [Hpr|Hpr].
  - destruct C as [C|[[C1 C2]|[[C1 C2]|[C1 C2]]]].
    + specialize (F3 C). lia.
    + specialize (F1 C1). specialize (F2 C2 Hpr). specialize (B4 F1). lia.
    + specialize (F1 C1). specialize (F4 C2). specialize (B4 F1).
      specialize (A4 F4). lia.
    + specialize (F2 C1 Hpr). specialize (F4 C2). specialize (A4 F4). lia.
  - assert (r * d <= p * d) by (apply Z.mul_le_mono_nonneg_r; lia).
    destruct C as [C|[[C1 C2]|[[C1 C2]|[C1 C2]]]].
    + specialize (F3 C). lia.
    + specialize (F1 C1). specialize (B4 F1). lia.
    + specialize (F1 C1). specialize (F4 C2). specialize (B4 F1).
      specialize (A4 F4). lia.
    + specialize (F4 C2). specialize (A4 F4). lia.
Qed.

Lemma delta_max_nonneg M a b p r num other :
  0 < M -> 0 < p < M -> 0 < r < M -> 1 <= num ->
  0 <= delta_max M a b p r num other.
Proof.
  intros HM Hp Hr Hnum. unfold delta_max. cbv zeta.
  pose proof (@div_ceil_pos num (M - p + r) ltac:(lia) ltac:(lia)). lia.
Qed.

(** The bounds of the interval [refine_disequal_lin] builds, in terms of
    [delta_max]. *)
Lemma diseq_lin_interval_bounds M val e :
  let a := diseq_a M val e in
  let b := diseq_b M val e in
  let num := a - b + (if diseq_neg e then 1 else 0) in
  let lo := val - Z.min val
                    (delta_max M a b (M - e_lo e) (M - e_hi e) num val) in
  let hi0 := val + Z.min (M - 1 - val)
                     (delta_max M a b (e_lo e) (e_hi e) num (M - 1 - val)) + 1 in
  diseq_lin_interval M val e =
  eval_interval.proper (mk_val lo) lo
    (mk_val (if hi0 =? M then 0 else hi0)) (if hi0 =? M then 0 else hi0).
Proof.
  cbv zeta. unfold diseq_lin_interval, delta_max. cbv zeta.
  replace (M - (M - e_hi e)) with (e_hi e) by ring.
  replace (M - e_hi e - (M - e_lo e)) with (e_lo e - e_hi e) by ring.
  replace (M - (M - e_lo e) + (M - e_hi e)) with (e_lo e + (M - e_hi e)) by ring.
  replace (M - e_hi e >? M - e_lo e) with (e_lo e >? e_hi e)
    by (rewrite !Z.gtb_ltb; destruct (Z.ltb_spec (e_hi e) (e_lo e));
        symmetry; [apply Z.ltb_lt|apply Z.ltb_ge]; lia).
  reflexivity.
Qed.

Lemma diseq_hit_iff M x e :
  diseq_lin_hit M x e = true <->
  1 <= diseq_a M x e - diseq_b M x e + (if diseq_neg e then 1 else 0).
Proof.
  unfold diseq_lin_hit. rewrite orb_true_iff, andb_true_iff, Z.eqb_eq.
  rewrite Z.gtb_ltb, Z.ltb_lt. destruct (diseq_neg e); intuition (try discriminate; lia).
Qed.

Lemma diseq_a_up M x d e :
  diseq_a M (x + d) e = (diseq_a M x e + e_lo e * d) mod M.
Proof. unfold diseq_a. apply lin_up. Qed.

Lemma diseq_b_up M x d e :
  diseq_b M (x + d) e = (diseq_b M x e + e_hi e * d) mod M.
Proof. unfold diseq_b. apply lin_up. Qed.

Lemma diseq_a_down M x d e :
  diseq_a M (x - d) e = (diseq_a M x e + (M - e_lo e) * d) mod M.
Proof.
  unfold diseq_a. replace (x - d) with (x + - d) by ring.
  rewrite lin_up_neg. f_equal. ring.
Qed.

Lemma diseq_b_down M x d e :
  diseq_b M (x - d) e = (diseq_b M x e + (M - e_hi e) * d) mod M.
Proof.
  unfold diseq_b. replace (x - d) with (x + - d) by ring.
  rewrite lin_up_neg. f_equal. ring.
Qed.

End DisequalLin.

Section DisequalLinSound.
Import eval_interval Viable Numeral.

Variables (M val : Z) (e : entry).
Hypothesis Hp : 0 < e_lo e < M.
Hypothesis Hr : 0 < e_hi e < M.
Hypothesis Hval : 0 <= val < M.
Hypothesis Hit : diseq_lin_hit M val e = true.

Lemma diseq_step_up d :
  0 <= d ->
  d <= delta_max M (diseq_a M val e) (diseq_b M val e) (e_lo e) (e_hi e)
         (diseq_a M val e - diseq_b M val e + (if diseq_neg e then 1 else 0))
         (M - 1 - val) ->
  diseq_lin_hit M (val + d) e = true.
Proof.
  intros Hd Hmax. apply diseq_hit_iff. rewrite diseq_a_up, diseq_b_up.
  apply diseq_hit_iff in Hit.
  apply (@violation_core M _ _ _ _ _ (M - 1 - val) d); try lia; try assumption.
  - apply Z.mod_pos_bound. lia.
  - apply Z.mod_pos_bound. lia.
Qed.

Lemma diseq_step_down d :
  0 <= d ->
  d <= delta_max M (diseq_a M val e) (diseq_b M val e) (M - e_lo e) (M - e_hi e)
         (diseq_a M val e - diseq_b M val e + (if diseq_neg e then 1 else 0))
         val ->
  diseq_lin_hit M (val - d) e = true.
Proof.
  intros Hd Hmax. apply diseq_hit_iff. rewrite diseq_a_down, diseq_b_down.
  apply diseq_hit_iff in Hit.
  apply (@violation_core M _ _ _ _ _ val d); try lia; try assumption.
  - apply Z.mod_pos_bound. lia.
  - apply Z.mod_pos_bound. lia.
Qed.

Lemma diseq_interval_sound x :
  currently_contains (diseq_lin_interval M val e) x = true ->
  0 <= x < M ->
  diseq_lin_hit M x e = true.
Proof.
  rewrite diseq_lin_interval_bounds. cbv zeta.
  pose proof (proj1 (diseq_hit_iff M val e) Hit) as Hnum.
  set (dl := delta_max M _ _ (M - e_lo e) _ _ _).
  set (du := delta_max M _ _ (e_lo e) _ _ _).
  assert (Hdl : 0 <= dl) by (apply delta_max_nonneg; lia).
  assert (Hdu : 0 <= du) by (apply delta_max_nonneg; lia).
  pose proof diseq_step_up as Up. pose proof diseq_step_down as Dn.
  fold du in Up. fold dl in Dn.
  intros Hc Hx. apply currently_contains_spec in Hc.
  unfold In_interval, is_full, interval.is_full, lo_val, hi_val, proper in Hc.
  cbn [m_symbolic m_concrete_lo m_concrete_hi] in Hc.
  assert (Hrange : val - Z.min val dl <= x < val + Z.min (M - 1 - val) du + 1).
  { destruct (Z.eqb_spec (val + Z.min (M - 1 - val) du + 1) M) as [E|E];
      destruct Hc as [Hc|[Hc|Hc]]; try discriminate; lia. }
  destruct (Z_le_gt_dec val x) as [G|G].
  - replace x with (val + (x - val)) by ring. apply Up; lia.
  - replace x with (val - (val - x)) by ring. apply Dn; lia.
Qed.

Lemma diseq_interval_has_val :
  currently_contains (diseq_lin_interval M val e) val = true \/
  (lo_val (diseq_lin_interval M val e) = 0 /\
   hi_val (diseq_lin_interval M val e) = 0).
Proof.
  rewrite diseq_lin_interval_bounds. cbv zeta.
  pose proof (proj1 (diseq_hit_iff M val e) Hit) as Hnum.
  set (dl := delta_max M _ _ (M - e_lo e) _ _ _).
  set (du := delta_max M _ _ (e_lo e) _ _ _).
  assert (Hdl : 0 <= dl) by (apply delta_max_nonneg; lia).
  assert (Hdu : 0 <= du) by (apply delta_max_nonneg; lia).
  rewrite currently_contains_spec.
  unfold In_interval, is_full, interval.is_full, lo_val, hi_val, proper.
  cbn [m_symbolic m_concrete_lo m_concrete_hi].
  destruct (Z.eqb_spec (val + Z.min (M - 1 - val) du + 1) M) as [E|E]; lia.
Qed.

End DisequalLinSound.

(** X22.  [refine_disequal_lin] is sound and makes progress: when it finds
    a disequal-linear entry with coefficients [p] and [r] in [1, 2^N) that
    the value violates, it returns false after handing to [intersect] an
    interval all of whose values of the bit-width violate that entry, and
    the interval contains the value itself unless its bounds are both 0. *)
Theorem refine_disequal_lin_sound
    (v : pvar) (val : Z) (s : solver) (first : entry) (r : ring) (e : entry) :
  nth v (viable.m_diseq_lin (m_viable s)) [] = first :: r ->
  find (Viable.diseq_lin_hit (Numeral.power_of_two (Viable.size s v)) val)
       (first :: r) = Some e ->
  0 < e_lo e < Numeral.power_of_two (Viable.size s v) ->
  0 < e_hi e < Numeral.power_of_two (Viable.size s v) ->
  0 <= val < Numeral.power_of_two (Viable.size s v) ->
  let M := Numeral.power_of_two (Viable.size s v) in
  let iv := Viable.diseq_lin_interval M val e in
  (exists id s1,
     Viable.refine_disequal_lin v val s =
     (false, snd (Viable.intersect v (Viable.refined_entry id e iv) s1))) /\
  (forall x, 0 <= x < M ->
     eval_interval.currently_contains iv x = true ->
     Viable.diseq_lin_hit M x e = true) /\
  (eval_interval.currently_contains iv val = true \/
   (eval_interval.lo_val iv = 0 /\ eval_interval.hi_val iv = 0)).
Proof.
  intros Hl Hfind Hp Hr Hval M iv.
  assert (Hit : Viable.diseq_lin_hit M val e = true)
    by (apply find_some in Hfind; apply Hfind).
  split; [|split].
  - unfold Viable.refine_disequal_lin. rewrite Hl. cbv zeta. rewrite Hfind.
    destruct (Viable.alloc_entry _) as [id vb1]. eexists _, _. reflexivity.
  - intros x Hx Hc. exact (@diseq_interval_sound M val e Hp Hr Hval Hit x Hc Hx).
  - exact (@diseq_interval_has_val M val e Hp Hr Hval Hit).
Qed.

(** A variable of width 4 with the disequal-linear entry of
    [3 * x <= x + 5], which 4 violates: [12 > 9]. *)
Definition disequation_3x_x5 : entry :=
  mk_entry 0 [mk_sc 0 true] [] 1
    (eval_interval.proper (mk_val 0) 3 (mk_val 5) 1) 4 false 0.

Definition disequation_state : solver :=
  mk_solver (viable.mk [] 1 [[]] [[]] [[disequation_3x_x5]] [])
    (viable_fallback.mk [[]]) conflict_empty [] [] [] [0] [unassigned] [[]]
    [4%nat] [] 0 0 [] [] [] 0 0 0 0 0 0.

Lemma refine_disequal_lin_sound_witness :
  (forall x, 0 <= x < 16 ->
     eval_interval.currently_contains
       (Viable.diseq_lin_interval 16 4 disequation_3x_x5) x = true ->
     Viable.diseq_lin_hit 16 x disequation_3x_x5 = true) /\
  eval_interval.currently_contains
    (Viable.diseq_lin_interval 16 4 disequation_3x_x5) 4 = true.
Proof.
  destruct (@refine_disequal_lin_sound 0%nat 4 disequation_state
              disequation_3x_x5 [] disequation_3x_x5 eq_refl eq_refl
              ltac:(vm_compute; intuition congruence)
              ltac:(vm_compute; intuition congruence)
              ltac:(vm_compute; intuition congruence)) as (_ & H1 & _).
  split; [exact H1|reflexivity].
Defined.

Example disequation_refined :
  Viable.diseq_lin_interval 16 4 disequation_3x_x5
  = eval_interval.proper (mk_val 3) 3 (mk_val 6) 6.
Proof. reflexivity. Qed.

(** ** [extend_by_bits]: the nearest value that agrees with the fixed bits *)

Section NearestBits.
Import Viable.

Definition bit_z (b : bool) : Z := if b then 1 else 0.

(** The number whose bits, lowest first, are the bits of [x] at the
    positions [l]. *)
Definition pick (x : Z) (l : list nat) : Z :=
  fold_right (fun i ret => ret * 2 + bit_z (get_bit x i)) 0 l.

Definition agree_on (fbi : fixed_bits_info) (l : list nat) (x : Z) : Prop :=
  forall i, In i l -> fixed_at fbi i <> l_undef ->
    to_lbool (get_bit x i) = fixed_at fbi i.

Lemma pick_cons x i l : pick x (i :: l) = pick x l * 2 + bit_z (get_bit x i).
Proof. reflexivity. Qed.

Lemma bit_z_range b : 0 <= bit_z b <= 1.
Proof. destruct b; simpl; lia. Qed.

Lemma pick_range x : forall l, 0 <= pick x l < 2 ^ Z.of_nat (length l).
Proof.
  induction l as [|i l IH]; [simpl; lia|].
  rewrite pick_cons. cbn [length]. rewrite Nat2Z.inj_succ, Z.pow_succ_r by lia.
  pose proof (bit_z_range (get_bit x i)). lia.
Qed.

Lemma pick_app x : forall l1 l2,
  pick x (l1 ++ l2) = pick x l1 + 2 ^ Z.of_nat (length l1) * pick x l2.
Proof.
  induction l1 as [|i l1 IH]; intros l2; [simpl; destruct (pick x l2); reflexivity|].
  cbn [app length]. rewrite !pick_cons, IH, Nat2Z.inj_succ, Z.pow_succ_r by lia.
  ring.
Qed.

Lemma pick_seq x : forall n a,
  0 <= x -> pick x (seq a n) = (x / 2 ^ Z.of_nat a) mod 2 ^ Z.of_nat n.
Proof.
  induction n as [|n IH]; intros a Hx; [simpl; now rewrite Z.mod_1_r|].
  cbn [seq]. rewrite pick_cons, IH by exact Hx.
  rewrite !Nat2Z.inj_succ, !Z.pow_succ_r by lia.
  set (y := x / 2 ^ Z.of_nat a).
  assert (Ey : x / (2 * 2 ^ Z.of_nat a) = y / 2).
  { unfold y. rewrite Z.mul_comm, Z.div_div by lia. reflexivity. }
  rewrite Ey.
  assert (Eb : bit_z (get_bit x a) = y mod 2).
  { unfold get_bit, y. rewrite Z.testbit_spec' by lia.
    destruct (Z.eqb_spec ((x / 2 ^ Z.of_nat a) mod 2) 1) as [E|E].
    - rewrite E. reflexivity.
    - pose proof (Z.mod_pos_bound (x / 2 ^ Z.of_nat a) 2 ltac:(lia)).
      replace ((x / 2 ^ Z.of_nat a) mod 2) with 0 by lia. reflexivity. }
  rewrite Eb.
  rewrite Z.rem_mul_r by lia. lia.
Qed.

Lemma pick_all x k : 0 <= x < 2 ^ Z.of_nat k -> pick x (seq 0 k) = x.
Proof.
  intros H. rewrite pick_seq by lia. simpl. rewrite Z.div_1_r.
  apply Z.mod_small. exact H.
Qed.

(** The value of a written bound. *)
Lemma bits_value_cons b nb :
  bits_value (b :: nb) = bits_value nb * 2 + bit_z (lbool_eqb b l_true).
Proof. reflexivity. Qed.

Lemma bits_value_app : forall l1 l2,
  bits_value (l1 ++ l2) = bits_value l1 + 2 ^ Z.of_nat (length l1) * bits_value l2.
Proof.
  induction l1 as [|b l1 IH]; intros l2;
    [simpl; destruct (bits_value l2); reflexivity|].
  cbn [app length]. rewrite !bits_value_cons, IH, Nat2Z.inj_succ, Z.pow_succ_r by lia.
  ring.
Qed.

Lemma bits_value_range : forall nb, 0 <= bits_value nb < 2 ^ Z.of_nat (length nb).
Proof.
  induction nb as [|b nb IH]; [simpl; lia|].
  rewrite bits_value_cons. cbn [length]. rewrite Nat2Z.inj_succ, Z.pow_succ_r by lia.
  pose proof (bit_z_range (lbool_eqb b l_true)). lia.
Qed.

Lemma bit_z_to_lbool b : bit_z (lbool_eqb (to_lbool b) l_true) = bit_z b.
Proof. destruct b; reflexivity. Qed.

(** The bit and the carry one round of the upper loop produces. *)
Definition step_bit (FORWARD : bool) (fbi : fixed_bits_info) (bound : Z)
    (carry : bool) (i : nat) : lbool * bool :=
  let f := fixed_at fbi i in
  if lbool_eqb f l_undef then
    let current := get_bit bound i in
    if carry then
      if FORWARD then
        if negb current then (l_true, false) else (l_false, carry)
      else
        if current then (l_false, false) else (l_true, carry)
    else (to_lbool current, carry)
  else (f, carry).

Fixpoint high_bits (FORWARD : bool) (fbi : fixed_bits_info) (bound : Z)
    (l : list nat) (carry : bool) : list lbool * bool :=
  match l with
  | [] => ([], carry)
  | i :: l' =>
      let bc := step_bit FORWARD fbi bound carry i in
      let r := high_bits FORWARD fbi bound l' (snd bc) in
      (fst bc :: fst r, snd r)
  end.

Lemma high_step_bit FORWARD fbi bound nb carry j i :
  exists j',
    high_step FORWARD fbi bound (nb, carry, j) i =
    (nb ++ [fst (step_bit FORWARD fbi bound carry i)],
     snd (step_bit FORWARD fbi bound carry i), j').
Proof.
  unfold high_step, step_bit.
  destruct (lbool_eqb (fixed_at fbi i) l_undef);
    [|eexists; reflexivity].
  destruct carry, FORWARD, (get_bit bound i); eexists; reflexivity.
Qed.

Lemma high_fold_bits FORWARD fbi bound : forall l nb carry j,
  exists j',
    fold_left (high_step FORWARD fbi bound) l (nb, carry, j) =
    (nb ++ fst (high_bits FORWARD fbi bound l carry),
     snd (high_bits FORWARD fbi bound l carry), j').
Proof.
  induction l as [|i l IH]; intros nb carry j.
  - exists j. simpl. now rewrite app_nil_r.
  - cbn [fold_left high_bits fst snd].
    destruct (high_step_bit FORWARD fbi bound nb carry j i) as [j1 E]. rewrite E.
    destruct (IH (nb ++ [fst (step_bit FORWARD fbi bound carry i)])
                 (snd (step_bit FORWARD fbi bound carry i)) j1) as [j2 E2].
    exists j2. rewrite E2, <- app_assoc. reflexivity.
Qed.

Lemma agree_on_tail fbi i l x : agree_on fbi (i :: l) x -> agree_on fbi l x.
Proof. intros H j Hj. apply H. now right. Qed.

Lemma agree_on_head fbi i l x :
  agree_on fbi (i :: l) x -> fixed_at fbi i <> l_undef ->
  to_lbool (get_bit x i) = fixed_at fbi i.
Proof. intros H. apply H. now left. Qed.

Lemma agree_on_app fbi l1 l2 x :
  agree_on fbi (l1 ++ l2) x <-> agree_on fbi l1 x /\ agree_on fbi l2 x.
Proof.
  unfold agree_on. split.
  - intros H. split; intros i Hi; apply H, in_or_app; auto.
  - intros [H1 H2] i Hi. apply in_app_or in Hi. destruct Hi; auto.
Qed.

(** Without a carry the upper loop copies the bits of the bound. *)
Lemma high_bits_copy FORWARD fbi bound : forall l,
  agree_on fbi l bound ->
  snd (high_bits FORWARD fbi bound l false) = false /\
  bits_value (fst (high_bits FORWARD fbi bound l false)) = pick bound l.
Proof.
  induction l as [|i l IH]; intros Ha; [split; reflexivity|].
  cbn [high_bits]. unfold step_bit.
  destruct (IH (agree_on_tail Ha)) as [C V].
  destruct (lbool_eqb (fixed_at fbi i) l_undef) eqn:E; cbn [fst snd].
  - split; [exact C|]. rewrite bits_value_cons, pick_cons, V, bit_z_to_lbool.
    reflexivity.
  - apply lbool_eqb_false in E. split; [exact C|].
    rewrite bits_value_cons, pick_cons, V, <- (agree_on_head Ha E), bit_z_to_lbool.
    reflexivity.
Qed.

(** With a carry the forward loop writes the least number above the bits
    of the bound that agrees with the fixed bits, if there is one. *)
Lemma high_bits_forward fbi bound : forall l,
  agree_on fbi l bound ->
  let r := high_bits true fbi bound l true in
  (snd r = false ->
   pick bound l < bits_value (fst r) /\
   forall x, agree_on fbi l x -> pick bound l < pick x l ->
     bits_value (fst r) <= pick x l) /\
  (snd r = true ->
   forall x, agree_on fbi l x -> pick x l <= pick bound l).
Proof.
  induction l as [|i l IH]; intros Ha; cbv zeta.
  { simpl. split; [discriminate|]. intros _ x _. lia. }
  specialize (IH (agree_on_tail Ha)). cbv zeta in IH. destruct IH as [IH1 IH2].
  pose proof (@high_bits_copy true fbi bound l (agree_on_tail Ha)) as [C V].
  cbn [high_bits]. unfold step_bit.
  destruct (lbool_eqb (fixed_at fbi i) l_undef) eqn:E.
  - destruct (get_bit bound i) eqn:Bi; cbn [negb fst snd].
    + split.
      * intros Hc. destruct (IH1 Hc) as [Lt Min]. split.
        -- rewrite bits_value_cons, pick_cons, Bi. simpl. lia.
        -- intros x Hx Hgt. rewrite !pick_cons, Bi in *. rewrite bits_value_cons.
           pose proof (bit_z_range (get_bit x i)). simpl in *.
           specialize (Min x (agree_on_tail Hx)). lia.
      * intros Hc x Hx. rewrite !pick_cons, Bi.
        pose proof (bit_z_range (get_bit x i)). simpl.
        specialize (IH2 Hc x (agree_on_tail Hx)). lia.
    + rewrite C. split; [|discriminate]. intros _. split.
      * rewrite bits_value_cons, pick_cons, V, Bi. simpl. lia.
      * intros x Hx Hgt. rewrite !pick_cons, Bi in *. rewrite bits_value_cons, V.
        pose proof (bit_z_range (get_bit x i)). simpl in *. lia.
  - apply lbool_eqb_false in E. cbn [fst snd].
    pose proof (agree_on_head Ha E) as Eb.
    split.
    + intros Hc. destruct (IH1 Hc) as [Lt Min]. split.
      * rewrite bits_value_cons, pick_cons, <- Eb, bit_z_to_lbool. lia.
      * intros x Hx Hgt. rewrite !pick_cons in *.
        rewrite bits_value_cons, <- (agree_on_head Hx E), bit_z_to_lbool.
        assert (Ex : get_bit x i = get_bit bound i).
        { pose proof (agree_on_head Hx E) as Ex. rewrite <- Eb in Ex.
          destruct (get_bit x i), (get_bit bound i); simpl in Ex; congruence. }
        rewrite Ex in *. specialize (Min x (agree_on_tail Hx)). lia.
    + intros Hc x Hx. rewrite !pick_cons.
      assert (Ex : get_bit x i = get_bit bound i).
      { pose proof (agree_on_head Hx E) as Ex. rewrite <- Eb in Ex.
        destruct (get_bit x i), (get_bit bound i); simpl in Ex; congruence. }
      rewrite Ex. specialize (IH2 Hc x (agree_on_tail Hx)). lia.
Qed.

(** With a carry the backward loop writes the greatest number below the
    bits of the bound that agrees with the fixed bits, if there is one. *)
Lemma high_bits_backward fbi bound : forall l,
  agree_on fbi l bound ->
  let r := high_bits false fbi bound l true in
  (snd r = false ->
   bits_value (fst r) < pick bound l /\
   forall x, agree_on fbi l x -> pick x l < pick bound l ->
     pick x l <= bits_value (fst r)) /\
  (snd r = true ->
   forall x, agree_on fbi l x -> pick bound l <= pick x l).
Proof.
  induction l as [|i l IH]; intros Ha; cbv zeta.
  { simpl. split; [discriminate|]. intros _ x _. lia. }
  specialize (IH (agree_on_tail Ha)). cbv zeta in IH. destruct IH as [IH1 IH2].
  pose proof (@high_bits_copy false fbi bound l (agree_on_tail Ha)) as [C V].
  cbn [high_bits]. unfold step_bit.
  destruct (lbool_eqb (fixed_at fbi i) l_undef) eqn:E.
  - destruct (get_bit bound i) eqn:Bi; cbn [negb fst snd].
    + rewrite C. split; [|discriminate]. intros _. split.
      * rewrite bits_value_cons, pick_cons, V, Bi. simpl. lia.
      * intros x Hx Hgt. rewrite !pick_cons, Bi in *. rewrite bits_value_cons, V.
        pose proof (bit_z_range (get_bit x i)). simpl in *. lia.
    + split.
      * intros Hc. destruct (IH1 Hc) as [Lt Min]. split.
        -- rewrite bits_value_cons, pick_cons, Bi. simpl. lia.
        -- intros x Hx Hgt. rewrite !pick_cons, Bi in *. rewrite bits_value_cons.
           pose proof (bit_z_range (get_bit x i)). simpl in *.
           specialize (Min x (agree_on_tail Hx)). lia.
      * intros Hc x Hx. rewrite !pick_cons, Bi.
        pose proof (bit_z_range (get_bit x i)). simpl.
        specialize (IH2 Hc x (agree_on_tail Hx)). lia.
  - apply lbool_eqb_false in E. cbn [fst snd].
    pose proof (agree_on_head Ha E) as Eb.
    split.
    + intros Hc. destruct (IH1 Hc) as [Lt Min]. split.
      * rewrite bits_value_cons, pick_cons, <- Eb, bit_z_to_lbool. lia.
      * intros x Hx Hgt. rewrite !pick_cons in *.
        rewrite bits_value_cons, <- (agree_on_head Hx E), bit_z_to_lbool.
        assert (Ex : get_bit x i = get_bit bound i).
        { pose proof (agree_on_head Hx E) as Ex. rewrite <- Eb in Ex.
          destruct (get_bit x i), (get_bit bound i); simpl in Ex; congruence. }
        rewrite Ex in *. specialize (Min x (agree_on_tail Hx)). lia.
    + intros Hc x Hx. rewrite !pick_cons.
      assert (Ex : get_bit x i = get_bit bound i).
      { pose proof (agree_on_head Hx E) as Ex. rewrite <- Eb in Ex.
        destruct (get_bit x i), (get_bit bound i); simpl in Ex; congruence. }
      rewrite Ex. specialize (IH2 Hc x (agree_on_tail Hx)). lia.
Qed.

(** The lower loop writes 0 (forward) or 1 (backward) where no bit is
    fixed: the least, or the greatest, agreeing low part. *)
Lemma low_bits_least fbi x : forall l,
  agree_on fbi l x -> bits_value (map (low_bit true fbi) l) <= pick x l.
Proof.
  induction l as [|i l IH]; intros Hx; [simpl; lia|].
  cbn [map]. rewrite bits_value_cons, pick_cons.
  specialize (IH (agree_on_tail Hx)).
  destruct (lbool_eqb (fixed_at fbi i) l_undef) eqn:E.
  - replace (low_bit true fbi i) with l_false
      by (unfold low_bit; rewrite E; reflexivity).
    pose proof (bit_z_range (get_bit x i)). simpl. lia.
  - replace (low_bit true fbi i) with (fixed_at fbi i)
      by (unfold low_bit; rewrite E; reflexivity).
    apply lbool_eqb_false in E.
    rewrite <- (agree_on_head Hx E), bit_z_to_lbool. lia.
Qed.

Lemma low_bits_greatest fbi x : forall l,
  agree_on fbi l x -> pick x l <= bits_value (map (low_bit false fbi) l).
Proof.
  induction l as [|i l IH]; intros Hx; [simpl; lia|].
  cbn [map]. rewrite bits_value_cons, pick_cons.
  specialize (IH (agree_on_tail Hx)).
  destruct (lbool_eqb (fixed_at fbi i) l_undef) eqn:E.
  - replace (low_bit false fbi i) with l_true
      by (unfold low_bit; rewrite E; reflexivity).
    pose proof (bit_z_range (get_bit x i)). simpl. lia.
  - replace (low_bit false fbi i) with (fixed_at fbi i)
      by (unfold low_bit; rewrite E; reflexivity).
    apply lbool_eqb_false in E.
    rewrite <- (agree_on_head Hx E), bit_z_to_lbool. lia.
Qed.

(** Above the highest disagreeing bit the bound agrees. *)
Lemma first_fail_above fbi bound : forall k i0,
  first_fail fbi bound k = S i0 ->
  forall i, (i0 < i < k)%nat -> fixed_at fbi i <> l_undef ->
    to_lbool (get_bit bound i) = fixed_at fbi i.
Proof.
  induction k as [|k IH]; intros i0 H; [discriminate|].
  cbn [first_fail] in H.
  destruct (negb (lbool_eqb (fixed_at fbi k) l_undef)
            && negb (lbool_eqb (to_lbool (get_bit bound k)) (fixed_at fbi k))) eqn:E.
  - inversion H; subst. intros i Hi. lia.
  - intros i Hi Hf. destruct (Nat.eq_dec i k) as [->|N].
    + apply andb_false_iff in E. destruct E as [E|E].
      * apply negb_false_iff, lbool_eqb_eq in E. contradiction.
      * apply negb_false_iff, lbool_eqb_eq in E. exact E.
    + apply (IH i0 H); [lia|exact Hf].
Qed.

Lemma bits_agree_on fbi k x : bits_agree fbi k x <-> agree_on fbi (seq 0 k) x.
Proof.
  unfold bits_agree, agree_on. split; intros H i Hi.
  - apply H. apply in_seq in Hi. lia.
  - apply H. apply in_seq. lia.
Qed.

(** The value [extend_by_bits] returns when the bit [i0] is the highest
    one that disagrees. *)
Lemma extend_by_bits_value FORWARD k bound fbi src0 side0 i0 :
  fbi_is_empty fbi = false -> first_fail fbi bound k = S i0 ->
  let hb := high_bits FORWARD fbi bound (seq (S i0) (k - S i0))
              (lbool_eqb (fixed_at fbi i0) (if FORWARD then l_false else l_true)) in
  fst (fst (extend_by_bits FORWARD k bound fbi src0 side0)) =
  if snd hb then 0
  else bits_value (map (low_bit FORWARD fbi) (seq 0 (S i0)) ++ fst hb)
       + (if FORWARD then 0 else 1).
Proof.
  intros He Hff. cbv zeta. unfold extend_by_bits. rewrite He, Hff.
  cbn [Nat.eqb]. replace (S i0 - 1)%nat with i0 by lia.
  set (st1 := fold_left (low_step FORWARD fbi (S i0)) (seq 0 (S i0))
                (@nil lbool, mk_acc [] src0 [] side0)).
  assert (E1 : fst st1 = map (low_bit FORWARD fbi) (seq 0 (S i0)))
    by (subst st1; now rewrite low_fold).
  destruct (high_fold_bits FORWARD fbi bound (seq (S i0) (k - S i0)) (fst st1)
              (lbool_eqb (fixed_at fbi i0) (if FORWARD then l_false else l_true))
              (snd st1)) as [j' E2].
  rewrite E2, E1.
  destruct (snd (high_bits FORWARD fbi bound (seq (S i0) (k - S i0)) _));
    [reflexivity|].
  destruct FORWARD; cbn [fst]; lia.
Qed.

Lemma bits_value_single b : bits_value [b] = bit_z (lbool_eqb b l_true).
Proof. reflexivity. Qed.

Lemma pick_single x i : pick x [i] = bit_z (get_bit x i).
Proof. reflexivity. Qed.

Lemma seq_split k i0 :
  (i0 < k)%nat -> seq 0 k = (seq 0 i0 ++ [i0]) ++ seq (S i0) (k - S i0).
Proof.
  intros H. replace k with (S i0 + (k - S i0))%nat at 1 by lia.
  rewrite seq_app, seq_S. reflexivity.
Qed.

(** A number below 2^k, split at bit [i0]. *)
Lemma split_at k i0 x :
  (i0 < k)%nat -> 0 <= x < 2 ^ Z.of_nat k ->
  x = pick x (seq 0 i0) + 2 ^ Z.of_nat i0 * bit_z (get_bit x i0)
      + 2 ^ Z.of_nat i0 * 2 * pick x (seq (S i0) (k - S i0)).
Proof.
  intros Hi Hx. rewrite <- (pick_all k Hx) at 1.
  rewrite (seq_split Hi), !pick_app, pick_single, length_app, !length_seq.
  cbn [length]. rewrite Nat2Z.inj_add, Z.pow_add_r by lia.
  change (2 ^ Z.of_nat 1) with 2. ring.
Qed.

Lemma agree_split fbi k i0 x :
  (i0 < k)%nat -> bits_agree fbi k x ->
  agree_on fbi (seq 0 i0) x /\
  (fixed_at fbi i0 <> l_undef -> to_lbool (get_bit x i0) = fixed_at fbi i0) /\
  agree_on fbi (seq (S i0) (k - S i0)) x.
Proof.
  intros Hi H. apply bits_agree_on in H. rewrite (seq_split Hi) in H.
  apply agree_on_app in H. destruct H as [H1 H3].
  apply agree_on_app in H1. destruct H1 as [H1 H2].
  split; [exact H1|]. split; [|exact H3]. intros Hf. apply H2; [now left|exact Hf].
Qed.

(** The written bound, split at bit [i0]. *)
Lemma written_split FORWARD fbi i0 hs :
  fixed_at fbi i0 <> l_undef ->
  bits_value (map (low_bit FORWARD fbi) (seq 0 (S i0)) ++ hs) =
  bits_value (map (low_bit FORWARD fbi) (seq 0 i0))
  + 2 ^ Z.of_nat i0 * bit_z (lbool_eqb (fixed_at fbi i0) l_true)
  + 2 ^ Z.of_nat i0 * 2 * bits_value hs.
Proof.
  intros Hf. rewrite seq_S, map_app, !bits_value_app. cbn [map].
  rewrite bits_value_single, length_app, !length_map, !length_seq.
  cbn [length Nat.add]. rewrite Nat2Z.inj_add, Z.pow_add_r by lia.
  change (2 ^ Z.of_nat 1) with 2.
  replace (low_bit FORWARD fbi i0) with (fixed_at fbi i0).
  - ring.
  - unfold low_bit. apply lbool_eqb_false in Hf. now rewrite Hf.
Qed.

Lemma low_range FORWARD fbi i0 :
  0 <= bits_value (map (low_bit FORWARD fbi) (seq 0 i0)) < 2 ^ Z.of_nat i0.
Proof.
  pose proof (bits_value_range (map (low_bit FORWARD fbi) (seq 0 i0))) as H.
  now rewrite length_map, length_seq in H.
Qed.

Lemma pick_low_range x i0 : 0 <= pick x (seq 0 i0) < 2 ^ Z.of_nat i0.
Proof. pose proof (pick_range x (seq 0 i0)) as H. now rewrite length_seq in H. Qed.

Lemma lbool_cases (f : lbool) (b : bool) :
  f <> l_undef -> to_lbool b <> f ->
  (f = l_true /\ b = false) \/ (f = l_false /\ b = true).
Proof. destruct f, b; simpl; intros; try congruence; auto. Qed.

(** Forward: the result lies above the bound and at or below every
    agreeing value that is not below the bound; without such a value the
    result is 0. *)
Lemma extend_forward_least k bound fbi src0 side0 :
  fbi_is_empty fbi = false -> 0 <= bound < 2 ^ Z.of_nat k ->
  ~ bits_agree fbi k bound ->
  let r := fst (fst (extend_by_bits true k bound fbi src0 side0)) in
  (r = 0 \/ bound < r < 2 ^ Z.of_nat k) /\
  (forall x, 0 <= x < 2 ^ Z.of_nat k -> bits_agree fbi k x -> bound <= x ->
     bound < r <= x).
Proof.
  intros He Hb Hna. cbv zeta.
  pose proof (first_fail_spec fbi bound k) as Hs.
  destruct (first_fail fbi bound k) as [|i0] eqn:Hff; [contradiction|].
  destruct Hs as (Hi & Hf & Hne).
  pose proof (@first_fail_above fbi bound k i0 Hff) as Hab.
  assert (Ahi : agree_on fbi (seq (S i0) (k - S i0)) bound).
  { intros i Hin. apply in_seq in Hin. apply Hab. lia. }
  rewrite (@extend_by_bits_value true k bound fbi src0 side0 i0 He Hff). cbv zeta.
  pose proof (@split_at k i0 bound Hi Hb) as Eb.
  pose proof (pick_low_range bound i0) as Rb.
  pose proof (low_range true fbi i0) as Rl.
  pose proof (pick_range bound (seq (S i0) (k - S i0))) as RH.
  rewrite length_seq in RH.
  assert (Ek : 2 ^ Z.of_nat k = 2 ^ Z.of_nat i0 * 2 * 2 ^ Z.of_nat (k - S i0)).
  { replace (Z.of_nat k) with (Z.of_nat i0 + 1 + Z.of_nat (k - S i0)) by lia.
    rewrite !Z.pow_add_r by lia. reflexivity. }
  set (P := 2 ^ Z.of_nat i0) in *.
  set (BH := pick bound (seq (S i0) (k - S i0))) in *.
  set (BL := pick bound (seq 0 i0)) in *.
  assert (HP : 0 < P) by (apply Z.pow_pos_nonneg; lia).
  destruct (@lbool_cases _ _ Hf Hne) as [[Ef Ebit]|[Ef Ebit]];
    rewrite Ebit in Eb; cbn [bit_z] in Eb; rewrite Ef.
  - (* the fixed bit is 1, the bit of the bound 0: no carry *)
    cbn [lbool_eqb].
    destruct (@high_bits_copy true fbi bound (seq (S i0) (k - S i0)) Ahi) as [C V].
    rewrite C, (@written_split true fbi i0 _ Hf), V, Ef. fold P BH.
    set (L := bits_value (map (low_bit true fbi) (seq 0 i0))) in *.
    cbn [lbool_eqb bit_z] in *.
    assert (Hmul : P * 2 * BH + P * 2 <= P * 2 * 2 ^ Z.of_nat (k - S i0)) by nia.
    split; [right; lia|].
    intros x Hx Hax Hle.
    destruct (@agree_split fbi k i0 x Hi Hax) as (A1 & A2 & A3).
    pose proof (@split_at k i0 x Hi Hx) as Ex. fold P in Ex.
    pose proof (pick_low_range x i0) as Rx. fold P in Rx.
    pose proof (@low_bits_least fbi x _ A1) as Lx. fold L in Lx.
    specialize (A2 Hf). rewrite Ef in A2.
    assert (Exb : get_bit x i0 = true) by (destruct (get_bit x i0); [auto|discriminate]).
    rewrite Exb in Ex. cbn [bit_z] in Ex.
    set (XH := pick x (seq (S i0) (k - S i0))) in *.
    set (XL := pick x (seq 0 i0)) in *.
    assert (Hh : BH <= XH) by nia.
    assert (Hm : P * 2 * BH <= P * 2 * XH) by nia.
    destruct (Z.eq_dec XH BH) as [E|E]; [rewrite E in *; lia|].
    assert (P * 2 * BH + P * 2 <= P * 2 * XH) by nia. lia.
  - (* the fixed bit is 0, the bit of the bound 1: carry *)
    cbn [lbool_eqb].
    pose proof (@high_bits_forward fbi bound (seq (S i0) (k - S i0)) Ahi) as HF.
    cbv zeta in HF. destruct HF as [HF1 HF2].
    destruct (snd (high_bits true fbi bound (seq (S i0) (k - S i0)) true)) eqn:C.
    + split; [now left|]. intros x Hx Hax Hle. exfalso.
      destruct (@agree_split fbi k i0 x Hi Hax) as (A1 & A2 & A3).
      pose proof (@split_at k i0 x Hi Hx) as Ex. fold P in Ex.
      pose proof (pick_low_range x i0) as Rx. fold P in Rx.
      specialize (A2 Hf). rewrite Ef in A2.
      assert (Exb : get_bit x i0 = false) by (destruct (get_bit x i0); [discriminate|auto]).
      rewrite Exb in Ex. cbn [bit_z] in *.
      specialize (HF2 eq_refl x A3). fold BH in HF2.
      set (XH := pick x (seq (S i0) (k - S i0))) in *.
      assert (Hm : P * 2 * XH <= P * 2 * BH) by nia. lia.
    + destruct (HF1 eq_refl) as [Lt Min]. fold BH in Lt, Min.
      rewrite (@written_split true fbi i0 _ Hf), Ef.
      pose proof (bits_value_range
                    (fst (high_bits true fbi bound (seq (S i0) (k - S i0)) true))) as RV.
      assert (Len : forall F l c, length (fst (high_bits F fbi bound l c)) = length l).
      { intros F l. induction l as [|i l IH]; intros c; [reflexivity|].
        cbn [high_bits fst length]. now rewrite IH. }
      rewrite Len, length_seq in RV.
      set (H := bits_value (fst (high_bits true fbi bound (seq (S i0) (k - S i0)) true))) in *.
      set (L := bits_value (map (low_bit true fbi) (seq 0 i0))) in *.
      cbn [lbool_eqb bit_z] in *. fold P.
      assert (Hm1 : P * 2 * BH + P * 2 <= P * 2 * H) by nia.
      assert (Hm2 : P * 2 * H + P * 2 <= P * 2 * 2 ^ Z.of_nat (k - S i0)) by nia.
      split; [right; lia|].
      intros x Hx Hax Hle.
      destruct (@agree_split fbi k i0 x Hi Hax) as (A1 & A2 & A3).
      pose proof (@split_at k i0 x Hi Hx) as Ex. fold P in Ex.
      pose proof (pick_low_range x i0) as Rx. fold P in Rx.
      pose proof (@low_bits_least fbi x _ A1) as Lx. fold L in Lx.
      specialize (A2 Hf). rewrite Ef in A2.
      assert (Exb : get_bit x i0 = false) by (destruct (get_bit x i0); [discriminate|auto]).
      rewrite Exb in Ex. cbn [bit_z] in Ex.
      specialize (Min x A3).
      set (XH := pick x (seq (S i0) (k - S i0))) in *.
      set (XL := pick x (seq 0 i0)) in *.
      assert (Hgt : BH < XH) by nia.
      specialize (Min Hgt).
      assert (Hm3 : P * 2 * H <= P * 2 * XH) by nia. lia.
Qed.

Lemma high_bits_length FORWARD fbi bound : forall l c,
  length (fst (high_bits FORWARD fbi bound l c)) = length l.
Proof.
  induction l as [|i l IH]; intros c; [reflexivity|].
  cbn [high_bits fst length]. now rewrite IH.
Qed.

(** Backward: the result, an exclusive bound, lies at or below the bound
    and above every agreeing value that is not above the bound; without
    such a value the result is 0. *)
Lemma extend_backward_greatest k bound fbi src0 side0 :
  fbi_is_empty fbi = false -> 0 <= bound < 2 ^ Z.of_nat k ->
  ~ bits_agree fbi k bound ->
  let r := fst (fst (extend_by_bits false k bound fbi src0 side0)) in
  (r = 0 \/ 0 < r <= bound) /\
  (forall x, 0 <= x < 2 ^ Z.of_nat k -> bits_agree fbi k x -> x <= bound ->
     x < r <= bound).
Proof.
  intros He Hb Hna. cbv zeta.
  pose proof (first_fail_spec fbi bound k) as Hs.
  destruct (first_fail fbi bound k) as [|i0] eqn:Hff; [contradiction|].
  destruct Hs as (Hi & Hf & Hne).
  pose proof (@first_fail_above fbi bound k i0 Hff) as Hab.
  assert (Ahi : agree_on fbi (seq (S i0) (k - S i0)) bound).
  { intros i Hin. apply in_seq in Hin. apply Hab. lia. }
  rewrite (@extend_by_bits_value false k bound fbi src0 side0 i0 He Hff). cbv zeta.
  pose proof (@split_at k i0 bound Hi Hb) as Eb.
  pose proof (pick_low_range bound i0) as Rb.
  pose proof (low_range false fbi i0) as Rl.
  pose proof (pick_range bound (seq (S i0) (k - S i0))) as RH.
  rewrite length_seq in RH.
  set (P := 2 ^ Z.of_nat i0) in *.
  set (BH := pick bound (seq (S i0) (k - S i0))) in *.
  set (BL := pick bound (seq 0 i0)) in *.
  assert (HP : 0 < P) by (apply Z.pow_pos_nonneg; lia).
  destruct (@lbool_cases _ _ Hf Hne) as [[Ef Ebit]|[Ef Ebit]];
    rewrite Ebit in Eb; cbn [bit_z] in Eb; rewrite Ef.
  - (* the fixed bit is 1, the bit of the bound 0: carry *)
    cbn [lbool_eqb].
    pose proof (@high_bits_backward fbi bound (seq (S i0) (k - S i0)) Ahi) as HF.
    cbv zeta in HF. destruct HF as [HF1 HF2].
    destruct (snd (high_bits false fbi bound (seq (S i0) (k - S i0)) true)) eqn:C.
    + split; [now left|]. intros x Hx Hax Hle. exfalso.
      destruct (@agree_split fbi k i0 x Hi Hax) as (A1 & A2 & A3).
      pose proof (@split_at k i0 x Hi Hx) as Ex. fold P in Ex.
      pose proof (pick_low_range x i0) as Rx. fold P in Rx.
      specialize (A2 Hf). rewrite Ef in A2.
      assert (Exb : get_bit x i0 = true) by (destruct (get_bit x i0); [auto|discriminate]).
      rewrite Exb in Ex. cbn [bit_z] in *.
      specialize (HF2 eq_refl x A3). fold BH in HF2.
      set (XH := pick x (seq (S i0) (k - S i0))) in *.
      assert (Hm : P * 2 * BH <= P * 2 * XH) by nia. lia.
    + destruct (HF1 eq_refl) as [Lt Max]. fold BH in Lt, Max.
      rewrite (@written_split false fbi i0 _ Hf), Ef.
      pose proof (bits_value_range
                    (fst (high_bits false fbi bound (seq (S i0) (k - S i0)) true))) as RV.
      rewrite high_bits_length, length_seq in RV.
      set (H := bits_value (fst (high_bits false fbi bound (seq (S i0) (k - S i0)) true))) in *.
      set (L := bits_value (map (low_bit false fbi) (seq 0 i0))) in *.
      cbn [lbool_eqb bit_z] in *. fold P.
      assert (Hm1 : P * 2 * H + P * 2 <= P * 2 * BH) by nia.
      split; [right; lia|].
      intros x Hx Hax Hle.
      destruct (@agree_split fbi k i0 x Hi Hax) as (A1 & A2 & A3).
      pose proof (@split_at k i0 x Hi Hx) as Ex. fold P in Ex.
      pose proof (pick_low_range x i0) as Rx. fold P in Rx.
      pose proof (@low_bits_greatest fbi x _ A1) as Lx. fold L in Lx.
      specialize (A2 Hf). rewrite Ef in A2.
      assert (Exb : get_bit x i0 = true) by (destruct (get_bit x i0); [auto|discriminate]).
      rewrite Exb in Ex. cbn [bit_z] in Ex.
      specialize (Max x A3).
      set (XH := pick x (seq (S i0) (k - S i0))) in *.
      set (XL := pick x (seq 0 i0)) in *.
      assert (Hgt : XH < BH) by nia.
      specialize (Max Hgt).
      assert (Hm3 : P * 2 * XH <= P * 2 * H) by nia. lia.
  - (* the fixed bit is 0, the bit of the bound 1: no carry *)
    cbn [lbool_eqb].
    destruct (@high_bits_copy false fbi bound (seq (S i0) (k - S i0)) Ahi) as [C V].
    rewrite C, (@written_split false fbi i0 _ Hf), V, Ef. fold P BH.
    set (L := bits_value (map (low_bit false fbi) (seq 0 i0))) in *.
    cbn [lbool_eqb bit_z] in *.
    split; [right; lia|].
    intros x Hx Hax Hle.
    destruct (@agree_split fbi k i0 x Hi Hax) as (A1 & A2 & A3).
    pose proof (@split_at k i0 x Hi Hx) as Ex. fold P in Ex.
    pose proof (pick_low_range x i0) as Rx. fold P in Rx.
    pose proof (@low_bits_greatest fbi x _ A1) as Lx. fold L in Lx.
    specialize (A2 Hf). rewrite Ef in A2.
    assert (Exb : get_bit x i0 = false) by (destruct (get_bit x i0); [discriminate|auto]).
    rewrite Exb in Ex. cbn [bit_z] in Ex.
    set (XH := pick x (seq (S i0) (k - S i0))) in *.
    set (XL := pick x (seq 0 i0)) in *.
    assert (Hh : XH <= BH) by nia.
    assert (Hm : P * 2 * XH <= P * 2 * BH) by nia.
    destruct (Z.eq_dec XH BH) as [E|E]; [rewrite E in *; lia|].
    assert (P * 2 * XH + P * 2 <= P * 2 * BH) by nia. lia.
Qed.

(** The value written agrees with the fixed bits. *)
Lemma extend_by_bits_written_agrees FORWARD k bound fbi src0 side0 :
  fbi_is_empty fbi = false -> ~ bits_agree fbi k bound ->
  let r := fst (fst (extend_by_bits FORWARD k bound fbi src0 side0)) in
  r = 0 \/ bits_agree fbi k (if FORWARD then r else r - 1).
Proof.
  intros He Hna. cbv zeta.
  destruct (first_fail fbi bound k) as [|i0] eqn:Hff;
    [apply first_fail_zero_iff in Hff; contradiction|].
  destruct (@extend_by_bits_bits FORWARD k bound fbi src0 side0 i0 He Hff)
    as (nb & carry & E & L & F & _).
  rewrite E. destruct carry; [now left|]. right.
  replace (if FORWARD then if FORWARD then bits_value nb else bits_value nb + 1
           else (if FORWARD then bits_value nb else bits_value nb + 1) - 1)
    with (bits_value nb) by (destruct FORWARD; lia).
  intros i Hi Hf. rewrite bits_value_testbit by lia.
  rewrite (F i Hi Hf).
  destruct (fixed_at fbi i); [reflexivity|contradiction|reflexivity].
Qed.

(** Some value of the bit-width agrees with the fixed bits. *)
Lemma some_value_agrees fbi k :
  exists x, 0 <= x < 2 ^ Z.of_nat k /\ bits_agree fbi k x.
Proof.
  exists (bits_value (map (low_bit true fbi) (seq 0 k))). split.
  - pose proof (bits_value_range (map (low_bit true fbi) (seq 0 k))) as H.
    now rewrite length_map, length_seq in H.
  - intros i Hi Hf. rewrite bits_value_testbit by (now rewrite length_map, length_seq).
    rewrite nth_indep with (d' := low_bit true fbi O)
      by (now rewrite length_map, length_seq).
    rewrite map_nth, seq_nth by lia. cbn [Nat.add]. unfold low_bit.
    apply lbool_eqb_false in Hf. rewrite Hf. cbn [negb].
    apply lbool_eqb_false in Hf.
    destruct (fixed_at fbi i); [reflexivity|contradiction|reflexivity].
Qed.

End NearestBits.

(** X23.  [extend_by_bits] finds the nearest agreeing value.  For a bound
    of the bit-width that disagrees with some fixed bit, the forward
    direction returns the least value above the bound that agrees with
    every fixed bit, or 0 if there is none; the backward direction returns
    the successor of the greatest agreeing value below the bound, or 0 if
    there is none. *)
Theorem extend_by_bits_nearest (k : nat) (bound : Z) (fbi : fixed_bits_info)
    (src0 side0 : list signed_constraint) :
  fixed fbi <> [] -> 0 <= bound < 2 ^ Z.of_nat k -> ~ bits_agree fbi k bound ->
  let rf := fst (fst (Viable.extend_by_bits true k bound fbi src0 side0)) in
  let rb := fst (fst (Viable.extend_by_bits false k bound fbi src0 side0)) in
  (rf = 0 \/ (bound < rf < 2 ^ Z.of_nat k /\ bits_agree fbi k rf)) /\
  (forall x, 0 <= x < 2 ^ Z.of_nat k -> bits_agree fbi k x -> bound <= x ->
     bound < rf <= x) /\
  (rb = 0 \/ (0 < rb <= bound /\ bits_agree fbi k (rb - 1))) /\
  (forall x, 0 <= x < 2 ^ Z.of_nat k -> bits_agree fbi k x -> x <= bound ->
     x < rb <= bound).
Proof.
  intros Hne Hb Hna. cbv zeta.
  assert (He : Viable.fbi_is_empty fbi = false).
  { destruct (Viable.fbi_is_empty fbi) eqn:E; [|reflexivity].
    apply fbi_is_empty_iff in E. contradiction. }
  destruct (@extend_forward_least k bound fbi src0 side0 He Hb Hna) as [F1 F2].
  destruct (@extend_backward_greatest k bound fbi src0 side0 He Hb Hna) as [B1 B2].
  pose proof (@extend_by_bits_written_agrees true k bound fbi src0 side0 He Hna) as AF.
  pose proof (@extend_by_bits_written_agrees false k bound fbi src0 side0 He Hna) as AB.
  cbv zeta in *.
  split; [|split; [exact F2|split; [|exact B2]]].
  - destruct F1 as [F1|F1]; [now left|]. right. split; [exact F1|].
    destruct AF as [AF|AF]; [lia|exact AF].
  - destruct B1 as [B1|B1]; [now left|]. right. split; [exact B1|].
    destruct AB as [AB|AB]; [lia|exact AB].
Qed.

(** X24.  [refine_bits<true>] is sound and makes progress: for a value of
    the bit-width that disagrees with some fixed bit, it returns false
    after handing to [intersect] a refined entry whose interval contains the
    value and no value of the bit-width that agrees with every fixed
    bit. *)
Theorem refine_bits_sound (v : pvar) (val : Z) (fbi : fixed_bits_info) (s : solver) :
  fixed fbi <> [] ->
  0 <= val < 2 ^ Z.of_nat (Viable.size s v) ->
  ~ bits_agree fbi (Viable.size s v) val ->
  exists ne s1,
    Viable.refine_bits true v val fbi s = (false, snd (Viable.intersect v ne s1)) /\
    refined ne = true /\
    Viable.contains_val ne val = true /\
    (forall x, 0 <= x < 2 ^ Z.of_nat (Viable.size s v) ->
       Viable.contains_val ne x = true -> ~ bits_agree fbi (Viable.size s v) x).
Proof.
  intros Hne Hv Hna.
  assert (He : Viable.fbi_is_empty fbi = false).
  { destruct (Viable.fbi_is_empty fbi) eqn:E; [|reflexivity].
    apply fbi_is_empty_iff in E. contradiction. }
  set (N := Viable.size s v) in *.
  destruct (some_value_agrees fbi N) as (x0 & Hx0 & Ax0).
  unfold Viable.refine_bits. fold N.
  destruct (Viable.alloc_entry (m_viable s)) as [id vb].
  pose proof (@extend_forward_least N val fbi [] [] He Hv Hna) as [F1 F2].
  cbv zeta in F1, F2.
  destruct (Viable.extend_by_bits true N val fbi [] []) as [[rf src1] side1].
  cbn [fst] in F1, F2.
  pose proof (@extend_backward_greatest N val fbi src1 side1 He Hv Hna) as [B1 B2].
  cbv zeta in B1, B2. cbn [negb].
  destruct (Viable.extend_by_bits false N val fbi src1 side1) as [[rb src2] side2].
  cbn [fst] in B1, B2.
  assert (Hrf : rf <> val).
  { destruct F1 as [F1|F1]; [|lia]. subst rf. intros E.
    specialize (F2 x0 Hx0 Ax0). lia. }
  replace (rf =? val) with false by (symmetry; apply Z.eqb_neq; exact Hrf).
  eexists _, _. split; [reflexivity|]. split; [reflexivity|].
  assert (Hcases : (rf = 0 \/ val < rf) /\ (rb = 0 \/ 0 < rb <= val) /\
                   (rf = 0 -> rb = 0 -> False)).
  { split; [lia|]. split; [exact B1|]. intros -> ->.
    destruct (Z_le_gt_dec val x0) as [G|G].
    - specialize (F2 x0 Hx0 Ax0 G). lia.
    - specialize (B2 x0 Hx0 Ax0 ltac:(lia)). lia. }
  destruct Hcases as (C1 & C2 & C3).
  split.
  - unfold Viable.contains_val. cbn [interval].
    apply currently_contains_spec. unfold In_interval.
    unfold eval_interval.is_full, interval.is_full, eval_interval.lo_val,
      eval_interval.hi_val, eval_interval.proper.
    cbn [eval_interval.m_symbolic eval_interval.m_concrete_lo eval_interval.m_concrete_hi].
    right. lia.
  - intros x Hx Hc Ax. unfold Viable.contains_val in Hc. cbn [interval] in Hc.
    apply currently_contains_spec in Hc. unfold In_interval in Hc.
    unfold eval_interval.is_full, interval.is_full, eval_interval.lo_val,
      eval_interval.hi_val, eval_interval.proper in Hc.
    cbn [eval_interval.m_symbolic eval_interval.m_concrete_lo
         eval_interval.m_concrete_hi] in Hc.
    destruct (Z_le_gt_dec val x) as [G|G].
    + specialize (F2 x Hx Ax G). destruct Hc as [Hc|Hc]; [discriminate|]. lia.
    + specialize (B2 x Hx Ax ltac:(lia)). destruct Hc as [Hc|Hc]; [discriminate|]. lia.
Qed.

(** Bit 1 fixed to 1 and bit 3 fixed to 0, at width 4: the agreeing values
    are 2, 3, 6 and 7. *)
Definition two_fixed_bits : fixed_bits_info :=
  mk_fbi [l_undef; l_true; l_undef; l_false] [] [].

Lemma five_disagrees : ~ bits_agree two_fixed_bits 4 5.
Proof.
  intros A. specialize (A 1%nat ltac:(lia) ltac:(discriminate)). discriminate.
Qed.

Lemma extend_by_bits_nearest_witness :
  (fst (fst (Viable.extend_by_bits true 4 5 two_fixed_bits [] [])) = 0 \/
   (5 < fst (fst (Viable.extend_by_bits true 4 5 two_fixed_bits [] [])) < 2 ^ Z.of_nat 4 /\
    bits_agree two_fixed_bits 4
      (fst (fst (Viable.extend_by_bits true 4 5 two_fixed_bits [] []))))) /\
  (fst (fst (Viable.extend_by_bits false 4 5 two_fixed_bits [] [])) = 0 \/
   (0 < fst (fst (Viable.extend_by_bits false 4 5 two_fixed_bits [] [])) <= 5 /\
    bits_agree two_fixed_bits 4
      (fst (fst (Viable.extend_by_bits false 4 5 two_fixed_bits [] [])) - 1))).
Proof.
  destruct (@extend_by_bits_nearest 4 5 two_fixed_bits [] []
              ltac:(discriminate) ltac:(vm_compute; intuition congruence)
              five_disagrees) as (H1 & _ & H3 & _).
  split; assumption.
Defined.

Example extend_by_bits_nearest_values :
  fst (fst (Viable.extend_by_bits true 4 5 two_fixed_bits [] [])) = 6 /\
  fst (fst (Viable.extend_by_bits false 4 5 two_fixed_bits [] [])) = 4.
Proof. split; reflexivity. Qed.

Lemma refine_bits_sound_witness :
  exists ne s1,
    Viable.refine_bits true 0%nat 5 two_fixed_bits two_sources_state
      = (false, snd (Viable.intersect 0%nat ne s1)) /\
    refined ne = true /\
    Viable.contains_val ne 5 = true /\
    (forall x, 0 <= x < 2 ^ Z.of_nat (Viable.size two_sources_state 0%nat) ->
       Viable.contains_val ne x = true ->
       ~ bits_agree two_fixed_bits (Viable.size two_sources_state 0%nat) x).
Proof.
  apply (@refine_bits_sound 0%nat 5 two_fixed_bits two_sources_state).
  - discriminate.
  - vm_compute. intuition congruence.
  - exact five_disagrees.
Defined.

(** ** [refine_equal_lin]: the interval lifted by [compute_y_bounds] *)

Section LiftedInterval.
Import eval_interval Viable Numeral.

(** [a * y] has a representative modulo [M] between [lo] and [hi]. *)
Definition valid_rep (a lo hi M y : Z) : Prop :=
  exists k, lo <= a * y + k * M <= hi.

Lemma floor_bounds a n : 0 < a -> a * div_floor n a <= n < a * div_floor n a + a.
Proof.
  intros Ha. unfold div_floor.
  pose proof (Z.mul_div_le n a Ha). pose proof (Z.mul_succ_div_gt n a Ha). lia.
Qed.

Lemma floor_bounds_neg a n : a < 0 -> n <= a * div_floor n a < n - a.
Proof.
  intros Ha. unfold div_floor.
  pose proof (Z.mul_div_ge n a Ha). pose proof (Z.mul_succ_div_lt n a Ha). lia.
Qed.

Lemma ceil_bounds k n : 0 < k -> n <= k * div_ceil n k < n + k.
Proof.
  intros Hk. unfold div_ceil.
  pose proof (Z.mul_div_le (- n) k Hk). pose proof (Z.mul_succ_div_gt (- n) k Hk).
  lia.
Qed.

Lemma compute_y_max_sound y0 a lo0 hi M :
  0 < a -> 0 < M ->
  let lo := if lo0 >? hi then lo0 - M else lo0 in
  lo <= hi -> hi - lo < M ->
  valid_rep a lo hi M y0 ->
  y0 <= compute_y_max y0 a lo0 hi M /\
  forall y, y0 <= y <= compute_y_max y0 a lo0 hi M -> valid_rep a lo hi M y.
Proof.
  intros Ha HM lo Hlo Hlen (k0 & Hk0).
  unfold compute_y_max. cbv zeta. fold lo.
  set (k := div_ceil (lo - a * y0) M).
  set (a_y0 := a * y0 + k * M).
  set (delta0 := div_floor (hi - a_y0) a).
  set (y0h := y0 + delta0).
  set (a_y0h := a_y0 + a * delta0).
  set (a_y1l := a_y0h + a - M).
  set (delta1 := div_floor (hi - a_y1l) a).
  set (y1h := y0h + 1 + delta1).
  set (a_y1h := a_y1l + a * delta1).
  set (step := y1h - y0h).
  set (alpha := a * step - M).
  set (i := if alpha <? 0 then div_floor (lo - a_y1l) alpha
            else div_floor (hi - a_y1h) alpha).
  set (a_yn := a_y1h + i * alpha + a - M).
  set (deltan := div_floor (hi - a_yn) a).
  (* the representative of [a * y0] *)
  pose proof (@ceil_bounds M (lo - a * y0) HM) as Hk. fold k in Hk.
  assert (Ek : k = k0) by nia.
  assert (R0 : lo <= a_y0 <= hi) by (unfold a_y0; rewrite Ek; exact Hk0).
  pose proof (@floor_bounds a (hi - a_y0) Ha) as D0. fold delta0 in D0.
  assert (P0 : 0 <= delta0) by (unfold delta0, div_floor; apply Z.div_pos; lia).
  (* the first segment *)
  assert (S0 : forall y, y0 <= y <= y0h -> valid_rep a lo hi M y).
  { intros y Hy. exists k. unfold y0h in Hy.
    replace (a * y + k * M) with (a_y0 + a * (y - y0)) by (unfold a_y0; ring).
    assert (0 <= a * (y - y0) <= a * delta0)
      by (split; [apply Z.mul_nonneg_nonneg; lia|apply Z.mul_le_mono_nonneg_l; lia]). lia. }
  destruct ((lo <=? a_y1l) && (a_y1l <=? hi)) eqn:C1; cbn [negb];
    [|split; [unfold y0h; lia|exact S0]].
  apply andb_prop in C1. destruct C1 as [C1a C1b].
  apply Z.leb_le in C1a, C1b.
  pose proof (@floor_bounds a (hi - a_y1l) Ha) as D1. fold delta1 in D1.
  assert (P1 : 0 <= delta1) by (unfold delta1, div_floor; apply Z.div_pos; lia).
  (* the second segment and its copies *)
  assert (Srep : forall y j t, y = y0h + 1 + j * step + t -> 0 <= t <= delta1 ->
            lo <= a_y1l + j * alpha + a * t <= hi -> valid_rep a lo hi M y).
  { intros y j t -> Ht Hr. exists (k - 1 - j).
    replace (a * (y0h + 1 + j * step + t) + (k - 1 - j) * M)
      with (a_y1l + j * alpha + a * t)
      by (unfold a_y1l, a_y0h, a_y0, alpha, y0h; ring).
    exact Hr. }
  assert (Hstep : step = delta1 + 1) by (unfold step, y1h; ring).
  assert (S1 : forall y, y0h + 1 <= y <= y1h -> valid_rep a lo hi M y).
  { intros y Hy. apply (Srep y 0 (y - (y0h + 1))); [ring|unfold y1h in Hy; lia|].
    unfold y1h in Hy.
    assert (0 <= a * (y - (y0h + 1)) <= a * delta1)
      by (split; [apply Z.mul_nonneg_nonneg; lia|apply Z.mul_le_mono_nonneg_l; lia]). lia. }
  destruct ((lo <=? a_y1h + a - M) && (a_y1h + a - M <=? hi)) eqn:C2; cbn [negb].
  2:{ split; [unfold y1h, y0h; lia|]. intros y Hy.
      destruct (Z_le_gt_dec y y0h); [apply S0|apply S1]; lia. }
  apply andb_prop in C2. destruct C2 as [C2a C2b].
  apply Z.leb_le in C2a, C2b.
  (* division of the distance from [y1l] by [step] *)
  assert (Sdiv : forall y, y0h + 1 <= y ->
            exists j t, y = y0h + 1 + j * step + t /\ 0 <= j /\ 0 <= t <= delta1 /\
                        (forall n, y <= y1h + n * step -> j <= n)).
  { intros y Hy. exists ((y - (y0h + 1)) / step), ((y - (y0h + 1)) mod step).
    pose proof (Z.div_mod (y - (y0h + 1)) step ltac:(lia)) as E.
    pose proof (Z.mod_pos_bound (y - (y0h + 1)) step ltac:(lia)) as B.
    assert (0 <= (y - (y0h + 1)) / step) by (apply Z.div_pos; lia).
    split; [lia|]. split; [assumption|]. split; [lia|].
    intros n Hn. unfold y1h in Hn. nia. }
  destruct (Z.eqb_spec alpha 0) as [A0|A0].
  { split; [lia|]. intros y Hy.
    destruct (Z_le_gt_dec y y0h) as [G|G]; [apply S0; lia|].
    destruct (Sdiv y ltac:(lia)) as (j & t & E & Hj & Ht & _).
    apply (Srep y j t E Ht). rewrite A0.
    assert (0 <= a * t <= a * delta1)
      by (split; [apply Z.mul_nonneg_nonneg; lia|apply Z.mul_le_mono_nonneg_l; lia]). unfold a_y1h in *. lia. }
  (* the number of further rounds *)
  assert (Hi : 0 <= i /\ lo <= a_y1l + i * alpha /\ a_y1h + i * alpha <= hi).
  { assert (Hd : 0 <= a * delta1) by (apply Z.mul_nonneg_nonneg; lia).
    unfold i. destruct (Z.ltb_spec alpha 0) as [N|N].
    - pose proof (@floor_bounds_neg alpha (lo - a_y1l) N) as F.
      set (q := div_floor (lo - a_y1l) alpha) in *.
      assert (Hq : 0 <= q) by (clear - F N C1a; nia).
      assert (q * alpha <= 0) by (clear - Hq N; nia).
      unfold a_y1h. lia.
    - pose proof (@floor_bounds alpha (hi - a_y1h) ltac:(lia)) as F.
      set (q := div_floor (hi - a_y1h) alpha) in *.
      assert (Hh : a_y1h <= hi) by (unfold a_y1h; lia).
      assert (Hq : 0 <= q) by (clear - F N A0 Hh; nia).
      assert (0 <= q * alpha) by (clear - Hq N; nia).
      lia. }
  destruct Hi as (Hi0 & Hil & Hih).
  assert (Sround : forall y, y0h + 1 <= y <= y1h + i * step -> valid_rep a lo hi M y).
  { intros y Hy. destruct (Sdiv y ltac:(lia)) as (j & t & E & Hj & Ht & Hn).
    specialize (Hn i ltac:(lia)).
    apply (Srep y j t E Ht).
    assert (0 <= a * t <= a * delta1)
      by (split; [apply Z.mul_nonneg_nonneg; lia|apply Z.mul_le_mono_nonneg_l; lia]). unfold a_y1h in *.
    destruct (Z_lt_ge_dec alpha 0) as [N|N].
    - assert (i * alpha <= j * alpha <= 0) by (clear - Hj Hn N; nia). lia.
    - assert (0 <= j * alpha <= i * alpha) by (clear - Hj Hn N; nia). lia. }
  assert (Hyi : y0 <= y1h + i * step).
  { assert (0 <= i * step) by (apply Z.mul_nonneg_nonneg; lia). unfold y1h, y0h. lia. }
  destruct ((lo <=? a_yn) && (a_yn <=? hi)) eqn:C3.
  2:{ split; [exact Hyi|]. intros y Hy.
      destruct (Z_le_gt_dec y y0h); [apply S0|apply Sround]; lia. }
  apply andb_prop in C3. destruct C3 as [C3a C3b].
  apply Z.leb_le in C3a, C3b.
  pose proof (@floor_bounds a (hi - a_yn) Ha) as Dn. fold deltan in Dn.
  assert (Pn : 0 <= deltan) by (unfold deltan, div_floor; apply Z.div_pos; lia).
  split; [lia|]. intros y Hy.
  destruct (Z_le_gt_dec y y0h) as [G|G]; [apply S0; lia|].
  destruct (Z_le_gt_dec y (y1h + i * step)) as [G2|G2]; [apply Sround; lia|].
  exists (k - 1 - i - 1).
  replace (a * y + (k - 1 - i - 1) * M)
    with (a_yn + a * (y - (y1h + i * step + 1)))
    by (unfold a_yn, a_y1h, a_y1l, a_y0h, a_y0, alpha, step, y1h, y0h; ring).
  assert (0 <= a * (y - (y1h + i * step + 1)) <= a * deltan)
      by (split; [apply Z.mul_nonneg_nonneg; lia|apply Z.mul_le_mono_nonneg_l; lia]). lia.
Qed.

Definition adjust_lo (lo0 hi M : Z) : Z := if lo0 >? hi then lo0 - M else lo0.

Lemma is_valid_rep a lo0 hi M y :
  0 < M -> 0 <= lo0 < M -> 0 <= hi < M ->
  (is_valid a lo0 hi M y = true <-> valid_rep a (adjust_lo lo0 hi M) hi M y).
Proof.
  intros HM Hlo Hhi. unfold is_valid, valid_rep, adjust_lo. cbv zeta.
  pose proof (Z.mod_pos_bound (a * y) M HM) as Hm.
  pose proof (Z.div_mod (a * y) M ltac:(lia)) as Ed.
  rewrite Z.gtb_ltb.
  destruct (Z.leb_spec lo0 hi) as [L|L]; destruct (Z.ltb_spec hi lo0) as [L'|L'];
    try lia.
  - rewrite andb_true_iff, !Z.leb_le. split.
    + intros H. exists (- (a * y / M)). lia.
    + intros (k & Hk).
      assert (E : (a * y) mod M = a * y + k * M).
      { rewrite <- (Z_mod_plus_full (a * y) k M). apply Z.mod_small. lia. }
      lia.
  - rewrite orb_true_iff, !Z.leb_le. split.
    + intros [H|H]; [exists (- (a * y / M))|exists (- (a * y / M) - 1)]; lia.
    + intros (k & Hk). destruct (Z_lt_ge_dec (a * y + k * M) 0) as [N|N].
      * right.
        assert (E : (a * y) mod M = a * y + (k + 1) * M).
        { rewrite <- (Z_mod_plus_full (a * y) (k + 1) M). apply Z.mod_small. lia. }
        lia.
      * left.
        assert (E : (a * y) mod M = a * y + k * M).
        { rewrite <- (Z_mod_plus_full (a * y) k M). apply Z.mod_small. lia. }
        lia.
Qed.

(** [compute_y_max] on a valid [y0]: every [y] up to the result is
    valid. *)
Lemma compute_y_max_valid y0 a lo hi M :
  0 < a -> 0 < M -> 0 <= lo < M -> 0 <= hi < M ->
  is_valid a lo hi M y0 = true ->
  y0 <= compute_y_max y0 a lo hi M /\
  forall y, y0 <= y <= compute_y_max y0 a lo hi M -> is_valid a lo hi M y = true.
Proof.
  intros Ha HM Hlo Hhi Hv.
  apply (is_valid_rep a y0 HM Hlo Hhi) in Hv.
  assert (H1 : adjust_lo lo hi M <= hi)
    by (unfold adjust_lo; destruct (Z.gtb_spec lo hi); lia).
  assert (H2 : hi - adjust_lo lo hi M < M)
    by (unfold adjust_lo; destruct (Z.gtb_spec lo hi); lia).
  destruct (@compute_y_max_sound y0 a lo hi M Ha HM H1 H2 Hv) as [G S].
  split; [exact G|]. intros y Hy.
  apply (is_valid_rep a y HM Hlo Hhi). now apply S.
Qed.

Definition negateM (M x : Z) : Z := if x =? 0 then x else M - x.

Lemma negateM_range M x : 0 <= x < M -> 0 <= negateM M x < M.
Proof. unfold negateM. destruct (Z.eqb_spec x 0); lia. Qed.

Lemma mod_neg M z : 0 < M -> (- z) mod M = negateM M (z mod M).
Proof.
  intros HM. unfold negateM.
  pose proof (Z.mod_pos_bound z M HM) as B.
  destruct (Z.eqb_spec (z mod M) 0) as [E|E].
  - rewrite E. apply Z.mod_opp_l_z; lia.
  - apply Z.mod_opp_l_nz; lia.
Qed.

Lemma is_valid_neg a lo hi M y :
  0 < M -> 0 <= lo < M -> 0 <= hi < M ->
  is_valid a (negateM M hi) (negateM M lo) M (- y) = is_valid a lo hi M y.
Proof.
  intros HM Hlo Hhi. unfold is_valid. cbv zeta.
  replace (a * - y) with (- (a * y)) by ring. rewrite mod_neg by exact HM.
  pose proof (Z.mod_pos_bound (a * y) M HM) as B.
  set (m := (a * y) mod M) in *. unfold negateM.
  destruct (Z.eqb_spec hi 0) as [H0|H0]; destruct (Z.eqb_spec lo 0) as [L0|L0];
    destruct (Z.eqb_spec m 0) as [M0|M0];
    repeat match goal with
    | |- context [?x <=? ?y] => destruct (Z.leb_spec x y)
    end; cbn [andb orb]; try reflexivity; lia.
Qed.

(** [compute_y_min] on a valid [y0]: every [y] from the result on is
    valid. *)
Lemma compute_y_min_valid y0 a lo hi M :
  0 < a -> 0 < M -> 0 <= lo < M -> 0 <= hi < M ->
  is_valid a lo hi M y0 = true ->
  compute_y_min y0 a lo hi M <= y0 /\
  forall y, compute_y_min y0 a lo hi M <= y <= y0 -> is_valid a lo hi M y = true.
Proof.
  intros Ha HM Hlo Hhi Hv. unfold compute_y_min. cbv zeta.
  change (if hi =? 0 then hi else M - hi) with (negateM M hi).
  change (if lo =? 0 then lo else M - lo) with (negateM M lo).
  rewrite <- (is_valid_neg a y0 HM Hlo Hhi) in Hv.
  destruct (@compute_y_max_valid (- y0) a (negateM M hi) (negateM M lo) M Ha HM
              (negateM_range Hhi) (negateM_range Hlo) Hv) as [G S].
  set (r := compute_y_max (- y0) a (negateM M hi) (negateM M lo) M) in *.
  replace (- r >? y0) with false by (symmetry; rewrite Z.gtb_ltb; apply Z.ltb_ge; lia).
  split; [lia|]. intros y Hy.
  rewrite <- (is_valid_neg a y HM Hlo Hhi). apply S. lia.
Qed.

(** The loops of [compute_y_bounds] keep the range valid. *)
Lemma y_max_loop_valid a lo hi M y0 y_max_max :
  0 < a -> 0 < M -> 0 <= lo < M -> 0 <= hi < M ->
  forall fuel y_max,
    y0 <= y_max ->
    (forall y, y0 <= y <= y_max -> is_valid a lo hi M y = true) ->
    y0 <= y_max_loop fuel a lo hi M y_max_max y_max /\
    forall y, y0 <= y <= y_max_loop fuel a lo hi M y_max_max y_max ->
      is_valid a lo hi M y = true.
Proof.
  intros Ha HM Hlo Hhi. induction fuel as [|fuel IH]; intros y_max Hy Hall;
    [split; assumption|].
  cbn [y_max_loop].
  destruct ((y_max <? y_max_max) && is_valid a lo hi M (y_max + 1)) eqn:C;
    [|split; assumption].
  apply andb_prop in C. destruct C as [_ C].
  destruct (@compute_y_max_valid (y_max + 1) a lo hi M Ha HM Hlo Hhi C) as [G S].
  apply IH; [lia|]. intros y Hy'.
  destruct (Z_le_gt_dec y y_max); [apply Hall|apply S]; lia.
Qed.

Lemma y_min_loop_valid a lo hi M y0 y_min_min :
  0 < a -> 0 < M -> 0 <= lo < M -> 0 <= hi < M ->
  forall fuel y_min,
    y_min <= y0 ->
    (forall y, y_min <= y <= y0 -> is_valid a lo hi M y = true) ->
    y_min_loop fuel a lo hi M y_min_min y_min <= y0 /\
    forall y, y_min_loop fuel a lo hi M y_min_min y_min <= y <= y0 ->
      is_valid a lo hi M y = true.
Proof.
  intros Ha HM Hlo Hhi. induction fuel as [|fuel IH]; intros y_min Hy Hall;
    [split; assumption|].
  cbn [y_min_loop].
  destruct ((y_min >? y_min_min) && is_valid a lo hi M (y_min - 1)) eqn:C;
    [|split; assumption].
  apply andb_prop in C. destruct C as [_ C].
  destruct (@compute_y_min_valid (y_min - 1) a lo hi M Ha HM Hlo Hhi C) as [G S].
  apply IH; [lia|]. intros y Hy'.
  destruct (Z_le_gt_dec y_min y); [apply Hall|apply S]; lia.
Qed.

Lemma is_valid_mod a lo hi M y :
  is_valid a lo hi M (y mod M) = is_valid a lo hi M y.
Proof. unfold is_valid. cbv zeta. now rewrite Zmult_mod_idemp_r. Qed.

(** What [compute_y_bounds] returns: the residues of a range of valid
    values around [y0]. *)
Lemma compute_y_bounds_range y0 a lo hi M :
  0 < a -> 0 < M -> 0 <= lo < M -> 0 <= hi < M ->
  is_valid a lo hi M y0 = true ->
  exists y_min y_max,
    y_min <= y0 <= y_max /\
    (forall y, y_min <= y <= y_max -> is_valid a lo hi M y = true) /\
    compute_y_bounds y0 a lo hi M =
    if y_max - y_min + 1 >=? M then (0, M - 1) else (y_min mod M, y_max mod M).
Proof.
  intros Ha HM Hlo Hhi Hv. unfold compute_y_bounds. cbv zeta.
  destruct (@compute_y_max_valid y0 a lo hi M Ha HM Hlo Hhi Hv) as [G0 S0].
  destruct (@y_max_loop_valid a lo hi M y0 (y0 + M - 1) Ha HM Hlo Hhi
              max_refinements (compute_y_max y0 a lo hi M) G0 S0) as [G1 S1].
  set (y_max := y_max_loop max_refinements a lo hi M (y0 + M - 1)
                  (compute_y_max y0 a lo hi M)) in *.
  destruct (@y_min_loop_valid a lo hi M y0 (y_max - M + 1) Ha HM Hlo Hhi
              max_refinements y0 (Z.le_refl y0)) as [G2 S2].
  { intros y Hy. replace y with y0 by lia. exact Hv. }
  set (y_min := y_min_loop max_refinements a lo hi M (y_max - M + 1) y0) in *.
  exists y_min, y_max. split; [lia|]. split; [|reflexivity].
  intros y Hy. destruct (Z_le_gt_dec y y0); [apply S2|apply S1]; lia.
Qed.

(** A residue between the residues of the ends of a range shorter than
    [M] is the residue of a value in the range. *)
Lemma residue_in_range M y_min y_max x :
  0 < M -> y_min <= y_max -> y_max - y_min + 1 < M -> 0 <= x < M ->
  let lo := y_min mod M in
  let hi1 := y_max mod M + 1 in
  currently_contains
    (proper (mk_val lo) lo (mk_val (if hi1 =? M then 0 else hi1))
       (if hi1 =? M then 0 else hi1)) x = true ->
  exists y, y_min <= y <= y_max /\ y mod M = x.
Proof.
  intros HM Hle Hlen Hx lo hi1. cbv zeta. rewrite contains_proper.
  pose proof (Z.mod_pos_bound y_min M HM) as Bl. fold lo in Bl.
  pose proof (Z.div_mod y_min M ltac:(lia)) as El. fold lo in El.
  set (d := y_max - y_min) in *.
  assert (Eh : y_max mod M = if lo + d <? M then lo + d else lo + d - M).
  { replace y_max with (lo + d + (y_min / M) * M) by (unfold d; lia).
    rewrite Z_mod_plus_full.
    destruct (Z.ltb_spec (lo + d) M).
    - apply Z.mod_small. lia.
    - rewrite <- (Z_mod_plus_full (lo + d) (-1) M). apply Z.mod_small. lia. }
  unfold hi1. rewrite Eh. clear Eh.
  assert (Hy : forall t, 0 <= t <= d -> (x = lo + t \/ x = lo + t - M) ->
                 exists y, y_min <= y <= y_max /\ y mod M = x).
  { intros t Ht Hxt. exists (y_min + t). split; [unfold d in *; lia|].
    replace (y_min + t) with (lo + t + (y_min / M) * M) by lia.
    rewrite Z_mod_plus_full. destruct Hxt as [->| ->].
    - apply Z.mod_small. lia.
    - rewrite <- (Z_mod_plus_full (lo + t) (-1) M). apply Z.mod_small. lia. }
  destruct (Z.ltb_spec (lo + d) M) as [C|C].
  - destruct (Z.eqb_spec (lo + d + 1) M) as [E|E].
    + destruct (Z.leb_spec lo 0).
      * rewrite andb_true_iff, Z.leb_le, Z.ltb_lt. lia.
      * rewrite orb_true_iff, Z.ltb_lt, Z.geb_le. intros Hc.
        apply (Hy (x - lo)); lia.
    + destruct (Z.leb_spec lo (lo + d + 1)); [|lia].
      rewrite andb_true_iff, Z.leb_le, Z.ltb_lt. intros Hc.
      apply (Hy (x - lo)); lia.
  - destruct (Z.eqb_spec (lo + d - M + 1) M) as [E|E]; [lia|].
    destruct (Z.leb_spec lo (lo + d - M + 1)); [lia|].
    rewrite orb_true_iff, Z.ltb_lt, Z.geb_le. intros [Hc|Hc].
    + apply (Hy (x + M - lo)); lia.
    + apply (Hy (x - lo)); lia.
Qed.

(** The other direction, for the value the range was built around. *)
Lemma range_residue_in M y_min y_max y :
  0 < M -> y_min <= y <= y_max -> y_max - y_min + 1 < M ->
  let lo := y_min mod M in
  let hi1 := y_max mod M + 1 in
  currently_contains
    (proper (mk_val lo) lo (mk_val (if hi1 =? M then 0 else hi1))
       (if hi1 =? M then 0 else hi1)) (y mod M) = true.
Proof.
  intros HM Hy Hlen lo hi1. cbv zeta. rewrite contains_proper.
  pose proof (Z.mod_pos_bound y_min M HM) as Bl. fold lo in Bl.
  pose proof (Z.div_mod y_min M ltac:(lia)) as El. fold lo in El.
  assert (Em : forall t, 0 <= t < M ->
            (y_min + t) mod M = if lo + t <? M then lo + t else lo + t - M).
  { intros t Ht. replace (y_min + t) with (lo + t + (y_min / M) * M) by lia.
    rewrite Z_mod_plus_full.
    destruct (Z.ltb_spec (lo + t) M).
    - apply Z.mod_small. lia.
    - rewrite <- (Z_mod_plus_full (lo + t) (-1) M). apply Z.mod_small. lia. }
  pose proof (Em (y_max - y_min) ltac:(lia)) as Eh.
  replace (y_min + (y_max - y_min)) with y_max in Eh by ring.
  pose proof (Em (y - y_min) ltac:(lia)) as Ey.
  replace (y_min + (y - y_min)) with y in Ey by ring.
  unfold hi1. rewrite Eh, Ey. clear Eh Ey Em.
  set (d := y_max - y_min) in *. set (t := y - y_min) in *.
  assert (Ht : 0 <= t <= d) by (unfold t, d; lia).
  assert (Hd : d + 1 < M) by (unfold d; lia).
  clearbody d t lo. clear - Ht Hd Bl HM.
  destruct (Z.ltb_spec (lo + d) M); destruct (Z.ltb_spec (lo + t) M); try lia.
  - destruct (Z.eqb_spec (lo + d + 1) M).
    + destruct (Z.leb_spec lo 0).
      * apply andb_true_iff. rewrite Z.leb_le, Z.ltb_lt. lia.
      * apply orb_true_iff. rewrite Z.ltb_lt, Z.geb_le. lia.
    + destruct (Z.leb_spec lo (lo + d + 1)); [|lia].
      apply andb_true_iff. rewrite Z.leb_le, Z.ltb_lt. lia.
  - destruct (Z.eqb_spec (lo + d - M + 1) M); [lia|].
    destruct (Z.leb_spec lo (lo + d - M + 1)); [lia|].
    apply orb_true_iff. rewrite Z.ltb_lt, Z.geb_le. lia.
  - destruct (Z.eqb_spec (lo + d - M + 1) M); [lia|].
    destruct (Z.leb_spec lo (lo + d - M + 1)); [lia|].
    apply orb_true_iff. rewrite Z.ltb_lt, Z.geb_le. lia.
Qed.

End LiftedInterval.

Section LiftedEntry.
Import eval_interval Viable Numeral.

Variables (N : nat) (val : Z) (e : entry).
Let M := power_of_two N.
Let hi_incl := if e_hi e =? 0 then M - 1 else e_hi e - 1.

Hypothesis Ha : 0 < coeff e.
Hypothesis Hfull : is_full (interval e) = false.
Hypothesis Hlo : 0 <= e_lo e < M.
Hypothesis Hhi : 0 <= e_hi e < M.
Hypothesis Hne : e_lo e <> e_hi e.

Lemma hit_is_valid x :
  equal_lin_hit N x e = is_valid (coeff e) (e_lo e) hi_incl M x.
Proof.
  unfold equal_lin_hit, is_valid, currently_contains. cbv zeta. fold M.
  rewrite Hfull. fold (e_lo e) (e_hi e).
  pose proof (Z.mod_pos_bound (coeff e * x) M ltac:(lia)) as B.
  set (m := (coeff e * x) mod M) in *. unfold hi_incl.
  destruct (Z.eqb_spec (e_hi e) 0) as [H0|H0];
    repeat match goal with
    | |- context [?x <=? ?y] => destruct (Z.leb_spec x y)
    | |- context [?x <? ?y] => destruct (Z.ltb_spec x y)
    | |- context [?x >=? ?y] => rewrite (Z.geb_leb x y)
    end; cbn [andb orb]; try reflexivity; lia.
Qed.

Lemma hi_incl_range : 0 <= hi_incl < M.
Proof. unfold hi_incl. destruct (Z.eqb_spec (e_hi e) 0); lia. Qed.

Hypothesis Hneq : (e_hi e + 1) mod M <> e_lo e.
Hypothesis Hval : 0 <= val < M.
Hypothesis Hit : equal_lin_hit N val e = true.

Lemma lifted_interval_sound :
  currently_contains (equal_lin_interval N val e) val = true /\
  forall x, 0 <= x < M ->
    currently_contains (equal_lin_interval N val e) x = true ->
    equal_lin_hit N x e = true.
Proof.
  assert (HM : 0 < M) by lia.
  unfold equal_lin_interval. cbv zeta. fold M.
  destruct (Z.eqb_spec ((e_hi e + 1) mod M) (e_lo e)) as [E|_]; [contradiction|].
  fold hi_incl.
  rewrite hit_is_valid in Hit.
  destruct (@compute_y_bounds_range val (coeff e) (e_lo e) hi_incl M Ha HM Hlo
              hi_incl_range Hit) as (y_min & y_max & Hy & Hall & ->).
  destruct (Z.geb_spec (y_max - y_min + 1) M) as [L|L].
  - (* the range covers every residue *)
    replace (M - 1 + 1) with M by ring. rewrite !Z.eqb_refl. cbn [andb].
    split; [reflexivity|]. intros x Hx _. rewrite hit_is_valid.
    assert (Ex : (y_min + (x - y_min) mod M) mod M = x).
    { rewrite Zplus_mod_idemp_r. replace (y_min + (x - y_min)) with x by ring.
      apply Z.mod_small. exact Hx. }
    rewrite <- Ex, is_valid_mod. apply Hall.
    pose proof (Z.mod_pos_bound (x - y_min) M HM). lia.
  - pose proof (Z.mod_pos_bound y_min M HM) as Bl.
    pose proof (Z.mod_pos_bound y_max M HM) as Bh.
    destruct ((y_min mod M =? 0) && (y_max mod M + 1 =? M)) eqn:Fu.
    + (* not reached: the range would have M residues *)
      exfalso. apply andb_prop in Fu. destruct Fu as [F1 F2].
      apply Z.eqb_eq in F1, F2.
      assert (Ed : (y_max - y_min) mod M = M - 1).
      { rewrite Zminus_mod, F1. replace (y_max mod M) with (M - 1) by lia.
        rewrite Z.sub_0_r. apply Z.mod_small. lia. }
      rewrite Z.mod_small in Ed by lia. lia.
    + split.
      * pose proof (@range_residue_in M y_min y_max val HM Hy ltac:(lia)) as Hr.
        cbv zeta in Hr. rewrite (Z.mod_small val M Hval) in Hr. exact Hr.
      * intros x Hx Hc. rewrite hit_is_valid.
        destruct (@residue_in_range M y_min y_max x HM ltac:(lia) ltac:(lia) Hx Hc)
          as (y & Hr & <-).
        rewrite is_valid_mod. now apply Hall.
Qed.

End LiftedEntry.

(** X25.  [refine_equal_lin] is sound and makes progress on an entry
    that is not an equation: when the value makes [a * v] fall into the
    interval of the entry, the interval handed to [intersect], lifted from
    [a * v] to [v] by [compute_y_bounds], contains the value, and [a * x]
    falls into the interval of the entry for every value [x] of the
    bit-width that it contains. *)
Theorem refine_equal_lin_lifted_sound
    (v : pvar) (val : Z) (s : solver) (first : entry) (r : ring) (e : entry) :
  nth v (viable.m_equal_lin (m_viable s)) [] = first :: r ->
  find (Viable.equal_lin_hit (Viable.size s v) val) (first :: r) = Some e ->
  0 < coeff e ->
  eval_interval.is_full (interval e) = false ->
  0 <= e_lo e < Numeral.power_of_two (Viable.size s v) ->
  0 <= e_hi e < Numeral.power_of_two (Viable.size s v) ->
  e_lo e <> e_hi e ->
  (e_hi e + 1) mod Numeral.power_of_two (Viable.size s v) <> e_lo e ->
  0 <= val < Numeral.power_of_two (Viable.size s v) ->
  let iv := Viable.equal_lin_interval (Viable.size s v) val e in
  (exists id s1,
     Viable.refine_equal_lin v val s =
     (false, snd (Viable.intersect v (Viable.refined_entry id e iv) s1))) /\
  eval_interval.currently_contains iv val = true /\
  (forall x, 0 <= x < Numeral.power_of_two (Viable.size s v) ->
     eval_interval.currently_contains iv x = true ->
     Viable.equal_lin_hit (Viable.size s v) x e = true).
Proof.
  intros Hl Hfind Ha Hfull Hlo Hhi Hne Hneq Hval iv.
  assert (Hit : Viable.equal_lin_hit (Viable.size s v) val e = true)
    by (apply find_some in Hfind; apply Hfind).
  split.
  - unfold Viable.refine_equal_lin. rewrite Hl. cbv zeta. rewrite Hfind.
    destruct (Viable.alloc_entry _) as [id vb1]. eexists _, _. reflexivity.
  - exact (@lifted_interval_sound (Viable.size s v) val e Ha Hfull Hlo Hhi Hne
             Hneq Hval Hit).
Qed.

(** A variable of width 4 with the equal-linear entry that forbids
    [3 * x] in [2, 5): the values 1 and 12 to 14 are forbidden. *)
Definition inequality_3x : entry :=
  mk_entry 0 [mk_sc 0 true] [] 3
    (eval_interval.proper (mk_val 2) 2 (mk_val 5) 5) 4 false 0.

Definition inequality_state : solver :=
  mk_solver (viable.mk [] 1 [[]] [[inequality_3x]] [[]] [])
    (viable_fallback.mk [[]]) conflict_empty [] [] [] [0] [unassigned] [[]]
    [4%nat] [] 0 0 [] [] [] 0 0 0 0 0 0.

Lemma refine_equal_lin_lifted_sound_witness :
  eval_interval.currently_contains
    (Viable.equal_lin_interval 4 1 inequality_3x) 1 = true /\
  (forall x, 0 <= x < 16 ->
     eval_interval.currently_contains
       (Viable.equal_lin_interval 4 1 inequality_3x) x = true ->
     Viable.equal_lin_hit 4 x inequality_3x = true).
Proof.
  exact (proj2 (@refine_equal_lin_lifted_sound 0%nat 1 inequality_state
                  inequality_3x [] inequality_3x eq_refl eq_refl
                  ltac:(vm_compute; reflexivity) eq_refl
                  ltac:(vm_compute; intuition congruence)
                  ltac:(vm_compute; intuition congruence)
                  ltac:(vm_compute; congruence)
                  ltac:(vm_compute; congruence)
                  ltac:(vm_compute; intuition congruence))).
Defined.

Example inequality_refined :
  Viable.equal_lin_interval 4 1 inequality_3x
  = eval_interval.proper (mk_val 1) 1 (mk_val 2) 2.
Proof. vm_compute. reflexivity. Qed.
